(** * State-vector quantum simulator: model and verified properties

    A shallow embedding of the TypeScript state-vector engine
    ([complex.ts], [matrix.ts], [gates.ts], [validators.ts] and the two
    [QuantumSimulator] classes: the flat [Float64Array] one and the
    object-per-amplitude one), followed by the properties proved about it.

    JavaScript numbers are kept abstract behind the class [Num], so every
    function of the source is translated once.  Two instances are used:
    - [float]: IEEE binary64 as the engine really computes (executable);
    - [xreal]: exact real arithmetic extended with [NaN], the idealisation in
      which the algebraic invariants (unitarity, normalisation) are stated. *)

From Stdlib Require Import String Ascii.
From Stdlib Require Import ZArith List Bool Lia.
From Stdlib Require Import Reals Lra.
From Stdlib Require PrimFloat FloatAxioms Uint63.
Import ListNotations.

Set Implicit Arguments.
Local Open Scope Z_scope.

(* ================================================================== *)
(** * JavaScript numbers *)
(* ================================================================== *)

(** The operations on [number] that the engine uses.  [NaN] is also what an
    arithmetic operand that is [undefined] (a read past the end of an array)
    is coerced to. *)
Class Num (F : Type) : Type := {
  ofZ : Z -> F;                       (* an integer literal *)
  fadd : F -> F -> F;
  fsub : F -> F -> F;
  fmul : F -> F -> F;
  fdiv : F -> F -> F;
  fneg : F -> F;
  Math_sqrt : F -> F;
  Math_cos : F -> F;
  Math_sin : F -> F;
  Math_acos : F -> F;
  Math_atan2 : F -> F -> F;
  Math_abs : F -> F;
  Math_PI : F;
  NaN : F;
  isNaN : F -> bool;
  isFinite : F -> bool;               (* Number.isFinite *)
  flt : F -> F -> bool;               (* a < b, false when either is NaN *)
  truthy : F -> bool                  (* ToBoolean: false for 0 and NaN *)
}.

Declare Scope js_scope.
Delimit Scope js_scope with js.
Infix "+'" := fadd (at level 50, left associativity) : js_scope.
Infix "-'" := fsub (at level 50, left associativity) : js_scope.
Infix "*'" := fmul (at level 40, left associativity) : js_scope.
Infix "/'" := fdiv (at level 40, left associativity) : js_scope.
Notation "-' x" := (fneg x) (at level 35, right associativity) : js_scope.
Infix "<'" := flt (at level 70, no associativity) : js_scope.
Local Open Scope js_scope.

Section NumDerived.
Context {F : Type} {N : Num F}.

Definition zero : F := ofZ 0.
Definition one : F := ofZ 1.
Definition two : F := ofZ 2.
(** The literal [0.5]: a power of two, so [1 / 2] is the same double. *)
Definition half : F := one /' two.

(** [a > b], [a >= b] is not needed on amplitudes; [a > b] is [b < a]. *)
Definition gt (a b : F) : bool := b <' a.

(** [Math.min(a, b)]: NaN when either argument is. *)
Definition Math_min (a b : F) : F :=
  if isNaN a || isNaN b then NaN else if b <' a then b else a.

(** [x || 0] on a possibly missing number. *)
Definition orZero (x : option F) : F :=
  match x with
  | Some v => if truthy v then v else zero
  | None => zero
  end.
End NumDerived.

(** ** Exact reals with NaN *)

Inductive xreal : Type :=
| Fin (r : R)
| XNaN.

Module XReal.
Definition lift1 (f : R -> R) (a : xreal) : xreal :=
  match a with Fin x => Fin (f x) | XNaN => XNaN end.

Definition lift2 (f : R -> R -> R) (a b : xreal) : xreal :=
  match a, b with Fin x, Fin y => Fin (f x y) | _, _ => XNaN end.

(** Division by zero has no finite value; the model has no infinities and
    answers NaN. *)
Definition xdiv (a b : xreal) : xreal :=
  match a, b with
  | Fin x, Fin y => if Req_EM_T y 0 then XNaN else Fin (x / y)
  | _, _ => XNaN
  end.

Definition xsqrt (a : xreal) : xreal :=
  match a with
  | Fin x => if Rlt_dec x 0 then XNaN else Fin (R_sqrt.sqrt x)
  | XNaN => XNaN
  end.

Definition xacos (a : xreal) : xreal :=
  match a with
  | Fin x => if Rlt_dec x (-1) then XNaN
             else if Rlt_dec 1 x then XNaN else Fin (acos x)
  | XNaN => XNaN
  end.

(** [Math.atan2(y, x)] on finite arguments. *)
Definition atan2R (y x : R) : R :=
  if Rlt_dec 0 x then atan (y / x)
  else if Rlt_dec x 0 then
    (if Rlt_dec y 0 then atan (y / x) - PI else atan (y / x) + PI)
  else if Rlt_dec 0 y then PI / 2
  else if Rlt_dec y 0 then - (PI / 2)
  else 0.

Definition xlt (a b : xreal) : bool :=
  match a, b with
  | Fin x, Fin y => if Rlt_dec x y then true else false
  | _, _ => false
  end.

Definition xisNaN (a : xreal) : bool :=
  match a with Fin _ => false | XNaN => true end.

Definition xfinite (a : xreal) : bool :=
  match a with Fin _ => true | XNaN => false end.

Definition xtruthy (a : xreal) : bool :=
  match a with
  | Fin x => if Req_EM_T x 0 then false else true
  | XNaN => false
  end.
End XReal.

#[export] Instance xreal_Num : Num xreal := {|
  ofZ := fun z => Fin (IZR z);
  fadd := XReal.lift2 Rplus;
  fsub := XReal.lift2 Rminus;
  fmul := XReal.lift2 Rmult;
  fdiv := XReal.xdiv;
  fneg := XReal.lift1 Ropp;
  Math_sqrt := XReal.xsqrt;
  Math_cos := XReal.lift1 cos;
  Math_sin := XReal.lift1 sin;
  Math_acos := XReal.xacos;
  Math_atan2 := XReal.lift2 XReal.atan2R;
  Math_abs := XReal.lift1 Rabs;
  Math_PI := Fin PI;
  NaN := XNaN;
  isNaN := XReal.xisNaN;
  isFinite := XReal.xfinite;
  flt := XReal.xlt;
  truthy := XReal.xtruthy
|}.

(** ** IEEE binary64 *)

Abbreviation float := PrimFloat.float.

(** The transcendental functions of [Math] are host functions; ECMAScript
    leaves their results implementation-approximated, so the binary64
    instance takes them as a parameter. *)
Record Libm : Type := {
  libm_cos : float -> float;
  libm_sin : float -> float;
  libm_acos : float -> float;
  libm_atan2 : float -> float -> float
}.

Module Float64.
Import PrimFloat.

Definition isFinite (x : float) : bool :=
  negb (PrimFloat.is_nan x || PrimFloat.is_infinity x).

Definition truthy (x : float) : bool :=
  negb (PrimFloat.is_nan x || PrimFloat.is_zero x).

(** Integer literals; exact below 2^53, which covers every literal of the
    source. *)
Definition ofZ (z : Z) : float :=
  if Z.ltb z 0 then PrimFloat.opp (PrimFloat.of_uint63 (Uint63.of_Z (- z)))
  else PrimFloat.of_uint63 (Uint63.of_Z z).

(** [Math.PI], the double nearest to pi. *)
Definition PI : float := 0x1.921fb54442d18p+1%float.

(** [|a - b| <= eps], the closeness test of the numeric examples. *)
Definition within (a b eps : float) : bool :=
  PrimFloat.leb (PrimFloat.abs (PrimFloat.sub a b)) eps.

(** The tolerances [1e-9] and [1e-6], as the quotients [1 / 10^9] and
    [1 / 10^6], which round to the same doubles as the literals. *)
Definition tol9 : float := PrimFloat.div (ofZ 1) (ofZ 1000000000).
Definition tol6 : float := PrimFloat.div (ofZ 1) (ofZ 1000000).
End Float64.

Definition float_Num (L : Libm) : Num float := {|
  ofZ := Float64.ofZ;
  fadd := PrimFloat.add;
  fsub := PrimFloat.sub;
  fmul := PrimFloat.mul;
  fdiv := PrimFloat.div;
  fneg := PrimFloat.opp;
  Math_sqrt := PrimFloat.sqrt;
  Math_cos := libm_cos L;
  Math_sin := libm_sin L;
  Math_acos := libm_acos L;
  Math_atan2 := libm_atan2 L;
  Math_abs := PrimFloat.abs;
  Math_PI := Float64.PI;
  NaN := PrimFloat.nan;
  isNaN := PrimFloat.is_nan;
  isFinite := Float64.isFinite;
  flt := PrimFloat.ltb;
  truthy := Float64.truthy
|}.

(* ================================================================== *)
(** * Exceptions and the two effect monads *)
(* ================================================================== *)

(** [ErrorCodes] of [validators.ts]. *)
Inductive ErrorCode : Type :=
| INVALID_QUBIT_INDEX
| INVALID_QUBIT_COUNT
| INVALID_GATE
| INVALID_GATE_PARAMS
| INVALID_STATE_VECTOR
| STATE_NOT_NORMALIZED
| DUPLICATE_QUBITS
| INSUFFICIENT_QUBITS
| MEMORY_LIMIT.

(** Error messages are template strings; a message is kept as its template
    together with the integers and names interpolated into it. *)
Inductive Message : Type :=
| MsgUnknownGate (gateName : string)
| MsgInvalidQubitIndex (qubit : Z)
| MsgInvalidQubitIndices (qubit1 qubit2 : Z)
| MsgSameQubits
| MsgNaNMatrix (gateName : string)
| MsgStateVectorSize (expectedSize : Z)
| MsgNotNormalized
| MsgDimensionsMustMatch
| MsgIndexOutOfRange (index numQubits : Z) (context : string)
| MsgCountAtLeast (min : Z)
| MsgCountExceeds (numQubits max amplitudes megabytes : Z)
| MsgUnknownGateAvailable (gateName : string) (available : list string)
| MsgRequiresParams (gateName : string) (required : Z) (names : list string)
| MsgInvalidParam (index : Z)
| MsgRequiresQubits (gateName : string) (required provided : Z)
| MsgDuplicateQubits (gateName : string) (qubits : list Z)
| MsgShotsNotPositive (shots : Z)
| MsgShotsExceed (shots max : Z).

(** A value of the [details] record of a validation error. *)
Inductive Detail : Type :=
| DNum (z : Z)
| DStr (s : string)
| DNums (zs : list Z)
| DStrs (ss : list string)
| DParams.                    (* a parameter vector, kept opaque *)

Inductive JsError : Type :=
| Error (message : Message)
| TypeError                   (* a property read on [undefined] *)
| RangeError                  (* an invalid array length *)
| QuantumValidationError (message : Message) (code : ErrorCode)
                         (details : list (string * Detail)).

(** A computation that returns or throws. *)
Inductive result (A : Type) : Type :=
| Ok (a : A)
| Throw (e : JsError).
Arguments Ok {A} a.
Arguments Throw {A} e.

(** A method of an object with fields [S]: it returns or throws, and the
    mutations made before a throw stay. *)
Definition Exec (S A : Type) : Type := S -> result A * S.

Class Monad (M : Type -> Type) : Type := {
  ret : forall {A}, A -> M A;
  bind : forall {A B}, M A -> (A -> M B) -> M B
}.

#[export] Instance result_Monad : Monad result := {|
  ret := fun A a => Ok a;
  bind := fun A B m k => match m with Ok a => k a | Throw e => Throw e end
|}.

#[export] Instance Exec_Monad (S : Type) : Monad (Exec S) := {|
  ret := fun A a s => (Ok a, s);
  bind := fun A B m k s =>
    match m s with
    | (Ok a, s') => k a s'
    | (Throw e, s') => (Throw e, s')
    end
|}.

Notation "x <- m ;; k" := (bind m (fun x => k))
  (at level 61, m at next level, right associativity).
Notation "m ;; k" := (bind m (fun _ => k))
  (at level 61, right associativity).

Section MonadOps.
Context {M : Type -> Type} {MM : Monad M}.

(** [for (const x of l) body(x)] with a threaded accumulator. *)
Fixpoint foldM {A B : Type} (body : B -> A -> M B) (l : list A) (acc : B) : M B :=
  match l with
  | [] => ret acc
  | x :: l' => acc' <- body acc x ;; foldM body l' acc'
  end.

Fixpoint forM_ {A : Type} (l : list A) (body : A -> M unit) : M unit :=
  match l with
  | [] => ret tt
  | x :: l' => body x ;; forM_ l' body
  end.

Fixpoint mapM {A B : Type} (f : A -> M B) (l : list A) : M (list B) :=
  match l with
  | [] => ret []
  | x :: l' => y <- f x ;; ys <- mapM f l' ;; ret (y :: ys)
  end.
End MonadOps.

Definition throw {S A : Type} (e : JsError) : Exec S A := fun s => (Throw e, s).
Definition gets {S A : Type} (f : S -> A) : Exec S A := fun s => (Ok (f s), s).
Definition modify {S : Type} (f : S -> S) : Exec S unit := fun s => (Ok tt, f s).
(** A local computation run inside a method. *)
Definition lift {S A : Type} (r : result A) : Exec S A := fun s => (r, s).

(** Reading a property of a value that may be [undefined]. *)
Definition defined {A : Type} (o : option A) : result A :=
  match o with Some a => Ok a | None => Throw TypeError end.

(* ================================================================== *)
(** * Integers: loop counters, 32-bit bit operations, array indices *)
(* ================================================================== *)

(** The indices [0, 1, ..., k-1] of a counting loop. *)
Definition range (k : nat) : list Z := map Z.of_nat (seq 0 k).

(** Number of iterations of [for (let i = 0; i < Math.pow(2, n); i++)]:
    [2^n] for [n >= 0]; for negative [n] the bound is a fraction in (0, 1)
    and the body runs once. *)
Definition loopBound (n : Z) : nat :=
  if n <? 0 then 1%nat else Z.to_nat (2 ^ n).

(** [Math.pow(2, n)] when it is an integer. *)
Definition pow2 (n : Z) : Z := 2 ^ n.

Module Int32.
(** [ToInt32]. *)
Definition wrap (z : Z) : Z := (z + 2 ^ 31) mod 2 ^ 32 - 2 ^ 31.
(** [a << b]: the count is taken modulo 32. *)
Definition shl (a b : Z) : Z := wrap (Z.shiftl (wrap a) (b mod 32)).
(** [a >> b]. *)
Definition shr (a b : Z) : Z := Z.shiftr (wrap a) (b mod 32).
(** [a & b], [a | b], [~a]. *)
Definition and (a b : Z) : Z := Z.land (wrap a) (wrap b).
Definition or (a b : Z) : Z := Z.lor (wrap a) (wrap b).
Definition not (a : Z) : Z := Z.lnot (wrap a).
End Int32.

(** A qubit argument: [None] is [undefined] (an argument that was not
    passed).  [n - 1 - qubit] is then NaN, which a shift reads as count 0. *)
Definition shiftCount (n : Z) (qubit : option Z) : Z :=
  match qubit with Some q => n - 1 - q | None => 0 end.

Section Arrays.
Context {A : Type}.

Fixpoint set_nth (l : list A) (k : nat) (v : A) : list A :=
  match l, k with
  | [], _ => []
  | _ :: l', O => v :: l'
  | x :: l', S k' => x :: set_nth l' k' v
  end.

(** [a[k]] on an array: [undefined] outside [0 .. length-1]. *)
Definition arr_get (a : list A) (k : Z) : option A :=
  if k <? 0 then None else nth_error a (Z.to_nat k).

(** [a[k] = v] where [k] is an index of the array. *)
Definition arr_set (a : list A) (k : Z) (v : A) : list A :=
  if k <? 0 then a else set_nth a (Z.to_nat k) v.
End Arrays.

Section Float64Array.
Context {F : Type} {N : Num F}.

(** [a[k]] used as an operand: an element, or [undefined] read as NaN. *)
Definition f64_get (a : list F) (k : Z) : F :=
  match arr_get a k with Some v => v | None => NaN end.

(** [a[k] = v]: a typed array ignores a store outside its bounds. *)
Definition f64_set (a : list F) (k : Z) (v : F) : list F := arr_set a k v.
End Float64Array.

(* ================================================================== *)
(** * complex.ts *)
(* ================================================================== *)

Record Complex (F : Type) : Type := mkComplex { real : F; imag : F }.
Arguments mkComplex {F} real imag.
Arguments real {F} c.
Arguments imag {F} c.

Section ComplexArithmetic.
Context {F : Type} {N : Num F}.
Local Abbreviation C := (Complex F).

(** [complex(real, imag = 0)]. *)
Definition complex (re im : F) : C := mkComplex re im.
Definition complex1 (re : F) : C := complex re zero.

Definition add (a b : C) : C :=
  mkComplex (real a +' real b) (imag a +' imag b).

Definition subtract (a b : C) : C :=
  mkComplex (real a -' real b) (imag a -' imag b).

Definition multiply (a b : C) : C :=
  mkComplex (real a *' real b -' imag a *' imag b)
            (real a *' imag b +' imag a *' real b).

Definition divide (a b : C) : C :=
  let denominator := real b *' real b +' imag b *' imag b in
  mkComplex ((real a *' real b +' imag a *' imag b) /' denominator)
            ((imag a *' real b -' real a *' imag b) /' denominator).

Definition conjugate (a : C) : C := mkComplex (real a) (-' imag a).

Definition magnitude (a : C) : F :=
  Math_sqrt (real a *' real a +' imag a *' imag a).

Definition magnitudeSquared (a : C) : F :=
  real a *' real a +' imag a *' imag a.

Definition phase (a : C) : F := Math_atan2 (imag a) (real a).

Definition fromPolar (r theta : F) : C :=
  mkComplex (r *' Math_cos theta) (r *' Math_sin theta).

Definition scale (a : C) (scalar : F) : C :=
  mkComplex (real a *' scalar) (imag a *' scalar).

Definition ZERO : C := mkComplex zero zero.
Definition ONE : C := mkComplex one zero.
Definition ComplexI : C := mkComplex zero one.
Definition MINUS_I : C := mkComplex zero (-' one).
End ComplexArithmetic.

(* ================================================================== *)
(** * matrix.ts *)
(* ================================================================== *)

(** [Complex[][]], row-major. *)
Definition Matrix (F : Type) : Type := list (list (Complex F)).

Section MatrixOps.
Context {F : Type} {N : Num F}.
Local Abbreviation C := (Complex F).
Local Abbreviation Mat := (Matrix F).

(** [m[i][j]] passed to a function that reads its fields: a missing row
    or element is a [TypeError]. *)
Definition mget (m : Mat) (i j : Z) : result C :=
  row <- defined (arr_get m i) ;; defined (arr_get row j).

(** [m[0].length]. *)
Definition row0Length (m : Mat) : result nat :=
  row <- defined (arr_get m 0) ;; Ok (length row).

(** [m[i][j] = v] on an existing row. *)
Definition mset (m : Mat) (i j : Z) (v : C) : Mat :=
  match arr_get m i with
  | Some row => arr_set m i (arr_set row j v)
  | None => m
  end.

Definition createMatrix (rows cols : nat) (init : C) : Mat :=
  repeat (repeat init cols) rows.

Definition identity (n : nat) : Mat :=
  fold_left (fun result i => mset result i i (complex one zero))
            (range n) (createMatrix n n ZERO).

(** The loops of the following functions assign every cell of [result]
    exactly once, so each is written as the table of the assigned values. *)
Definition matrixMultiply (a b : Mat) : result Mat :=
  let rowsA := length a in
  colsA <- row0Length a ;;
  colsB <- row0Length b ;;
  mapM (fun i =>
    mapM (fun j =>
      foldM (fun sum k =>
               x <- mget a i k ;; y <- mget b k j ;;
               Ok (add sum (multiply x y)))
            (range colsA) ZERO)
      (range colsB))
    (range rowsA).

Definition matrixVectorMultiply (m : Mat) (v : list C) : result (list C) :=
  mapM (fun i =>
    foldM (fun sum j =>
             x <- mget m i j ;; y <- defined (arr_get v j) ;;
             Ok (add sum (multiply x y)))
          (range (length v)) ZERO)
    (range (length m)).

Definition conjugateTranspose (m : Mat) : result Mat :=
  let rows := length m in
  cols <- row0Length m ;;
  mapM (fun j =>
    mapM (fun i => x <- mget m i j ;; Ok (conjugate x)) (range rows))
    (range cols).

Definition tensorProduct (a b : Mat) : result Mat :=
  let rowsA := length a in
  colsA <- row0Length a ;;
  let rowsB := length b in
  colsB <- row0Length b ;;
  mapM (fun r =>
    mapM (fun c =>
      x <- mget a (r / Z.of_nat rowsB) (c / Z.of_nat colsB) ;;
      y <- mget b (r mod Z.of_nat rowsB) (c mod Z.of_nat colsB) ;;
      Ok (multiply x y))
      (range (colsA * colsB)))
    (range (rowsA * rowsB)).

(** [isUnitary(m, epsilon)]: the first cell of [M†M] further than
    [epsilon] from the identity makes it answer [false]. *)
Definition isUnitary (m : Mat) (epsilon : F) : result bool :=
  let n := length m in
  mDagger <- conjugateTranspose m ;;
  product <- matrixMultiply mDagger m ;;
  let id := identity n in
  foldM (fun ok i =>
    foldM (fun ok j =>
      p <- mget product i j ;; e <- mget id i j ;;
      let diff := Math_abs (real p -' real e) +' Math_abs (imag p -' imag e) in
      Ok (ok && negb (epsilon <' diff)))
      (range n) ok)
    (range n) true.

Definition trace (m : Mat) : result C :=
  cols <- row0Length m ;;
  foldM (fun sum i => x <- mget m i i ;; Ok (add sum x))
        (range (Nat.min (length m) cols)) ZERO.
End MatrixOps.

(* ================================================================== *)
(** * gates.ts *)
(* ================================================================== *)

(** The [matrix] field of a gate: a constant matrix or a function of the
    parameter vector. *)
Inductive GateMatrix (F : Type) : Type :=
| Const (m : Matrix F)
| Param (f : list F -> Matrix F).
Arguments Const {F} m.
Arguments Param {F} f.

Record GateInfo (F : Type) : Type := mkGateInfo {
  name : string;
  symbol : string;
  qubits : Z;
  matrix : GateMatrix F;
  params : option (list string);
  description : string
}.
Arguments mkGateInfo {F} name symbol qubits matrix params description.
Arguments name {F} g.
Arguments symbol {F} g.
Arguments qubits {F} g.
Arguments matrix {F} g.
Arguments params {F} g.
Arguments description {F} g.

(** [Record<string, GateInfo>]: the table in source order. *)
Definition GateTable (F : Type) : Type := list (string * GateInfo F).

(** [GATE_LIBRARY[gateName]] among the table's own keys.  The table is an
    object literal, so the lookup of the source also finds what every
    object inherits from [Object.prototype]; for the names of
    [inheritedName] it yields a value that is no gate, where [lookupGate]
    answers [None]. *)
Fixpoint lookupGate {F : Type} (lib : GateTable F) (gateName : string)
  : option (GateInfo F) :=
  match lib with
  | [] => None
  | (k, g) :: lib' => if String.eqb k gateName then Some g else lookupGate lib' gateName
  end.

(** The property names of [Object.prototype]. *)
Definition inheritedName (gateName : string) : bool :=
  existsb (String.eqb gateName)
    [ "constructor"; "hasOwnProperty"; "isPrototypeOf"; "propertyIsEnumerable";
      "toLocaleString"; "toString"; "valueOf"; "__proto__";
      "__defineGetter__"; "__defineSetter__"; "__lookupGetter__";
      "__lookupSetter__" ]%string.

Module Gates.
Section Gates.
Context {F : Type} {N : Num F}.
Local Abbreviation Mat := (Matrix F).
Local Open Scope string_scope.

(** [p[k]] used as a number: a missing entry is read as NaN. *)
Definition param (p : list F) (k : nat) : F := nth k p NaN.

Definition SQRT2_INV : F := one /' Math_sqrt two.

(** Single-qubit gates *)

Definition X : Mat :=
  [ [complex1 zero; complex1 one];
    [complex1 one; complex1 zero] ].

Definition Y : Mat :=
  [ [complex1 zero; complex zero (-' one)];
    [complex zero one; complex1 zero] ].

Definition Z_gate : Mat :=
  [ [complex1 one; complex1 zero];
    [complex1 zero; complex1 (-' one)] ].

Definition H : Mat :=
  [ [complex1 SQRT2_INV; complex1 SQRT2_INV];
    [complex1 SQRT2_INV; complex1 (-' SQRT2_INV)] ].

Definition S_gate : Mat :=
  [ [complex1 one; complex1 zero];
    [complex1 zero; complex zero one] ].

Definition SDag : Mat :=
  [ [complex1 one; complex1 zero];
    [complex1 zero; complex zero (-' one)] ].

Definition T : Mat :=
  [ [complex1 one; complex1 zero];
    [complex1 zero; fromPolar one (Math_PI /' ofZ 4)] ].

Definition TDag : Mat :=
  [ [complex1 one; complex1 zero];
    [complex1 zero; fromPolar one (-' Math_PI /' ofZ 4)] ].

Definition I_gate : Mat := identity 2.

(** Rotation gates *)

Definition Rx (theta : F) : Mat :=
  let cos := Math_cos (theta /' two) in
  let sin := Math_sin (theta /' two) in
  [ [complex1 cos; complex zero (-' sin)];
    [complex zero (-' sin); complex1 cos] ].

Definition Ry (theta : F) : Mat :=
  let cos := Math_cos (theta /' two) in
  let sin := Math_sin (theta /' two) in
  [ [complex1 cos; complex1 (-' sin)];
    [complex1 sin; complex1 cos] ].

Definition Rz (theta : F) : Mat :=
  [ [fromPolar one (-' theta /' two); complex1 zero];
    [complex1 zero; fromPolar one (theta /' two)] ].

Definition Phase (phi : F) : Mat :=
  [ [complex1 one; complex1 zero];
    [complex1 zero; fromPolar one phi] ].

Definition U3 (theta phi lambda : F) : Mat :=
  let cos := Math_cos (theta /' two) in
  let sin := Math_sin (theta /' two) in
  [ [complex1 cos;
     mkComplex (-' sin *' Math_cos lambda) (-' sin *' Math_sin lambda)];
    [mkComplex (sin *' Math_cos phi) (sin *' Math_sin phi);
     mkComplex (cos *' Math_cos (phi +' lambda)) (cos *' Math_sin (phi +' lambda))] ].

(** Two-qubit gates *)

Definition CNOT : Mat :=
  [ [complex1 one; complex1 zero; complex1 zero; complex1 zero];
    [complex1 zero; complex1 one; complex1 zero; complex1 zero];
    [complex1 zero; complex1 zero; complex1 zero; complex1 one];
    [complex1 zero; complex1 zero; complex1 one; complex1 zero] ].

Definition CZ : Mat :=
  [ [complex1 one; complex1 zero; complex1 zero; complex1 zero];
    [complex1 zero; complex1 one; complex1 zero; complex1 zero];
    [complex1 zero; complex1 zero; complex1 one; complex1 zero];
    [complex1 zero; complex1 zero; complex1 zero; complex1 (-' one)] ].

Definition SWAP : Mat :=
  [ [complex1 one; complex1 zero; complex1 zero; complex1 zero];
    [complex1 zero; complex1 zero; complex1 one; complex1 zero];
    [complex1 zero; complex1 one; complex1 zero; complex1 zero];
    [complex1 zero; complex1 zero; complex1 zero; complex1 one] ].

Definition iSWAP : Mat :=
  [ [complex1 one; complex1 zero; complex1 zero; complex1 zero];
    [complex1 zero; complex1 zero; complex zero one; complex1 zero];
    [complex1 zero; complex zero one; complex1 zero; complex1 zero];
    [complex1 zero; complex1 zero; complex1 zero; complex1 one] ].

Definition CPhase (phi : F) : Mat :=
  [ [complex1 one; complex1 zero; complex1 zero; complex1 zero];
    [complex1 zero; complex1 one; complex1 zero; complex1 zero];
    [complex1 zero; complex1 zero; complex1 one; complex1 zero];
    [complex1 zero; complex1 zero; complex1 zero; fromPolar one phi] ].

Definition SX : Mat :=
  [ [complex half half; complex half (-' half)];
    [complex half (-' half); complex half half] ].

Definition SXDag : Mat :=
  [ [complex half (-' half); complex half half];
    [complex half half; complex half (-' half)] ].

Definition RXX (theta : F) : Mat :=
  let cos := Math_cos (theta /' two) in
  let sin := Math_sin (theta /' two) in
  let m := identity 4 in
  let m := mset m 0 0 (complex1 cos) in
  let m := mset m 0 3 (complex zero (-' sin)) in
  let m := mset m 1 1 (complex1 cos) in
  let m := mset m 1 2 (complex zero (-' sin)) in
  let m := mset m 2 1 (complex zero (-' sin)) in
  let m := mset m 2 2 (complex1 cos) in
  let m := mset m 3 0 (complex zero (-' sin)) in
  let m := mset m 3 3 (complex1 cos) in
  m.

Definition RYY (theta : F) : Mat :=
  let cos := Math_cos (theta /' two) in
  let sin := Math_sin (theta /' two) in
  let m := identity 4 in
  let m := mset m 0 0 (complex1 cos) in
  let m := mset m 0 3 (complex zero sin) in
  let m := mset m 1 1 (complex1 cos) in
  let m := mset m 1 2 (complex zero (-' sin)) in
  let m := mset m 2 1 (complex zero (-' sin)) in
  let m := mset m 2 2 (complex1 cos) in
  let m := mset m 3 0 (complex zero sin) in
  let m := mset m 3 3 (complex1 cos) in
  m.

Definition RZZ (theta : F) : Mat :=
  let m := identity 4 in
  let p := fromPolar one (-' theta /' two) in
  let q := fromPolar one (theta /' two) in
  let m := mset m 0 0 p in
  let m := mset m 1 1 q in
  let m := mset m 2 2 q in
  let m := mset m 3 3 p in
  m.

Definition RCCX : Mat :=
  let m := identity 8 in
  let m := mset m 6 6 (complex1 zero) in
  let m := mset m 6 7 (complex1 one) in
  let m := mset m 7 6 (complex1 one) in
  let m := mset m 7 7 (complex1 zero) in
  let m := mset m 5 5 (complex1 (-' one)) in
  m.

(** Three-qubit gates *)

Definition Toffoli : Mat :=
  let m := identity 8 in
  let m := mset m 6 6 (complex1 zero) in
  let m := mset m 6 7 (complex1 one) in
  let m := mset m 7 6 (complex1 one) in
  let m := mset m 7 7 (complex1 zero) in
  m.

Definition Fredkin : Mat :=
  let m := identity 8 in
  let m := mset m 5 5 (complex1 zero) in
  let m := mset m 5 6 (complex1 one) in
  let m := mset m 6 5 (complex1 one) in
  let m := mset m 6 6 (complex1 zero) in
  m.

Definition CCZ : Mat :=
  let m := identity 8 in
  mset m 7 7 (complex1 (-' one)).

(** [h[r][c]] of a constant 2x2 matrix stored into another matrix. *)
Definition entry (h : Mat) (r c : nat) : Complex F := nth c (nth r h []) ZERO.

Definition CH : Mat :=
  let m := identity 4 in
  let h := H in
  let m := mset m 2 2 (entry h 0 0) in
  let m := mset m 2 3 (entry h 0 1) in
  let m := mset m 3 2 (entry h 1 0) in
  let m := mset m 3 3 (entry h 1 1) in
  m.

(** The table of [lib/quantum/gates.ts]. *)
Definition GATE_LIBRARY_core : GateTable F :=
  [ ("I", mkGateInfo "Identity" "I" 1 (Const I_gate) None "No operation");
    ("X", mkGateInfo "Pauli-X" "X" 1 (Const X) None "Bit flip (NOT gate)");
    ("Y", mkGateInfo "Pauli-Y" "Y" 1 (Const Y) None "Bit and phase flip");
    ("Z", mkGateInfo "Pauli-Z" "Z" 1 (Const Z_gate) None "Phase flip");
    ("H", mkGateInfo "Hadamard" "H" 1 (Const H) None "Creates superposition");
    ("S", mkGateInfo "S Gate" "S" 1 (Const S_gate) None "π/2 phase gate");
    ("T", mkGateInfo "T Gate" "T" 1 (Const T) None "π/4 phase gate");
    ("Rx", mkGateInfo "X Rotation" "Rx" 1 (Param (fun p => Rx (param p 0)))
             (Some ["θ"]) "Rotation around X-axis");
    ("Ry", mkGateInfo "Y Rotation" "Ry" 1 (Param (fun p => Ry (param p 0)))
             (Some ["θ"]) "Rotation around Y-axis");
    ("Rz", mkGateInfo "Z Rotation" "Rz" 1 (Param (fun p => Rz (param p 0)))
             (Some ["θ"]) "Rotation around Z-axis");
    ("CNOT", mkGateInfo "CNOT" "CX" 2 (Const CNOT) None "Controlled-NOT gate");
    ("CZ", mkGateInfo "CZ" "CZ" 2 (Const CZ) None "Controlled-Z gate");
    ("SWAP", mkGateInfo "SWAP" "SW" 2 (Const SWAP) None "Swaps two qubits");
    ("Toffoli", mkGateInfo "Toffoli" "CCX" 3 (Const Toffoli) None
                  "Controlled-controlled-NOT");
    ("Fredkin", mkGateInfo "Fredkin" "CSW" 3 (Const Fredkin) None "Controlled-SWAP") ].

(** The table of the extended gate module (29 gates). *)
Definition GATE_LIBRARY : GateTable F :=
  [ ("I", mkGateInfo "Identity" "I" 1 (Const I_gate) None "No operation");
    ("X", mkGateInfo "Pauli-X" "X" 1 (Const X) None "Bit flip (NOT gate)");
    ("Y", mkGateInfo "Pauli-Y" "Y" 1 (Const Y) None "Bit and phase flip");
    ("Z", mkGateInfo "Pauli-Z" "Z" 1 (Const Z_gate) None "Phase flip");
    ("H", mkGateInfo "Hadamard" "H" 1 (Const H) None "Creates superposition");
    ("S", mkGateInfo "S Gate" "S" 1 (Const S_gate) None "π/2 phase gate");
    ("SDag", mkGateInfo "S† Gate" "S†" 1 (Const SDag) None "-π/2 phase gate");
    ("T", mkGateInfo "T Gate" "T" 1 (Const T) None "π/4 phase gate");
    ("TDag", mkGateInfo "T† Gate" "T†" 1 (Const TDag) None "-π/4 phase gate");
    ("SX", mkGateInfo "SX Gate" "SX" 1 (Const SX) None "Square root of X");
    ("SXDag", mkGateInfo "SX† Gate" "SX†" 1 (Const SXDag) None
                "Square root of X adjoint");
    ("Rx", mkGateInfo "X Rotation" "Rx" 1 (Param (fun p => Rx (param p 0)))
             (Some ["θ"]) "Rotation around X-axis");
    ("Ry", mkGateInfo "Y Rotation" "Ry" 1 (Param (fun p => Ry (param p 0)))
             (Some ["θ"]) "Rotation around Y-axis");
    ("Rz", mkGateInfo "Z Rotation" "Rz" 1 (Param (fun p => Rz (param p 0)))
             (Some ["θ"]) "Rotation around Z-axis");
    ("Phase", mkGateInfo "Phase" "P" 1 (Param (fun p => Phase (param p 0)))
                (Some ["φ"]) "Arbitrary phase gate");
    ("U3", mkGateInfo "U3 Gate" "U3" 1
             (Param (fun p => U3 (param p 0) (orZero (nth_error p 1))
                                 (orZero (nth_error p 2))))
             (Some ["θ"; "φ"; "λ"]) "Universal single-qubit gate");
    ("CNOT", mkGateInfo "CNOT" "CX" 2 (Const CNOT) None "Controlled-NOT gate");
    ("CZ", mkGateInfo "CZ" "CZ" 2 (Const CZ) None "Controlled-Z gate");
    ("CH", mkGateInfo "CH" "CH" 2 (Const CH) None "Controlled-Hadamard gate");
    ("SWAP", mkGateInfo "SWAP" "SW" 2 (Const SWAP) None "Swaps two qubits");
    ("iSWAP", mkGateInfo "iSWAP" "iSW" 2 (Const iSWAP) None "Imaginary SWAP gate");
    ("CPhase", mkGateInfo "CPhase" "CP" 2 (Param (fun p => CPhase (param p 0)))
                 (Some ["φ"]) "Controlled-phase gate");
    ("RXX", mkGateInfo "RXX Gate" "RXX" 2 (Param (fun p => RXX (param p 0)))
              (Some ["θ"]) "Rotation around XX axis");
    ("RYY", mkGateInfo "RYY Gate" "RYY" 2 (Param (fun p => RYY (param p 0)))
              (Some ["θ"]) "Rotation around YY axis");
    ("RZZ", mkGateInfo "RZZ Gate" "RZZ" 2 (Param (fun p => RZZ (param p 0)))
              (Some ["θ"]) "Rotation around ZZ axis");
    ("Toffoli", mkGateInfo "Toffoli" "CCX" 3 (Const Toffoli) None
                  "Controlled-controlled-NOT");
    ("Fredkin", mkGateInfo "Fredkin" "CSW" 3 (Const Fredkin) None "Controlled-SWAP");
    ("CCZ", mkGateInfo "CCZ" "CCZ" 3 (Const CCZ) None "Controlled-controlled-Z");
    ("RCCX", mkGateInfo "RCCX" "RCCX" 3 (Const RCCX) None "Relative-phase Toffoli") ].
End Gates.
End Gates.

(* ================================================================== *)
(** * validators.ts *)
(* ================================================================== *)

(** Qubit indices, counts and shot counts are integers in this model, so
    the [Number.isInteger] guards of the validators never fire. *)
Module LIMITS.
Definition MAX_QUBITS : Z := 20.
Definition MIN_QUBITS : Z := 1.
Definition MAX_CIRCUIT_DEPTH : Z := 1000.
Definition MAX_SHOTS : Z := 100000.
End LIMITS.

Section Validators.
Context {F : Type} {N : Num F}.
(** The table imported from the gate module. *)
Variable GATE_LIBRARY : GateTable F.
Local Open Scope string_scope.
Local Open Scope Z_scope.

Definition validateQubitIndex (index numQubits : Z) (context : string)
  : result unit :=
  if (index <? 0) || (index >=? numQubits) then
    Throw (QuantumValidationError
             (MsgIndexOutOfRange index numQubits context)
             INVALID_QUBIT_INDEX
             [("index", DNum index); ("numQubits", DNum numQubits);
              ("context", DStr context)])
  else Ok tt.

Definition validateQubitCount (numQubits : Z) : result unit :=
  if numQubits <? LIMITS.MIN_QUBITS then
    Throw (QuantumValidationError
             (MsgCountAtLeast LIMITS.MIN_QUBITS)
             INVALID_QUBIT_COUNT
             [("numQubits", DNum numQubits); ("min", DNum LIMITS.MIN_QUBITS)])
  else if numQubits >? LIMITS.MAX_QUBITS then
    Throw (QuantumValidationError
             (MsgCountExceeds numQubits LIMITS.MAX_QUBITS
                (pow2 numQubits) (pow2 numQubits * 16 / 1024 / 1024))
             MEMORY_LIMIT
             [("numQubits", DNum numQubits); ("max", DNum LIMITS.MAX_QUBITS)])
  else Ok tt.

Definition validateGateName (gateName : string) : result (GateInfo F) :=
  match lookupGate GATE_LIBRARY gateName with
  | Some gateInfo => Ok gateInfo
  | None =>
      let availableGates := map fst GATE_LIBRARY in
      Throw (QuantumValidationError
               (MsgUnknownGateAvailable gateName availableGates)
               INVALID_GATE
               [("gateName", DStr gateName); ("availableGates", DStrs availableGates)])
  end.

(** The first parameter that is not a finite number, with its index. *)
Fixpoint firstNonFinite (ps : list F) (i : Z) : option Z :=
  match ps with
  | [] => None
  | p :: ps' => if isFinite p then firstNonFinite ps' (i + 1) else Some i
  end.

Definition validateGateParams (gateName : string) (ps : option (list F))
           (gateInfo : GateInfo F) : result unit :=
  let requiredParams :=
    match params gateInfo with Some l => Z.of_nat (length l) | None => 0 end in
  let providedParams :=
    match ps with Some l => Z.of_nat (length l) | None => 0 end in
  if (requiredParams >? 0) && (providedParams =? 0) then
    Throw (QuantumValidationError
             (MsgRequiresParams gateName requiredParams
                (match params gateInfo with Some l => l | None => [] end))
             INVALID_GATE_PARAMS
             [("gateName", DStr gateName);
              ("required", DStrs (match params gateInfo with Some l => l | None => [] end));
              ("provided", DParams)])
  else
    match ps with
    | Some l =>
        match firstNonFinite l 0 with
        | Some i =>
            Throw (QuantumValidationError (MsgInvalidParam i) INVALID_GATE_PARAMS
                     [("gateName", DStr gateName); ("paramIndex", DNum i);
                      ("value", DParams)])
        | None => Ok tt
        end
    | None => Ok tt
    end.

(** [new Set(qubits).size !== qubits.length]. *)
Fixpoint hasDuplicates (l : list Z) : bool :=
  match l with
  | [] => false
  | x :: l' => existsb (Z.eqb x) l' || hasDuplicates l'
  end.

Definition validateQubitArray (qs : list Z) (requiredCount numQubits : Z)
           (gateName : string) : result unit :=
  if negb (Z.of_nat (length qs) =? requiredCount) then
    Throw (QuantumValidationError
             (MsgRequiresQubits gateName requiredCount (Z.of_nat (length qs)))
             INSUFFICIENT_QUBITS
             [("gateName", DStr gateName); ("required", DNum requiredCount);
              ("provided", DNum (Z.of_nat (length qs)))])
  else if hasDuplicates qs then
    Throw (QuantumValidationError
             (MsgDuplicateQubits gateName qs)
             DUPLICATE_QUBITS
             [("gateName", DStr gateName); ("qubits", DNums qs)])
  else
    forM_ qs (fun qubit => validateQubitIndex qubit numQubits ("gate " ++ gateName)).

Definition validateShots (shots : Z) : result unit :=
  if shots <? 1 then
    Throw (QuantumValidationError (MsgShotsNotPositive shots) INVALID_QUBIT_COUNT
             [("shots", DNum shots)])
  else if shots >? LIMITS.MAX_SHOTS then
    Throw (QuantumValidationError (MsgShotsExceed shots LIMITS.MAX_SHOTS) MEMORY_LIMIT
             [("shots", DNum shots); ("max", DNum LIMITS.MAX_SHOTS)])
  else Ok tt.

Definition validateGateOperation (gateName : string) (qs : list Z)
           (ps : option (list F)) (numQubits : Z) : result (GateInfo F) :=
  gateInfo <- validateGateName gateName ;;
  validateGateParams gateName ps gateInfo ;;
  validateQubitArray qs (qubits gateInfo) numQubits gateName ;;
  Ok gateInfo.
End Validators.

(* ================================================================== *)
(** * Shared simulator types *)
(* ================================================================== *)

Record NoiseModel (F : Type) : Type := mkNoiseModel {
  depolarizing : option F;
  amplitude_damping : option F;
  phase_damping : option F;
  readout_error : option F
}.

Record SimulatorConfig (F : Type) : Type := mkSimulatorConfig {
  cfg_numQubits : Z;
  cfg_noiseModel : option (NoiseModel F)
}.

Record GateOperation (F : Type) : Type := mkGateOperation {
  gate : string;
  op_qubits : list Z;
  op_params : option (list F)
}.
Arguments mkGateOperation {F} gate op_qubits op_params.

Record MeasurementResult (F : Type) : Type := mkMeasurementResult {
  outcome : Z;
  probability : F;
  collapsedState : list (Complex F)
}.
Arguments mkMeasurementResult {F} outcome probability collapsedState.

Record Bloch (F : Type) : Type := mkBloch { x : F; y : F; z : F }.
Arguments mkBloch {F} x y z.
Arguments x {F} b.
Arguments y {F} b.
Arguments z {F} b.

(** What a method does outside its object: [randomCalls] counts the calls
    of [Math.random]; [probabilityPasses] is a ghost counter of the passes
    that compute a probability vector from the amplitudes. *)
Record World : Type := mkWorld {
  randomCalls : nat;
  probabilityPasses : nat
}.

Definition World0 : World := mkWorld 0 0.

Section WorldOps.
Context {F S : Type}.
(** The sequence of values [Math.random] returns. *)
Variable random : nat -> F.

Definition Math_random : Exec (S * World) F :=
  fun '(s, w) =>
    (Ok (random (randomCalls w)),
     (s, mkWorld (Datatypes.S (randomCalls w)) (probabilityPasses w))).

Definition tickProbabilityPass : Exec (S * World) unit :=
  fun '(s, w) =>
    (Ok tt, (s, mkWorld (randomCalls w) (Datatypes.S (probabilityPasses w)))).

(** A method that only touches the object. *)
Definition onObject {A : Type} (m : Exec S A) : Exec (S * World) A :=
  fun '(s, w) => let '(r, s') := m s in (r, (s', w)).
End WorldOps.

(** ** [Map<string, number>] and bitstring keys *)

Section StringMap.
Local Open Scope string_scope.
Local Open Scope Z_scope.

Definition Histogram : Type := list (string * Z).

Fixpoint map_get (m : Histogram) (k : string) : option Z :=
  match m with
  | [] => None
  | (k', v) :: m' => if String.eqb k' k then Some v else map_get m' k
  end.

(** [m.set(k, v)]: an existing key keeps its place, a new one goes last. *)
Fixpoint map_set (m : Histogram) (k : string) (v : Z) : Histogram :=
  match m with
  | [] => [(k, v)]
  | (k', v') :: m' =>
      if String.eqb k' k then (k', v) :: m' else (k', v') :: map_set m' k v
  end.

(** [(results.get(k) || 0) + 1]. *)
Definition bump (m : Histogram) (k : string) : Histogram :=
  let old := match map_get m k with
             | Some v => if v =? 0 then 0 else v
             | None => 0
             end in
  map_set m k (old + 1).

Fixpoint binaryDigits (p : positive) : string :=
  match p with
  | xH => "1"
  | xO p' => binaryDigits p' ++ "0"
  | xI p' => binaryDigits p' ++ "1"
  end.

(** [i.toString(2)] for an integer. *)
Definition toString2 (i : Z) : string :=
  match i with
  | Z0 => "0"
  | Zpos p => binaryDigits p
  | Zneg p => "-" ++ binaryDigits p
  end.

Fixpoint zeros (k : nat) : string :=
  match k with O => "" | Datatypes.S k' => "0" ++ zeros k' end.

(** [s.padStart(targetLength, '0')]. *)
Definition padStart0 (s : string) (targetLength : Z) : string :=
  zeros (Z.to_nat (targetLength - Z.of_nat (String.length s))) ++ s.
End StringMap.

(* ================================================================== *)
(** * simulator.ts: the flat [Float64Array] engine *)
(* ================================================================== *)

Module Flat.
Section Flat.
Context {F : Type} {N : Num F}.
(** [Gates.GATE_LIBRARY] of the imported gate module. *)
Variable GATE_LIBRARY : GateTable F.
Local Abbreviation Mat := (Matrix F).

(** The state is stored as [re0, im0, re1, im1, ...]. *)
Record QuantumSimulator : Type := mkSim {
  numQubits : Z;
  state : list F;
  noiseModel : option (NoiseModel F)
}.

Definition withState (this : QuantumSimulator) (st : list F) : QuantumSimulator :=
  mkSim (numQubits this) st (noiseModel this).

(** [new Float64Array(len)]: a length above [2^53 - 1] is a [RangeError].
    Below it the host is taken to have the memory: an allocation that the
    host refuses is not modelled, so results about buffers that no host
    holds say nothing about a run. *)
Definition Float64Array (len : Z) : result (list F) :=
  if len >? 2 ^ 53 - 1 then Throw RangeError
  else Ok (repeat zero (Z.to_nat len)).

(** The array length is [Math.pow(2, n) * 2] truncated to an integer,
    which is [2 ^ (n + 1)] in [Z] for every integer [n]. *)
Definition constructor (config : SimulatorConfig F + Z)
  : result QuantumSimulator :=
  let n := match config with inr n => n | inl c => cfg_numQubits c end in
  let noise := match config with inr _ => None | inl c => cfg_noiseModel c end in
  buffer <- Float64Array (2 ^ (n + 1)) ;;
  Ok (mkSim n (f64_set buffer 0 one) noise).

Definition getState : Exec QuantumSimulator (list (Complex F)) :=
  gets (fun this =>
    let size := loopBound (numQubits this) in
    let resultSize := Nat.min size (1024 * 16) in
    map (fun i => mkComplex (f64_get (state this) (2 * i))
                            (f64_get (state this) (2 * i + 1)))
        (range resultSize)).

(** [Math.pow(2, n)] truncated to an array length is [2 ^ n] in [Z], also
    for negative [n]; the loop still runs [loopBound n] times, and a store
    outside the array is ignored. *)
Definition getProbabilities : Exec QuantumSimulator (list F) :=
  this <- gets (fun this => this) ;;
  let size := loopBound (numQubits this) in
  let resultSize := Nat.min size (1024 * 16) in
  probs <- lift (Float64Array (Z.min (2 ^ numQubits this) (1024 * 16))) ;;
  ret (fold_left (fun probs i =>
                    let re := f64_get (state this) (2 * i) in
                    let im := f64_get (state this) (2 * i + 1) in
                    f64_set probs i (re *' re +' im *' im))
                 (range resultSize) probs).

(** One iteration of the loop of [applySingleQubitGate]. *)
Definition singleQubitStep (g00 g01 g10 g11 : Complex F) (mask : Z)
           (st : list F) (i : Z) : list F :=
  if Int32.and i mask =? 0 then
    let i0 := 2 * i in
    let i1 := 2 * Int32.or i mask in
    let v0_re := f64_get st i0 in
    let v0_im := f64_get st (i0 + 1) in
    let v1_re := f64_get st i1 in
    let v1_im := f64_get st (i1 + 1) in
    let st := f64_set st i0
      ((real g00 *' v0_re -' imag g00 *' v0_im) +' (real g01 *' v1_re -' imag g01 *' v1_im)) in
    let st := f64_set st (i0 + 1)
      ((real g00 *' v0_im +' imag g00 *' v0_re) +' (real g01 *' v1_im +' imag g01 *' v1_re)) in
    let st := f64_set st i1
      ((real g10 *' v0_re -' imag g10 *' v0_im) +' (real g11 *' v1_re -' imag g11 *' v1_im)) in
    let st := f64_set st (i1 + 1)
      ((real g10 *' v0_im +' imag g10 *' v0_re) +' (real g11 *' v1_im +' imag g11 *' v1_re)) in
    st
  else st.

Definition applySingleQubitGate (gate : Mat) (qubit : option Z)
  : Exec QuantumSimulator unit :=
  n <- gets numQubits ;;
  let size := loopBound n in
  let mask := Int32.shl 1 (shiftCount n qubit) in
  g00 <- lift (mget gate 0 0) ;;
  g01 <- lift (mget gate 0 1) ;;
  g10 <- lift (mget gate 1 0) ;;
  g11 <- lift (mget gate 1 1) ;;
  modify (fun this =>
    withState this
      (fold_left (singleQubitStep g00 g01 g10 g11 mask) (range size) (state this))).

(** One row of the dense product: [target += gate[row][col] * v[col]]. *)
Definition rowProduct (gate : Mat) (row : Z) (v_re v_im : list F) (gateSize : nat)
  : result (F * F) :=
  foldM (fun '(target_re, target_im) col =>
           g <- mget gate row col ;;
           Ok (target_re +' (real g *' f64_get v_re col -' imag g *' f64_get v_im col),
               target_im +' (real g *' f64_get v_im col +' imag g *' f64_get v_re col)))
        (range gateSize) (zero, zero).

(** Apply the matrix to the gathered amplitudes and store each row back. *)
Definition scatterRows (gate : Mat) (indices : list Z) (v_re v_im : list F)
  : Exec QuantumSimulator unit :=
  forM_ (range (length indices)) (fun row =>
    t <- lift (rowProduct gate row v_re v_im (length indices)) ;;
    let target_idx := nth (Z.to_nat row) indices 0 in
    modify (fun this =>
      withState this
        (f64_set (f64_set (state this) (2 * target_idx) (fst t))
                 (2 * target_idx + 1) (snd t)))).

Definition applyTwoQubitGate (gate : Mat) (q1 q2 : option Z)
  : Exec QuantumSimulator unit :=
  n <- gets numQubits ;;
  let size := loopBound n in
  let m1 := Int32.shl 1 (shiftCount n q1) in
  let m2 := Int32.shl 1 (shiftCount n q2) in
  forM_ (range size) (fun i =>
    if (Int32.and i m1 =? 0) && (Int32.and i m2 =? 0) then
      let i00 := i in
      let i01 := Int32.or i m2 in
      let i10 := Int32.or i m1 in
      let i11 := Int32.or (Int32.or i m1) m2 in
      let indices := [i00; i01; i10; i11] in
      st <- gets state ;;
      let v_re := map (fun idx => f64_get st (2 * idx)) indices in
      let v_im := map (fun idx => f64_get st (2 * idx + 1)) indices in
      scatterRows gate indices v_re v_im
    else ret tt).

(** [subIndices[j]]: [i] with the mask of qubit [k] set where bit
    [length - 1 - k] of [j] is set, stored as a 32-bit integer. *)
Definition subIndex (masks : list Z) (i j : Z) : Z :=
  let len := Z.of_nat (length masks) in
  Int32.wrap
    (fold_left (fun idx k =>
                  if Int32.and (Int32.shr j (len - 1 - k)) 1 =? 0 then idx
                  else Int32.or idx (nth (Z.to_nat k) masks 0))
               (range (length masks)) i).

Definition applyMultiQubitGate (gate : Mat) (qs : list Z)
  : Exec QuantumSimulator unit :=
  n <- gets numQubits ;;
  let size := loopBound n in
  let gateSize := Z.to_nat (2 ^ Z.of_nat (length qs)) in
  let masks := map (fun q => Int32.shl 1 (n - 1 - q)) qs in
  let totalMask := fold_left Int32.or masks 0 in
  forM_ (range size) (fun i =>
    if Int32.and i totalMask =? 0 then
      let subIndices := map (subIndex masks i) (range gateSize) in
      st <- gets state ;;
      let v_re := map (fun idx => f64_get st (2 * idx)) subIndices in
      let v_im := map (fun idx => f64_get st (2 * idx + 1)) subIndices in
      scatterRows gate subIndices v_re v_im
    else ret tt).

(** [apply(gateName, ...qubits)] when [ps] is [None],
    [apply(gateName, params, ...qubits)] when it is [Some params]. *)
Definition apply (gateName : string) (ps : option (list F)) (qs : list Z)
  : Exec QuantumSimulator unit :=
  let params := match ps with Some p => p | None => [] end in
  match lookupGate GATE_LIBRARY gateName with
  | None => throw (Error (MsgUnknownGate gateName))
  | Some gateInfo =>
      let matrix :=
        match matrix gateInfo with
        | Param f => f (match params with [] => [zero] | _ => params end)
        | Const m => m
        end in
      if qubits gateInfo =? 1 then
        applySingleQubitGate matrix (nth_error qs 0)
      else if qubits gateInfo =? 2 then
        applyTwoQubitGate matrix (nth_error qs 0) (nth_error qs 1)
      else
        applyMultiQubitGate matrix qs
  end.

(** The accumulators of [getBlochCoordinates]. *)
Record BlochAcc : Type := mkBlochAcc {
  rho00 : F; rho11 : F; rho01_re : F; rho01_im : F
}.

Definition blochStep (st : list F) (mask : Z) (acc : BlochAcc) (i : Z) : BlochAcc :=
  let re := f64_get st (2 * i) in
  let im := f64_get st (2 * i + 1) in
  let prob := re *' re +' im *' im in
  if Int32.and i mask =? 0 then
    let j := Int32.or i mask in
    let re_j := f64_get st (2 * j) in
    let im_j := f64_get st (2 * j + 1) in
    mkBlochAcc (rho00 acc +' prob) (rho11 acc)
               (rho01_re acc +' (re *' re_j +' im *' im_j))
               (rho01_im acc +' (im *' re_j -' re *' im_j))
  else
    mkBlochAcc (rho00 acc) (rho11 acc +' prob) (rho01_re acc) (rho01_im acc).

Definition getBlochCoordinates (qubit : Z) : Exec QuantumSimulator (Bloch F) :=
  gets (fun this =>
    let n := numQubits this in
    let size := loopBound n in
    let mask := Int32.shl 1 (n - 1 - qubit) in
    let acc := fold_left (blochStep (state this) mask) (range size)
                         (mkBlochAcc zero zero zero zero) in
    mkBloch (two *' rho01_re acc) (two *' rho01_im acc) (rho00 acc -' rho11 acc)).

(** The inner loop of [sample]: the first index whose cumulative
    probability exceeds the draw. *)
Fixpoint walk (probs : list F) (rnd : F) (idxs : list Z) (cumulative : F)
  : option Z :=
  match idxs with
  | [] => None
  | i :: idxs' =>
      let cumulative := cumulative +' f64_get probs i in
      if rnd <' cumulative then Some i else walk probs rnd idxs' cumulative
  end.

(** [sample] with the function [rng] installed as [Math.random]: the
    property is looked up at each call, and what is installed may do
    anything, also to this object.  [size] and [probs] are locals set before
    the first shot; [this.numQubits] is read at each shot that is counted. *)
Definition sampleWith (rng : Exec (QuantumSimulator * World) F) (shots : Z)
  : Exec (QuantumSimulator * World) Histogram :=
  this <- onObject (gets (fun this => this)) ;;
  let size := loopBound (numQubits this) in
  probs <- lift (Float64Array (2 ^ numQubits this)) ;;
  tickProbabilityPass ;;
  let probs :=
    fold_left (fun probs i =>
                 f64_set probs i
                   (f64_get (state this) (2 * i) *' f64_get (state this) (2 * i)
                    +' f64_get (state this) (2 * i + 1) *' f64_get (state this) (2 * i + 1)))
              (range size) probs in
  foldM (fun results _ =>
           rnd <- rng ;;
           match walk probs rnd (range size) zero with
           | Some i =>
               width <- onObject (gets numQubits) ;;
               let bits := padStart0 (toString2 i) width in
               ret (bump results bits)
           | None => ret results
           end)
        (range (Z.to_nat shots)) [].

Variable random : nat -> F.

(** [sample] with the host's [Math.random], which touches no object. *)
Definition sample (shots : Z)
  : Exec (QuantumSimulator * World) Histogram :=
  sampleWith (Math_random random) shots.
End Flat.
End Flat.

(* ================================================================== *)
(** * The object-per-amplitude engine *)
(* ================================================================== *)

Section BasisLabels.
Local Open Scope string_scope.

(** [s.replace(/[|⟩>]/g, '')] on the UTF-8 bytes of [s]: the bar, the
    greater-than sign and the three bytes of the right angle bracket. *)
Fixpoint stripKet (s : string) : string :=
  match s with
  | EmptyString => EmptyString
  | String "|" s' => stripKet s'
  | String ">" s' => stripKet s'
  | String "226" (String "159" (String "169" s')) => stripKet s'
  | String c s' => String c (stripKet s')
  end.

Definition isSpace (c : ascii) : bool :=
  existsb (Ascii.eqb c) [" "; "009"; "010"; "011"; "012"; "013"]%char.

Fixpoint skipSpaces (s : string) : string :=
  match s with
  | String c s' => if isSpace c then skipSpaces s' else s
  | EmptyString => EmptyString
  end.

(** The value of the longest prefix of binary digits, if there is one. *)
Fixpoint binaryPrefix (s : string) (acc : option Z) : option Z :=
  match s with
  | String "0" s' => binaryPrefix s' (Some (2 * match acc with Some a => a | None => 0 end))%Z
  | String "1" s' => binaryPrefix s' (Some (2 * match acc with Some a => a | None => 0 end + 1))%Z
  | _ => acc
  end.

(** [parseInt(s, 2)]; [None] is NaN.  The value is the integer the digits
    denote; [parseInt] returns the double nearest to it, which is that
    integer for up to 53 digits.  Leading white space is the six ASCII
    characters. *)
Definition parseInt2 (s : string) : option Z :=
  match skipSpaces s with
  | String "-" s' => option_map Z.opp (binaryPrefix s' None)
  | String "+" s' => binaryPrefix s' None
  | s' => binaryPrefix s' None
  end.
End BasisLabels.

Module Obj.
Section Obj.
Context {F : Type} {N : Num F}.
Variable GATE_LIBRARY : GateTable F.
Local Abbreviation C := (Complex F).
Local Abbreviation Mat := (Matrix F).
Local Open Scope string_scope.
Local Open Scope Z_scope.

Record QuantumSimulator : Type := mkSim {
  state : list C;
  numQubits : Z;
  history : list (list C);
  operations : list (GateOperation F);
  noiseModel : option (NoiseModel F)
}.

Definition withState (this : QuantumSimulator) (st : list C) : QuantumSimulator :=
  mkSim st (numQubits this) (history this) (operations this) (noiseModel this).
Definition withHistory (this : QuantumSimulator) (h : list (list C)) : QuantumSimulator :=
  mkSim (state this) (numQubits this) h (operations this) (noiseModel this).
Definition withOperations (this : QuantumSimulator) (ops : list (GateOperation F))
  : QuantumSimulator :=
  mkSim (state this) (numQubits this) (history this) ops (noiseModel this).

(** [this.history.push([...this.state])]. *)
Definition pushHistory : Exec QuantumSimulator unit :=
  modify (fun this => withHistory this (history this ++ [state this])).

(** [Array(Math.pow(2, n)).fill(null).map(() => ({ ...ZERO }))]: the
    [Array] constructor throws a [RangeError] unless the length is an
    integer below [2^32].  Below it the host is taken to have the memory,
    as for [Float64Array]. *)
Definition zeroState (n : Z) : result (list C) :=
  if (n <? 0) || (2 ^ n >? 2 ^ 32 - 1) then Throw RangeError
  else Ok (repeat ZERO (Z.to_nat (2 ^ n))).

Definition constructor (config : SimulatorConfig F + Z)
  : result QuantumSimulator :=
  let n := match config with inr n => n | inl c => cfg_numQubits c end in
  let noise := match config with inr _ => None | inl c => cfg_noiseModel c end in
  st <- zeroState n ;;
  let st := arr_set st 0 ONE in
  Ok (mkSim st n [st] [] noise).

Definition getState : Exec QuantumSimulator (list C) := gets state.
Definition getNumQubits : Exec QuantumSimulator Z := gets numQubits.
Definition getOperations : Exec QuantumSimulator (list (GateOperation F)) :=
  gets operations.
Definition getHistory : Exec QuantumSimulator (list (list C)) := gets history.

Definition initialize (basisState : string + Z) : Exec QuantumSimulator unit :=
  n <- gets numQubits ;;
  st <- lift (zeroState n) ;;
  modify (fun this => withState this st) ;;
  let index :=
    match basisState with
    | inl label => parseInt2 (stripKet label)
    | inr number => Some number
    end in
  (match index with
   | Some index =>
       if (index >=? 0) && (index <? 2 ^ n)
       then modify (fun this => withState this (arr_set (state this) index ONE))
       else ret tt
   | None => ret tt
   end) ;;
  modify (fun this => withHistory this [state this]) ;;
  modify (fun this => withOperations this []).

(** [1e-6], the quotient of two exactly represented integers. *)
Definition tolerance : F := one /' ofZ 1000000.

Definition setState (stateVector : list C) : Exec QuantumSimulator unit :=
  n <- gets numQubits ;;
  if (n <? 0) || negb (Z.of_nat (length stateVector) =? 2 ^ n) then
    throw (Error (MsgStateVectorSize (2 ^ n)))
  else
    let norm := fold_left (fun sum amp => sum +' magnitudeSquared amp) stateVector zero in
    if tolerance <' Math_abs (norm -' one) then
      throw (Error MsgNotNormalized)
    else
      modify (fun this => withState this stateVector) ;;
      pushHistory.

(** [qubit < 0 || qubit >= this.numQubits]; false on [undefined]. *)
Definition outOfRange (n : Z) (qubit : option Z) : bool :=
  match qubit with
  | Some q => (q <? 0) || (q >=? n)
  | None => false
  end.

Definition isQubit (qubit : option Z) (i : Z) : bool :=
  match qubit with Some q => i =? q | None => false end.

Definition applySingleQubitGate (gate : Mat) (qubit : option Z)
  : Exec QuantumSimulator unit :=
  n <- gets numQubits ;;
  if outOfRange n qubit then
    throw (Error (MsgInvalidQubitIndex (match qubit with Some q => q | None => 0 end)))
  else
    st <- gets state ;;
    newState <- lift (
      fullOperator <-
        foldM (fun fullOperator i =>
                 let nextOp := if isQubit qubit i then gate else identity 2 in
                 tensorProduct fullOperator nextOp)
              (map (fun k => Z.of_nat k) (seq 1 (Z.to_nat (n - 1))))
              (if isQubit qubit 0 then gate else identity 2) ;;
      matrixVectorMultiply fullOperator st) ;;
    modify (fun this => withState this newState) ;;
    pushHistory.

(** [newState[newIndex] = add(newState[newIndex], multiply(gateElement, amp))]. *)
Definition accumulate (newState : list C) (newIndex : Z) (gateElement amp : option C)
  : result (list C) :=
  old <- defined (arr_get newState newIndex) ;;
  g <- defined gateElement ;;
  a <- defined amp ;;
  Ok (arr_set newState newIndex (add old (multiply g a))).

(** [m[i][j]] as a value that may be [undefined]; a missing row throws. *)
Definition melem (m : Mat) (i j : Z) : result (option C) :=
  row <- defined (arr_get m i) ;; Ok (arr_get row j).

Definition applyTwoQubitGate (gate : Mat) (qubit1 qubit2 : option Z)
  : Exec QuantumSimulator unit :=
  n <- gets numQubits ;;
  if outOfRange n qubit1 || outOfRange n qubit2 then
    throw (Error (MsgInvalidQubitIndices
                    (match qubit1 with Some q => q | None => 0 end)
                    (match qubit2 with Some q => q | None => 0 end)))
  else if match qubit1, qubit2 with
          | Some a, Some b => a =? b
          | None, None => true
          | _, _ => false
          end then
    throw (Error MsgSameQubits)
  else
    st <- gets state ;;
    let stateSize := loopBound n in
    let needsSwap := match qubit1, qubit2 with
                     | Some a, Some b => a >? b
                     | _, _ => false
                     end in
    let s1 := shiftCount n qubit1 in
    let s2 := shiftCount n qubit2 in
    newState <- lift (
      zeros <- zeroState n ;;
      foldM (fun newState i =>
        let bit1 := Int32.and (Int32.shr i s1) 1 in
        let bit2 := Int32.and (Int32.shr i s2) 1 in
        let twoQubitIndex := if needsSwap then bit2 * 2 + bit1 else bit1 * 2 + bit2 in
        foldM (fun newState j =>
          let newBit1 := if needsSwap then Int32.and j 1
                         else Int32.and (Int32.shr j 1) 1 in
          let newBit2 := if needsSwap then Int32.and (Int32.shr j 1) 1
                         else Int32.and j 1 in
          let newIndex := i in
          let newIndex := Int32.and newIndex (Int32.not (Int32.shl 1 s1)) in
          let newIndex := Int32.or newIndex (Int32.shl newBit1 s1) in
          let newIndex := Int32.and newIndex (Int32.not (Int32.shl 1 s2)) in
          let newIndex := Int32.or newIndex (Int32.shl newBit2 s2) in
          gateElement <- melem gate j twoQubitIndex ;;
          accumulate newState newIndex gateElement (arr_get st i))
          (range 4) newState)
        (range stateSize) zeros) ;;
    modify (fun this => withState this newState) ;;
    pushHistory.

Definition applyMultiQubitGate (gate : Mat) (qs : list Z)
  : Exec QuantumSimulator unit :=
  n <- gets numQubits ;;
  st <- gets state ;;
  let stateSize := loopBound n in
  let len := Z.of_nat (length qs) in
  let gateSize := Z.to_nat (2 ^ len) in
  newState <- lift (
    zeros <- zeroState n ;;
    foldM (fun newState i =>
      let gateIndex :=
        fold_left (fun gateIndex q =>
                     let bit := Int32.and (Int32.shr i (n - 1 - nth (Z.to_nat q) qs 0)) 1 in
                     Int32.or gateIndex (Int32.shl bit (len - 1 - q)))
                  (range (length qs)) 0 in
      foldM (fun newState j =>
        let newIndex :=
          fold_left (fun newIndex q =>
                       let s := n - 1 - nth (Z.to_nat q) qs 0 in
                       let newBit := Int32.and (Int32.shr j (len - 1 - q)) 1 in
                       let newIndex := Int32.and newIndex (Int32.not (Int32.shl 1 s)) in
                       Int32.or newIndex (Int32.shl newBit s))
                    (range (length qs)) i in
        gateElement <- melem gate j gateIndex ;;
        accumulate newState newIndex gateElement (arr_get st i))
        (range gateSize) newState)
      (range stateSize) zeros) ;;
  modify (fun this => withState this newState) ;;
  pushHistory.

(** The "safety check for NaN in matrix". *)
Definition hasNaN (m : Mat) : bool :=
  existsb (fun row => existsb (fun e => isNaN (real e) || isNaN (imag e)) row) m.

Definition apply (gateName : string) (ps : option (list F)) (qs : list Z)
  : Exec QuantumSimulator unit :=
  let params := match ps with Some p => p | None => [] end in
  match lookupGate GATE_LIBRARY gateName with
  | None => throw (Error (MsgUnknownGate gateName))
  | Some gateInfo =>
      let matrix :=
        match matrix gateInfo with
        | Param f => f (match params with [] => [zero] | _ => params end)
        | Const m => m
        end in
      if hasNaN matrix then throw (Error (MsgNaNMatrix gateName))
      else
        modify (fun this =>
          withOperations this
            (operations this ++ [mkGateOperation gateName qs (Some params)])) ;;
        if qubits gateInfo =? 1 then
          applySingleQubitGate matrix (nth_error qs 0)
        else if qubits gateInfo =? 2 then
          applyTwoQubitGate matrix (nth_error qs 0) (nth_error qs 1)
        else
          applyMultiQubitGate matrix qs
  end.

Variable random : nat -> F.

(** [(i >> (n - 1 - qubit)) & 1]. *)
Definition bitOf (n qubit i : Z) : Z :=
  Int32.and (Int32.shr i (n - 1 - qubit)) 1.

Definition measure (qubit : Z)
  : Exec (QuantumSimulator * World) (MeasurementResult F) :=
  this <- onObject (gets (fun this => this)) ;;
  let n := numQubits this in
  if (qubit <? 0) || (qubit >=? n) then
    onObject (throw (Error (MsgInvalidQubitIndex qubit)))
  else
    let stateSize := loopBound n in
    probs <- onObject (lift (
      foldM (fun '(prob0, prob1) i =>
               amp <- defined (arr_get (state this) i) ;;
               let bit := bitOf n qubit i in
               let prob := magnitudeSquared amp in
               if bit =? 0 then Ok (prob0 +' prob, prob1)
               else Ok (prob0, prob1 +' prob))
            (range stateSize) (zero, zero))) ;;
    let prob0 := fst probs in
    let prob1 := snd probs in
    rnd <- Math_random random ;;
    let outcome := if rnd <' prob0 then 0 else 1 in
    let probability := if outcome =? 0 then prob0 else prob1 in
    let normFactor := one /' Math_sqrt probability in
    collapsedState <- onObject (lift (
      mapM (fun i =>
              let bit := bitOf n qubit i in
              if bit =? outcome then
                amp <- defined (arr_get (state this) i) ;;
                Ok (scale amp normFactor)
              else Ok ZERO)
           (range stateSize))) ;;
    onObject (modify (fun this => withState this collapsedState)) ;;
    onObject pushHistory ;;
    onObject (modify (fun this =>
      withOperations this
        (operations this ++ [mkGateOperation "MEASURE" [qubit] None]))) ;;
    ret (mkMeasurementResult outcome probability collapsedState).

Definition measureAll : Exec (QuantumSimulator * World) (list Z) :=
  n <- onObject (gets numQubits) ;;
  foldM (fun results i =>
           r <- measure i ;;
           ret (results ++ [outcome r])%list)
        (range (Z.to_nat n)) [].

Definition getProbabilities : Exec QuantumSimulator (list F) :=
  gets (fun this => map magnitudeSquared (state this)).

Definition getProbability (outcome : Z) : Exec QuantumSimulator F :=
  gets (fun this =>
    if (outcome <? 0) || (outcome >=? Z.of_nat (length (state this))) then zero
    else match arr_get (state this) outcome with
         | Some amp => magnitudeSquared amp
         | None => zero
         end).

(** The inner loop of [sample], as in the flat engine. *)
Fixpoint walk (probabilities : list F) (rnd : F) (idxs : list Z) (cumulative : F)
  : option Z :=
  match idxs with
  | [] => None
  | i :: idxs' =>
      let cumulative := cumulative +' f64_get probabilities i in
      if rnd <' cumulative then Some i else walk probabilities rnd idxs' cumulative
  end.

(** [sample] with the function [rng] installed as [Math.random], as in the
    flat engine: [probabilities] is a local set before the first shot;
    [this.numQubits] is read at each shot that is counted. *)
Definition sampleWith (rng : Exec (QuantumSimulator * World) F) (shots : Z)
  : Exec (QuantumSimulator * World) Histogram :=
  tickProbabilityPass ;;
  probabilities <- onObject getProbabilities ;;
  foldM (fun results _ =>
           rnd <- rng ;;
           match walk probabilities rnd (range (length probabilities)) zero with
           | Some i =>
               width <- onObject (gets numQubits) ;;
               let bitstring := padStart0 (toString2 i) width in
               ret (bump results bitstring)
           | None => ret results
           end)
        (range (Z.to_nat shots)) [].

Definition sample (shots : Z)
  : Exec (QuantumSimulator * World) Histogram :=
  sampleWith (Math_random random) shots.

Definition fidelity (targetState : list C) : Exec QuantumSimulator F :=
  st <- gets state ;;
  if negb (length targetState =? length st)%nat then
    throw (Error MsgDimensionsMustMatch)
  else
    ret (magnitudeSquared
           (fold_left (fun overlap '(t, s) =>
                         add overlap (multiply (mkComplex (real t) (-' imag t)) s))
                      (combine targetState st) ZERO)).

Definition reset : Exec QuantumSimulator unit :=
  n <- gets numQubits ;;
  st <- lift (zeroState n) ;;
  modify (fun this => withState this (arr_set st 0 ONE)) ;;
  modify (fun this => withHistory this [state this]) ;;
  modify (fun this => withOperations this []).

Definition getBlochCoordinates (qubit : Z) : Exec QuantumSimulator (Bloch F) :=
  this <- gets (fun this => this) ;;
  let n := numQubits this in
  if n =? 1 then
    alpha <- lift (defined (arr_get (state this) 0)) ;;
    beta <- lift (defined (arr_get (state this) 1)) ;;
    let theta := two *' Math_acos (Math_min one (magnitude alpha)) in
    let phi := Math_atan2 (imag beta) (real beta) -' Math_atan2 (imag alpha) (real alpha) in
    ret (mkBloch (Math_sin theta *' Math_cos phi)
                 (Math_sin theta *' Math_sin phi)
                 (Math_cos theta))
  else
    let stateSize := loopBound n in
    rho <- lift (
      foldM (fun '(rho00, rho11) i =>
               amp <- defined (arr_get (state this) i) ;;
               let bit := bitOf n qubit i in
               let prob := magnitudeSquared amp in
               if bit =? 0 then Ok (rho00 +' prob, rho11)
               else Ok (rho00, rho11 +' prob))
            (range stateSize) (zero, zero)) ;;
    rho01 <- lift (
      foldM (fun rho01 i =>
               let bit_i := bitOf n qubit i in
               if bit_i =? 0 then
                 let j := Int32.or i (Int32.shl 1 (n - 1 - qubit)) in
                 a <- defined (arr_get (state this) i) ;;
                 b <- defined (arr_get (state this) j) ;;
                 let contrib := multiply (mkComplex (real a) (-' imag a)) b in
                 Ok (add rho01 contrib)
               else Ok rho01)
            (range stateSize) ZERO) ;;
    ret (mkBloch (two *' real rho01) (two *' imag rho01) (fst rho -' snd rho)).
End Obj.
End Obj.

(* ================================================================== *)
(** * Properties *)
(* ================================================================== *)

(** ** Counting loops and arrays *)

Lemma range_length (k : nat) : length (range k) = k.
Proof. unfold range. now rewrite length_map, length_seq. Qed.

Lemma range_nth (k i : nat) (d : Z) :
  (i < k)%nat -> nth i (range k) d = Z.of_nat i.
Proof.
  intros Hi. unfold range.
  rewrite nth_indep with (d' := Z.of_nat 0) by (now rewrite length_map, length_seq).
  rewrite map_nth, seq_nth by assumption. reflexivity.
Qed.

Lemma range_In (k : nat) (i : Z) : In i (range k) <-> 0 <= i < Z.of_nat k.
Proof.
  unfold range. rewrite in_map_iff. split.
  - intros (j & <- & Hj). apply in_seq in Hj. lia.
  - intros Hi. exists (Z.to_nat i). split; [lia|]. apply in_seq. lia.
Qed.

Lemma range_S (k : nat) : range (S k) = range k ++ [Z.of_nat k].
Proof. unfold range. now rewrite seq_S, map_app. Qed.

Lemma loopBound_nonneg (n : Z) : 0 <= n -> Z.of_nat (loopBound n) = 2 ^ n.
Proof.
  intros Hn. unfold loopBound.
  destruct (Z.ltb_spec n 0); [lia|].
  rewrite Z2Nat.id; [reflexivity|]. apply Z.pow_nonneg. lia.
Qed.

Lemma set_nth_length {A : Type} (l : list A) (k : nat) (v : A) :
  length (set_nth l k v) = length l.
Proof.
  revert k. induction l as [|a l IH]; intros [|k]; simpl; auto.
Qed.

Lemma arr_set_length {A : Type} (l : list A) (k : Z) (v : A) :
  length (arr_set l k v) = length l.
Proof.
  unfold arr_set. destruct (k <? 0); [reflexivity|apply set_nth_length].
Qed.

Lemma nth_error_set_nth_eq {A : Type} (l : list A) (k : nat) (v : A) :
  (k < length l)%nat -> nth_error (set_nth l k v) k = Some v.
Proof.
  revert k. induction l as [|a l IH]; intros [|k] Hk; simpl in *; try lia; auto.
  apply IH. lia.
Qed.

Lemma nth_error_set_nth_neq {A : Type} (l : list A) (k j : nat) (v : A) :
  k <> j -> nth_error (set_nth l k v) j = nth_error l j.
Proof.
  revert k j. induction l as [|a l IH]; intros [|k] [|j] Hkj; simpl; auto;
    try congruence.
Qed.

Lemma arr_get_set_eq {A : Type} (l : list A) (k : Z) (v : A) :
  0 <= k < Z.of_nat (length l) -> arr_get (arr_set l k v) k = Some v.
Proof.
  intros Hk. unfold arr_get, arr_set.
  destruct (Z.ltb_spec k 0); [lia|].
  apply nth_error_set_nth_eq. lia.
Qed.

Lemma arr_get_set_neq {A : Type} (l : list A) (k j : Z) (v : A) :
  k <> j -> arr_get (arr_set l k v) j = arr_get l j.
Proof.
  intros Hkj. unfold arr_get, arr_set.
  destruct (Z.ltb_spec j 0); [reflexivity|].
  destruct (Z.ltb_spec k 0); [reflexivity|].
  apply nth_error_set_nth_neq. lia.
Qed.

Lemma arr_get_in_range {A : Type} (l : list A) (k : Z) :
  0 <= k < Z.of_nat (length l) -> exists v, arr_get l k = Some v.
Proof.
  intros Hk. unfold arr_get. destruct (Z.ltb_spec k 0); [lia|].
  destruct (nth_error l (Z.to_nat k)) eqn:E; [eauto|].
  apply nth_error_None in E. lia.
Qed.

Lemma arr_get_out_of_range {A : Type} (l : list A) (k : Z) :
  k < 0 \/ Z.of_nat (length l) <= k -> arr_get l k = None.
Proof.
  intros Hk. unfold arr_get. destruct (Z.ltb_spec k 0); [reflexivity|].
  apply nth_error_None. lia.
Qed.

(** ** C10: [getState] of the flat engine *)

Section GetState.
Context {F : Type} {N : Num F}.

(** The amplitude of basis state [i] as [getState] reports it. *)
Definition amplitudeAt (st : list F) (i : Z) : Complex F :=
  mkComplex (f64_get st (2 * i)) (f64_get st (2 * i + 1)).

Lemma getState_eq (this : Flat.QuantumSimulator) :
  0 <= Flat.numQubits this ->
  Flat.getState this =
    (Ok (map (amplitudeAt (Flat.state this))
             (range (Z.to_nat (Z.min (2 ^ Flat.numQubits this) 16384)))),
     this).
Proof.
  intros Hn. unfold Flat.getState, gets.
  assert (E : Nat.min (loopBound (Flat.numQubits this)) (1024 * 16)
              = Z.to_nat (Z.min (2 ^ Flat.numQubits this) 16384)).
  { apply Nat2Z.inj. rewrite Nat2Z.inj_min, loopBound_nonneg by assumption.
    rewrite Z2Nat.id by (apply Z.min_glb; [apply Z.pow_nonneg|]; lia).
    reflexivity. }
  rewrite E. reflexivity.
Qed.
End GetState.

(** C10. For every qubit count [n >= 0], [getState()] of the flat-array
    engine returns without error, leaves the engine as it is, and returns
    exactly [min(2^n, 16384)] amplitudes, the [i]-th being the amplitude of
    basis state [i]: the whole state vector when [n <= 14], and only the
    first 16384 basis states (fewer than [2^n]) when [n >= 15]. *)
Theorem C10_getState_truncates :
  forall (F : Type) (N : Num F) (this : Flat.QuantumSimulator),
    0 <= Flat.numQubits this ->
    exists amplitudes,
      Flat.getState this = (Ok amplitudes, this) /\
      Z.of_nat (length amplitudes) = Z.min (2 ^ Flat.numQubits this) 16384 /\
      (forall i, 0 <= i < Z.of_nat (length amplitudes) ->
         arr_get amplitudes i = Some (amplitudeAt (Flat.state this) i)) /\
      (Flat.numQubits this <= 14 ->
         Z.of_nat (length amplitudes) = 2 ^ Flat.numQubits this) /\
      (15 <= Flat.numQubits this ->
         Z.of_nat (length amplitudes) = 16384 /\
         16384 < 2 ^ Flat.numQubits this).
Proof.
  intros F N this Hn.
  assert (Hpos : 0 < 2 ^ Flat.numQubits this) by (apply Z.pow_pos_nonneg; lia).
  eexists. split; [apply getState_eq; assumption|].
  assert (Hlen : Z.of_nat (length (map (amplitudeAt (Flat.state this))
            (range (Z.to_nat (Z.min (2 ^ Flat.numQubits this) 16384)))))
          = Z.min (2 ^ Flat.numQubits this) 16384).
  { rewrite length_map, range_length, Z2Nat.id; lia. }
  split; [exact Hlen|]. split; [|split].
  - intros i Hi. rewrite Hlen in Hi. unfold arr_get.
    destruct (Z.ltb_spec i 0); [lia|].
    rewrite nth_error_map.
    rewrite (@nth_error_nth' _ (range _) (Z.to_nat i) 0)
      by (rewrite range_length; lia).
    rewrite range_nth by lia. simpl. now rewrite Z2Nat.id by lia.
  - intros H14. rewrite Hlen.
    assert (2 ^ Flat.numQubits this <= 2 ^ 14)
      by (apply Z.pow_le_mono_r; lia).
    change (2 ^ 14) with 16384 in *; lia.
  - intros H15. rewrite Hlen.
    assert (2 ^ 15 <= 2 ^ Flat.numQubits this)
      by (apply Z.pow_le_mono_r; lia).
    change (2 ^ 15) with 32768 in *; lia.
Qed.

(** ** C9: [initialize] with an index outside the state vector *)

Section Initialize.
Context {F : Type} {N : Num F}.

(** [Σ |amplitude|²], accumulated as [setState] does. *)
Definition normSquared (st : list (Complex F)) : F :=
  fold_left (fun sum amp => sum +' magnitudeSquared amp) st zero.

Lemma zeroState_ok (n : Z) :
  0 <= n <= 31 -> Obj.zeroState n = Ok (repeat (@ZERO F N) (Z.to_nat (2 ^ n))).
Proof.
  intros Hn. unfold Obj.zeroState.
  destruct (Z.ltb_spec n 0); [lia|]. simpl.
  assert (2 ^ n <= 2 ^ 31) by (apply Z.pow_le_mono_r; lia).
  change (2 ^ 31) with 2147483648 in *. change (2 ^ 32 - 1) with 4294967295.
  destruct (Z.gtb_spec (2 ^ n) 4294967295); [lia|reflexivity].
Qed.
End Initialize.

Lemma normSquared_zeros (k : nat) :
  normSquared (repeat (@ZERO xreal _) k) = Fin 0.
Proof.
  unfold normSquared.
  assert (H : forall acc, acc = Fin 0 ->
            fold_left (fun sum amp => sum +' magnitudeSquared amp)
                      (repeat (@ZERO xreal _) k) acc = Fin 0).
  { induction k as [|k IH]; intros acc ->; simpl; [reflexivity|].
    apply IH. f_equal. lra. }
  apply H. reflexivity.
Qed.

(** C9. For every integer basis index outside [[0, 2^n)], [initialize(index)]
    of the object-per-amplitude engine completes without raising an error
    and leaves every amplitude equal to zero, while the history is reset to
    that single all-zero snapshot and the operation log is emptied; in exact
    arithmetic the squared norm of the resulting state is 0, not 1. *)
Theorem C9_initialize_out_of_range_zero_state :
  (forall (F : Type) (N : Num F) (this : Obj.QuantumSimulator) (index : Z),
      0 <= Obj.numQubits this <= 31 ->
      index < 0 \/ 2 ^ Obj.numQubits this <= index ->
      exists this',
        Obj.initialize (inr index) this = (Ok tt, this') /\
        Obj.state this' = repeat ZERO (Z.to_nat (2 ^ Obj.numQubits this)) /\
        (forall amp, In amp (Obj.state this') -> amp = ZERO) /\
        Obj.history this' = [Obj.state this'] /\
        Obj.operations this' = [] /\
        Obj.numQubits this' = Obj.numQubits this) /\
  (forall (this : @Obj.QuantumSimulator xreal) (index : Z),
      0 <= Obj.numQubits this <= 31 ->
      index < 0 \/ 2 ^ Obj.numQubits this <= index ->
      normSquared (Obj.state (snd (Obj.initialize (inr index) this))) = Fin 0).
Proof.
  assert (Hgen : forall (F : Type) (N : Num F) (this : Obj.QuantumSimulator) (index : Z),
      0 <= Obj.numQubits this <= 31 ->
      index < 0 \/ 2 ^ Obj.numQubits this <= index ->
      Obj.initialize (inr index) this =
        (Ok tt,
         Obj.mkSim (repeat ZERO (Z.to_nat (2 ^ Obj.numQubits this)))
                   (Obj.numQubits this)
                   [repeat ZERO (Z.to_nat (2 ^ Obj.numQubits this))] []
                   (Obj.noiseModel this))).
  { intros F N this index Hn Hidx.
    unfold Obj.initialize. cbn [bind Exec_Monad gets lift modify ret].
    rewrite zeroState_ok by assumption.
    cbn [Obj.withState Obj.numQubits Obj.state].
    assert (E : (index >=? 0) && (index <? 2 ^ Obj.numQubits this) = false).
    { destruct (Z.geb_spec index 0), (Z.ltb_spec index (2 ^ Obj.numQubits this));
        simpl; try reflexivity; lia. }
    rewrite E. reflexivity. }
  split.
  - intros F N this index Hn Hidx. eexists. split; [apply Hgen; assumption|].
    cbn [Obj.state Obj.history Obj.operations Obj.numQubits].
    repeat split; try reflexivity.
    intros amp Hin. now apply repeat_spec in Hin.
  - intros this index Hn Hidx. rewrite Hgen by assumption.
    cbn [snd Obj.state]. apply normSquared_zeros.
Qed.

(** C9 at a one-qubit engine in state [|0>] and index 2. *)
Lemma C9_initialize_out_of_range_witness :
  exists this',
    Obj.initialize (inr 2)
      (@Obj.mkSim xreal [ONE; ZERO] 1 [[ONE; ZERO]] [] None) = (Ok tt, this') /\
    Obj.state this' = repeat ZERO (Z.to_nat (2 ^ 1)) /\
    (forall amp, In amp (Obj.state this') -> amp = ZERO) /\
    Obj.history this' = [Obj.state this'] /\
    Obj.operations this' = [] /\
    Obj.numQubits this' = 1.
Proof.
  apply (proj1 C9_initialize_out_of_range_zero_state xreal _
           (@Obj.mkSim xreal [ONE; ZERO] 1 [[ONE; ZERO]] [] None) 2).
  - simpl. lia.
  - right. simpl. lia.
Defined.

(** ** C4: qubit-count validation and construction *)

Section Construction.
Context {F : Type} {N : Num F}.

Lemma repeat_set_head {A : Type} (a b : A) (k : nat) :
  (0 < k)%nat -> arr_set (repeat a k) 0 b = b :: repeat a (k - 1).
Proof.
  intros Hk. destruct k as [|k]; [lia|]. simpl.
  now rewrite Nat.sub_0_r.
Qed.

Lemma Flat_constructor_ok (n : Z) :
  0 <= n <= 51 ->
  Flat.constructor (inr n) =
    Ok (Flat.mkSim n (one :: repeat zero (Z.to_nat (2 ^ (n + 1)) - 1)) None).
Proof.
  intros Hn. unfold Flat.constructor, Flat.Float64Array.
  assert (0 < 2 ^ (n + 1) <= 2 ^ 52)
    by (split; [apply Z.pow_pos_nonneg|apply Z.pow_le_mono_r]; lia).
  change (2 ^ 52) with 4503599627370496 in *.
  change (2 ^ 53 - 1) with 9007199254740991.
  destruct (Z.gtb_spec (2 ^ (n + 1)) 9007199254740991); [lia|].
  cbn [bind result_Monad]. unfold f64_set.
  rewrite repeat_set_head by lia. reflexivity.
Qed.

Lemma Obj_constructor_ok (n : Z) :
  0 <= n <= 31 ->
  Obj.constructor (inr n) =
    Ok (Obj.mkSim (ONE :: repeat ZERO (Z.to_nat (2 ^ n) - 1)) n
                  [ONE :: repeat ZERO (Z.to_nat (2 ^ n) - 1)] [] None).
Proof.
  intros Hn. unfold Obj.constructor. rewrite zeroState_ok by assumption.
  cbn [bind result_Monad].
  assert (0 < 2 ^ n) by (apply Z.pow_pos_nonneg; lia).
  rewrite repeat_set_head by lia. reflexivity.
Qed.
End Construction.




(** ** C1: a gate applied to a qubit index out of range *)

(** The one-qubit engines right after construction. *)
Definition flat1 {F : Type} {N : Num F} : Flat.QuantumSimulator :=
  Flat.mkSim 1 [one; zero; zero; zero] None.

Definition obj_fresh {F : Type} {N : Num F} (n : Z) : Obj.QuantumSimulator :=
  let st := ONE :: repeat ZERO (Z.to_nat (2 ^ n) - 1) in
  Obj.mkSim st n [st] [] None.

(** C1 fails on the flat engine: [apply('X', 1)] on a one-qubit engine
    (qubit index = numQubits) raises nothing and overwrites every amplitude
    with NaN, both in exact arithmetic with NaN and in binary64. *)
Theorem C1_flat_apply_out_of_range_writes_NaN :
  @Flat.constructor xreal _ (inr 1) = Ok flat1 /\
  Flat.apply Gates.GATE_LIBRARY "X" None [1] (@flat1 xreal _) =
    (Ok tt, Flat.mkSim 1 [XNaN; XNaN; XNaN; XNaN] None) /\
  (forall L : Libm,
     @Flat.apply float (float_Num L) (@Gates.GATE_LIBRARY float (float_Num L))
                 "X" None [1] (@flat1 float (float_Num L)) =
       (Ok tt, Flat.mkSim 1 [PrimFloat.nan; PrimFloat.nan; PrimFloat.nan; PrimFloat.nan]
                          None)).
Proof.
  split; [reflexivity|]. split; [reflexivity|].
  intros L. vm_compute. reflexivity.
Qed.

(** The object engine guards one- and two-qubit gates: the call throws and
    the amplitudes and the history stay, but the operation log has already
    recorded the gate. *)
Lemma Obj_apply_single_out_of_range (F : Type) (N : Num F)
      (lib : GateTable F) (gateName : string) (gateInfo : GateInfo F)
      (ps : option (list F)) (q : Z) (qs : list Z) (this : Obj.QuantumSimulator) :
  lookupGate lib gateName = Some gateInfo ->
  qubits gateInfo = 1 ->
  Obj.hasNaN (match matrix gateInfo with
              | Param f => f (match ps with Some (p :: l) => p :: l | _ => [zero] end)
              | Const m => m
              end) = false ->
  q < 0 \/ Obj.numQubits this <= q ->
  exists this',
    Obj.apply lib gateName ps (q :: qs) this
      = (Throw (Error (MsgInvalidQubitIndex q)), this') /\
    Obj.state this' = Obj.state this /\
    Obj.history this' = Obj.history this /\
    Obj.operations this' =
      Obj.operations this
        ++ [mkGateOperation gateName (q :: qs)
              (Some (match ps with Some p => p | None => [] end))].
Proof.
  intros Hg Hq Hnan Hout. unfold Obj.apply. rewrite Hg.
  replace (match match ps with Some p => p | None => [] end with
           | [] => [zero] | _ :: _ => match ps with Some p => p | None => [] end end)
    with (match ps with Some (p :: l) => p :: l | _ => [zero] end)
    by (destruct ps as [[|p l]|]; reflexivity).
  rewrite Hnan, Hq. cbn [bind Exec_Monad modify Z.eqb Pos.eqb nth_error].
  unfold Obj.applySingleQubitGate.
  cbn [bind Exec_Monad gets Obj.withOperations Obj.numQubits Obj.outOfRange].
  assert (E : (q <? 0) || (q >=? Obj.numQubits this) = true).
  { destruct (Z.ltb_spec q 0), (Z.geb_spec q (Obj.numQubits this));
      simpl; try reflexivity; lia. }
  rewrite E. unfold throw. eexists. split; [reflexivity|].
  cbn [Obj.state Obj.history Obj.operations]. repeat split.
Qed.

(** The multi-qubit path of the object engine has no guard: on three qubits
    in state [|110>], a Toffoli whose third index is 34 is carried out on
    qubit 2 and moves the amplitude to [|111>]; with third index 3 the call
    dies of a [TypeError] instead of a bounds error. *)
Lemma Obj_apply_multi_out_of_range (L : Libm) :
  let N := float_Num L in
  let c (re : Z) : Complex float := mkComplex (Float64.ofZ re) (Float64.ofZ 0) in
  let ket110 := [c 0; c 0; c 0; c 0; c 0; c 0; c 1; c 0] in
  let ket111 := [c 0; c 0; c 0; c 0; c 0; c 0; c 0; c 1] in
  let this := Obj.mkSim ket110 3 [ket110] [] None in
  Obj.state (snd (Obj.apply Gates.GATE_LIBRARY "Toffoli" None [0; 1; 34] this)) = ket111 /\
  fst (Obj.apply Gates.GATE_LIBRARY "Toffoli" None [0; 1; 34] this) = Ok tt /\
  fst (Obj.apply Gates.GATE_LIBRARY "Toffoli" None [0; 1; 3] this) = Throw TypeError /\
  Obj.state (snd (Obj.apply Gates.GATE_LIBRARY "Toffoli" None [0; 1; 3] this)) = ket110.
Proof. vm_compute. repeat split. Qed.

(** ** C7: NaN entries in a parameterized gate matrix *)

(** The object engine checks the matrix before anything is mutated: a NaN
    entry aborts the call with the engine exactly as it was. *)
Lemma Obj_apply_rejects_NaN (F : Type) (N : Num F)
      (lib : GateTable F) (gateName : string) (gateInfo : GateInfo F)
      (ps : option (list F)) (qs : list Z) (this : Obj.QuantumSimulator) :
  lookupGate lib gateName = Some gateInfo ->
  Obj.hasNaN (match matrix gateInfo with
              | Param f => f (match ps with Some (p :: l) => p :: l | _ => [zero] end)
              | Const m => m
              end) = true ->
  Obj.apply lib gateName ps qs this = (Throw (Error (MsgNaNMatrix gateName)), this).
Proof.
  intros Hg Hnan. unfold Obj.apply. rewrite Hg.
  replace (match match ps with Some p => p | None => [] end with
           | [] => [zero] | _ :: _ => match ps with Some p => p | None => [] end end)
    with (match ps with Some (p :: l) => p :: l | _ => [zero] end)
    by (destruct ps as [[|p l]|]; reflexivity).
  rewrite Hnan. reflexivity.
Qed.

(** C7 fails on the flat engine: [apply('Rx', [NaN], 0)] on a one-qubit
    engine evaluates [Rx] to a matrix with NaN entries, raises nothing and
    stores NaN in every amplitude; the object engine rejects the same call
    and keeps its state. *)
Theorem C7_flat_apply_propagates_NaN :
  Obj.hasNaN (Gates.Rx (@NaN xreal _)) = true /\
  Flat.apply Gates.GATE_LIBRARY "Rx" (Some [XNaN]) [0] (@flat1 xreal _) =
    (Ok tt, Flat.mkSim 1 [XNaN; XNaN; XNaN; XNaN] None) /\
  Obj.apply Gates.GATE_LIBRARY "Rx" (Some [XNaN]) [0] (@obj_fresh xreal _ 1) =
    (Throw (Error (MsgNaNMatrix "Rx")), obj_fresh 1).
Proof. repeat split. Qed.

(** ** C8: sampling *)

Section BitstringKeys.
Local Open Scope string_scope.

Lemma string_length_append (s t : string) :
  String.length (s ++ t) = (String.length s + String.length t)%nat.
Proof. induction s as [|c s IH]; simpl; [reflexivity|now rewrite IH]. Qed.

Lemma binaryDigits_length (p : positive) :
  forall n : nat, Zpos p < 2 ^ Z.of_nat n -> (String.length (binaryDigits p) <= n)%nat.
Proof.
  induction p as [p IH|p IH|]; intros n Hp.
  - destruct n as [|n]; [simpl in Hp; lia|].
    rewrite Nat2Z.inj_succ, Z.pow_succ_r in Hp by lia.
    simpl. rewrite string_length_append. simpl.
    specialize (IH n). rewrite Pos2Z.inj_xI in Hp. lia.
  - destruct n as [|n]; [simpl in Hp; lia|].
    rewrite Nat2Z.inj_succ, Z.pow_succ_r in Hp by lia.
    simpl. rewrite string_length_append. simpl.
    specialize (IH n). rewrite Pos2Z.inj_xO in Hp. lia.
  - destruct n as [|n]; [simpl in Hp; lia|]. simpl. lia.
Qed.

Lemma toString2_length (i n : Z) :
  1 <= n -> 0 <= i < 2 ^ n -> Z.of_nat (String.length (toString2 i)) <= n.
Proof.
  intros Hn Hi. destruct i as [|p|p]; simpl; [lia| |lia].
  pose proof (@binaryDigits_length p (Z.to_nat n)) as H.
  rewrite Z2Nat.id in H by lia. specialize (H (proj2 Hi)). lia.
Qed.

Lemma zeros_length (k : nat) : String.length (zeros k) = k.
Proof. induction k as [|k IH]; simpl; [reflexivity|now rewrite IH]. Qed.

(** A key [i.toString(2).padStart(n, '0')] of an index below [2^n] is
    exactly [n] characters wide. *)
Lemma key_width (i n : Z) :
  1 <= n -> 0 <= i < 2 ^ n ->
  Z.of_nat (String.length (padStart0 (toString2 i) n)) = n.
Proof.
  intros Hn Hi. pose proof (toString2_length Hn Hi) as H.
  unfold padStart0. rewrite string_length_append, zeros_length. lia.
Qed.

Lemma map_set_keys (m : Histogram) (k : string) (v : Z) (k' : string) :
  In k' (map fst (map_set m k v)) -> In k' (map fst m) \/ k' = k.
Proof.
  induction m as [|[k0 v0] m IH]; simpl.
  - intros [<-|[]]. now right.
  - destruct (String.eqb_spec k0 k) as [->|Hne]; simpl.
    + intros [<-|H]; auto.
    + intros [<-|H]; auto. destruct (IH H); auto.
Qed.

Lemma bump_keys (m : Histogram) (k k' : string) :
  In k' (map fst (bump m k)) -> In k' (map fst m) \/ k' = k.
Proof. unfold bump. apply map_set_keys. Qed.
End BitstringKeys.

Section SampleLoop.
Context {F S : Type} {N : Num F}.
Variable random : nat -> F.
(** The index a draw selects, and the key it is counted under. *)
Variable pick : F -> option Z.
Variable key : Z -> string.

Definition shotBody (results : Histogram) (_ : Z)
  : Exec (S * World) Histogram :=
  rnd <- Math_random random ;;
  match pick rnd with
  | Some i => ret (bump results (key i))
  | None => ret results
  end.

(** The histogram of a list of draws: each draw that selects an index adds
    one to the count of its key. *)
Definition tally (draws : list F) (results : Histogram) : Histogram :=
  fold_left (fun results rnd =>
               match pick rnd with
               | Some i => bump results (key i)
               | None => results
               end)
            draws results.

(** The shot loop touches neither the object nor the pass counter, draws
    once per shot, and returns the tally of its draws. *)
Lemma shot_loop_tally (shots : list Z) :
  forall (results : Histogram) (s : S) (w : World),
    foldM shotBody shots results (s, w) =
      (Ok (tally (map random (seq (randomCalls w) (length shots))) results),
       (s, mkWorld (randomCalls w + length shots) (probabilityPasses w))).
Proof.
  induction shots as [|shot shots IH]; intros results s w.
  - cbn [foldM ret Exec_Monad length seq map tally fold_left].
    rewrite Nat.add_0_r. destruct w; reflexivity.
  - cbn [foldM bind Exec_Monad]. unfold shotBody at 1.
    cbn [bind Exec_Monad Math_random ret length seq map tally fold_left].
    destruct (pick (random (randomCalls w))) as [i|];
      rewrite IH; cbn [randomCalls probabilityPasses];
      now rewrite Nat.add_succ_r.
Qed.

Lemma tally_keys (P : string -> Prop) :
  (forall rnd i, pick rnd = Some i -> P (key i)) ->
  forall (draws : list F) (results : Histogram),
    (forall k, In k (map fst results) -> P k) ->
    forall k, In k (map fst (tally draws results)) -> P k.
Proof.
  intros Hkey. induction draws as [|rnd draws IH]; intros results Hres;
    cbn [tally fold_left]; [exact Hres|].
  apply IH. destruct (pick rnd) as [i|] eqn:Epick; [|exact Hres].
  intros k Hk. apply bump_keys in Hk. destruct Hk as [Hk| ->]; eauto.
Qed.
End SampleLoop.

Section SampleShots.
Context {F S : Type} {N : Num F}.
(** The qubit count of an engine, and the index a draw selects. *)
Variable numQubitsOf : S -> Z.
Variable pick : F -> option Z.

(** One shot of [sample] under a selection rule that was fixed before the
    loop: a call of whatever is installed as [Math.random], then the count
    of the selected index, under a key as wide as the qubit count the
    engine has at that moment. *)
Definition shot (rng : Exec (S * World) F) (results : Histogram) (_ : Z)
  : Exec (S * World) Histogram :=
  rnd <- rng ;;
  match pick rnd with
  | Some i =>
      width <- onObject (gets numQubitsOf) ;;
      ret (bump results (padStart0 (toString2 i) width))
  | None => ret results
  end.

(** Under the host's [Math.random] the engine is the same at every shot. *)
Lemma shot_Math_random (random : nat -> F) (shots : list Z) :
  forall (results : Histogram) (s : S) (w : World),
    foldM (shot (Math_random random)) shots results (s, w) =
      foldM (shotBody random pick (fun i => padStart0 (toString2 i) (numQubitsOf s)))
            shots results (s, w).
Proof.
  induction shots as [|sh shots IH]; intros results s w; [reflexivity|].
  cbn [foldM bind Exec_Monad]. unfold shot at 1, shotBody at 1.
  cbn [bind Exec_Monad Math_random ret onObject gets].
  destruct (pick (random (randomCalls w))) as [i|]; apply IH.
Qed.
End SampleShots.

Section SampleWalk.
Context {F : Type} {N : Num F}.

Lemma Flat_walk_In (probs : list F) (rnd : F) (idxs : list Z) :
  forall cumulative i,
    Flat.walk probs rnd idxs cumulative = Some i -> In i idxs.
Proof.
  induction idxs as [|j idxs IH]; intros cumulative i; simpl; [discriminate|].
  destruct (rnd <' cumulative +' f64_get probs j).
  - intros [= <-]. now left.
  - intros H. right. eapply IH, H.
Qed.

Lemma Obj_walk_In (probs : list F) (rnd : F) (idxs : list Z) :
  forall cumulative i,
    Obj.walk probs rnd idxs cumulative = Some i -> In i idxs.
Proof.
  induction idxs as [|j idxs IH]; intros cumulative i; simpl; [discriminate|].
  destruct (rnd <' cumulative +' f64_get probs j).
  - intros [= <-]. now left.
  - intros H. right. eapply IH, H.
Qed.

Lemma Float64Array_ok (len : Z) :
  len <= 2 ^ 53 - 1 -> Flat.Float64Array len = Ok (repeat (@zero F N) (Z.to_nat len)).
Proof.
  intros H. unfold Flat.Float64Array.
  destruct (Z.gtb_spec len (2 ^ 53 - 1)); [lia|reflexivity].
Qed.
End SampleWalk.

(** The object engine's [sample] under the host's [Math.random]: one pass
    for the probabilities, then the shot loop against them. *)
Lemma Obj_sample_shotBody {F : Type} {N : Num F} (random : nat -> F) (shots : Z)
      (this : Obj.QuantumSimulator) (w : World) :
  Obj.sample random shots (this, w) =
    foldM (shotBody random
             (fun rnd => Obj.walk (map magnitudeSquared (Obj.state this)) rnd
                           (range (length (map magnitudeSquared (Obj.state this))))
                           zero)
             (fun i => padStart0 (toString2 i) (Obj.numQubits this)))
          (range (Z.to_nat shots)) []
          (this, mkWorld (randomCalls w) (S (probabilityPasses w))).
Proof.
  unfold Obj.sample, Obj.sampleWith.
  cbn [bind Exec_Monad onObject gets tickProbabilityPass Obj.getProbabilities].
  apply (shot_Math_random (@Obj.numQubits F)).
Qed.

(** ** 32-bit operations on small non-negative integers *)

Unset Implicit Arguments.

Module Int32Facts.
Lemma wrap_small (z : Z) : - 2 ^ 31 <= z < 2 ^ 31 -> Int32.wrap z = z.
Proof.
  intros Hz. unfold Int32.wrap.
  rewrite Z.mod_small; [lia|]. change (2 ^ 32) with (2 * 2 ^ 31). lia.
Qed.

Lemma pow2_lt_31 (s : Z) : 0 <= s < 31 -> 0 < 2 ^ s < 2 ^ 31.
Proof.
  intros Hs. split; [apply Z.pow_pos_nonneg; lia|].
  apply Z.pow_lt_mono_r; lia.
Qed.

Lemma shl_1 (s : Z) : 0 <= s < 31 -> Int32.shl 1 s = 2 ^ s.
Proof.
  intros Hs. unfold Int32.shl.
  rewrite (wrap_small 1) by (change (2 ^ 31) with 2147483648; lia).
  rewrite Z.mod_small by lia. rewrite Z.shiftl_1_l.
  apply wrap_small. pose proof (pow2_lt_31 s Hs). lia.
Qed.

Lemma and_small (a b : Z) :
  0 <= a < 2 ^ 31 -> 0 <= b < 2 ^ 31 -> Int32.and a b = Z.land a b.
Proof.
  intros Ha Hb. unfold Int32.and. now rewrite !wrap_small by lia.
Qed.

Lemma or_small (a b : Z) :
  0 <= a < 2 ^ 31 -> 0 <= b < 2 ^ 31 -> Int32.or a b = Z.lor a b.
Proof.
  intros Ha Hb. unfold Int32.or. now rewrite !wrap_small by lia.
Qed.

Lemma shr_small (a s : Z) :
  0 <= a < 2 ^ 31 -> 0 <= s < 32 -> Int32.shr a s = Z.shiftr a s.
Proof.
  intros Ha Hs. unfold Int32.shr.
  now rewrite wrap_small, Z.mod_small by lia.
Qed.

Lemma shiftr_bound (a s : Z) : 0 <= a < 2 ^ 31 -> 0 <= s -> 0 <= Z.shiftr a s < 2 ^ 31.
Proof.
  intros Ha Hs. rewrite Z.shiftr_div_pow2 by lia.
  assert (0 < 2 ^ s) by (apply Z.pow_pos_nonneg; lia).
  split; [apply Z.div_pos; lia|].
  apply Z.le_lt_trans with a; [|lia].
  apply Z.div_le_upper_bound; nia.
Qed.

Lemma land_1 (a : Z) : Z.land a 1 = Z.b2z (Z.testbit a 0).
Proof.
  change 1 with (Z.ones 1). rewrite Z.land_ones by lia.
  change (2 ^ 1) with 2. symmetry. apply Z.bit0_mod.
Qed.

(** An index below [2^n] with [n <= 31] is a non-negative 32-bit integer. *)
Lemma index_bound (n i : Z) : 0 <= n <= 31 -> 0 <= i < 2 ^ n -> 0 <= i < 2 ^ 31.
Proof.
  intros Hn Hi. assert (2 ^ n <= 2 ^ 31) by (apply Z.pow_le_mono_r; lia). lia.
Qed.
End Int32Facts.

(** The value of qubit [q] in basis index [i]: bit [n - 1 - q], qubit 0
    being the most significant. *)
Definition qubitValue (n q i : Z) : Z := Z.b2z (Z.testbit i (n - 1 - q)).

Lemma bitOf_qubitValue (n q i : Z) :
  0 <= n <= 31 -> 0 <= q < n -> 0 <= i < 2 ^ n ->
  Obj.bitOf n q i = qubitValue n q i.
Proof.
  intros Hn Hq Hi. unfold Obj.bitOf, qubitValue.
  pose proof (Int32Facts.index_bound n i Hn Hi) as Hi31.
  rewrite Int32Facts.shr_small by lia.
  rewrite Int32Facts.and_small
    by (try apply Int32Facts.shiftr_bound; change (2 ^ 31) with 2147483648; lia).
  rewrite Int32Facts.land_1, Z.shiftr_spec by lia.
  now rewrite Z.add_0_l.
Qed.

Lemma qubitValue_cases (n q i : Z) : qubitValue n q i = 0 \/ qubitValue n q i = 1.
Proof. unfold qubitValue. destruct (Z.testbit i (n - 1 - q)); auto. Qed.

(** ** C5: measurement *)

Lemma arr_get_nth {A : Type} (l : list A) (k : Z) (d : A) :
  0 <= k < Z.of_nat (length l) -> arr_get l k = Some (nth (Z.to_nat k) l d).
Proof.
  intros Hk. unfold arr_get. destruct (Z.ltb_spec k 0); [lia|].
  apply nth_error_nth'. lia.
Qed.

Lemma mapM_ok {A B : Type} (f : A -> result B) (g : A -> B) (l : list A) :
  (forall a, In a l -> f a = Ok (g a)) -> mapM f l = Ok (map g l).
Proof.
  induction l as [|a l IH]; intros H; simpl; [reflexivity|].
  rewrite (H a) by now left. rewrite IH by (intros; apply H; now right).
  reflexivity.
Qed.

Section Measure.
Context {F : Type} {N : Num F}.
Local Abbreviation C := (Complex F).

(** A sum of numbers, accumulated from 0 in list order. *)
Definition sumF (l : list F) : F := fold_left fadd l zero.

Definition amplitudeOf (st : list C) (i : Z) : C := nth (Z.to_nat i) st ZERO.

(** The basis indices whose qubit [q] has value [b], in increasing order. *)
Definition indicesWith (n q b : Z) : list Z :=
  filter (fun i => qubitValue n q i =? b) (range (Z.to_nat (2 ^ n))).

(** P(b): the sum of [|amplitude|²] over the indices whose bit [q] is [b]. *)
Definition outcomeProbability (n q : Z) (st : list C) (b : Z) : F :=
  sumF (map (fun i => magnitudeSquared (amplitudeOf st i)) (indicesWith n q b)).

(** The collapsed state: zero where bit [q] disagrees with the outcome,
    the amplitude rescaled by [1 / sqrt p] where it agrees. *)
Definition collapse (n q : Z) (st : list C) (outcome : Z) (p : F) : list C :=
  map (fun i => if qubitValue n q i =? outcome
                then scale (amplitudeOf st i) (one /' Math_sqrt p)
                else ZERO)
      (range (Z.to_nat (2 ^ n))).

Lemma measure_probabilities_loop (n q : Z) (st : list C) (l : list Z) :
  0 <= n <= 31 -> 0 <= q < n -> Z.of_nat (length st) = 2 ^ n ->
  (forall i, In i l -> 0 <= i < 2 ^ n) ->
  forall a0 a1 : F,
    foldM (fun '(prob0, prob1) i =>
             amp <- defined (arr_get st i) ;;
             let bit := Obj.bitOf n q i in
             let prob := magnitudeSquared amp in
             if bit =? 0 then Ok (prob0 +' prob, prob1)
             else Ok (prob0, prob1 +' prob))
          l (a0, a1)
    = Ok (fold_left fadd
            (map (fun i => magnitudeSquared (amplitudeOf st i))
                 (filter (fun i => qubitValue n q i =? 0) l)) a0,
          fold_left fadd
            (map (fun i => magnitudeSquared (amplitudeOf st i))
                 (filter (fun i => qubitValue n q i =? 1) l)) a1).
Proof.
  intros Hn Hq Hlen. induction l as [|i l IH]; intros Hl a0 a1.
  - reflexivity.
  - assert (Hi : 0 <= i < 2 ^ n) by (apply Hl; now left).
    cbn [foldM bind result_Monad].
    rewrite (arr_get_nth st i ZERO) by lia.
    cbn [defined]. rewrite bitOf_qubitValue by assumption.
    cbn [filter]. fold (amplitudeOf st i).
    destruct (qubitValue_cases n q i) as [E|E]; rewrite E; cbn [Z.eqb Pos.eqb map fold_left];
      apply IH; intros; apply Hl; now right.
Qed.
End Measure.



(** C10 at a 15-qubit engine. *)
Lemma C10_getState_truncates_witness :
  exists amplitudes,
    Flat.getState (Flat.mkSim 15 (repeat (Fin 0) 65536) None) =
      (Ok amplitudes, Flat.mkSim 15 (repeat (Fin 0) 65536) None) /\
    Z.of_nat (length amplitudes) = Z.min (2 ^ 15) 16384 /\
    (forall i, 0 <= i < Z.of_nat (length amplitudes) ->
       arr_get amplitudes i = Some (amplitudeAt (repeat (Fin 0) 65536) i)) /\
    (15 <= 14 -> Z.of_nat (length amplitudes) = 2 ^ 15) /\
    (15 <= 15 -> Z.of_nat (length amplitudes) = 16384 /\ 16384 < 2 ^ 15).
Proof.
  apply (@C10_getState_truncates xreal _ (Flat.mkSim 15 (repeat (Fin 0) 65536) None)).
  simpl. lia.
Defined.

(** ** Bloch coordinates of the flat engine *)

Lemma land_pow2_zero (i s : Z) :
  0 <= s -> (Z.land i (2 ^ s) =? 0) = negb (Z.testbit i s).
Proof.
  intros Hs. destruct (Z.testbit i s) eqn:E; simpl.
  - apply Z.eqb_neq. intros H0.
    apply (f_equal (fun x => Z.testbit x s)) in H0.
    rewrite Z.land_spec, E, Z.pow2_bits_true, Z.bits_0 in H0 by lia. discriminate.
  - apply Z.eqb_eq. apply Z.bits_inj'. intros m Hm.
    rewrite Z.land_spec, Z.bits_0, Z.pow2_bits_eqb by lia.
    destruct (Z.eqb_spec s m) as [->|]; [now rewrite E|apply andb_false_r].
Qed.

Lemma mask_test (n q i : Z) :
  0 <= n <= 31 -> 0 <= q < n -> 0 <= i < 2 ^ n ->
  (Int32.and i (Int32.shl 1 (n - 1 - q)) =? 0) = (qubitValue n q i =? 0).
Proof.
  intros Hn Hq Hi. pose proof (Int32Facts.index_bound n i Hn Hi) as Hi31.
  rewrite Int32Facts.shl_1 by lia.
  pose proof (Int32Facts.pow2_lt_31 (n - 1 - q)) as Hp.
  rewrite Int32Facts.and_small by lia.
  rewrite land_pow2_zero by lia. unfold qubitValue.
  destruct (Z.testbit i (n - 1 - q)); reflexivity.
Qed.

(** The index paired with [i]: [i] with the bit of qubit [q] flipped. *)
Definition flipQubit (n q i : Z) : Z := Z.lxor i (2 ^ (n - 1 - q)).

Lemma paired_index (n q i : Z) :
  0 <= n <= 31 -> 0 <= q < n -> 0 <= i < 2 ^ n -> qubitValue n q i = 0 ->
  Int32.or i (Int32.shl 1 (n - 1 - q)) = flipQubit n q i.
Proof.
  intros Hn Hq Hi Hbit. pose proof (Int32Facts.index_bound n i Hn Hi) as Hi31.
  rewrite Int32Facts.shl_1 by lia.
  pose proof (Int32Facts.pow2_lt_31 (n - 1 - q)) as Hp.
  rewrite Int32Facts.or_small by lia.
  unfold flipQubit. symmetry. apply Z.lxor_lor.
  apply Z.eqb_eq. rewrite land_pow2_zero by lia.
  unfold qubitValue in Hbit. destruct (Z.testbit i (n - 1 - q)); [discriminate|reflexivity].
Qed.

Section BlochSpec.
Context {F : Type} {N : Num F}.

(** [a * conj(b)], componentwise. *)
Definition timesConj (a b : Complex F) : Complex F :=
  mkComplex (real a *' real b +' imag a *' imag b)
            (imag a *' real b -' real a *' imag b).

(** The entries of the reduced density matrix of qubit [q], each a sum over
    the spectator configurations in increasing index order. *)
Definition rho00_of (n q : Z) (st : list F) : F :=
  sumF (map (fun i => magnitudeSquared (amplitudeAt st i)) (indicesWith n q 0)).

Definition rho11_of (n q : Z) (st : list F) : F :=
  sumF (map (fun i => magnitudeSquared (amplitudeAt st i)) (indicesWith n q 1)).

Definition rho01_of (n q : Z) (st : list F) : Complex F :=
  let term i := timesConj (amplitudeAt st i) (amplitudeAt st (flipQubit n q i)) in
  mkComplex (sumF (map (fun i => real (term i)) (indicesWith n q 0)))
            (sumF (map (fun i => imag (term i)) (indicesWith n q 0))).

Definition blochOf (n q : Z) (st : list F) : Bloch F :=
  mkBloch (two *' real (rho01_of n q st)) (two *' imag (rho01_of n q st))
          (rho00_of n q st -' rho11_of n q st).

Lemma bloch_loop (n q : Z) (st : list F) (l : list Z) :
  0 <= n <= 31 -> 0 <= q < n ->
  (forall i, In i l -> 0 <= i < 2 ^ n) ->
  forall acc : Flat.BlochAcc,
    let term i := timesConj (amplitudeAt st i) (amplitudeAt st (flipQubit n q i)) in
    let clear := filter (fun i => qubitValue n q i =? 0) l in
    let set := filter (fun i => qubitValue n q i =? 1) l in
    fold_left (Flat.blochStep st (Int32.shl 1 (n - 1 - q))) l acc =
      Flat.mkBlochAcc
        (fold_left fadd (map (fun i => magnitudeSquared (amplitudeAt st i)) clear)
                   (Flat.rho00 acc))
        (fold_left fadd (map (fun i => magnitudeSquared (amplitudeAt st i)) set)
                   (Flat.rho11 acc))
        (fold_left fadd (map (fun i => real (term i)) clear) (Flat.rho01_re acc))
        (fold_left fadd (map (fun i => imag (term i)) clear) (Flat.rho01_im acc)).
Proof.
  intros Hn Hq. induction l as [|i l IH]; intros Hl acc; cbn zeta.
  - destruct acc; reflexivity.
  - assert (Hi : 0 <= i < 2 ^ n) by (apply Hl; now left).
    cbn [fold_left filter]. unfold Flat.blochStep at 2.
    rewrite mask_test by assumption.
    destruct (qubitValue_cases n q i) as [E|E]; rewrite E; cbn [Z.eqb Pos.eqb].
    + rewrite paired_index by assumption.
      rewrite IH by (intros; apply Hl; now right). reflexivity.
    + rewrite IH by (intros; apply Hl; now right). reflexivity.
Qed.

Lemma getBlochCoordinates_spec (this : Flat.QuantumSimulator) (q : Z) :
  0 <= Flat.numQubits this <= 31 -> 0 <= q < Flat.numQubits this ->
  Flat.getBlochCoordinates q this =
    (Ok (blochOf (Flat.numQubits this) q (Flat.state this)), this).
Proof.
  intros Hn Hq. unfold Flat.getBlochCoordinates, gets. do 2 f_equal.
  assert (Hsize : loopBound (Flat.numQubits this) = Z.to_nat (2 ^ Flat.numQubits this)).
  { apply Nat2Z.inj. rewrite loopBound_nonneg by lia.
    rewrite Z2Nat.id; [reflexivity|]. apply Z.pow_nonneg. lia. }
  rewrite Hsize, bloch_loop; try assumption.
  - reflexivity.
  - intros i Hi. apply range_In in Hi. rewrite Z2Nat.id in Hi; [lia|].
    apply Z.pow_nonneg. lia.
Qed.
End BlochSpec.

(** Evaluation in exact arithmetic: unfold the model, keep the reals. *)
Ltac xeval :=
  cbv -[Rplus Rminus Rmult Ropp Rdiv Rinv IZR R_sqrt.sqrt cos sin PI Rabs acos atan
        Rlt_dec Req_EM_T].

Lemma sqrt2_neq_0 : R_sqrt.sqrt 2 <> 0%R.
Proof. pose proof (sqrt_lt_R0 2). lra. Qed.

Lemma sqrt2_sqr : (R_sqrt.sqrt 2 * R_sqrt.sqrt 2 = 2)%R.
Proof. apply sqrt_sqrt. lra. Qed.

(** Decide the two tests [1 / Math.sqrt(2)] goes through. *)
Ltac xsqrt2 :=
  destruct (Rlt_dec 2 0) as [?|_]; [lra|];
  destruct (Req_EM_T (R_sqrt.sqrt 2) 0) as [?|_]; [exfalso; now apply sqrt2_neq_0|].

Lemma inv_sqrt2_sqr : (1 / R_sqrt.sqrt 2 * (1 / R_sqrt.sqrt 2) = 1 / 2)%R.
Proof.
  pose proof sqrt2_neq_0. pose proof sqrt2_sqr as H2.
  field_simplify_eq; [|assumption]. lra.
Qed.

(** Close a polynomial identity in [1 / sqrt 2]. *)
Ltac rsqrt2 :=
  let s := fresh "s" in
  let Hs := fresh "Hs" in
  pose proof inv_sqrt2_sqr as Hs;
  set (s := (1 / R_sqrt.sqrt 2)%R) in *; clearbody s; nra.

Lemma timesConj_multiply_conjugate (a b : Complex xreal) :
  timesConj a b = multiply a (conjugate b).
Proof.
  destruct a as [[ar|] [ai|]], b as [[br|] [bi|]]; xeval; try reflexivity.
  f_equal; f_equal; lra.
Qed.

(* ================================================================== *)
(** * Normalisation in exact arithmetic *)
(* ================================================================== *)

(** ** Finite sums of reals *)

Section RealSums.
Local Open Scope R_scope.

(** [f 0 + f 1 + ... + f (m-1)], accumulated from the left. *)
Fixpoint sumR (f : nat -> R) (m : nat) : R :=
  match m with
  | O => 0
  | S k => sumR f k + f k
  end.

Lemma sumR_ext (f g : nat -> R) (m : nat) :
  (forall k, (k < m)%nat -> f k = g k) -> sumR f m = sumR g m.
Proof.
  induction m as [|m IH]; intros H; simpl; [reflexivity|].
  rewrite IH, H by (intros; try apply H; lia). reflexivity.
Qed.

Lemma sumR_zero (m : nat) : sumR (fun _ => 0) m = 0.
Proof. induction m as [|m IH]; simpl; [reflexivity|rewrite IH; lra]. Qed.

Lemma sumR_plus (f g : nat -> R) (m : nat) :
  sumR (fun k => f k + g k) m = sumR f m + sumR g m.
Proof. induction m as [|m IH]; simpl; [lra|rewrite IH; lra]. Qed.

Lemma sumR_scal (a : R) (f : nat -> R) (m : nat) :
  sumR (fun k => a * f k) m = a * sumR f m.
Proof. induction m as [|m IH]; simpl; [lra|rewrite IH; lra]. Qed.

Lemma sumR_swap (f : nat -> nat -> R) (m1 m2 : nat) :
  sumR (fun i => sumR (fun j => f i j) m2) m1 =
  sumR (fun j => sumR (fun i => f i j) m1) m2.
Proof.
  induction m1 as [|m1 IH]; simpl.
  - now rewrite sumR_zero.
  - rewrite IH, <- sumR_plus. reflexivity.
Qed.

Lemma sumR_mul (f g : nat -> R) (m1 m2 : nat) :
  sumR f m1 * sumR g m2 = sumR (fun i => sumR (fun j => f i * g j) m2) m1.
Proof.
  induction m1 as [|m1 IH]; simpl; [lra|].
  rewrite <- IH, sumR_scal. lra.
Qed.

Lemma sumR_delta (f : nat -> R) (c m : nat) :
  (c < m)%nat -> sumR (fun k => if (k =? c)%nat then f k else 0) m = f c.
Proof.
  induction m as [|m IH]; intros Hc; [lia|]. simpl.
  destruct (Nat.eqb_spec m c) as [->|Hne].
  - rewrite (sumR_ext _ (fun _ => 0)), sumR_zero; [lra|].
    intros k Hk. destruct (Nat.eqb_spec k c); [lia|reflexivity].
  - rewrite IH by lia. lra.
Qed.

(** ** Matrices with orthonormal columns preserve the norm *)

(** The real and imaginary parts [gre r c], [gim r c] of an [m x m] complex
    matrix whose columns are orthonormal: [G†G = I]. *)
Record UnitaryR (m : nat) (gre gim : nat -> nat -> R) : Prop := {
  ortho_re : forall c c', (c < m)%nat -> (c' < m)%nat ->
    sumR (fun r => gre r c * gre r c' + gim r c * gim r c') m =
      if (c =? c')%nat then 1 else 0;
  ortho_im : forall c c', (c < m)%nat -> (c' < m)%nat ->
    sumR (fun r => gre r c * gim r c' - gim r c * gre r c') m = 0
}.

(** The components of the product [G v]. *)
Definition prodRe (m : nat) (gre gim : nat -> nat -> R) (vre vim : nat -> R) (r : nat) : R :=
  sumR (fun c => gre r c * vre c - gim r c * vim c) m.

Definition prodIm (m : nat) (gre gim : nat -> nat -> R) (vre vim : nat -> R) (r : nat) : R :=
  sumR (fun c => gre r c * vim c + gim r c * vre c) m.

Lemma isometry (m : nat) (gre gim : nat -> nat -> R) (vre vim : nat -> R) :
  UnitaryR m gre gim ->
  sumR (fun r => prodRe m gre gim vre vim r * prodRe m gre gim vre vim r
                 + prodIm m gre gim vre vim r * prodIm m gre gim vre vim r) m
  = sumR (fun c => vre c * vre c + vim c * vim c) m.
Proof.
  intros [Hre Him].
  (* each squared row, as a double sum over the columns *)
  rewrite (sumR_ext _
    (fun r => sumR (fun c => sumR (fun c' =>
       (gre r c * gre r c' + gim r c * gim r c') * (vre c * vre c' + vim c * vim c')
       + (gre r c * gim r c' - gim r c * gre r c') * (vim c * vre c' - vre c * vim c'))
       m) m)).
  2:{ intros r _. unfold prodRe, prodIm. rewrite !sumR_mul, <- sumR_plus.
      apply sumR_ext. intros c _. rewrite <- sumR_plus.
      apply sumR_ext. intros c' _. ring. }
  (* sum over the rows first *)
  rewrite sumR_swap.
  rewrite (sumR_ext _
    (fun c => sumR (fun c' => if (c' =? c)%nat
                              then vre c * vre c' + vim c * vim c' else 0) m)).
  2:{ intros c Hc. rewrite sumR_swap. apply sumR_ext. intros c' Hc'.
      rewrite sumR_plus.
      rewrite (sumR_ext _ (fun r => (vre c * vre c' + vim c * vim c')
                                    * (gre r c * gre r c' + gim r c * gim r c')))
        by (intros; ring).
      rewrite (sumR_ext (fun r => _ * (vim c * vre c' - vre c * vim c'))
                        (fun r => (vim c * vre c' - vre c * vim c')
                                  * (gre r c * gim r c' - gim r c * gre r c')))
        by (intros; ring).
      rewrite !sumR_scal, Hre, Him by assumption.
      rewrite Nat.eqb_sym. destruct (c' =? c)%nat; ring. }
  apply sumR_ext. intros c Hc.
  now rewrite (sumR_delta (fun c' => vre c * vre c' + vim c * vim c')).
Qed.
End RealSums.

(** ** Finite buffers and their squared norm *)

Definition toR (a : xreal) : R := match a with Fin r => r | XNaN => 0%R end.

Definition finite (a : xreal) : Prop := exists r, a = Fin r.

(** The sum of the squares of the numbers of a buffer, as a real. *)
Fixpoint normR (st : list xreal) : R :=
  match st with
  | [] => 0%R
  | a :: st' => (toR a * toR a + normR st')%R
  end.

Lemma finite_Fin (r : R) : finite (Fin r).
Proof. now exists r. Qed.

Lemma finite_toR (a : xreal) : finite a -> a = Fin (toR a).
Proof. intros [r ->]. reflexivity. Qed.

Lemma Forall_nth_finite (st : list xreal) (k : nat) :
  Forall finite st -> (k < length st)%nat -> finite (nth k st XNaN).
Proof. intros H Hk. rewrite Forall_forall in H. apply H, nth_In, Hk. Qed.

Lemma Forall_set_nth (st : list xreal) (k : nat) (v : xreal) :
  Forall finite st -> finite v -> Forall finite (set_nth st k v).
Proof.
  intros H Hv. revert k. induction H as [|a st Ha Hst IH]; intros [|k]; simpl;
    constructor; auto.
Qed.

Lemma normR_set_nth (st : list xreal) (k : nat) (v : xreal) :
  (k < length st)%nat ->
  normR (set_nth st k v)
  = (normR st - toR (nth k st XNaN) * toR (nth k st XNaN) + toR v * toR v)%R.
Proof.
  revert k. induction st as [|a st IH]; intros [|k] Hk; simpl in *; try lia.
  - lra.
  - rewrite IH by lia. lra.
Qed.

Lemma nth_set_nth_eq (st : list xreal) (k : nat) (v : xreal) :
  (k < length st)%nat -> nth k (set_nth st k v) XNaN = v.
Proof.
  revert k. induction st as [|a st IH]; intros [|k] Hk; simpl in *; try lia; auto.
  apply IH. lia.
Qed.

Lemma nth_set_nth_neq (st : list xreal) (k j : nat) (v : xreal) :
  k <> j -> nth j (set_nth st k v) XNaN = nth j st XNaN.
Proof.
  revert k j. induction st as [|a st IH]; intros [|k] [|j] Hkj; simpl; auto;
    try congruence.
Qed.

Lemma f64_get_nth (st : list xreal) (k : Z) :
  0 <= k < Z.of_nat (length st) -> f64_get st k = nth (Z.to_nat k) st XNaN.
Proof.
  intros Hk. unfold f64_get. now rewrite (arr_get_nth st k XNaN) by assumption.
Qed.

Lemma f64_set_nth (st : list xreal) (k : Z) (v : xreal) :
  0 <= k -> f64_set st k v = set_nth st (Z.to_nat k) v.
Proof.
  intros Hk. unfold f64_set, arr_set. destruct (Z.ltb_spec k 0); [lia|reflexivity].
Qed.

(** A sequence of stores [st[k] = v]. *)
Definition writes (st : list xreal) (ws : list (Z * xreal)) : list xreal :=
  fold_left (fun st w => f64_set st (fst w) (snd w)) ws st.

Fixpoint sumL (l : list R) : R :=
  match l with
  | [] => 0%R
  | a :: l' => (a + sumL l')%R
  end.

Lemma sumL_app (l1 l2 : list R) : sumL (l1 ++ l2) = (sumL l1 + sumL l2)%R.
Proof. induction l1 as [|a l1 IH]; simpl; [lra|rewrite IH; lra]. Qed.

(** Stores at distinct in-range positions: what the norm loses and gains. *)
Lemma writes_norm (ws : list (Z * xreal)) :
  forall st : list xreal,
    NoDup (map fst ws) ->
    (forall w, In w ws -> 0 <= fst w < Z.of_nat (length st) /\ finite (snd w)) ->
    Forall finite st ->
    Forall finite (writes st ws) /\
    length (writes st ws) = length st /\
    normR (writes st ws)
    = (normR st
       - sumL (map (fun w => toR (f64_get st (fst w)) * toR (f64_get st (fst w))) ws)
       + sumL (map (fun w => toR (snd w) * toR (snd w)) ws))%R /\
    (forall k, ~ In k (map fst ws) -> f64_get (writes st ws) k = f64_get st k).
Proof.
  induction ws as [|[k v] ws IH]; intros st Hnd Hws Hfin.
  - simpl. repeat split; auto. lra.
  - inversion Hnd as [|? ? Hnotin Hnd']; subst.
    destruct (Hws (k, v) (or_introl eq_refl)) as [Hk Hv]. cbn [fst snd] in Hk, Hv.
    cbn [writes fold_left fst snd]. fold (writes (f64_set st k v) ws).
    assert (Hlen1 : length (f64_set st k v) = length st) by apply arr_set_length.
    destruct (IH (f64_set st k v) Hnd') as (Hf & Hl & Hn & Hrest).
    { intros w Hw. rewrite Hlen1. apply Hws. now right. }
    { rewrite f64_set_nth by lia. now apply Forall_set_nth. }
    assert (Hsame : forall w, In w ws -> f64_get (f64_set st k v) (fst w) = f64_get st (fst w)).
    { intros w Hw. unfold f64_get, f64_set. rewrite arr_get_set_neq; [reflexivity|].
      intros ->. apply Hnotin. now apply in_map. }
    repeat split.
    + exact Hf.
    + now rewrite Hl.
    + rewrite Hn. cbn [map sumL fst snd].
      rewrite (map_ext_in _ (fun w => (toR (f64_get st (fst w)) * toR (f64_get st (fst w)))%R))
        by (intros w Hw; now rewrite Hsame).
      rewrite f64_set_nth by lia. rewrite normR_set_nth by lia.
      rewrite f64_get_nth by lia. lra.
    + intros j Hj. rewrite Hrest by (intros Hin; apply Hj; now right).
      unfold f64_get, f64_set. rewrite arr_get_set_neq; [reflexivity|].
      intros ->. apply Hj. now left.
Qed.

(** ** Unitary gate matrices *)

(** The real and imaginary part of [G[r][c]] as reals. *)
Definition mre (G : Matrix xreal) (r c : nat) : R :=
  toR (real (nth c (nth r G []) ZERO)).

Definition mim (G : Matrix xreal) (r c : nat) : R :=
  toR (imag (nth c (nth r G []) ZERO)).

(** An [m x m] matrix without NaN entries. *)
Definition FiniteMatrix (m : nat) (G : Matrix xreal) : Prop :=
  length G = m /\
  forall row, In row G ->
    length row = m /\ forall e, In e row -> finite (real e) /\ finite (imag e).

(** An [m x m] matrix without NaN entries whose columns are orthonormal. *)
Definition Unitary (m : nat) (G : Matrix xreal) : Prop :=
  FiniteMatrix m G /\ UnitaryR m (mre G) (mim G).

Lemma mget_finite (m : nat) (G : Matrix xreal) (r c : Z) :
  FiniteMatrix m G -> 0 <= r < Z.of_nat m -> 0 <= c < Z.of_nat m ->
  mget G r c = Ok (mkComplex (Fin (mre G (Z.to_nat r) (Z.to_nat c)))
                             (Fin (mim G (Z.to_nat r) (Z.to_nat c)))).
Proof.
  intros [Hlen Hrows] Hr Hc. unfold mget, mre, mim.
  rewrite (arr_get_nth G r []) by lia. cbn [defined bind result_Monad].
  assert (Hin : In (nth (Z.to_nat r) G []) G) by (apply nth_In; lia).
  destruct (Hrows _ Hin) as [Hrl He].
  rewrite (arr_get_nth _ c ZERO) by lia. cbn [defined].
  assert (Hin' : In (nth (Z.to_nat c) (nth (Z.to_nat r) G []) ZERO) (nth (Z.to_nat r) G []))
    by (apply nth_In; lia).
  destruct (He _ Hin') as [Hfr Hfi].
  destruct (nth (Z.to_nat c) (nth (Z.to_nat r) G []) ZERO) as [re im]. cbn [real imag] in *.
  now rewrite (finite_toR re Hfr) at 1; rewrite (finite_toR im Hfi) at 1.
Qed.

(** ** The single-qubit loop keeps the norm *)

Lemma lor_pow2_bound (n s i : Z) :
  0 <= s < n -> 0 <= i < 2 ^ n -> 0 <= Z.lor i (2 ^ s) < 2 ^ n.
Proof.
  intros Hs Hi.
  assert (Hp : 0 < 2 ^ s) by (apply Z.pow_pos_nonneg; lia).
  assert (Hnn : 0 <= Z.lor i (2 ^ s)) by (apply Z.lor_nonneg; lia).
  split; [assumption|].
  assert (Hpos : 0 < Z.lor i (2 ^ s)).
  { destruct (Z.eq_dec (Z.lor i (2 ^ s)) 0) as [E|]; [|lia].
    apply Z.lor_eq_0_iff in E. lia. }
  apply Z.log2_lt_pow2; [assumption|].
  rewrite Z.log2_lor by lia. rewrite Z.log2_pow2 by lia.
  apply Z.max_lub_lt; [|lia].
  destruct (Z.eq_dec i 0) as [->|]; [simpl; lia|].
  apply Z.log2_lt_pow2; lia.
Qed.

Lemma flipQubit_clear (n q i : Z) :
  0 <= q < n -> 0 <= i < 2 ^ n -> qubitValue n q i = 0 ->
  flipQubit n q i = i + 2 ^ (n - 1 - q) /\ 0 <= flipQubit n q i < 2 ^ n.
Proof.
  intros Hq Hi Hbit. unfold flipQubit.
  assert (Hland : Z.land i (2 ^ (n - 1 - q)) = 0).
  { apply Z.eqb_eq. rewrite land_pow2_zero by lia.
    unfold qubitValue in Hbit. destruct (Z.testbit i (n - 1 - q)); [discriminate|reflexivity]. }
  split.
  - symmetry. now apply Z.add_nocarry_lxor.
  - rewrite Z.lxor_lor by assumption. apply lor_pow2_bound; lia.
Qed.

Section SingleQubit.
Variable G : Matrix xreal.
Hypothesis HG : Unitary 2 G.

Let g (r c : nat) : Complex xreal :=
  mkComplex (Fin (mre G r c)) (Fin (mim G r c)).

Lemma singleQubitStep_norm (n q i : Z) (st : list xreal) :
  0 <= n <= 31 -> 0 <= q < n -> 0 <= i < 2 ^ n ->
  Z.of_nat (length st) = 2 * 2 ^ n -> Forall finite st ->
  let st' := Flat.singleQubitStep (g 0 0) (g 0 1) (g 1 0) (g 1 1)
               (Int32.shl 1 (n - 1 - q)) st i in
  Forall finite st' /\ length st' = length st /\ normR st' = normR st.
Proof.
  intros Hn Hq Hi Hlen Hfin. cbn zeta. unfold Flat.singleQubitStep.
  rewrite mask_test by assumption.
  destruct (qubitValue_cases n q i) as [E|E]; rewrite E; cbn [Z.eqb Pos.eqb];
    [|auto].
  rewrite paired_index by assumption.
  destruct (flipQubit_clear n q i Hq Hi E) as [Hj Hjr].
  set (j := flipQubit n q i) in *.
  assert (Hp : 0 < 2 ^ (n - 1 - q)) by (apply Z.pow_pos_nonneg; lia).
  (* the four numbers read *)
  destruct (Forall_nth_finite st (Z.to_nat (2 * i)) Hfin ltac:(lia)) as [a Ha].
  destruct (Forall_nth_finite st (Z.to_nat (2 * i + 1)) Hfin ltac:(lia)) as [b Hb].
  destruct (Forall_nth_finite st (Z.to_nat (2 * j)) Hfin ltac:(lia)) as [c Hc].
  destruct (Forall_nth_finite st (Z.to_nat (2 * j + 1)) Hfin ltac:(lia)) as [d Hd].
  rewrite !f64_get_nth by lia. rewrite Ha, Hb, Hc, Hd.
  cbn [g real imag fmul fsub fadd xreal_Num XReal.lift2].
  match goal with
  | |- context [f64_set (f64_set (f64_set (f64_set st ?k0 ?v0) ?k1 ?v1) ?k2 ?v2) ?k3 ?v3] =>
      change (f64_set (f64_set (f64_set (f64_set st k0 v0) k1 v1) k2 v2) k3 v3)
        with (writes st [(k0, v0); (k1, v1); (k2, v2); (k3, v3)])
  end.
  match goal with
  | |- context [writes st ?ws] =>
      destruct (writes_norm ws st) as (Hf' & Hl' & Hn' & _)
  end.
  { cbn [map fst]. repeat constructor; cbn [In]; lia. }
  { intros w [<-|[<-|[<-|[<-|[]]]]]; cbn [fst snd]; split; try lia; apply finite_Fin. }
  { assumption. }
  split; [exact Hf'|]. split; [exact Hl'|].
  rewrite Hn'. cbn [map sumL fst snd toR].
  rewrite !f64_get_nth by lia. rewrite Ha, Hb, Hc, Hd. cbn [toR].
  pose proof (isometry 2 (mre G) (mim G)
                (fun k => match k with O => a | _ => c end)
                (fun k => match k with O => b | _ => d end) (proj2 HG)) as Hiso.
  unfold prodRe, prodIm in Hiso. cbn [sumR] in Hiso. lra.
Qed.

Lemma singleQubitLoop_norm (n q : Z) (l : list Z) :
  0 <= n <= 31 -> 0 <= q < n ->
  (forall i, In i l -> 0 <= i < 2 ^ n) ->
  forall st : list xreal,
    Z.of_nat (length st) = 2 * 2 ^ n -> Forall finite st ->
    let st' := fold_left (Flat.singleQubitStep (g 0 0) (g 0 1) (g 1 0) (g 1 1)
                            (Int32.shl 1 (n - 1 - q))) l st in
    Forall finite st' /\ length st' = length st /\ normR st' = normR st.
Proof.
  intros Hn Hq. induction l as [|i l IH]; intros Hl st Hlen Hfin; cbn zeta.
  - auto.
  - cbn [fold_left].
    destruct (singleQubitStep_norm n q i st Hn Hq ltac:(apply Hl; now left) Hlen Hfin)
      as (Hf1 & Hl1 & Hn1).
    destruct (IH ltac:(intros; apply Hl; now right) _ ltac:(now rewrite Hl1) Hf1)
      as (Hf2 & Hl2 & Hn2).
    repeat split; [exact Hf2|now rewrite Hl2|now rewrite Hn2].
Qed.
End SingleQubit.

(** ** Gather, multiply, scatter keeps the norm *)

Lemma foldM_app {A B : Type} (body : B -> A -> result B) (l1 l2 : list A) (acc : B) :
  foldM body (l1 ++ l2) acc = (acc' <- foldM body l1 acc ;; foldM body l2 acc').
Proof.
  revert acc. induction l1 as [|a l1 IH]; intros acc; cbn [foldM app bind result_Monad].
  - reflexivity.
  - destruct (body acc a); [apply IH|reflexivity].
Qed.

Lemma sumL_pairs (f : Z * xreal -> R) (A B : nat -> Z * xreal) (m : nat) :
  sumL (map f (flat_map (fun r => [A r; B r]) (seq 0 m)))
  = sumR (fun r => (f (A r) + f (B r))%R) m.
Proof.
  induction m as [|m IH]; [reflexivity|].
  rewrite seq_S, flat_map_app, map_app, sumL_app, IH. simpl. lra.
Qed.

Lemma pair_positions (indices : list Z) :
  forall val1 val2 : nat -> xreal,
    map fst (flat_map (fun r => [ (2 * nth r indices 0, val1 r);
                                  (2 * nth r indices 0 + 1, val2 r) ])
                      (seq 0 (length indices)))
    = flat_map (fun idx => [2 * idx; 2 * idx + 1]) indices.
Proof.
  induction indices as [|idx l IH]; intros val1 val2; [reflexivity|].
  cbn [length]. rewrite <- cons_seq, <- seq_shift.
  cbn [flat_map map app fst nth]. do 2 f_equal.
  rewrite flat_map_concat_map, map_map, <- flat_map_concat_map.
  cbn [nth]. apply (IH (fun r => val1 (S r)) (fun r => val2 (S r))).
Qed.

Lemma pair_positions_NoDup (indices : list Z) :
  NoDup indices -> NoDup (flat_map (fun idx => [2 * idx; 2 * idx + 1]) indices).
Proof.
  intros Hnd. induction Hnd as [|idx l Hnotin Hnd IH]; [constructor|].
  cbn [flat_map app]. constructor.
  - intros [E|Hin]; [lia|].
    apply in_flat_map in Hin as (idx' & Hin' & [E|[E|[]]]); [|lia].
    assert (idx' = idx) by lia. subst. contradiction.
  - constructor; [|exact IH].
    intros Hin. apply in_flat_map in Hin as (idx' & Hin' & [E|[E|[]]]); [lia|].
    assert (idx' = idx) by lia. subst. contradiction.
Qed.

Section GatherScatter.
Variable m : nat.
Variable G : Matrix xreal.
Hypothesis HG : Unitary m G.

(** The gathered amplitudes as real-valued functions of the column. *)
Definition colRe (v_re : list xreal) (c : nat) : R := toR (nth c v_re XNaN).

Lemma rowProduct_finite (row : Z) (v_re v_im : list xreal) :
  0 <= row < Z.of_nat m ->
  length v_re = m -> length v_im = m ->
  Forall finite v_re -> Forall finite v_im ->
  Flat.rowProduct G row v_re v_im m =
    Ok (Fin (prodRe m (mre G) (mim G) (colRe v_re) (colRe v_im) (Z.to_nat row)),
        Fin (prodIm m (mre G) (mim G) (colRe v_re) (colRe v_im) (Z.to_nat row))).
Proof.
  intros Hrow Hlre Hlim Hfre Hfim. unfold Flat.rowProduct, prodRe, prodIm.
  change (@zero xreal _) with (Fin 0).
  assert (H : forall k, (k <= m)%nat ->
    foldM (fun '(target_re, target_im) col =>
             g <- mget G row col ;;
             Ok (target_re +' (real g *' f64_get v_re col -' imag g *' f64_get v_im col),
                 target_im +' (real g *' f64_get v_im col +' imag g *' f64_get v_re col)))
          (range k) (Fin 0, Fin 0)
    = Ok (Fin (sumR (fun c => (mre G (Z.to_nat row) c * colRe v_re c
                               - mim G (Z.to_nat row) c * colRe v_im c)%R) k),
          Fin (sumR (fun c => (mre G (Z.to_nat row) c * colRe v_im c
                               + mim G (Z.to_nat row) c * colRe v_re c)%R) k))).
  { induction k as [|k IH]; intros Hk; [reflexivity|].
    rewrite range_S, foldM_app, IH by lia.
    cbn [bind result_Monad foldM].
    rewrite (mget_finite m G row (Z.of_nat k) (proj1 HG)) by lia.
    cbn [bind result_Monad real imag].
    rewrite !f64_get_nth by lia. rewrite Nat2Z.id.
    destruct (Forall_nth_finite v_re k Hfre ltac:(lia)) as [a Ha].
    destruct (Forall_nth_finite v_im k Hfim ltac:(lia)) as [b Hb].
    unfold colRe. cbn [sumR]. rewrite Ha, Hb. reflexivity. }
  apply H. lia.
Qed.

(** The stores one call of [scatterRows] makes, row after row. *)
Definition rowWrites (indices : list Z) (v_re v_im : list xreal) (r : nat)
  : list (Z * xreal) :=
  [ (2 * nth r indices 0,
     Fin (prodRe m (mre G) (mim G) (colRe v_re) (colRe v_im) r));
    (2 * nth r indices 0 + 1,
     Fin (prodIm m (mre G) (mim G) (colRe v_re) (colRe v_im) r)) ].

Lemma writes_app (st : list xreal) (w1 w2 : list (Z * xreal)) :
  writes st (w1 ++ w2) = writes (writes st w1) w2.
Proof. unfold writes. apply fold_left_app. Qed.

Lemma scatterRows_writes (indices : list Z) (v_re v_im : list xreal) :
  length indices = m -> length v_re = m -> length v_im = m ->
  Forall finite v_re -> Forall finite v_im ->
  forall (k : nat) (this : Flat.QuantumSimulator),
    (k <= m)%nat ->
    forM_ (range k) (fun row =>
      t <- lift (Flat.rowProduct G row v_re v_im (length indices)) ;;
      let target_idx := nth (Z.to_nat row) indices 0 in
      modify (fun this =>
        Flat.withState this
          (f64_set (f64_set (Flat.state this) (2 * target_idx) (fst t))
                   (2 * target_idx + 1) (snd t)))) this
    = (Ok tt,
       Flat.withState this
         (writes (Flat.state this)
                 (flat_map (rowWrites indices v_re v_im) (seq 0 k)))).
Proof.
  intros Hli Hlre Hlim Hfre Hfim.
  set (body := fun row : Z =>
      t <- lift (Flat.rowProduct G row v_re v_im (length indices)) ;;
      let target_idx := nth (Z.to_nat row) indices 0 in
      modify (fun this : Flat.QuantumSimulator =>
        Flat.withState this
          (f64_set (f64_set (Flat.state this) (2 * target_idx) (fst t))
                   (2 * target_idx + 1) (snd t)))).
  assert (Hbody : forall (r : nat) (this : Flat.QuantumSimulator),
    (r < m)%nat ->
    body (Z.of_nat r) this
    = (Ok tt, Flat.withState this
                (writes (Flat.state this) (rowWrites indices v_re v_im r)))).
  { intros r this Hr. unfold body. cbn [bind Exec_Monad lift].
    rewrite Hli, rowProduct_finite by (try assumption; lia).
    cbn [modify fst snd]. rewrite Nat2Z.id. reflexivity. }
  assert (Hgen : forall (l : list nat) (this : Flat.QuantumSimulator),
    (forall r, In r l -> (r < m)%nat) ->
    forM_ (map Z.of_nat l) body this
    = (Ok tt,
       Flat.withState this
         (writes (Flat.state this) (flat_map (rowWrites indices v_re v_im) l)))).
  { induction l as [|r l IH]; intros this Hl.
    - destruct this; reflexivity.
    - cbn [map forM_ bind Exec_Monad].
      rewrite Hbody by (apply Hl; now left).
      rewrite IH by (intros; apply Hl; now right).
      cbn [flat_map]. rewrite writes_app. destruct this; reflexivity. }
  intros k this Hk. unfold range. apply Hgen.
  intros r Hr. apply in_seq in Hr. lia.
Qed.

Lemma gatherScatter_norm (n : Z) (indices : list Z) (this : Flat.QuantumSimulator) :
  length indices = m -> NoDup indices ->
  (forall idx, In idx indices -> 0 <= idx < 2 ^ n) ->
  Z.of_nat (length (Flat.state this)) = 2 * 2 ^ n ->
  Forall finite (Flat.state this) ->
  let st := Flat.state this in
  let v_re := map (fun idx => f64_get st (2 * idx)) indices in
  let v_im := map (fun idx => f64_get st (2 * idx + 1)) indices in
  exists st',
    Flat.scatterRows G indices v_re v_im this = (Ok tt, Flat.withState this st') /\
    Forall finite st' /\ length st' = length st /\ normR st' = normR st.
Proof.
  intros Hli Hnd Hidx Hlen Hfin st v_re v_im.
  change (Z.of_nat (length st) = 2 * 2 ^ n) in Hlen.
  change (Forall finite st) in Hfin.
  assert (Hlre : length v_re = m) by (unfold v_re; now rewrite length_map).
  assert (Hlim : length v_im = m) by (unfold v_im; now rewrite length_map).
  assert (Hin : forall r, (r < m)%nat -> 0 <= nth r indices 0 < 2 ^ n).
  { intros r Hr. apply Hidx, nth_In. lia. }
  assert (Hfre : Forall finite v_re).
  { apply Forall_forall. intros v Hv. apply in_map_iff in Hv as (idx & <- & Hi).
    specialize (Hidx idx Hi). rewrite f64_get_nth by lia.
    apply Forall_nth_finite; [assumption|lia]. }
  assert (Hfim : Forall finite v_im).
  { apply Forall_forall. intros v Hv. apply in_map_iff in Hv as (idx & <- & Hi).
    specialize (Hidx idx Hi). rewrite f64_get_nth by lia.
    apply Forall_nth_finite; [assumption|lia]. }
  exists (writes st (flat_map (rowWrites indices v_re v_im) (seq 0 m))).
  split.
  { unfold Flat.scatterRows. rewrite Hli at 1.
    now apply scatterRows_writes. }
  destruct (writes_norm (flat_map (rowWrites indices v_re v_im) (seq 0 m)) st)
    as (Hf' & Hl' & Hn' & _).
  { rewrite <- Hli. unfold rowWrites.
    rewrite pair_positions. now apply pair_positions_NoDup. }
  { intros w Hw. apply in_flat_map in Hw as (r & Hr & Hw). apply in_seq in Hr.
    specialize (Hin r ltac:(lia)).
    destruct Hw as [<-|[<-|[]]]; cbn [fst snd]; (split; [lia|apply finite_Fin]). }
  { assumption. }
  split; [exact Hf'|]. split; [exact Hl'|].
  rewrite Hn'. unfold rowWrites at 1 2.
  rewrite !sumL_pairs. cbn [fst snd toR].
  rewrite (isometry m (mre G) (mim G) (colRe v_re) (colRe v_im) (proj2 HG)).
  rewrite (sumR_ext _ (fun c => (colRe v_re c * colRe v_re c + colRe v_im c * colRe v_im c)%R));
    [lra|].
  intros r Hr. unfold colRe, v_re, v_im.
  rewrite (nth_indep _ XNaN (f64_get st (2 * 0))) by (rewrite length_map; lia).
  rewrite (nth_indep (map (fun idx => f64_get st (2 * idx + 1)) indices)
                     XNaN (f64_get st (2 * 0 + 1))) by (rewrite length_map; lia).
  rewrite (map_nth (fun idx => f64_get st (2 * idx)) indices 0 r).
  rewrite (map_nth (fun idx => f64_get st (2 * idx + 1)) indices 0 r).
  reflexivity.
Qed.
End GatherScatter.

(** ** Index sets of the two- and three-qubit loops *)

Lemma testbit_lor_pow2 (a s t : Z) :
  0 <= s -> 0 <= t -> Z.testbit (Z.lor a (2 ^ s)) t = Z.testbit a t || (s =? t).
Proof. intros Hs Ht. now rewrite Z.lor_spec, Z.pow2_bits_eqb by lia. Qed.

Lemma land_zero_testbit (i mask s : Z) :
  0 <= s -> Z.land i mask = 0 -> Z.testbit mask s = true -> Z.testbit i s = false.
Proof.
  intros Hs Hland Hm.
  apply (f_equal (fun x => Z.testbit x s)) in Hland.
  rewrite Z.land_spec, Hm, andb_true_r, Z.bits_0 in Hland. exact Hland.
Qed.

(** The bit positions of the qubits of one gate application. *)
Definition bitPos (n q : Z) : Z := n - 1 - q.

Lemma forM__invariant {A S : Type} (Inv : S -> Prop) (body : A -> Exec S unit)
      (l : list A) :
  (forall a s, In a l -> Inv s -> exists s', body a s = (Ok tt, s') /\ Inv s') ->
  forall s, Inv s -> exists s', forM_ l body s = (Ok tt, s') /\ Inv s'.
Proof.
  induction l as [|a l IH]; intros Hbody s Hs.
  - exists s. split; [reflexivity|assumption].
  - destruct (Hbody a s (or_introl eq_refl) Hs) as (s1 & E1 & H1).
    destruct (IH (fun a s Ha => Hbody a s (or_intror Ha)) s1 H1) as (s2 & E2 & H2).
    exists s2. split; [|assumption].
    cbn [forM_ bind Exec_Monad]. rewrite E1. exact E2.
Qed.

(** The invariant of the flat engine in exact arithmetic: [n] qubits, a
    buffer of [2 * 2^n] numbers none of which is NaN, squared norm [c]. *)
Definition FlatInv (n : Z) (c : R) (this : @Flat.QuantumSimulator xreal) : Prop :=
  Flat.numQubits this = n /\
  Z.of_nat (length (Flat.state this)) = 2 * 2 ^ n /\
  Forall finite (Flat.state this) /\
  normR (Flat.state this) = c.

Lemma FlatInv_withState (n : Z) (c : R) (this : Flat.QuantumSimulator) (st' : list xreal) :
  FlatInv n c this ->
  Forall finite st' -> length st' = length (Flat.state this) ->
  normR st' = normR (Flat.state this) ->
  FlatInv n c (Flat.withState this st').
Proof.
  intros (Hn & Hlen & Hfin & Hnorm) Hf' Hl' Hn'.
  unfold FlatInv, Flat.withState. cbn [Flat.numQubits Flat.state].
  repeat split; try assumption; congruence.
Qed.

Section TwoQubit.
Variable G : Matrix xreal.
Hypothesis HG : Unitary 4 G.

Lemma applyTwoQubitGate_norm (n q1 q2 : Z) (c : R) (this : Flat.QuantumSimulator) :
  0 <= n <= 31 -> 0 <= q1 < n -> 0 <= q2 < n -> q1 <> q2 ->
  FlatInv n c this ->
  exists this',
    Flat.applyTwoQubitGate G (Some q1) (Some q2) this = (Ok tt, this') /\
    FlatInv n c this'.
Proof.
  intros Hn Hq1 Hq2 Hne Hinv.
  unfold Flat.applyTwoQubitGate. cbn [bind Exec_Monad gets shiftCount].
  rewrite (proj1 Hinv).
  rewrite !Int32Facts.shl_1 by lia.
  pose proof (Int32Facts.pow2_lt_31 (n - 1 - q1) ltac:(lia)) as Hp1.
  pose proof (Int32Facts.pow2_lt_31 (n - 1 - q2) ltac:(lia)) as Hp2.
  set (s1 := n - 1 - q1) in *. set (s2 := n - 1 - q2) in *.
  apply forM__invariant; [|assumption].
  intros i this1 Hi Hinv1. apply range_In in Hi.
  rewrite loopBound_nonneg in Hi by lia.
  pose proof (Int32Facts.index_bound n i Hn Hi) as Hi31.
  rewrite !Int32Facts.and_small by lia.
  destruct ((Z.land i (2 ^ s1) =? 0) && (Z.land i (2 ^ s2) =? 0)) eqn:Econd.
  2:{ exists this1. split; [reflexivity|assumption]. }
  apply andb_prop in Econd as [E1 E2].
  rewrite land_pow2_zero in E1, E2 by lia.
  apply negb_true_iff in E1, E2.
  pose proof (lor_pow2_bound n s1 i ltac:(lia) Hi) as Hb1.
  pose proof (lor_pow2_bound n s2 i ltac:(lia) Hi) as Hb2.
  pose proof (lor_pow2_bound n s2 (Z.lor i (2 ^ s1)) ltac:(lia) Hb1) as Hb12.
  assert (H31 : 2 ^ n <= 2 ^ 31) by (apply Z.pow_le_mono_r; lia).
  rewrite !Int32Facts.or_small by lia.
  cbn [bind Exec_Monad gets].
  destruct Hinv1 as (Hn1 & Hlen1 & Hfin1 & Hnorm1).
  destruct (gatherScatter_norm 4 G HG n
              [i; Z.lor i (2 ^ s2); Z.lor i (2 ^ s1); Z.lor (Z.lor i (2 ^ s1)) (2 ^ s2)]
              this1 eq_refl) as (st' & Hrun & Hf' & Hl' & Hn'); try assumption.
  - (* the four indices are distinct: they differ in bit s1 or s2 *)
    apply (NoDup_map_inv (fun x => (Z.testbit x s1, Z.testbit x s2))).
    cbn [map]. rewrite !testbit_lor_pow2, E1, E2 by lia.
    rewrite !Z.eqb_refl.
    replace (s1 =? s2) with false by (symmetry; apply Z.eqb_neq; lia).
    replace (s2 =? s1) with false by (symmetry; apply Z.eqb_neq; lia).
    cbn [orb]. repeat constructor; cbn [In]; intuition discriminate.
  - intros idx [<-|[<-|[<-|[<-|[]]]]]; lia.
  - exists (Flat.withState this1 st'). split; [exact Hrun|].
    apply FlatInv_withState; [repeat split; assumption|assumption..].
Qed.
End TwoQubit.

Lemma subIndices3 (m0 m1 m2 i : Z) :
  map (Flat.subIndex [m0; m1; m2] i) (range 8) =
    [ Int32.wrap i;
      Int32.wrap (Int32.or i m2);
      Int32.wrap (Int32.or i m1);
      Int32.wrap (Int32.or (Int32.or i m1) m2);
      Int32.wrap (Int32.or i m0);
      Int32.wrap (Int32.or (Int32.or i m0) m2);
      Int32.wrap (Int32.or (Int32.or i m0) m1);
      Int32.wrap (Int32.or (Int32.or (Int32.or i m0) m1) m2) ].
Proof. reflexivity. Qed.

Section ThreeQubit.
Variable G : Matrix xreal.
Hypothesis HG : Unitary 8 G.

Lemma applyMultiQubitGate_norm (n q0 q1 q2 : Z) (c : R) (this : Flat.QuantumSimulator) :
  0 <= n <= 31 -> 0 <= q0 < n -> 0 <= q1 < n -> 0 <= q2 < n ->
  q0 <> q1 -> q0 <> q2 -> q1 <> q2 ->
  FlatInv n c this ->
  exists this',
    Flat.applyMultiQubitGate G [q0; q1; q2] this = (Ok tt, this') /\
    FlatInv n c this'.
Proof.
  intros Hn Hq0 Hq1 Hq2 H01 H02 H12 Hinv.
  unfold Flat.applyMultiQubitGate. cbn [bind Exec_Monad gets length map fold_left].
  rewrite (proj1 Hinv).
  rewrite !Int32Facts.shl_1 by lia.
  pose proof (Int32Facts.pow2_lt_31 (n - 1 - q0) ltac:(lia)) as Hp0.
  pose proof (Int32Facts.pow2_lt_31 (n - 1 - q1) ltac:(lia)) as Hp1.
  pose proof (Int32Facts.pow2_lt_31 (n - 1 - q2) ltac:(lia)) as Hp2.
  set (s0 := n - 1 - q0) in *. set (s1 := n - 1 - q1) in *. set (s2 := n - 1 - q2) in *.
  assert (H31 : 2 ^ n <= 2 ^ 31) by (apply Z.pow_le_mono_r; lia).
  (* the total mask *)
  assert (Hz : 0 <= 0 < 2 ^ n) by (split; [lia|apply Z.pow_pos_nonneg; lia]).
  pose proof (lor_pow2_bound n s0 0 ltac:(lia) Hz) as Ht0.
  pose proof (lor_pow2_bound n s1 _ ltac:(lia) Ht0) as Ht1.
  pose proof (lor_pow2_bound n s2 _ ltac:(lia) Ht1) as Ht2.
  rewrite (Int32Facts.or_small 0 (2 ^ s0)) by lia.
  rewrite (Int32Facts.or_small _ (2 ^ s1)) by lia.
  rewrite (Int32Facts.or_small _ (2 ^ s2)) by lia.
  change (Z.to_nat (2 ^ Z.of_nat 3)) with 8%nat.
  apply forM__invariant; [|assumption].
  intros i this1 Hi Hinv1. apply range_In in Hi.
  rewrite loopBound_nonneg in Hi by lia.
  pose proof (Int32Facts.index_bound n i Hn Hi) as Hi31.
  rewrite Int32Facts.and_small by lia.
  destruct (Z.land i (Z.lor (Z.lor (Z.lor 0 (2 ^ s0)) (2 ^ s1)) (2 ^ s2)) =? 0) eqn:Econd.
  2:{ exists this1. split; [reflexivity|assumption]. }
  apply Z.eqb_eq in Econd.
  assert (E0 : Z.testbit i s0 = false).
  { apply (land_zero_testbit _ _ s0 ltac:(lia) Econd).
    rewrite !testbit_lor_pow2, Z.eqb_refl by lia. now rewrite orb_true_r. }
  assert (E1 : Z.testbit i s1 = false).
  { apply (land_zero_testbit _ _ s1 ltac:(lia) Econd).
    rewrite !testbit_lor_pow2, Z.eqb_refl by lia. now rewrite orb_true_r. }
  assert (E2 : Z.testbit i s2 = false).
  { apply (land_zero_testbit _ _ s2 ltac:(lia) Econd).
    rewrite !testbit_lor_pow2, Z.eqb_refl by lia. now rewrite orb_true_r. }
  rewrite subIndices3.
  pose proof (lor_pow2_bound n s0 i ltac:(lia) Hi) as Hb0.
  pose proof (lor_pow2_bound n s1 i ltac:(lia) Hi) as Hb1.
  pose proof (lor_pow2_bound n s2 i ltac:(lia) Hi) as Hb2.
  pose proof (lor_pow2_bound n s1 _ ltac:(lia) Hb0) as Hb01.
  pose proof (lor_pow2_bound n s2 _ ltac:(lia) Hb0) as Hb02.
  pose proof (lor_pow2_bound n s2 _ ltac:(lia) Hb1) as Hb12.
  pose proof (lor_pow2_bound n s2 _ ltac:(lia) Hb01) as Hb012.
  rewrite !(Int32Facts.or_small i) by lia.
  rewrite !(Int32Facts.or_small (Z.lor i _)) by lia.
  rewrite !(Int32Facts.or_small (Z.lor (Z.lor i _) _)) by lia.
  rewrite !Int32Facts.wrap_small by lia.
  cbn [bind Exec_Monad gets].
  destruct Hinv1 as (Hn1 & Hlen1 & Hfin1 & Hnorm1).
  match goal with
  | |- context [Flat.scatterRows G ?indices _ _] =>
      destruct (gatherScatter_norm 8 G HG n indices this1 eq_refl)
        as (st' & Hrun & Hf' & Hl' & Hn'); try assumption
  end.
  - (* the eight indices differ in bit s0, s1 or s2 *)
    apply (NoDup_map_inv (fun x => (Z.testbit x s0, Z.testbit x s1, Z.testbit x s2))).
    cbn [map]. rewrite !testbit_lor_pow2, E0, E1, E2 by lia.
    rewrite !Z.eqb_refl.
    replace (s0 =? s1) with false by (symmetry; apply Z.eqb_neq; lia).
    replace (s1 =? s0) with false by (symmetry; apply Z.eqb_neq; lia).
    replace (s0 =? s2) with false by (symmetry; apply Z.eqb_neq; lia).
    replace (s2 =? s0) with false by (symmetry; apply Z.eqb_neq; lia).
    replace (s1 =? s2) with false by (symmetry; apply Z.eqb_neq; lia).
    replace (s2 =? s1) with false by (symmetry; apply Z.eqb_neq; lia).
    cbn [orb]. repeat constructor; cbn [In]; intuition discriminate.
  - intros idx [<-|[<-|[<-|[<-|[<-|[<-|[<-|[<-|[]]]]]]]]]; lia.
  - exists (Flat.withState this1 st'). split; [exact Hrun|].
    apply FlatInv_withState; [repeat split; assumption|assumption..].
Qed.
End ThreeQubit.

(** ** Every gate of the library is unitary *)

(** Decide the comparisons left by the evaluation of a constant:
    [2 < 0] and [sqrt 2 = 0] are both false. *)
Ltac xdec :=
  repeat match goal with
    | |- context [Rlt_dec ?a ?b] =>
        destruct (Rlt_dec a b) as [?H|?H]; [exfalso; lra|]
    | |- context [Req_EM_T ?a ?b] =>
        destruct (Req_EM_T a b) as [?H|?H];
        [exfalso; first [lra | now apply sqrt2_neq_0]|]
    end.

(** Replace a gate matrix by its table of entries. *)
Ltac normal_form G :=
  let E := fresh "E" in
  eassert (E : G = _) by (xeval; xdec; reflexivity);
  rewrite E; clear E.

Ltac finite_matrix :=
  split; [reflexivity|];
  let row := fresh "row" in let Hrow := fresh "Hrow" in
  intros row Hrow; cbn [In] in Hrow;
  repeat (destruct Hrow as [<-|Hrow]); try contradiction;
  (split; [reflexivity|]);
  let e := fresh "e" in let He := fresh "He" in
  intros e He; cbn [In] in He;
  repeat (destruct He as [<-|He]); try contradiction;
  split; apply finite_Fin.

Ltac cases_below c m :=
  match m with
  | O => exfalso; lia
  | S ?m' => destruct c as [|c]; [|cases_below c m']
  end.

Ltac unitary_R m solver :=
  constructor;
  (let c := fresh "c" in let c' := fresh "c'" in
   intros c c' ? ?;
   cases_below c m; cases_below c' m;
   cbv [sumR mre mim nth real imag toR Nat.eqb]; solver).

Ltac unitary m G solver :=
  unfold Unitary; normal_form G; split; [finite_matrix|unitary_R m solver].

(** Abstract every sine and cosine, keeping [sin^2 + cos^2 = 1]. *)
Ltac rtrig_all :=
  repeat match goal with
    | |- context [cos ?x] =>
        let H := fresh "Hcs" in
        pose proof (sin2_cos2 x) as H; unfold Rsqr in H;
        generalize dependent (sin x); generalize dependent (cos x); intros
    | |- context [sin ?x] =>
        let H := fresh "Hcs" in
        pose proof (sin2_cos2 x) as H; unfold Rsqr in H;
        generalize dependent (sin x); generalize dependent (cos x); intros
    end;
  nra.

Ltac usolve := first [lra | rsqrt2 | rtrig_all].

Lemma Unitary_I_gate : Unitary 2 (@Gates.I_gate xreal _).
Proof. unitary 2%nat (@Gates.I_gate xreal _) usolve. Qed.

Lemma Unitary_X : Unitary 2 (@Gates.X xreal _).
Proof. unitary 2%nat (@Gates.X xreal _) usolve. Qed.

Lemma Unitary_Y : Unitary 2 (@Gates.Y xreal _).
Proof. unitary 2%nat (@Gates.Y xreal _) usolve. Qed.

Lemma Unitary_Z_gate : Unitary 2 (@Gates.Z_gate xreal _).
Proof. unitary 2%nat (@Gates.Z_gate xreal _) usolve. Qed.

Lemma Unitary_H : Unitary 2 (@Gates.H xreal _).
Proof. unitary 2%nat (@Gates.H xreal _) usolve. Qed.

Lemma Unitary_S_gate : Unitary 2 (@Gates.S_gate xreal _).
Proof. unitary 2%nat (@Gates.S_gate xreal _) usolve. Qed.

Lemma Unitary_SDag : Unitary 2 (@Gates.SDag xreal _).
Proof. unitary 2%nat (@Gates.SDag xreal _) usolve. Qed.

Lemma Unitary_T : Unitary 2 (@Gates.T xreal _).
Proof. unitary 2%nat (@Gates.T xreal _) usolve. Qed.

Lemma Unitary_TDag : Unitary 2 (@Gates.TDag xreal _).
Proof. unitary 2%nat (@Gates.TDag xreal _) usolve. Qed.

Lemma Unitary_SX : Unitary 2 (@Gates.SX xreal _).
Proof. unitary 2%nat (@Gates.SX xreal _) usolve. Qed.

Lemma Unitary_SXDag : Unitary 2 (@Gates.SXDag xreal _).
Proof. unitary 2%nat (@Gates.SXDag xreal _) usolve. Qed.

Lemma Unitary_Rx (theta : R) : Unitary 2 (Gates.Rx (Fin theta)).
Proof. unitary 2%nat (Gates.Rx (Fin theta)) usolve. Qed.

Lemma Unitary_Ry (theta : R) : Unitary 2 (Gates.Ry (Fin theta)).
Proof. unitary 2%nat (Gates.Ry (Fin theta)) usolve. Qed.

Lemma Unitary_Rz (theta : R) : Unitary 2 (Gates.Rz (Fin theta)).
Proof. unitary 2%nat (Gates.Rz (Fin theta)) usolve. Qed.

Lemma Unitary_Phase (phi : R) : Unitary 2 (Gates.Phase (Fin phi)).
Proof. unitary 2%nat (Gates.Phase (Fin phi)) usolve. Qed.

Lemma Unitary_U3 (theta phi lambda : R) :
  Unitary 2 (Gates.U3 (Fin theta) (Fin phi) (Fin lambda)).
Proof.
  unfold Unitary. normal_form (Gates.U3 (Fin theta) (Fin phi) (Fin lambda)).
  split; [finite_matrix|].
  constructor; intros c c' ? ?; cases_below c 2%nat; cases_below c' 2%nat;
    cbv [sumR mre mim nth real imag toR Nat.eqb]; rewrite ?cos_plus, ?sin_plus;
    pose proof (sin2_cos2 (theta / 2)) as Ht;
    pose proof (sin2_cos2 phi) as Hp;
    pose proof (sin2_cos2 lambda) as Hl;
    unfold Rsqr in *;
    generalize dependent (sin (theta / 2)); generalize dependent (cos (theta / 2));
    generalize dependent (sin phi); generalize dependent (cos phi);
    generalize dependent (sin lambda); generalize dependent (cos lambda);
    intros cl sl Hl cp sp Hp ct st Ht.
  all: assert (Hp_cl : (st * ct * cl * (sp * sp + cp * cp) = st * ct * cl)%R)
         by (rewrite Hp; ring).
  all: assert (Hp_sl : (st * ct * sl * (sp * sp + cp * cp) = st * ct * sl)%R)
         by (rewrite Hp; ring).
  all: assert (Hpl : (ct * ct * ((sp * sp + cp * cp) * (sl * sl + cl * cl)) = ct * ct)%R)
         by (rewrite Hp, Hl; ring).
  all: assert (Hl_st : (st * st * (sl * sl + cl * cl) = st * st)%R)
         by (rewrite Hl; ring).
  all: assert (Hp_st : (st * st * (sp * sp + cp * cp) = st * st)%R)
         by (rewrite Hp; ring).
  all: lra.
Qed.

Lemma Unitary_CNOT : Unitary 4 (@Gates.CNOT xreal _).
Proof. unitary 4%nat (@Gates.CNOT xreal _) usolve. Qed.

Lemma Unitary_CZ : Unitary 4 (@Gates.CZ xreal _).
Proof. unitary 4%nat (@Gates.CZ xreal _) usolve. Qed.

Lemma Unitary_CH : Unitary 4 (@Gates.CH xreal _).
Proof. unitary 4%nat (@Gates.CH xreal _) usolve. Qed.

Lemma Unitary_SWAP : Unitary 4 (@Gates.SWAP xreal _).
Proof. unitary 4%nat (@Gates.SWAP xreal _) usolve. Qed.

Lemma Unitary_iSWAP : Unitary 4 (@Gates.iSWAP xreal _).
Proof. unitary 4%nat (@Gates.iSWAP xreal _) usolve. Qed.

Lemma Unitary_CPhase (phi : R) : Unitary 4 (Gates.CPhase (Fin phi)).
Proof. unitary 4%nat (Gates.CPhase (Fin phi)) usolve. Qed.

Lemma Unitary_RXX (theta : R) : Unitary 4 (Gates.RXX (Fin theta)).
Proof. unitary 4%nat (Gates.RXX (Fin theta)) usolve. Qed.

Lemma Unitary_RYY (theta : R) : Unitary 4 (Gates.RYY (Fin theta)).
Proof. unitary 4%nat (Gates.RYY (Fin theta)) usolve. Qed.

Lemma Unitary_RZZ (theta : R) : Unitary 4 (Gates.RZZ (Fin theta)).
Proof. unitary 4%nat (Gates.RZZ (Fin theta)) usolve. Qed.

Lemma Unitary_Toffoli : Unitary 8 (@Gates.Toffoli xreal _).
Proof. unitary 8%nat (@Gates.Toffoli xreal _) usolve. Qed.

Lemma Unitary_Fredkin : Unitary 8 (@Gates.Fredkin xreal _).
Proof. unitary 8%nat (@Gates.Fredkin xreal _) usolve. Qed.

Lemma Unitary_CCZ : Unitary 8 (@Gates.CCZ xreal _).
Proof. unitary 8%nat (@Gates.CCZ xreal _) usolve. Qed.

Lemma Unitary_RCCX : Unitary 8 (@Gates.RCCX xreal _).
Proof. unitary 8%nat (@Gates.RCCX xreal _) usolve. Qed.

(** ** The gate tables hold unitary matrices *)

(** The local [matrix] of [apply]: a constant entry as it is, a
    parameterised one called with the parameters, or with [[0]] when none
    were given. *)
Definition appliedMatrix {F : Type} {N : Num F} (gateInfo : GateInfo F)
           (ps : option (list F)) : Matrix F :=
  let params := match ps with Some p => p | None => [] end in
  match matrix gateInfo with
  | Param f => f (match params with [] => [zero] | _ => params end)
  | Const m => m
  end.

(** The parameters given, if any, are numbers. *)
Definition finiteParams (ps : option (list xreal)) : Prop :=
  forall p, ps = Some p -> Forall finite p.

(** An entry of arity 1, 2 or 3 whose matrix is unitary of that size
    whatever finite parameters it is called with. *)
Definition UnitaryEntry (gateInfo : GateInfo xreal) : Prop :=
  forall ps, finiteParams ps ->
    (qubits gateInfo = 1 /\ Unitary 2 (appliedMatrix gateInfo ps)) \/
    (qubits gateInfo = 2 /\ Unitary 4 (appliedMatrix gateInfo ps)) \/
    (qubits gateInfo = 3 /\ Unitary 8 (appliedMatrix gateInfo ps)).

Definition UnitaryTable (lib : GateTable xreal) : Prop :=
  forall gateName gateInfo,
    lookupGate lib gateName = Some gateInfo -> UnitaryEntry gateInfo.

Lemma lookupGate_In {F : Type} (lib : GateTable F) (gateName : string)
      (gateInfo : GateInfo F) :
  lookupGate lib gateName = Some gateInfo -> In (gateName, gateInfo) lib.
Proof.
  induction lib as [|[k g] lib IH]; cbn [lookupGate]; [discriminate|].
  destruct (String.eqb_spec k gateName) as [->|_].
  - intros [= ->]. now left.
  - intros H. right. now apply IH.
Qed.

Lemma orZero_finite (x : option xreal) : finite (orZero x).
Proof.
  destruct x as [[r|]|]; cbn; try (eexists; reflexivity).
  destruct (Req_EM_T r 0); eexists; reflexivity.
Qed.

(** The parameter list [apply] passes on is not empty and holds numbers. *)
Lemma passed_params (ps : option (list xreal)) :
  finiteParams ps ->
  exists r rest,
    match (match ps with Some p => p | None => [] end) with
    | [] => [zero]
    | _ => match ps with Some p => p | None => [] end
    end = Fin r :: rest.
Proof.
  intros Hps. destruct ps as [[|x rest]|].
  - exists 0%R, []. reflexivity.
  - pose proof (Hps _ eq_refl) as Hf. inversion Hf as [|? ? [r ->] _]; subst.
    now exists r, rest.
  - exists 0%R, []. reflexivity.
Qed.

Ltac unitary_entry :=
  let ps := fresh "ps" in let Hps := fresh "Hps" in
  intros ps Hps; unfold appliedMatrix; cbn [matrix qubits];
  first
    [ left; split; [reflexivity|]
    | right; left; split; [reflexivity|]
    | right; right; split; [reflexivity|] ];
  first
    [ solve [ auto with unitary ]
    | let r := fresh "r" in let rest := fresh "rest" in let E := fresh "E" in
      destruct (passed_params ps Hps) as (r & rest & E); rewrite E;
      cbn [Gates.param nth];
      solve [ auto with unitary ] ].

Create HintDb unitary.
#[export] Hint Resolve Unitary_I_gate Unitary_X Unitary_Y Unitary_Z_gate Unitary_H
  Unitary_S_gate Unitary_SDag Unitary_T Unitary_TDag Unitary_SX Unitary_SXDag
  Unitary_Rx Unitary_Ry Unitary_Rz Unitary_Phase
  Unitary_CNOT Unitary_CZ Unitary_CH Unitary_SWAP Unitary_iSWAP Unitary_CPhase
  Unitary_RXX Unitary_RYY Unitary_RZZ
  Unitary_Toffoli Unitary_Fredkin Unitary_CCZ Unitary_RCCX : unitary.

(** [U3] with its optional parameters: [params[1] || 0], [params[2] || 0]. *)
Lemma Unitary_U3_params (theta : R) (phi lambda : option xreal) :
  Unitary 2 (Gates.U3 (Fin theta) (orZero phi) (orZero lambda)).
Proof.
  destruct (orZero_finite phi) as [p ->].
  destruct (orZero_finite lambda) as [l ->].
  apply Unitary_U3.
Qed.
#[export] Hint Resolve Unitary_U3_params : unitary.

Lemma GATE_LIBRARY_unitary : UnitaryTable Gates.GATE_LIBRARY.
Proof.
  intros gateName gateInfo Hlook. apply lookupGate_In in Hlook.
  cbn [Gates.GATE_LIBRARY In] in Hlook.
  repeat (destruct Hlook as [[= <- <-]|Hlook]; [unitary_entry|]).
  contradiction.
Qed.

Lemma GATE_LIBRARY_core_unitary : UnitaryTable Gates.GATE_LIBRARY_core.
Proof.
  intros gateName gateInfo Hlook. apply lookupGate_In in Hlook.
  cbn [Gates.GATE_LIBRARY_core In] in Hlook.
  repeat (destruct Hlook as [[= <- <-]|Hlook]; [unitary_entry|]).
  contradiction.
Qed.

(** ** [apply] keeps the norm *)

Lemma applySingleQubitGate_norm (G : Matrix xreal) (n q : Z) (c : R)
      (this : Flat.QuantumSimulator) :
  Unitary 2 G -> 0 <= n <= 31 -> 0 <= q < n ->
  FlatInv n c this ->
  exists this',
    Flat.applySingleQubitGate G (Some q) this = (Ok tt, this') /\
    FlatInv n c this'.
Proof.
  intros HG Hn Hq Hinv.
  unfold Flat.applySingleQubitGate. cbn [bind Exec_Monad gets shiftCount lift].
  rewrite (proj1 Hinv).
  rewrite !(mget_finite 2 G _ _ (proj1 HG)) by (cbn; lia).
  cbn [modify]. eexists. split; [reflexivity|].
  destruct Hinv as (Hnq & Hlen & Hfin & Hnorm).
  destruct (singleQubitLoop_norm G HG n q (range (loopBound n)) Hn Hq) with
    (st := Flat.state this) as (Hf' & Hl' & Hn'); try assumption.
  { intros i Hi. apply range_In in Hi. rewrite loopBound_nonneg in Hi by lia. exact Hi. }
  apply FlatInv_withState; [repeat split; assumption|assumption..].
Qed.

Section Validity.
Variable lib : GateTable xreal.

Lemma firstNonFinite_None (l : list xreal) (i : Z) :
  firstNonFinite l i = None -> Forall finite l.
Proof.
  revert i. induction l as [|[r|] l IH]; intros i; cbn [firstNonFinite].
  - constructor.
  - cbn. intros H. constructor; [apply finite_Fin|now apply (IH (i + 1))].
  - cbn. discriminate.
Qed.

Lemma hasDuplicates_false (l : list Z) : hasDuplicates l = false -> NoDup l.
Proof.
  induction l as [|x l IH]; cbn [hasDuplicates]; intros H.
  - constructor.
  - apply orb_false_iff in H as [Hx Hl]. constructor; [|now apply IH].
    intros Hin.
    assert (existsb (Z.eqb x) l = true)
      by (apply existsb_exists; exists x; split; [assumption|apply Z.eqb_refl]).
    congruence.
Qed.

Lemma validateQubitIndex_all (qs : list Z) (n : Z) (context : string) :
  forM_ qs (fun qubit => validateQubitIndex qubit n context) = Ok tt ->
  Forall (fun q => 0 <= q < n) qs.
Proof.
  induction qs as [|q qs IH]; cbn [forM_ bind result_Monad]; intros H.
  - constructor.
  - unfold validateQubitIndex in H at 1.
    destruct (Z.ltb_spec q 0); cbn [orb] in H; [discriminate|].
    destruct (Z.geb_spec q n); [discriminate|].
    constructor; [lia|now apply IH].
Qed.

(** What an accepted operation satisfies. *)
Lemma validateGateOperation_ok (gateName : string) (qs : list Z)
      (ps : option (list xreal)) (n : Z) (gateInfo : GateInfo xreal) :
  validateGateOperation lib gateName qs ps n = Ok gateInfo ->
  lookupGate lib gateName = Some gateInfo /\
  finiteParams ps /\
  Z.of_nat (length qs) = qubits gateInfo /\
  NoDup qs /\
  Forall (fun q => 0 <= q < n) qs.
Proof.
  unfold validateGateOperation, validateGateName.
  destruct (lookupGate lib gateName) as [g|]; [|discriminate].
  cbn [bind result_Monad].
  destruct (validateGateParams gateName ps g) as [[]|e] eqn:Eparams; [|discriminate].
  destruct (validateQubitArray qs (qubits g) n gateName) as [[]|e] eqn:Eqs; [|discriminate].
  intros [= <-]. split; [reflexivity|].
  split.
  { intros p ->. unfold validateGateParams in Eparams.
    destruct (_ && _) in Eparams; [discriminate|].
    destruct (firstNonFinite p 0) eqn:E; [discriminate|].
    now apply firstNonFinite_None in E. }
  unfold validateQubitArray in Eqs.
  destruct (Z.eqb_spec (Z.of_nat (length qs)) (qubits g)); cbn [negb] in Eqs;
    [|discriminate].
  destruct (hasDuplicates qs) eqn:Edup; [discriminate|].
  split; [assumption|]. split; [now apply hasDuplicates_false|].
  now apply validateQubitIndex_all in Eqs.
Qed.

Hypothesis Hlib : UnitaryTable lib.

Lemma apply_norm (gateName : string) (qs : list Z) (ps : option (list xreal))
      (n : Z) (c : R) (gateInfo : GateInfo xreal) (this : Flat.QuantumSimulator) :
  0 <= n <= 31 ->
  validateGateOperation lib gateName qs ps n = Ok gateInfo ->
  FlatInv n c this ->
  exists this',
    Flat.apply lib gateName ps qs this = (Ok tt, this') /\ FlatInv n c this'.
Proof.
  intros Hn Hvalid Hinv.
  apply validateGateOperation_ok in Hvalid as (Hlook & Hps & Hlen & Hnd & Hrange).
  unfold Flat.apply. rewrite Hlook.
  change (match matrix gateInfo with
          | Const m => m
          | Param f => f match match ps with Some p => p | None => [] end with
                         | [] => [zero]
                         | _ :: _ => match ps with Some p => p | None => [] end
                         end
          end) with (appliedMatrix gateInfo ps).
  destruct (Hlib _ _ Hlook ps Hps) as [[Hq HG]|[[Hq HG]|[Hq HG]]]; rewrite Hq in *;
    cbn [Z.eqb Pos.eqb].
  - destruct qs as [|q [|]]; cbn [length] in Hlen; try lia.
    cbn [nth_error]. inversion Hrange; subst.
    now apply applySingleQubitGate_norm.
  - destruct qs as [|q1 [|q2 [|]]]; cbn [length] in Hlen; try lia.
    cbn [nth_error]. inversion Hrange as [|? ? ? Hr2]; subst.
    inversion Hr2; subst. inversion Hnd as [|? ? Hnin _]; subst.
    apply applyTwoQubitGate_norm; try assumption.
    intros ->. apply Hnin. now left.
  - destruct qs as [|q0 [|q1 [|q2 [|]]]]; cbn [length] in Hlen; try lia.
    inversion Hrange as [|? ? ? Hr1]; subst.
    inversion Hr1 as [|? ? ? Hr2]; subst. inversion Hr2; subst.
    inversion Hnd as [|? ? Hnin0 Hnd1]; subst.
    inversion Hnd1 as [|? ? Hnin1 _]; subst.
    apply applyMultiQubitGate_norm; try assumption.
    + intros ->. apply Hnin0. now left.
    + intros ->. apply Hnin0. right. now left.
    + intros ->. apply Hnin1. now left.
Qed.
End Validity.

(** ** The observable norm of the flat engine *)

(** [Σ|amplitude|²] over the [2^n] amplitudes of the buffer. *)
Definition sumOfSquares {F : Type} {N : Num F} (this : Flat.QuantumSimulator) : F :=
  normSquared (map (amplitudeAt (Flat.state this))
                   (range (loopBound (Flat.numQubits this)))).

(** [Math.abs(norm - 1) < 1e-6]; false on NaN. *)
Definition nearOne {F : Type} {N : Num F} (norm : F) : bool :=
  Math_abs (norm -' one) <' one /' ofZ 1000000.

Lemma normR_firstn_S (st : list xreal) (k : nat) :
  (k < length st)%nat ->
  normR (firstn (S k) st)
  = (normR (firstn k st) + toR (nth k st XNaN) * toR (nth k st XNaN))%R.
Proof.
  revert k. induction st as [|a st IH]; intros k Hk; cbn [length] in Hk; [lia|].
  destruct k as [|k].
  - cbn. lra.
  - change (firstn (S (S k)) (a :: st)) with (a :: firstn (S k) st).
    change (firstn (S k) (a :: st)) with (a :: firstn k st).
    cbn [normR nth]. rewrite IH by lia. lra.
Qed.

Lemma normSquared_prefix (st : list xreal) (k : nat) :
  Forall finite st -> (2 * k <= length st)%nat ->
  normSquared (map (amplitudeAt st) (range k)) = Fin (normR (firstn (2 * k) st)).
Proof.
  intros Hfin. unfold normSquared. induction k as [|k IH]; intros Hk.
  - reflexivity.
  - rewrite range_S, map_app, fold_left_app, IH by lia.
    cbn [map fold_left]. unfold amplitudeAt, magnitudeSquared. cbn [real imag].
    rewrite !f64_get_nth by lia.
    replace (2 * S k)%nat with (S (S (2 * k))) by lia.
    rewrite !normR_firstn_S by lia.
    replace (Z.to_nat (2 * Z.of_nat k)) with (2 * k)%nat by lia.
    replace (Z.to_nat (2 * Z.of_nat k + 1)) with (S (2 * k)) by lia.
    destruct (Forall_nth_finite st (2 * k) Hfin ltac:(lia)) as [a ->].
    destruct (Forall_nth_finite st (S (2 * k)) Hfin ltac:(lia)) as [b ->].
    cbn. f_equal. lra.
Qed.

Lemma sumOfSquares_FlatInv (n : Z) (c : R) (this : Flat.QuantumSimulator) :
  0 <= n -> FlatInv n c this -> sumOfSquares this = Fin c.
Proof.
  intros Hn (Hnq & Hlen & Hfin & Hnorm). unfold sumOfSquares. rewrite Hnq.
  pose proof (@loopBound_nonneg n Hn) as Hb.
  rewrite normSquared_prefix by (assumption || lia).
  replace (2 * loopBound n)%nat with (length (Flat.state this)) by lia.
  now rewrite firstn_all, Hnorm.
Qed.

Lemma nearOne_one : nearOne (Fin 1) = true.
Proof.
  unfold nearOne. xeval.
  destruct (Req_EM_T 1000000 0) as [?|_]; [exfalso; lra|].
  replace (1 - 1)%R with 0%R by lra. rewrite Rabs_R0.
  destruct (Rlt_dec 0 (1 / 1000000)) as [_|Hn]; [reflexivity|exfalso; lra].
Qed.

Lemma normR_repeat_zero (k : nat) : normR (repeat (Fin 0) k) = 0%R.
Proof. induction k as [|k IH]; cbn [repeat normR toR]; [reflexivity|rewrite IH; lra]. Qed.

Lemma Forall_repeat_zero (k : nat) : Forall finite (repeat (Fin 0) k).
Proof. induction k; cbn [repeat]; constructor; [apply finite_Fin|assumption]. Qed.

(** The fresh engine satisfies the invariant with norm 1. *)
Lemma constructor_FlatInv (n : Z) :
  0 <= n <= 31 ->
  exists this, Flat.constructor (inr n) = Ok this /\ FlatInv n 1 this.
Proof.
  intros Hn. eexists. split; [apply Flat_constructor_ok; lia|].
  unfold FlatInv. cbn [Flat.numQubits Flat.state].
  assert (Hp : 0 < 2 ^ n) by (apply Z.pow_pos_nonneg; lia).
  assert (Hp1 : 2 ^ (n + 1) = 2 * 2 ^ n) by (replace (n + 1) with (Z.succ n) by lia; apply Z.pow_succ_r; lia).
  split; [reflexivity|]. split; [|split].
  - cbn [length]. rewrite repeat_length. lia.
  - constructor; [apply finite_Fin|apply Forall_repeat_zero].
  - cbn [normR toR one ofZ xreal_Num]. change zero with (Fin 0).
    rewrite normR_repeat_zero. lra.
Qed.

(** ** Sequences of gate applications *)

(** One [apply] call per operation, in order. *)
Definition applySequence {F : Type} {N : Num F} (lib : GateTable F)
           (ops : list (GateOperation F)) : Exec Flat.QuantumSimulator unit :=
  forM_ ops (fun op => Flat.apply lib (gate op) (op_params op) (op_qubits op)).

(** An operation the validation layer accepts on [n] qubits. *)
Definition validOperation {F : Type} {N : Num F} (lib : GateTable F) (n : Z)
           (op : GateOperation F) : Prop :=
  exists gateInfo,
    validateGateOperation lib (gate op) (op_qubits op) (op_params op) n = Ok gateInfo.

Lemma applySequence_norm (lib : GateTable xreal) (n : Z) (c : R)
      (ops : list (GateOperation xreal)) (this : Flat.QuantumSimulator) :
  UnitaryTable lib -> 0 <= n <= 31 ->
  Forall (validOperation lib n) ops ->
  FlatInv n c this ->
  exists this', applySequence lib ops this = (Ok tt, this') /\ FlatInv n c this'.
Proof.
  intros Hlib Hn Hvalid Hinv. unfold applySequence.
  apply (forM__invariant (FlatInv n c)); [|assumption].
  intros op s Hop Hs. rewrite Forall_forall in Hvalid.
  destruct (Hvalid op Hop) as [gateInfo Hok].
  now apply (apply_norm lib Hlib (gate op) (op_qubits op) (op_params op) n c gateInfo).
Qed.


(** ** Constant gates: [G†G] is the identity *)

(** [tolerance] of the unitarity requirement, [1e-9]. *)
Definition unitaryTolerance {F : Type} {N : Num F} : F := one /' ofZ 1000000000.

(** The product of the conjugate transpose of [G] with [G], both computed
    by the functions of [matrix.ts], is the identity matrix. *)
Definition unitaryExact (G : Matrix xreal) : Prop :=
  exists Gd,
    conjugateTranspose G = Ok Gd /\
    matrixMultiply Gd G = Ok (identity (length G)).

Ltac unitary_exact :=
  eexists; split;
  [ xeval; xdec; reflexivity
  | xeval; xdec; repeat (f_equal; try usolve) ].

Lemma foldM_const {A B : Type} (body : B -> A -> result B) (l : list A) (acc : B) :
  (forall a, In a l -> body acc a = Ok acc) -> foldM body l acc = Ok acc.
Proof.
  induction l as [|a l IH]; intros H; cbn [foldM bind result_Monad ret]; [reflexivity|].
  rewrite (H a (or_introl eq_refl)). apply IH. intros; apply H; now right.
Qed.

(** [isUnitary] compares the product with the identity cell by cell: when
    both are the same table of numbers, no cell differs. *)
Lemma isUnitary_of_exact (m : nat) (G : Matrix xreal) (epsilon : R) :
  length G = m -> FiniteMatrix m (identity m) -> (0 <= epsilon)%R ->
  unitaryExact G -> isUnitary G (Fin epsilon) = Ok true.
Proof.
  intros Hlen Hid Heps (Gd & Hd & Hp). unfold isUnitary.
  rewrite Hd. cbn [bind result_Monad]. rewrite Hp. cbn [bind result_Monad].
  rewrite Hlen. apply foldM_const. intros i Hi. apply foldM_const. intros j Hj.
  apply range_In in Hi, Hj.
  rewrite (mget_finite m (identity m) i j Hid) by lia.
  cbn [bind result_Monad real imag fsub fadd Math_abs flt xreal_Num
       XReal.lift1 XReal.lift2 XReal.xlt].
  rewrite !Rminus_diag, Rabs_R0.
  destruct (Rlt_dec epsilon (0 + 0)) as [Hlt|_]; [exfalso; lra|reflexivity].
Qed.

Lemma identity_finite_2 : FiniteMatrix 2 (@identity xreal _ 2).
Proof. normal_form (@identity xreal _ 2). finite_matrix. Qed.

Lemma identity_finite_4 : FiniteMatrix 4 (@identity xreal _ 4).
Proof. normal_form (@identity xreal _ 4). finite_matrix. Qed.

Lemma identity_finite_8 : FiniteMatrix 8 (@identity xreal _ 8).
Proof. normal_form (@identity xreal _ 8). finite_matrix. Qed.

Lemma unitaryTolerance_eq : @unitaryTolerance xreal _ = Fin (1 / 1000000000).
Proof.
  unfold unitaryTolerance. xeval.
  destruct (Req_EM_T 1000000000 0) as [?|_]; [exfalso; lra|reflexivity].
Qed.

Lemma Exact_I_gate : unitaryExact (@Gates.I_gate xreal _).
Proof. unitary_exact. Qed.

Lemma Exact_X : unitaryExact (@Gates.X xreal _).
Proof. unitary_exact. Qed.

Lemma Exact_Y : unitaryExact (@Gates.Y xreal _).
Proof. unitary_exact. Qed.

Lemma Exact_Z_gate : unitaryExact (@Gates.Z_gate xreal _).
Proof. unitary_exact. Qed.

Lemma Exact_H : unitaryExact (@Gates.H xreal _).
Proof. unitary_exact. Qed.

Lemma Exact_S_gate : unitaryExact (@Gates.S_gate xreal _).
Proof. unitary_exact. Qed.

Lemma Exact_SDag : unitaryExact (@Gates.SDag xreal _).
Proof. unitary_exact. Qed.

Lemma Exact_T : unitaryExact (@Gates.T xreal _).
Proof. unitary_exact. Qed.

Lemma Exact_TDag : unitaryExact (@Gates.TDag xreal _).
Proof. unitary_exact. Qed.

Lemma Exact_SX : unitaryExact (@Gates.SX xreal _).
Proof. unitary_exact. Qed.

Lemma Exact_SXDag : unitaryExact (@Gates.SXDag xreal _).
Proof. unitary_exact. Qed.

Lemma Exact_CNOT : unitaryExact (@Gates.CNOT xreal _).
Proof. unitary_exact. Qed.

Lemma Exact_CZ : unitaryExact (@Gates.CZ xreal _).
Proof. unitary_exact. Qed.

Lemma Exact_CH : unitaryExact (@Gates.CH xreal _).
Proof. unitary_exact. Qed.

Lemma Exact_SWAP : unitaryExact (@Gates.SWAP xreal _).
Proof. unitary_exact. Qed.

Lemma Exact_iSWAP : unitaryExact (@Gates.iSWAP xreal _).
Proof. unitary_exact. Qed.

Lemma Exact_Toffoli : unitaryExact (@Gates.Toffoli xreal _).
Proof. unitary_exact. Qed.

Lemma Exact_Fredkin : unitaryExact (@Gates.Fredkin xreal _).
Proof. unitary_exact. Qed.

Lemma Exact_CCZ : unitaryExact (@Gates.CCZ xreal _).
Proof. unitary_exact. Qed.

Lemma Exact_RCCX : unitaryExact (@Gates.RCCX xreal _).
Proof. unitary_exact. Qed.

(** ** Constant gates within [1e-9], cell by cell *)

Section EntrywiseCheck.
Context {F : Type} {N : Num F}.

(** [|a - b| <= epsilon] on numbers: false when the difference is NaN. *)
Definition closeTo (a b epsilon : F) : bool :=
  let d := Math_abs (a -' b) in
  negb (isNaN d) && negb (epsilon <' d).

Fixpoint forallb2 {A : Type} (p : A -> A -> bool) (l1 l2 : list A) : bool :=
  match l1, l2 with
  | [], [] => true
  | a :: l1', b :: l2' => p a b && forallb2 p l1' l2'
  | _, _ => false
  end.

(** Two matrices of the same shape whose cells differ by at most
    [epsilon] in the real and in the imaginary part. *)
Definition entrywiseWithin (a b : Matrix F) (epsilon : F) : bool :=
  forallb2 (forallb2 (fun x y => closeTo (real x) (real y) epsilon
                                 && closeTo (imag x) (imag y) epsilon)) a b.

(** [G†G] is the identity within [epsilon], cell by cell. *)
Definition unitaryWithin (G : Matrix F) (epsilon : F) : bool :=
  match conjugateTranspose G with
  | Ok Gd =>
      match matrixMultiply Gd G with
      | Ok product => entrywiseWithin product (identity (length G)) epsilon
      | Throw _ => false
      end
  | Throw _ => false
  end.
End EntrywiseCheck.

Lemma forallb2_refl {A : Type} (p : A -> A -> bool) (l : list A) :
  (forall a, In a l -> p a a = true) -> forallb2 p l l = true.
Proof.
  induction l as [|a l IH]; intros H; cbn [forallb2]; [reflexivity|].
  rewrite (H a (or_introl eq_refl)), IH; [reflexivity|].
  intros; apply H; now right.
Qed.

Lemma closeTo_refl (a : xreal) (epsilon : R) :
  finite a -> (0 <= epsilon)%R -> closeTo a a (Fin epsilon) = true.
Proof.
  intros [r ->] He. unfold closeTo.
  cbn [fsub Math_abs isNaN flt xreal_Num XReal.lift1 XReal.lift2 XReal.xisNaN XReal.xlt].
  rewrite Rminus_diag, Rabs_R0.
  destruct (Rlt_dec epsilon 0) as [Hlt|_]; [exfalso; lra|reflexivity].
Qed.

Lemma unitaryWithin_of_exact (m : nat) (G : Matrix xreal) (epsilon : R) :
  length G = m -> FiniteMatrix m (identity m) -> (0 <= epsilon)%R ->
  unitaryExact G -> unitaryWithin G (Fin epsilon) = true.
Proof.
  intros Hlen [_ Hid] Heps (Gd & Hd & Hp). unfold unitaryWithin.
  rewrite Hd, Hp, Hlen. unfold entrywiseWithin.
  apply forallb2_refl. intros row Hrow. apply forallb2_refl. intros e He.
  destruct (Hid row Hrow) as [_ Hfin]. destruct (Hfin e He) as [Hre Him].
  now rewrite !closeTo_refl.
Qed.

(** ** Constant gates in binary64 *)

Module QuarterTurn.
Import PrimFloat.

(** The two doubles next to [sqrt 2 / 2]. *)
Definition below : float := 0x1.6a09e667f3bccp-1%float.
Definition above : float := 0x1.6a09e667f3bcdp-1%float.

(** A host whose cosine and sine of [Math.PI / 4] and of [-Math.PI / 4]
    are rounded to one of the two doubles next to the exact value. *)
Definition accurate (L : Libm) : Prop :=
  let N := float_Num L in
  In (Math_cos (Math_PI /' ofZ 4)) [below; above] /\
  In (Math_sin (Math_PI /' ofZ 4)) [below; above] /\
  In (Math_cos (-' Math_PI /' ofZ 4)) [below; above] /\
  In (Math_sin (-' Math_PI /' ofZ 4)) [-below; -above]%float.
End QuarterTurn.

Section Binary64Gates.
Variable L : Libm.
Let FN : Num float := float_Num L.
Existing Instance FN.

(** Both the cell-by-cell check and [isUnitary] of [matrix.ts]. *)
Definition checks (G : Matrix float) : bool :=
  unitaryWithin G unitaryTolerance &&
  match isUnitary G unitaryTolerance with Ok b => b | Throw _ => false end.

Lemma checks_phase (c s : float) :
  In c [QuarterTurn.below; QuarterTurn.above] ->
  In s [QuarterTurn.below; QuarterTurn.above;
        PrimFloat.opp QuarterTurn.below; PrimFloat.opp QuarterTurn.above] ->
  checks [ [complex1 one; complex1 zero];
           [complex1 zero; mkComplex (one *' c) (one *' s)] ] = true.
Proof.
  cbn [In]. intros [<-|[<-|[]]] [<-|[<-|[<-|[<-|[]]]]]; vm_compute; reflexivity.
Qed.

Lemma checks_T : QuarterTurn.accurate L -> checks Gates.T = true.
Proof.
  intros (Hc & Hs & _ & _). apply checks_phase; [exact Hc|].
  cbn [In] in *. tauto.
Qed.

Lemma checks_TDag : QuarterTurn.accurate L -> checks Gates.TDag = true.
Proof.
  intros (_ & _ & Hc & Hs). apply checks_phase; [exact Hc|].
  cbn [In] in *. tauto.
Qed.

Lemma checks_table (lib : GateTable float) (gateName : string)
      (gateInfo : GateInfo float) (G : Matrix float) :
  lib = Gates.GATE_LIBRARY_core \/ lib = Gates.GATE_LIBRARY ->
  In (gateName, gateInfo) lib -> matrix gateInfo = Const G ->
  QuarterTurn.accurate L ->
  checks G = true.
Proof.
  intros [->| ->] Hin HG Hacc.
  - cbn [Gates.GATE_LIBRARY_core In] in Hin.
    repeat (destruct Hin as [[= <- <-]|Hin];
            [cbn [matrix] in HG;
             first [discriminate HG
                   | injection HG as <-;
                     first [now apply checks_T | now apply checks_TDag
                           | vm_compute; reflexivity]]|]).
    contradiction.
  - cbn [Gates.GATE_LIBRARY In] in Hin.
    repeat (destruct Hin as [[= <- <-]|Hin];
            [cbn [matrix] in HG;
             first [discriminate HG
                   | injection HG as <-;
                     first [now apply checks_T | now apply checks_TDag
                           | vm_compute; reflexivity]]|]).
    contradiction.
Qed.
End Binary64Gates.

(** ** C3 *)

Create HintDb exact.
#[export] Hint Resolve Exact_I_gate Exact_X Exact_Y Exact_Z_gate Exact_H Exact_S_gate
  Exact_SDag Exact_T Exact_TDag Exact_SX Exact_SXDag Exact_CNOT Exact_CZ Exact_CH
  Exact_SWAP Exact_iSWAP Exact_Toffoli Exact_Fredkin Exact_CCZ Exact_RCCX : exact.

Lemma exact_checks (m : nat) (G : Matrix xreal) :
  length G = m -> FiniteMatrix m (identity m) -> unitaryExact G ->
  unitaryExact G /\
  unitaryWithin G unitaryTolerance = true /\
  isUnitary G unitaryTolerance = Ok true.
Proof.
  intros Hlen Hid HG. rewrite unitaryTolerance_eq.
  split; [assumption|].
  split; [apply (unitaryWithin_of_exact m)|apply (isUnitary_of_exact m)];
    try assumption; lra.
Qed.

Ltac constant_entry HG :=
  cbn [matrix] in HG;
  first
    [ discriminate HG
    | injection HG as <-;
      first
        [ apply (exact_checks 2); [reflexivity|apply identity_finite_2|auto with exact]
        | apply (exact_checks 4); [reflexivity|apply identity_finite_4|auto with exact]
        | apply (exact_checks 8); [reflexivity|apply identity_finite_8|auto with exact] ] ].

(** A host that knows the quarter turn only: the doubles nearest to the
    cosine and sine of [Math.PI / 4] and [-Math.PI / 4], NaN elsewhere. *)
Definition quarterTurnHost : Libm :=
  let quarter := PrimFloat.div Float64.PI (Float64.ofZ 4) in
  {| libm_cos := fun x =>
       if PrimFloat.eqb (PrimFloat.abs x) quarter then QuarterTurn.above
       else PrimFloat.nan;
     libm_sin := fun x =>
       if PrimFloat.eqb x quarter then QuarterTurn.below
       else if PrimFloat.eqb x (PrimFloat.opp quarter)
            then PrimFloat.opp QuarterTurn.below
            else PrimFloat.nan;
     libm_acos := fun _ => PrimFloat.nan;
     libm_atan2 := fun _ _ => PrimFloat.nan |}.

(** C3: for every constant matrix [G] of either gate table, the product of
    the conjugate transpose of [G] with [G], computed by [matrix.ts], is the
    identity matrix in exact arithmetic, so every cell is within [1e-9] of
    the identity and [isUnitary(G, 1e-9)] answers true; in binary64 both
    checks succeed as well, the host's cosine and sine of a quarter turn
    (used by [T] and [TDag]) being rounded to a neighbouring double. *)
Theorem C3_constant_gates_unitary :
  (forall (lib : GateTable xreal) (gateName : string) (gateInfo : GateInfo xreal)
          (G : Matrix xreal),
      lib = Gates.GATE_LIBRARY_core \/ lib = Gates.GATE_LIBRARY ->
      In (gateName, gateInfo) lib -> matrix gateInfo = Const G ->
      unitaryExact G /\
      unitaryWithin G unitaryTolerance = true /\
      isUnitary G unitaryTolerance = Ok true) /\
  (forall (L : Libm),
      let N := float_Num L in
      forall (lib : GateTable float) (gateName : string) (gateInfo : GateInfo float)
             (G : Matrix float),
      lib = Gates.GATE_LIBRARY_core \/ lib = Gates.GATE_LIBRARY ->
      In (gateName, gateInfo) lib -> matrix gateInfo = Const G ->
      QuarterTurn.accurate L ->
      unitaryWithin G unitaryTolerance = true /\
      isUnitary G unitaryTolerance = Ok true).
Proof.
  split.
  - intros lib gateName gateInfo G [->| ->] Hin HG.
    + cbn [Gates.GATE_LIBRARY_core In] in Hin.
      repeat (destruct Hin as [[= <- <-]|Hin]; [constant_entry HG|]).
      contradiction.
    + cbn [Gates.GATE_LIBRARY In] in Hin.
      repeat (destruct Hin as [[= <- <-]|Hin]; [constant_entry HG|]).
      contradiction.
  - intros L N lib gateName gateInfo G Hlib Hin HG Hacc.
    pose proof (checks_table L lib gateName gateInfo G Hlib Hin HG Hacc) as Hchecks.
    unfold checks in Hchecks. apply andb_prop in Hchecks as [Hwithin His].
    split; [exact Hwithin|].
    destruct (isUnitary G unitaryTolerance) as [[|]|]; try discriminate. reflexivity.
Qed.

(** C3 at the Hadamard gate in exact arithmetic and at the [T] gate in
    binary64. *)
Lemma C3_constant_gates_unitary_witness :
  (unitaryExact (@Gates.H xreal _) /\
   unitaryWithin (@Gates.H xreal _) unitaryTolerance = true /\
   isUnitary (@Gates.H xreal _) unitaryTolerance = Ok true) /\
  (let N := float_Num quarterTurnHost in
   unitaryWithin Gates.T unitaryTolerance = true /\
   isUnitary Gates.T unitaryTolerance = Ok true).
Proof.
  split.
  - apply (proj1 C3_constant_gates_unitary Gates.GATE_LIBRARY_core "H"%string
             (mkGateInfo "Hadamard" "H" 1 (Const Gates.H) None "Creates superposition")).
    + left. reflexivity.
    + simpl. tauto.
    + reflexivity.
  - intros N.
    apply (proj2 C3_constant_gates_unitary quarterTurnHost Gates.GATE_LIBRARY_core
             "T"%string
             (mkGateInfo "T Gate" "T" 1 (Const Gates.T) None "π/4 phase gate")).
    + left. reflexivity.
    + simpl. tauto.
    + reflexivity.
    + vm_compute. tauto.
Defined.

(* ================================================================== *)
(** * Normalisation of the object engine in exact arithmetic *)
(* ================================================================== *)

(** ** Lists of complex amplitudes *)

Definition finiteC (a : Complex xreal) : Prop := finite (real a) /\ finite (imag a).

(** The real and imaginary part of [st[k]] as reals. *)
Definition reAt (st : list (Complex xreal)) (k : nat) : R := toR (real (nth k st ZERO)).
Definition imAt (st : list (Complex xreal)) (k : nat) : R := toR (imag (nth k st ZERO)).

(** The sum of the squared magnitudes of the amplitudes, as a real. *)
Fixpoint normC (st : list (Complex xreal)) : R :=
  match st with
  | [] => 0%R
  | a :: st' =>
      (toR (real a) * toR (real a) + toR (imag a) * toR (imag a) + normC st')%R
  end.

(** The complex number with the given finite parts. *)
Definition finC (re im : R) : Complex xreal := mkComplex (Fin re) (Fin im).

Lemma finiteC_finC (re im : R) : finiteC (finC re im).
Proof. split; apply finite_Fin. Qed.

Lemma finiteC_eq (a : Complex xreal) :
  finiteC a -> a = finC (toR (real a)) (toR (imag a)).
Proof.
  destruct a as [x y]. unfold finiteC. cbn [real imag].
  intros [[r ->] [s ->]]. reflexivity.
Qed.

Lemma finiteC_nth (st : list (Complex xreal)) (k : nat) :
  Forall finiteC st -> (k < length st)%nat ->
  nth k st ZERO = finC (reAt st k) (imAt st k).
Proof.
  intros H Hk. apply finiteC_eq. rewrite Forall_forall in H. apply H, nth_In, Hk.
Qed.

Lemma normSquared_normC (st : list (Complex xreal)) :
  Forall finiteC st -> normSquared st = Fin (normC st).
Proof.
  intros H. unfold normSquared. change zero with (Fin 0).
  replace (normC st) with (0 + normC st)%R by lra.
  generalize 0%R as acc. induction H as [|a st Ha _ IH]; intros acc; cbn [fold_left normC].
  - f_equal. lra.
  - rewrite (finiteC_eq a Ha). cbn. rewrite IH. f_equal. lra.
Qed.

Lemma nth_set_nth_same {A : Type} (l : list A) (k : nat) (v d : A) :
  (k < length l)%nat -> nth k (set_nth l k v) d = v.
Proof.
  revert k. induction l as [|a l IH]; intros [|k] Hk; simpl in *; try lia; auto.
  apply IH. lia.
Qed.

Lemma nth_set_nth_other {A : Type} (l : list A) (k j : nat) (v d : A) :
  k <> j -> nth j (set_nth l k v) d = nth j l d.
Proof.
  revert k j. induction l as [|a l IH]; intros [|k] [|j] Hkj; simpl; auto;
    try congruence.
Qed.

Lemma normC_set_nth (st : list (Complex xreal)) (k : nat) (v : Complex xreal) :
  (k < length st)%nat ->
  normC (set_nth st k v)
  = (normC st - (reAt st k * reAt st k + imAt st k * imAt st k)
     + (toR (real v) * toR (real v) + toR (imag v) * toR (imag v)))%R.
Proof.
  unfold reAt, imAt.
  revert k. induction st as [|a st IH]; intros [|k] Hk; simpl in *; try lia.
  - lra.
  - rewrite IH by lia. lra.
Qed.

Lemma Forall_finiteC_set_nth (st : list (Complex xreal)) (k : nat) (v : Complex xreal) :
  Forall finiteC st -> finiteC v -> Forall finiteC (set_nth st k v).
Proof.
  intros H Hv. revert k. induction H as [|a st Ha Hst IH]; intros [|k]; simpl;
    constructor; auto.
Qed.

Lemma sumR_shift (f : nat -> R) (m : nat) :
  sumR f (S m) = (f O + sumR (fun k => f (S k)) m)%R.
Proof.
  induction m as [|m IH].
  - cbn. lra.
  - change (sumR f (S (S m))) with (sumR f (S m) + f (S m))%R.
    rewrite IH. cbn [sumR]. lra.
Qed.

Lemma normC_sumR (st : list (Complex xreal)) :
  normC st
  = sumR (fun k => (reAt st k * reAt st k + imAt st k * imAt st k)%R) (length st).
Proof.
  induction st as [|a st IH]; [reflexivity|].
  cbn [length]. rewrite sumR_shift. cbn [normC]. rewrite IH.
  unfold reAt, imAt. cbn [nth]. lra.
Qed.

Lemma normC_repeat_ZERO (k : nat) : normC (repeat (@ZERO xreal _) k) = 0%R.
Proof. induction k as [|k IH]; cbn [repeat normC]; [reflexivity|]. rewrite IH. cbn. lra. Qed.

Lemma Forall_finiteC_repeat_ZERO (k : nat) : Forall finiteC (repeat (@ZERO xreal _) k).
Proof.
  induction k; cbn [repeat]; constructor; [|assumption].
  split; apply finite_Fin.
Qed.

Lemma nth_repeat_ZERO (k j : nat) : nth j (repeat (@ZERO xreal _) k) ZERO = ZERO.
Proof. revert j. induction k as [|k IH]; intros [|j]; cbn; auto. Qed.

(** [a + g * b] on finite numbers. *)
Lemma add_multiply_finC (xr xi gr gi ar ai : R) :
  add (finC xr xi) (multiply (finC gr gi) (finC ar ai))
  = finC (xr + (gr * ar - gi * ai)) (xi + (gr * ai + gi * ar)).
Proof. reflexivity. Qed.

Lemma sumR_lin3 (f g h : nat -> R) (a b c : R) (k : nat) :
  sumR (fun j => a * f j + b * g j + c * h j)%R k
  = (a * sumR f k + b * sumR g k + c * sumR h k)%R.
Proof.
  rewrite <- !sumR_scal, <- !sumR_plus. reflexivity.
Qed.

(** ** Scatter-add of the columns of a unitary matrix

    Both [applyTwoQubitGate] and [applyMultiQubitGate] of the object engine
    start from the zero vector and, for every input index [i] and every row
    [j] of the gate, add [gate[j][col i] * state[i]] to cell [pos i j]. *)

Section ScatterAdd.
Variables N m : nat.
Variable G : Matrix xreal.
Hypothesis HG : Unitary m G.
(** The cell written for input [i] and row [j], and the column of [i]. *)
Variable pos : nat -> nat -> nat.
Variable col : nat -> nat.
Hypothesis col_range : forall i, (i < N)%nat -> (col i < m)%nat.
Hypothesis pos_range : forall i j, (i < N)%nat -> (j < m)%nat -> (pos i j < N)%nat.
Hypothesis pos_inj : forall i j j',
  (i < N)%nat -> (j < m)%nat -> (j' < m)%nat -> pos i j = pos i j' -> j = j'.
Hypothesis pos_self : forall i, (i < N)%nat -> pos i (col i) = i.
Hypothesis pos_group : forall i i' j j',
  (i < N)%nat -> (i' < N)%nat -> (j < m)%nat -> (j' < m)%nat ->
  pos i j = pos i' j' ->
  forall k, (k < m)%nat -> pos i k = pos i' k.

Definition entryOf (j c : nat) : Complex xreal := finC (mre G j c) (mim G j c).

Definition addAt (ns : list (Complex xreal)) (p : nat) (g a : Complex xreal)
  : list (Complex xreal) :=
  set_nth ns p (add (nth p ns ZERO) (multiply g a)).

(** The first [t] rows of the contribution of input [i] with amplitude [a]. *)
Definition innerPure (i : nat) (a : Complex xreal) (t : nat)
           (ns : list (Complex xreal)) : list (Complex xreal) :=
  fold_left (fun ns j => addAt ns (pos i j) (entryOf j (col i)) a) (seq 0 t) ns.

Local Open Scope R_scope.

Lemma innerPure_spec (i : nat) (ar ai : R) (ns : list (Complex xreal)) (t : nat) :
  (i < N)%nat -> (t <= m)%nat -> Forall finiteC ns -> length ns = N ->
  let ns' := innerPure i (finC ar ai) t ns in
  let dr j := mre G j (col i) * ar - mim G j (col i) * ai in
  let di j := mre G j (col i) * ai + mim G j (col i) * ar in
  Forall finiteC ns' /\ length ns' = N /\
  (forall j, (j < t)%nat ->
     reAt ns' (pos i j) = reAt ns (pos i j) + dr j /\
     imAt ns' (pos i j) = imAt ns (pos i j) + di j) /\
  (forall k, (forall j, (j < t)%nat -> k <> pos i j) -> nth k ns' ZERO = nth k ns ZERO) /\
  normC ns' = normC ns
    + sumR (fun j => 2 * (reAt ns (pos i j) * dr j + imAt ns (pos i j) * di j)
                     + (dr j * dr j + di j * di j)) t.
Proof.
  intros Hi Ht Hfin Hlen. cbn zeta. induction t as [|t IH].
  - cbn [innerPure seq fold_left sumR].
    split; [assumption|]. split; [assumption|]. split; [intros; lia|].
    split; [reflexivity|lra].
  - destruct (IH ltac:(lia)) as (Hf & Hl & Hw & Ho & Hn).
    unfold innerPure in *. rewrite seq_S, fold_left_app. cbn [fold_left Nat.add].
    set (nt := fold_left _ (seq 0 t) ns) in *.
    assert (Hp : (pos i t < N)%nat) by (apply pos_range; lia).
    assert (Hsame : nth (pos i t) nt ZERO = nth (pos i t) ns ZERO).
    { apply Ho. intros j Hj E. apply pos_inj in E; lia. }
    assert (Hre : reAt nt (pos i t) = reAt ns (pos i t))
      by (unfold reAt; now rewrite Hsame).
    assert (Him : imAt nt (pos i t) = imAt ns (pos i t))
      by (unfold imAt; now rewrite Hsame).
    unfold addAt. rewrite Hsame.
    rewrite (finiteC_nth ns (pos i t) Hfin ltac:(lia)).
    unfold entryOf. rewrite add_multiply_finC.
    split; [apply Forall_finiteC_set_nth; [assumption|apply finiteC_finC]|].
    split; [now rewrite set_nth_length|].
    split; [|split].
    + intros j Hj. destruct (Nat.eq_dec j t) as [->|Hne].
      * unfold reAt, imAt. rewrite nth_set_nth_same by lia. cbn [real imag toR finC].
        split; reflexivity.
      * assert (pos i t <> pos i j) by (intros E; apply pos_inj in E; lia).
        unfold reAt, imAt. rewrite nth_set_nth_other by assumption.
        apply Hw. lia.
    + intros k Hk. rewrite nth_set_nth_other by (intros E; apply (Hk t); lia).
      apply Ho. intros j Hj. apply Hk. lia.
    + rewrite normC_set_nth by lia. cbn [sumR real imag toR finC]. rewrite Hn.
      rewrite Hre, Him. lra.
Qed.

(** The inner products of the vector built so far with the column that
    input [i] will contribute: real and imaginary part. *)
Definition Qre (ns : list (Complex xreal)) (i : nat) : R :=
  sumR (fun j => reAt ns (pos i j) * mre G j (col i)
                 + imAt ns (pos i j) * mim G j (col i)) m.

Definition Qim (ns : list (Complex xreal)) (i : nat) : R :=
  sumR (fun j => reAt ns (pos i j) * mim G j (col i)
                 - imAt ns (pos i j) * mre G j (col i)) m.

Variable st : list (Complex xreal).
Hypothesis st_finite : Forall finiteC st.
Hypothesis st_length : length st = N.

(** After the first [t] inputs: the vector built has the norm of the first
    [t] amplitudes and is orthogonal to the columns still to come. *)
Definition ScatterInv (t : nat) (ns : list (Complex xreal)) : Prop :=
  Forall finiteC ns /\ length ns = N /\
  normC ns = sumR (fun i => reAt st i * reAt st i + imAt st i * imAt st i) t /\
  forall i, (t <= i < N)%nat -> Qre ns i = 0 /\ Qim ns i = 0.


Lemma ScatterInv_zero : ScatterInv 0 (repeat ZERO N).
Proof.
  split; [apply Forall_finiteC_repeat_ZERO|]. split; [apply repeat_length|].
  split; [now rewrite normC_repeat_ZERO|].
  intros i _. unfold Qre, Qim, reAt, imAt.
  split; (rewrite <- (sumR_zero m); apply sumR_ext; intros j _;
          rewrite nth_repeat_ZERO; cbn; lra).
Qed.

Lemma ScatterInv_step (t : nat) (ns : list (Complex xreal)) :
  (t < N)%nat -> ScatterInv t ns ->
  ScatterInv (S t) (innerPure t (nth t st ZERO) m ns).
Proof.
  intros Ht (Hfin & Hlen & Hnorm & Horth).
  rewrite (finiteC_nth st t st_finite ltac:(lia)).
  set (ar := reAt st t). set (ai := imAt st t).
  destruct (innerPure_spec t ar ai ns m Ht (le_n m) Hfin Hlen)
    as (Hf & Hl & Hw & Ho & Hn).
  set (ns' := innerPure t (finC ar ai) m ns) in *.
  destruct (Horth t ltac:(lia)) as [Hqr Hqi].
  destruct HG as [_ [Ore Oim]].
  pose proof (col_range t Ht) as Hct.
  split; [assumption|]. split; [assumption|]. split; [|].
  - (* the norm grows by the squared magnitude of the amplitude *)
    rewrite Hn, Hnorm. cbn [sumR]. fold ar ai.
    rewrite (sumR_ext _
      (fun j => (2 * ar) * (reAt ns (pos t j) * mre G j (col t)
                                 + imAt ns (pos t j) * mim G j (col t))
                + (- 2 * ai) * (reAt ns (pos t j) * mim G j (col t)
                                - imAt ns (pos t j) * mre G j (col t))
                + (ar * ar + ai * ai) * (mre G j (col t) * mre G j (col t)
                                         + mim G j (col t) * mim G j (col t))) m)
      by (intros; ring).
    rewrite sumR_lin3.
    fold (Qre ns t). fold (Qim ns t). rewrite Hqr, Hqi.
    rewrite (Ore (col t) (col t) Hct Hct), Nat.eqb_refl. ring.
  - intros i Hi.
    pose proof (col_range i ltac:(lia)) as Hci.
    destruct (Nat.eq_dec (pos t (col i)) i) as [Hsame|Hdiff].
    + (* [i] is in the group of [t] *)
      assert (Hpos : forall j, (j < m)%nat -> pos i j = pos t j).
      { intros j Hj. symmetry.
        apply (pos_group t i (col i) (col i)); try lia.
        rewrite Hsame. symmetry. apply pos_self. lia. }
      assert (Hcol : col t <> col i).
      { intros E. rewrite <- E in Hsame. rewrite pos_self in Hsame; lia. }
      destruct (Horth i ltac:(lia)) as [Hir Hii].
      unfold Qre, Qim in *.
      split.
      * rewrite (sumR_ext _
          (fun j => 1 * (reAt ns (pos i j) * mre G j (col i)
                         + imAt ns (pos i j) * mim G j (col i))
                    + ar * (mre G j (col t) * mre G j (col i)
                            + mim G j (col t) * mim G j (col i))
                    + ai * (mre G j (col t) * mim G j (col i)
                            - mim G j (col t) * mre G j (col i)))).
        2:{ intros j Hj. rewrite (Hpos j Hj).
            destruct (Hw j Hj) as [-> ->]. ring. }
        rewrite sumR_lin3, Hir, (Ore _ _ Hct Hci), (Oim _ _ Hct Hci).
        destruct (Nat.eqb_spec (col t) (col i)); [contradiction|ring].
      * rewrite (sumR_ext _
          (fun j => 1 * (reAt ns (pos i j) * mim G j (col i)
                         - imAt ns (pos i j) * mre G j (col i))
                    + ar * (mre G j (col t) * mim G j (col i)
                            - mim G j (col t) * mre G j (col i))
                    + (- ai) * (mre G j (col t) * mre G j (col i)
                                + mim G j (col t) * mim G j (col i)))).
        2:{ intros j Hj. rewrite (Hpos j Hj).
            destruct (Hw j Hj) as [-> ->]. ring. }
        rewrite sumR_lin3, Hii, (Ore _ _ Hct Hci), (Oim _ _ Hct Hci).
        destruct (Nat.eqb_spec (col t) (col i)); [contradiction|ring].
    + (* the cells of [i] were not written *)
      assert (Hkeep : forall j, (j < m)%nat ->
                nth (pos i j) ns' ZERO = nth (pos i j) ns ZERO).
      { intros j Hj. apply Ho. intros j' Hj' E. apply Hdiff.
        rewrite <- (pos_group i t j j' ltac:(lia) Ht Hj Hj' E (col i) Hci).
        apply pos_self. lia. }
      destruct (Horth i ltac:(lia)) as [Hir Hii].
      unfold Qre, Qim, reAt, imAt in *.
      split.
      * rewrite <- Hir. apply sumR_ext. intros j Hj. now rewrite Hkeep.
      * rewrite <- Hii. apply sumR_ext. intros j Hj. now rewrite Hkeep.
Qed.

(** The whole loop, as a function. *)
Definition scatterPure (t : nat) : list (Complex xreal) :=
  fold_left (fun ns i => innerPure i (nth i st ZERO) m ns) (seq 0 t) (repeat ZERO N).

Lemma scatterPure_inv (t : nat) : (t <= N)%nat -> ScatterInv t (scatterPure t).
Proof.
  induction t as [|t IH]; intros Ht.
  - apply ScatterInv_zero.
  - unfold scatterPure. rewrite seq_S, fold_left_app. cbn [fold_left Nat.add].
    apply ScatterInv_step; [lia|]. apply IH. lia.
Qed.

Lemma scatterPure_norm :
  Forall finiteC (scatterPure N) /\ length (scatterPure N) = N /\
  normC (scatterPure N) = normC st.
Proof.
  destruct (scatterPure_inv N (le_n N)) as (Hf & Hl & Hn & _).
  split; [assumption|]. split; [assumption|].
  now rewrite Hn, normC_sumR, st_length.
Qed.
End ScatterAdd.

(** ** The scatter-add loop of the engine *)

(** The loop shared by [applyTwoQubitGate] and [applyMultiQubitGate]:
    [col i] is the gate column of input [i] and [idx i j] the cell that row
    [j] of the gate goes to. *)
Definition scatterLoop {F : Type} {N : Num F} (gate : Matrix F) (st : list (Complex F))
           (col : Z -> Z) (idx : Z -> Z -> Z) (gateSize stateSize : nat)
           (zeros : list (Complex F)) : result (list (Complex F)) :=
  foldM (fun newState i =>
    foldM (fun newState j =>
      gateElement <- Obj.melem gate j (col i) ;;
      Obj.accumulate newState (idx i j) gateElement (arr_get st i))
      (range gateSize) newState)
    (range stateSize) zeros.

Lemma foldM_range_fold {B : Type} (P : B -> Prop) (body : B -> Z -> result B)
      (f : B -> nat -> B) (l : list nat) (acc : B) :
  (forall acc a, In a l -> P acc -> body acc (Z.of_nat a) = Ok (f acc a) /\ P (f acc a)) ->
  P acc ->
  foldM body (map Z.of_nat l) acc = Ok (fold_left f l acc) /\ P (fold_left f l acc).
Proof.
  revert acc. induction l as [|a l IH]; intros acc Hbody Hacc.
  - split; [reflexivity|assumption].
  - cbn [map foldM fold_left bind result_Monad].
    destruct (Hbody acc a (or_introl eq_refl) Hacc) as [-> HP].
    apply IH; [|assumption]. intros acc' a' Ha'. apply Hbody. now right.
Qed.

Lemma melem_finite (m : nat) (G : Matrix xreal) (r c : nat) :
  FiniteMatrix m G -> (r < m)%nat -> (c < m)%nat ->
  Obj.melem G (Z.of_nat r) (Z.of_nat c) = Ok (Some (entryOf G r c)).
Proof.
  intros [Hlen Hrows] Hr Hc. unfold Obj.melem, entryOf, mre, mim.
  rewrite (arr_get_nth G (Z.of_nat r) []) by lia. cbn [defined bind result_Monad].
  rewrite Nat2Z.id.
  assert (Hin : In (nth r G []) G) by (apply nth_In; lia).
  destruct (Hrows _ Hin) as [Hrl He].
  rewrite (arr_get_nth _ (Z.of_nat c) ZERO) by lia. rewrite Nat2Z.id.
  assert (Hin' : In (nth c (nth r G []) ZERO) (nth r G [])) by (apply nth_In; lia).
  do 2 f_equal. now apply finiteC_eq, He.
Qed.

Section ScatterLoop.
Variables N m : nat.
Variable G : Matrix xreal.
Hypothesis HG : FiniteMatrix m G.
Variable col : Z -> Z.
Variable idx : Z -> Z -> Z.
Hypothesis col_range : forall i, 0 <= i < Z.of_nat N -> 0 <= col i < Z.of_nat m.
Hypothesis idx_range : forall i j,
  0 <= i < Z.of_nat N -> 0 <= j < Z.of_nat m -> 0 <= idx i j < Z.of_nat N.
Variable st : list (Complex xreal).
Hypothesis st_length : length st = N.

Let pos (i j : nat) : nat := Z.to_nat (idx (Z.of_nat i) (Z.of_nat j)).
Let colN (i : nat) : nat := Z.to_nat (col (Z.of_nat i)).

Lemma scatterLoop_pure :
  scatterLoop G st col idx m N (repeat ZERO N)
  = Ok (scatterPure N m G pos colN st N).
Proof.
  unfold scatterLoop, scatterPure, range.
  apply (foldM_range_fold (fun ns => length ns = N)); [|apply repeat_length].
  intros ns i Hi Hns. apply in_seq in Hi.
  unfold innerPure.
  apply (foldM_range_fold (fun ns => length ns = N)); [|assumption].
  intros ns' j Hj Hns'. apply in_seq in Hj.
  pose proof (col_range (Z.of_nat i) ltac:(lia)) as Hc.
  pose proof (idx_range (Z.of_nat i) (Z.of_nat j) ltac:(lia) ltac:(lia)) as Hp.
  replace (col (Z.of_nat i)) with (Z.of_nat (colN i)) by (unfold colN; lia).
  rewrite (melem_finite m G j (colN i) HG) by (unfold colN; lia).
  cbn [bind result_Monad]. unfold Obj.accumulate.
  rewrite (arr_get_nth ns' _ ZERO) by lia.
  rewrite (arr_get_nth st _ ZERO) by lia.
  cbn [defined bind result_Monad]. rewrite Nat2Z.id.
  unfold addAt, arr_set. destruct (Z.ltb_spec (idx (Z.of_nat i) (Z.of_nat j)) 0); [lia|].
  split; [reflexivity|]. now rewrite set_nth_length.
Qed.
End ScatterLoop.

(** ** Cells and columns described by their bits *)

Lemma testbit_above (j k t : Z) : 0 <= j < 2 ^ k -> 0 <= k <= t -> Z.testbit j t = false.
Proof.
  intros Hj Ht. destruct (Z.eq_dec j 0) as [->|Hne]; [apply Z.bits_0|].
  apply Z.bits_above_log2; [lia|].
  apply Z.lt_le_trans with k; [|lia]. apply Z.log2_lt_pow2; lia.
Qed.

Section ScatterBits.
Variables n k : Z.
Hypothesis Hn : 0 <= n <= 31.
Hypothesis Hk : 0 <= k.
Variable G : Matrix xreal.
Hypothesis HG : Unitary (Z.to_nat (2 ^ k)) G.
Variable col : Z -> Z.
Variable idx : Z -> Z -> Z.
(** [slot t = Some u]: bit [t] of the cell is bit [u] of the gate row. *)
Variable slot : Z -> option Z.
Hypothesis slot_range : forall t u, slot t = Some u -> 0 <= t /\ 0 <= u < k.
Hypothesis slot_onto : forall u, 0 <= u < k -> exists t, slot t = Some u.
Hypothesis col_range : forall i, 0 <= i < 2 ^ n -> 0 <= col i < 2 ^ k.
Hypothesis col_bits : forall i t u,
  0 <= i < 2 ^ n -> slot t = Some u -> Z.testbit (col i) u = Z.testbit i t.
Hypothesis idx_range : forall i j,
  0 <= i < 2 ^ n -> 0 <= j < 2 ^ k -> 0 <= idx i j < 2 ^ n.
Hypothesis idx_bits : forall i j t,
  0 <= i < 2 ^ n -> 0 <= j < 2 ^ k -> 0 <= t ->
  Z.testbit (idx i j) t =
    match slot t with Some u => Z.testbit j u | None => Z.testbit i t end.

Lemma idx_inj (i j j' : Z) :
  0 <= i < 2 ^ n -> 0 <= j < 2 ^ k -> 0 <= j' < 2 ^ k ->
  idx i j = idx i j' -> j = j'.
Proof.
  intros Hi Hj Hj' E. apply Z.bits_inj'. intros u Hu.
  destruct (Z.lt_ge_cases u k) as [Hlt|Hge].
  - destruct (slot_onto u ltac:(lia)) as [t Ht].
    pose proof (idx_bits i j t Hi Hj (proj1 (slot_range t u Ht))) as B.
    pose proof (idx_bits i j' t Hi Hj' (proj1 (slot_range t u Ht))) as B'.
    rewrite Ht in B, B'. congruence.
  - now rewrite !(testbit_above _ k u) by lia.
Qed.

Lemma idx_self (i : Z) : 0 <= i < 2 ^ n -> idx i (col i) = i.
Proof.
  intros Hi. apply Z.bits_inj'. intros t Ht.
  rewrite idx_bits by (auto; lia).
  destruct (slot t) as [u|] eqn:E; [|reflexivity].
  now apply col_bits.
Qed.

Lemma idx_group (i i' j j' : Z) :
  0 <= i < 2 ^ n -> 0 <= i' < 2 ^ n -> 0 <= j < 2 ^ k -> 0 <= j' < 2 ^ k ->
  idx i j = idx i' j' ->
  forall j'', 0 <= j'' < 2 ^ k -> idx i j'' = idx i' j''.
Proof.
  intros Hi Hi' Hj Hj' E j'' Hj''. apply Z.bits_inj'. intros t Ht.
  rewrite !idx_bits by (auto; lia).
  destruct (slot t) as [u|] eqn:Es; [reflexivity|].
  pose proof (idx_bits i j t Hi Hj Ht) as B.
  pose proof (idx_bits i' j' t Hi' Hj' Ht) as B'.
  rewrite Es in B, B'. congruence.
Qed.

Variable st : list (Complex xreal).
Hypothesis st_finite : Forall finiteC st.
Hypothesis st_length : Z.of_nat (length st) = 2 ^ n.

Lemma scatterLoop_norm :
  exists ns,
    scatterLoop G st col idx (Z.to_nat (2 ^ k)) (loopBound n)
                (repeat ZERO (Z.to_nat (2 ^ n))) = Ok ns /\
    Forall finiteC ns /\ length ns = length st /\ normC ns = normC st.
Proof.
  assert (Hpn : 0 < 2 ^ n) by (apply Z.pow_pos_nonneg; lia).
  assert (Hpk : 0 < 2 ^ k) by (apply Z.pow_pos_nonneg; lia).
  set (N := Z.to_nat (2 ^ n)). set (m := Z.to_nat (2 ^ k)).
  assert (HN : Z.of_nat N = 2 ^ n) by (unfold N; lia).
  assert (Hm : Z.of_nat m = 2 ^ k) by (unfold m; lia).
  assert (Hb : loopBound n = N).
  { unfold loopBound. destruct (Z.ltb_spec n 0); [lia|reflexivity]. }
  rewrite Hb.
  rewrite (scatterLoop_pure N m G (proj1 HG) col idx) by
    (try (intros; rewrite ?HN, ?Hm in *; auto); lia).
  eexists. split; [reflexivity|].
  replace (length st) with N by lia.
  apply (scatterPure_norm N m G HG); try assumption; try lia.
  - intros i Hi. pose proof (col_range (Z.of_nat i) ltac:(lia)). lia.
  - intros i j Hi Hj.
    pose proof (idx_range (Z.of_nat i) (Z.of_nat j) ltac:(lia) ltac:(lia)). lia.
  - intros i j j' Hi Hj Hj' E.
    pose proof (idx_range (Z.of_nat i) (Z.of_nat j) ltac:(lia) ltac:(lia)).
    pose proof (idx_range (Z.of_nat i) (Z.of_nat j') ltac:(lia) ltac:(lia)).
    apply Nat2Z.inj. apply (idx_inj (Z.of_nat i)); lia.
  - intros i Hi.
    pose proof (col_range (Z.of_nat i) ltac:(lia)).
    rewrite Z2Nat.id by lia. rewrite idx_self by lia. apply Nat2Z.id.
  - intros i i' j j' Hi Hi' Hj Hj' E j'' Hj''.
    pose proof (idx_range (Z.of_nat i) (Z.of_nat j) ltac:(lia) ltac:(lia)).
    pose proof (idx_range (Z.of_nat i') (Z.of_nat j') ltac:(lia) ltac:(lia)).
    f_equal. apply (idx_group (Z.of_nat i) (Z.of_nat i') (Z.of_nat j) (Z.of_nat j'));
      lia.
Qed.
End ScatterBits.

(** ** Reading and writing one bit of an index *)

(** [(x >> s) & 1]. *)
Lemma bit_spec (x s : Z) :
  0 <= x < 2 ^ 31 -> 0 <= s < 32 ->
  Int32.and (Int32.shr x s) 1 = Z.b2z (Z.testbit x s).
Proof.
  intros Hx Hs.
  rewrite Int32Facts.shr_small by lia.
  rewrite Int32Facts.and_small
    by (try apply Int32Facts.shiftr_bound; change (2 ^ 31) with 2147483648; lia).
  rewrite Int32Facts.land_1, Z.shiftr_spec by lia.
  now rewrite Z.add_0_l.
Qed.

(** [x & 1]. *)
Lemma bit0_spec (x : Z) :
  0 <= x < 2 ^ 31 -> Int32.and x 1 = Z.b2z (Z.testbit x 0).
Proof.
  intros Hx.
  rewrite Int32Facts.and_small by (change (2 ^ 31) with 2147483648 in *; lia).
  apply Int32Facts.land_1.
Qed.

Lemma bits_bound (y n : Z) :
  0 <= n -> 0 <= y -> (forall t, n <= t -> Z.testbit y t = false) -> y < 2 ^ n.
Proof.
  intros Hn Hy Hbits.
  assert (E : y mod 2 ^ n = y).
  { apply Z.bits_inj'. intros t Ht.
    destruct (Z.lt_ge_cases t n) as [Hlt|Hge].
    - now rewrite Z.mod_pow2_bits_low by lia.
    - rewrite Z.mod_pow2_bits_high by lia. symmetry. now apply Hbits. }
  rewrite <- E. apply Z.mod_pos_bound. apply Z.pow_pos_nonneg; lia.
Qed.

(** [x & ~(1 << s) | (b << s)]: bit [s] of [x] replaced by [b]. *)
Definition setBit (x s b : Z) : Z :=
  Int32.or (Int32.and x (Int32.not (Int32.shl 1 s))) (Int32.shl b s).

Lemma setBit_spec (n x s : Z) (b : bool) :
  0 <= n <= 31 -> 0 <= s < n -> 0 <= x < 2 ^ n ->
  0 <= setBit x s (Z.b2z b) < 2 ^ n /\
  forall t, 0 <= t ->
    Z.testbit (setBit x s (Z.b2z b)) t = if t =? s then b else Z.testbit x t.
Proof.
  intros Hn Hs Hx. unfold setBit.
  pose proof (Int32Facts.index_bound n x Hn Hx) as Hx31.
  pose proof (Int32Facts.pow2_lt_31 s ltac:(lia)) as Hp.
  rewrite Int32Facts.shl_1 by lia.
  assert (Hnot : Int32.not (2 ^ s) = Z.lnot (2 ^ s)).
  { unfold Int32.not. now rewrite Int32Facts.wrap_small by lia. }
  assert (Hand : Int32.and x (Int32.not (2 ^ s)) = Z.ldiff x (2 ^ s)).
  { rewrite Hnot. unfold Int32.and.
    rewrite !Int32Facts.wrap_small by (unfold Z.lnot, Z.pred; lia).
    symmetry. apply Z.ldiff_land. }
  rewrite Hand.
  assert (Hshl : Int32.shl (Z.b2z b) s = if b then 2 ^ s else 0).
  { destruct b; cbn [Z.b2z]; [apply Int32Facts.shl_1; lia|].
    unfold Int32.shl. rewrite (Int32Facts.wrap_small 0) by lia.
    rewrite Z.shiftl_0_l. apply Int32Facts.wrap_small. lia. }
  rewrite Hshl.
  assert (Hbits : forall t, 0 <= t ->
            Z.testbit (Z.lor (Z.ldiff x (2 ^ s)) (if b then 2 ^ s else 0)) t
            = if t =? s then b else Z.testbit x t).
  { intros t Ht. rewrite Z.lor_spec, Z.ldiff_spec, Z.pow2_bits_eqb by lia.
    rewrite (Z.eqb_sym s t).
    destruct (Z.eqb_spec t s) as [->|Hne].
    - destruct b; [rewrite Z.pow2_bits_true by lia|rewrite Z.bits_0];
        now rewrite andb_false_r.
    - rewrite andb_true_r.
      destruct b; [rewrite Z.pow2_bits_false by lia|rewrite Z.bits_0];
        now rewrite orb_false_r. }
  assert (Hnn : 0 <= Z.lor (Z.ldiff x (2 ^ s)) (if b then 2 ^ s else 0)).
  { apply Z.lor_nonneg. split; [apply Z.ldiff_nonneg; lia|destruct b; lia]. }
  assert (Hlt : Z.lor (Z.ldiff x (2 ^ s)) (if b then 2 ^ s else 0) < 2 ^ n).
  { apply bits_bound; [lia|assumption|].
    intros t Ht. rewrite Hbits by lia.
    destruct (Z.eqb_spec t s); [lia|].
    apply (testbit_above x n); lia. }
  assert (H31 : 2 ^ n <= 2 ^ 31) by (apply Z.pow_le_mono_r; lia).
  assert (Hd : 0 <= Z.ldiff x (2 ^ s) < 2 ^ 31).
  { split; [apply Z.ldiff_nonneg; lia|].
    apply Z.lt_le_trans with (2 ^ n); [|assumption].
    apply bits_bound; [lia|apply Z.ldiff_nonneg; lia|].
    intros t Ht. rewrite Z.ldiff_spec, (testbit_above x n) by lia. reflexivity. }
  rewrite Int32Facts.or_small by (destruct b; lia).
  split; [lia|exact Hbits].
Qed.

(** ** The object engine: two-qubit gates *)

(** The invariant of the object engine in exact arithmetic: [n] qubits,
    [2^n] amplitudes without NaN, squared norm [c]. *)
Definition ObjInv (n : Z) (c : R) (this : @Obj.QuantumSimulator xreal) : Prop :=
  Obj.numQubits this = n /\
  Z.of_nat (length (Obj.state this)) = 2 ^ n /\
  Forall finiteC (Obj.state this) /\
  normC (Obj.state this) = c.

(** [twoQubitIndex] and [newIndex] of [applyTwoQubitGate], as functions of
    the loop counters. *)
Definition twoQubitIndex (needsSwap : bool) (s1 s2 i : Z) : Z :=
  let bit1 := Int32.and (Int32.shr i s1) 1 in
  let bit2 := Int32.and (Int32.shr i s2) 1 in
  if needsSwap then bit2 * 2 + bit1 else bit1 * 2 + bit2.

Definition twoQubitNewIndex (needsSwap : bool) (s1 s2 i j : Z) : Z :=
  let newBit1 := if needsSwap then Int32.and j 1
                 else Int32.and (Int32.shr j 1) 1 in
  let newBit2 := if needsSwap then Int32.and (Int32.shr j 1) 1
                 else Int32.and j 1 in
  setBit (setBit i s1 newBit1) s2 newBit2.

(** Which bit of the gate row goes to bit [t] of the cell. *)
Definition twoQubitSlot (needsSwap : bool) (s1 s2 t : Z) : option Z :=
  if t =? s1 then Some (if needsSwap then 0 else 1)
  else if t =? s2 then Some (if needsSwap then 1 else 0)
  else None.

Section ObjTwoQubit.
Variable G : Matrix xreal.
Hypothesis HG : Unitary 4 G.

Lemma Obj_applyTwoQubitGate_norm (n q1 q2 : Z) (c : R) (this : Obj.QuantumSimulator) :
  0 <= n <= 31 -> 0 <= q1 < n -> 0 <= q2 < n -> q1 <> q2 ->
  ObjInv n c this ->
  exists this',
    Obj.applyTwoQubitGate G (Some q1) (Some q2) this = (Ok tt, this') /\
    ObjInv n c this'.
Proof.
  intros Hn Hq1 Hq2 Hne (Hnq & Hlen & Hfin & Hnorm).
  set (s1 := n - 1 - q1). set (s2 := n - 1 - q2).
  set (swap := q1 >? q2).
  assert (H31 : 2 ^ n <= 2 ^ 31) by (apply Z.pow_le_mono_r; lia).
  destruct (scatterLoop_norm n 2 Hn ltac:(lia) G HG
              (twoQubitIndex swap s1 s2) (twoQubitNewIndex swap s1 s2)
              (twoQubitSlot swap s1 s2)) with (st := Obj.state this)
    as (ns & Hrun & Hf' & Hl' & Hn'); try assumption.
  - (* slots are bits 0 and 1 of the row *)
    intros t u. unfold twoQubitSlot.
    destruct (Z.eqb_spec t s1); [destruct swap; intros [= <-]; lia|].
    destruct (Z.eqb_spec t s2); [destruct swap; intros [= <-]; lia|discriminate].
  - intros u Hu. unfold twoQubitSlot.
    assert (Hu' : u = 0 \/ u = 1) by lia.
    destruct swap, Hu' as [->| ->].
    + exists s1. now rewrite Z.eqb_refl.
    + exists s2. destruct (Z.eqb_spec s2 s1); [lia|]. now rewrite Z.eqb_refl.
    + exists s2. destruct (Z.eqb_spec s2 s1); [lia|]. now rewrite Z.eqb_refl.
    + exists s1. now rewrite Z.eqb_refl.
  - (* the column is below 4 *)
    intros i Hi. unfold twoQubitIndex.
    rewrite !bit_spec by lia.
    destruct swap, (Z.testbit i s1), (Z.testbit i s2); cbn; lia.
  - (* its bits are the two qubit bits of the input *)
    intros i t u Hi. unfold twoQubitIndex, twoQubitSlot.
    rewrite !bit_spec by lia.
    destruct (Z.eqb_spec t s1) as [->|];
      [|destruct (Z.eqb_spec t s2) as [->|]; [|discriminate]];
      intros [= <-];
      destruct swap, (Z.testbit i s1), (Z.testbit i s2); reflexivity.
  - (* the cell is an index *)
    intros i j Hi Hj. unfold twoQubitNewIndex.
    change (2 ^ 2) with 4 in Hj.
    rewrite bit0_spec, bit_spec by lia.
    destruct swap.
    + destruct (setBit_spec n i s1 (Z.testbit j 0) Hn ltac:(lia) Hi) as [Hb _].
      now apply (setBit_spec n _ s2 _ Hn ltac:(lia) Hb).
    + destruct (setBit_spec n i s1 (Z.testbit j 1) Hn ltac:(lia) Hi) as [Hb _].
      now apply (setBit_spec n _ s2 _ Hn ltac:(lia) Hb).
  - (* its bits *)
    intros i j t Hi Hj Ht. unfold twoQubitNewIndex, twoQubitSlot.
    change (2 ^ 2) with 4 in Hj.
    rewrite bit0_spec, bit_spec by lia.
    destruct swap.
    + destruct (setBit_spec n i s1 (Z.testbit j 0) Hn ltac:(lia) Hi) as [Hb Hbits].
      destruct (setBit_spec n _ s2 (Z.testbit j 1) Hn ltac:(lia) Hb) as [_ Hbits'].
      rewrite Hbits', Hbits by lia.
      destruct (Z.eqb_spec t s1), (Z.eqb_spec t s2); try reflexivity; lia.
    + destruct (setBit_spec n i s1 (Z.testbit j 1) Hn ltac:(lia) Hi) as [Hb Hbits].
      destruct (setBit_spec n _ s2 (Z.testbit j 0) Hn ltac:(lia) Hb) as [_ Hbits'].
      rewrite Hbits', Hbits by lia.
      destruct (Z.eqb_spec t s1), (Z.eqb_spec t s2); try reflexivity; lia.
  - (* the method *)
    unfold Obj.applyTwoQubitGate. cbn [bind Exec_Monad gets Obj.outOfRange orb].
    rewrite Hnq.
    destruct (Z.ltb_spec q1 0); [lia|]. destruct (Z.geb_spec q1 n); [lia|].
    destruct (Z.ltb_spec q2 0); [lia|]. destruct (Z.geb_spec q2 n); [lia|].
    cbn [orb]. destruct (Z.eqb_spec q1 q2); [lia|].
    cbn [lift shiftCount]. rewrite zeroState_ok by lia.
    cbn [bind result_Monad]. fold s1 s2 swap.
    unfold scatterLoop, twoQubitIndex, twoQubitNewIndex, setBit in Hrun.
    change (Z.to_nat (2 ^ 2)) with 4%nat in Hrun.
    cbn [bind result_Monad] in Hrun. cbv zeta in Hrun |- *.
    rewrite Hrun. clear Hrun.
    cbn [modify Obj.pushHistory].
    eexists. split; [reflexivity|].
    unfold ObjInv. cbn [Obj.numQubits Obj.state Obj.withState Obj.withHistory].
    split; [exact Hnq|]. split; [rewrite Hl'; exact Hlen|].
    split; [exact Hf'|]. rewrite Hn'. exact Hnorm.
Qed.
End ObjTwoQubit.

(** ** The object engine: three-qubit gates *)

(** [gateIndex] and [newIndex] of [applyMultiQubitGate] on three qubits
    whose bit positions are [s0], [s1], [s2]. *)
Definition threeQubitIndex (s0 s1 s2 i : Z) : Z :=
  Int32.or (Int32.or (Int32.or 0 (Int32.shl (Int32.and (Int32.shr i s0) 1) 2))
                     (Int32.shl (Int32.and (Int32.shr i s1) 1) 1))
           (Int32.shl (Int32.and (Int32.shr i s2) 1) 0).

Definition threeQubitNewIndex (s0 s1 s2 i j : Z) : Z :=
  setBit (setBit (setBit i s0 (Int32.and (Int32.shr j 2) 1))
                 s1 (Int32.and (Int32.shr j 1) 1))
         s2 (Int32.and (Int32.shr j 0) 1).

Definition threeQubitSlot (s0 s1 s2 t : Z) : option Z :=
  if t =? s0 then Some 2
  else if t =? s1 then Some 1
  else if t =? s2 then Some 0
  else None.

Lemma foldM_ext {A B : Type} (f g : B -> A -> result B) (l : list A) (acc : B) :
  (forall acc a, In a l -> f acc a = g acc a) -> foldM f l acc = foldM g l acc.
Proof.
  revert acc. induction l as [|a l IH]; intros acc H; cbn [foldM bind result_Monad];
    [reflexivity|].
  rewrite (H acc a (or_introl eq_refl)). destruct (g acc a); [|reflexivity].
  apply IH. intros; apply H; now right.
Qed.

Lemma fold_left_3 {A B : Type} (f : A -> B -> A) (a b c : B) (z : A) :
  fold_left f [a; b; c] z = f (f (f z a) b) c.
Proof. reflexivity. Qed.

Lemma threeQubitIndex_fold (n q0 q1 q2 i : Z) :
  fold_left (fun gateIndex q =>
               Int32.or gateIndex
                 (Int32.shl
                    (Int32.and (Int32.shr i (n - 1 - nth (Z.to_nat q) [q0; q1; q2] 0)) 1)
                    (Z.of_nat (length [q0; q1; q2]) - 1 - q)))
            (range (length [q0; q1; q2])) 0
  = threeQubitIndex (n - 1 - q0) (n - 1 - q1) (n - 1 - q2) i.
Proof.
  change (range (length [q0; q1; q2])) with [0; 1; 2].
  rewrite fold_left_3. cbv beta.
  change (Z.of_nat (length [q0; q1; q2]) - 1 - 0) with 2.
  change (Z.of_nat (length [q0; q1; q2]) - 1 - 1) with 1.
  change (Z.of_nat (length [q0; q1; q2]) - 1 - 2) with 0.
  change (nth (Z.to_nat 0) [q0; q1; q2] 0) with q0.
  change (nth (Z.to_nat 1) [q0; q1; q2] 0) with q1.
  change (nth (Z.to_nat 2) [q0; q1; q2] 0) with q2.
  unfold threeQubitIndex, threeQubitNewIndex, setBit. reflexivity.
Qed.

Lemma threeQubitNewIndex_fold (n q0 q1 q2 i j : Z) :
  fold_left (fun newIndex q =>
               Int32.or
                 (Int32.and newIndex
                    (Int32.not (Int32.shl 1 (n - 1 - nth (Z.to_nat q) [q0; q1; q2] 0))))
                 (Int32.shl
                    (Int32.and (Int32.shr j (Z.of_nat (length [q0; q1; q2]) - 1 - q)) 1)
                    (n - 1 - nth (Z.to_nat q) [q0; q1; q2] 0)))
            (range (length [q0; q1; q2])) i
  = threeQubitNewIndex (n - 1 - q0) (n - 1 - q1) (n - 1 - q2) i j.
Proof.
  change (range (length [q0; q1; q2])) with [0; 1; 2].
  rewrite fold_left_3. cbv beta.
  change (Z.of_nat (length [q0; q1; q2]) - 1 - 0) with 2.
  change (Z.of_nat (length [q0; q1; q2]) - 1 - 1) with 1.
  change (Z.of_nat (length [q0; q1; q2]) - 1 - 2) with 0.
  change (nth (Z.to_nat 0) [q0; q1; q2] 0) with q0.
  change (nth (Z.to_nat 1) [q0; q1; q2] 0) with q1.
  change (nth (Z.to_nat 2) [q0; q1; q2] 0) with q2.
  unfold threeQubitIndex, threeQubitNewIndex, setBit. reflexivity.
Qed.

Section ObjThreeQubit.
Variable G : Matrix xreal.
Hypothesis HG : Unitary 8 G.

Lemma Obj_applyMultiQubitGate_norm (n q0 q1 q2 : Z) (c : R)
      (this : Obj.QuantumSimulator) :
  0 <= n <= 31 -> 0 <= q0 < n -> 0 <= q1 < n -> 0 <= q2 < n ->
  q0 <> q1 -> q0 <> q2 -> q1 <> q2 ->
  ObjInv n c this ->
  exists this',
    Obj.applyMultiQubitGate G [q0; q1; q2] this = (Ok tt, this') /\
    ObjInv n c this'.
Proof.
  intros Hn Hq0 Hq1 Hq2 H01 H02 H12 (Hnq & Hlen & Hfin & Hnorm).
  set (s0 := n - 1 - q0). set (s1 := n - 1 - q1). set (s2 := n - 1 - q2).
  assert (H31 : 2 ^ n <= 2 ^ 31) by (apply Z.pow_le_mono_r; lia).
  destruct (scatterLoop_norm n 3 Hn ltac:(lia) G HG
              (threeQubitIndex s0 s1 s2) (threeQubitNewIndex s0 s1 s2)
              (threeQubitSlot s0 s1 s2)) with (st := Obj.state this)
    as (ns & Hrun & Hf' & Hl' & Hn'); try assumption.
  - intros t u. unfold threeQubitSlot.
    destruct (Z.eqb_spec t s0); [intros [= <-]; lia|].
    destruct (Z.eqb_spec t s1); [intros [= <-]; lia|].
    destruct (Z.eqb_spec t s2); [intros [= <-]; lia|discriminate].
  - intros u Hu. unfold threeQubitSlot.
    assert (Hu' : u = 0 \/ u = 1 \/ u = 2) by lia.
    destruct Hu' as [->|[->| ->]].
    + exists s2. destruct (Z.eqb_spec s2 s0); [lia|].
      destruct (Z.eqb_spec s2 s1); [lia|]. now rewrite Z.eqb_refl.
    + exists s1. destruct (Z.eqb_spec s1 s0); [lia|]. now rewrite Z.eqb_refl.
    + exists s0. now rewrite Z.eqb_refl.
  - intros i Hi. unfold threeQubitIndex.
    rewrite !bit_spec by lia.
    destruct (Z.testbit i s0), (Z.testbit i s1), (Z.testbit i s2);
      vm_compute; split; congruence.
  - intros i t u Hi. unfold threeQubitIndex, threeQubitSlot.
    rewrite !bit_spec by lia.
    destruct (Z.eqb_spec t s0) as [->|];
      [|destruct (Z.eqb_spec t s1) as [->|];
        [|destruct (Z.eqb_spec t s2) as [->|]; [|discriminate]]];
      intros [= <-];
      destruct (Z.testbit i s0), (Z.testbit i s1), (Z.testbit i s2); reflexivity.
  - intros i j Hi Hj. unfold threeQubitNewIndex.
    change (2 ^ 3) with 8 in Hj.
    rewrite !bit_spec by lia.
    destruct (setBit_spec n i s0 (Z.testbit j 2) Hn ltac:(lia) Hi) as [Hb0 _].
    destruct (setBit_spec n _ s1 (Z.testbit j 1) Hn ltac:(lia) Hb0) as [Hb1 _].
    now apply (setBit_spec n _ s2 _ Hn ltac:(lia) Hb1).
  - intros i j t Hi Hj Ht. unfold threeQubitNewIndex, threeQubitSlot.
    change (2 ^ 3) with 8 in Hj.
    rewrite !bit_spec by lia.
    destruct (setBit_spec n i s0 (Z.testbit j 2) Hn ltac:(lia) Hi) as [Hb0 Hbits0].
    destruct (setBit_spec n _ s1 (Z.testbit j 1) Hn ltac:(lia) Hb0) as [Hb1 Hbits1].
    destruct (setBit_spec n _ s2 (Z.testbit j 0) Hn ltac:(lia) Hb1) as [_ Hbits2].
    rewrite Hbits2, Hbits1, Hbits0 by lia.
    destruct (Z.eqb_spec t s0), (Z.eqb_spec t s1), (Z.eqb_spec t s2);
      try reflexivity; lia.
  - unfold Obj.applyMultiQubitGate. cbn [bind Exec_Monad gets lift].
    rewrite Hnq. rewrite zeroState_ok by lia.
    cbn [bind result_Monad]. cbv zeta.
    match goal with
    | |- context [foldM ?body (range (loopBound n)) ?z] =>
        rewrite (foldM_ext body
                   (fun newState i =>
                      foldM (fun newState j =>
                               gateElement <- Obj.melem G j (threeQubitIndex s0 s1 s2 i) ;;
                               Obj.accumulate newState (threeQubitNewIndex s0 s1 s2 i j)
                                              gateElement (arr_get (Obj.state this) i))
                            (range (Z.to_nat (2 ^ 3))) newState))
    end.
    2:{ intros acc i _. rewrite threeQubitIndex_fold.
        apply foldM_ext. intros acc' j _.
        rewrite threeQubitNewIndex_fold. reflexivity. }
    unfold scatterLoop in Hrun. rewrite Hrun. clear Hrun.
    cbn [modify Obj.pushHistory].
    eexists. split; [reflexivity|].
    unfold ObjInv. cbn [Obj.numQubits Obj.state Obj.withState Obj.withHistory].
    split; [exact Hnq|]. split; [rewrite Hl'; exact Hlen|].
    split; [exact Hf'|]. rewrite Hn'. exact Hnorm.
Qed.
End ObjThreeQubit.

(** ** Tensor products of unitary matrices *)

Section TensorSums.
Local Open Scope R_scope.

Lemma sumR_add (f : nat -> R) (m k : nat) :
  sumR f (m + k) = sumR f m + sumR (fun j => f (m + j)%nat) k.
Proof.
  induction k as [|k IH].
  - rewrite Nat.add_0_r. cbn [sumR]. lra.
  - rewrite Nat.add_succ_r. cbn [sumR]. rewrite IH. lra.
Qed.

(** A sum over [p * q] indices, as a sum over quotient and remainder. *)
Lemma sumR_prod (f : nat -> R) (p q : nat) :
  sumR f (p * q) = sumR (fun a => sumR (fun b => f (a * q + b)%nat) q) p.
Proof.
  induction p as [|p IH].
  - reflexivity.
  - replace (S p * q)%nat with (p * q + q)%nat by lia.
    rewrite sumR_add, IH. reflexivity.
Qed.

Lemma divmod_index (a b q : nat) :
  (b < q)%nat -> ((a * q + b) / q = a /\ (a * q + b) mod q = b)%nat.
Proof.
  intros Hb. split.
  - rewrite Nat.add_comm, Nat.div_add by lia. rewrite Nat.div_small by lia. lia.
  - rewrite Nat.add_comm, Nat.Div0.mod_add. now apply Nat.mod_small.
Qed.

(** The real and imaginary parts of the Kronecker product. *)
Definition kronRe (q : nat) (are aim bre bim : nat -> nat -> R) (r c : nat) : R :=
  are (r / q)%nat (c / q)%nat * bre (r mod q)%nat (c mod q)%nat
  - aim (r / q)%nat (c / q)%nat * bim (r mod q)%nat (c mod q)%nat.

Definition kronIm (q : nat) (are aim bre bim : nat -> nat -> R) (r c : nat) : R :=
  are (r / q)%nat (c / q)%nat * bim (r mod q)%nat (c mod q)%nat
  + aim (r / q)%nat (c / q)%nat * bre (r mod q)%nat (c mod q)%nat.

Lemma kron_unitary (p q : nat) (are aim bre bim : nat -> nat -> R) :
  (0 < q)%nat ->
  UnitaryR p are aim -> UnitaryR q bre bim ->
  UnitaryR (p * q) (kronRe q are aim bre bim) (kronIm q are aim bre bim).
Proof.
  intros Hq [Are Aim] [Bre Bim].
  assert (Hcol : forall c, (c < p * q)%nat -> (c / q < p)%nat /\ (c mod q < q)%nat).
  { intros c Hc. split.
    - apply Nat.Div0.div_lt_upper_bound. lia.
    - apply Nat.mod_upper_bound. lia. }
  assert (Hsame : forall c c', ((c =? c') = (c / q =? c' / q) && (c mod q =? c' mod q))%nat).
  { intros c c'. destruct (Nat.eqb_spec c c') as [->|Hne].
    - now rewrite !Nat.eqb_refl.
    - destruct (Nat.eqb_spec (c / q) (c' / q)) as [Ed|]; [|reflexivity].
      destruct (Nat.eqb_spec (c mod q) (c' mod q)) as [Em|]; [|reflexivity].
      exfalso. apply Hne.
      rewrite (Nat.div_mod_eq c q), (Nat.div_mod_eq c' q). now rewrite Ed, Em. }
  constructor; intros c c' Hc Hc';
    destruct (Hcol c Hc) as [Ha Hb]; destruct (Hcol c' Hc') as [Ha' Hb'];
    rewrite sumR_prod.
  - rewrite (sumR_ext _
      (fun a => sumR (fun b => 1 * ((are a (c / q)%nat * are a (c' / q)%nat + aim a (c / q)%nat * aim a (c' / q)%nat) * (bre b (c mod q)%nat * bre b (c' mod q)%nat + bim b (c mod q)%nat * bim b (c' mod q)%nat)) + -1 * ((are a (c / q)%nat * aim a (c' / q)%nat - aim a (c / q)%nat * are a (c' / q)%nat) * (bre b (c mod q)%nat * bim b (c' mod q)%nat - bim b (c mod q)%nat * bre b (c' mod q)%nat)) + 0 * 0) q)).
    2:{ intros a _. apply sumR_ext. intros b Hb0.
        unfold kronRe, kronIm. destruct (divmod_index a b q Hb0) as [-> ->]. ring. }
    rewrite (sumR_ext _
      (fun a => (if ((c mod q)%nat =? (c' mod q)%nat)%nat then 1 else 0) * (are a (c / q)%nat * are a (c' / q)%nat + aim a (c / q)%nat * aim a (c' / q)%nat) + 0 * (are a (c / q)%nat * aim a (c' / q)%nat - aim a (c / q)%nat * are a (c' / q)%nat) + 0 * 0)).
    2:{ intros a _.
        rewrite (sumR_lin3 (fun b => (are a (c / q)%nat * are a (c' / q)%nat + aim a (c / q)%nat * aim a (c' / q)%nat) * (bre b (c mod q)%nat * bre b (c' mod q)%nat + bim b (c mod q)%nat * bim b (c' mod q)%nat)) (fun b => (are a (c / q)%nat * aim a (c' / q)%nat - aim a (c / q)%nat * are a (c' / q)%nat) * (bre b (c mod q)%nat * bim b (c' mod q)%nat - bim b (c mod q)%nat * bre b (c' mod q)%nat)) (fun _ => 0)).
        rewrite !sumR_scal, (Bre _ _ Hb Hb'), (Bim _ _ Hb Hb'). ring. }
    rewrite (sumR_lin3 (fun a => (are a (c / q)%nat * are a (c' / q)%nat + aim a (c / q)%nat * aim a (c' / q)%nat)) (fun a => (are a (c / q)%nat * aim a (c' / q)%nat - aim a (c / q)%nat * are a (c' / q)%nat)) (fun _ => 0)).
    rewrite (Are _ _ Ha Ha'), (Aim _ _ Ha Ha'), (Hsame c c').
    destruct ((c / q)%nat =? (c' / q)%nat)%nat, ((c mod q)%nat =? (c' mod q)%nat)%nat; cbv beta iota delta [andb]; ring.
  - rewrite (sumR_ext _
      (fun a => sumR (fun b => 1 * ((are a (c / q)%nat * are a (c' / q)%nat + aim a (c / q)%nat * aim a (c' / q)%nat) * (bre b (c mod q)%nat * bim b (c' mod q)%nat - bim b (c mod q)%nat * bre b (c' mod q)%nat)) + 1 * ((are a (c / q)%nat * aim a (c' / q)%nat - aim a (c / q)%nat * are a (c' / q)%nat) * (bre b (c mod q)%nat * bre b (c' mod q)%nat + bim b (c mod q)%nat * bim b (c' mod q)%nat)) + 0 * 0) q)).
    2:{ intros a _. apply sumR_ext. intros b Hb0.
        unfold kronRe, kronIm. destruct (divmod_index a b q Hb0) as [-> ->]. ring. }
    rewrite (sumR_ext _
      (fun a => 0 * (are a (c / q)%nat * are a (c' / q)%nat + aim a (c / q)%nat * aim a (c' / q)%nat) + (if ((c mod q)%nat =? (c' mod q)%nat)%nat then 1 else 0) * (are a (c / q)%nat * aim a (c' / q)%nat - aim a (c / q)%nat * are a (c' / q)%nat) + 0 * 0)).
    2:{ intros a _.
        rewrite (sumR_lin3 (fun b => (are a (c / q)%nat * are a (c' / q)%nat + aim a (c / q)%nat * aim a (c' / q)%nat) * (bre b (c mod q)%nat * bim b (c' mod q)%nat - bim b (c mod q)%nat * bre b (c' mod q)%nat)) (fun b => (are a (c / q)%nat * aim a (c' / q)%nat - aim a (c / q)%nat * are a (c' / q)%nat) * (bre b (c mod q)%nat * bre b (c' mod q)%nat + bim b (c mod q)%nat * bim b (c' mod q)%nat)) (fun _ => 0)).
        rewrite !sumR_scal, (Bre _ _ Hb Hb'), (Bim _ _ Hb Hb'). ring. }
    rewrite (sumR_lin3 (fun a => (are a (c / q)%nat * are a (c' / q)%nat + aim a (c / q)%nat * aim a (c' / q)%nat)) (fun a => (are a (c / q)%nat * aim a (c' / q)%nat - aim a (c / q)%nat * are a (c' / q)%nat)) (fun _ => 0)).
    rewrite (Are _ _ Ha Ha'), (Aim _ _ Ha Ha'). ring.
Qed.
End TensorSums.

(** ** [tensorProduct] and [matrixVectorMultiply] on unitary matrices *)

Lemma nth_map_range {A : Type} (f : Z -> A) (k r : nat) (d : A) :
  (r < k)%nat -> nth r (map f (range k)) d = f (Z.of_nat r).
Proof.
  intros Hr. rewrite (nth_indep _ d (f 0)) by (now rewrite length_map, range_length).
  now rewrite map_nth, range_nth.
Qed.

Lemma row0Length_finite (m : nat) (G : Matrix xreal) :
  FiniteMatrix m G -> (0 < m)%nat -> row0Length G = Ok m.
Proof.
  intros [Hlen Hrows] Hm. unfold row0Length.
  rewrite (arr_get_nth G 0 []) by lia. cbn [defined bind result_Monad].
  f_equal. apply Hrows. apply nth_In. lia.
Qed.

Lemma multiply_finC (a b c d : R) :
  multiply (finC a b) (finC c d) = finC (a * c - b * d) (a * d + b * c).
Proof. reflexivity. Qed.

Lemma UnitaryR_ext (m : nat) (f g f' g' : nat -> nat -> R) :
  (forall r c, (r < m)%nat -> (c < m)%nat -> f' r c = f r c /\ g' r c = g r c) ->
  UnitaryR m f g -> UnitaryR m f' g'.
Proof.
  intros Hext [Hre Him]. constructor; intros c c' Hc Hc'.
  - rewrite <- (Hre c c' Hc Hc'). apply sumR_ext. intros r Hr.
    destruct (Hext r c Hr Hc) as [-> ->]. now destruct (Hext r c' Hr Hc') as [-> ->].
  - rewrite <- (Him c c' Hc Hc'). apply sumR_ext. intros r Hr.
    destruct (Hext r c Hr Hc) as [-> ->]. now destruct (Hext r c' Hr Hc') as [-> ->].
Qed.

(** A table of finite entries is a finite matrix with these entries. *)
Lemma table_finite (m : nat) (fre fim : Z -> Z -> R) :
  let T := map (fun r => map (fun c => finC (fre r c) (fim r c)) (range m)) (range m) in
  FiniteMatrix m T /\
  forall r c, (r < m)%nat -> (c < m)%nat ->
    mre T r c = fre (Z.of_nat r) (Z.of_nat c) /\ mim T r c = fim (Z.of_nat r) (Z.of_nat c).
Proof.
  cbn zeta. split.
  - split; [now rewrite length_map, range_length|].
    intros row Hrow. apply in_map_iff in Hrow as (r & <- & _).
    split; [now rewrite length_map, range_length|].
    intros e He. apply in_map_iff in He as (c & <- & _). apply finiteC_finC.
  - intros r c Hr Hc. unfold mre, mim.
    rewrite (nth_map_range _ m r) by assumption.
    rewrite (nth_map_range _ m c) by assumption. split; reflexivity.
Qed.

Lemma tensorProduct_unitary (p q : nat) (A B : Matrix xreal) :
  (0 < p)%nat -> (0 < q)%nat -> Unitary p A -> Unitary q B ->
  exists T, tensorProduct A B = Ok T /\ Unitary (p * q) T.
Proof.
  intros Hp Hq [HA UA] [HB UB].
  set (fre := fun r c : Z =>
    kronRe q (mre A) (mim A) (mre B) (mim B) (Z.to_nat r) (Z.to_nat c)).
  set (fim := fun r c : Z =>
    kronIm q (mre A) (mim A) (mre B) (mim B) (Z.to_nat r) (Z.to_nat c)).
  destruct (table_finite (p * q) fre fim) as [HT Hentries].
  eexists. split.
  - unfold tensorProduct.
    rewrite (row0Length_finite p A HA Hp), (row0Length_finite q B HB Hq).
    cbn [bind result_Monad]. rewrite (proj1 HA), (proj1 HB).
    apply mapM_ok with (g := fun r => map (fun c => finC (fre r c) (fim r c)) (range (p * q))).
    intros r Hr. apply mapM_ok. intros c Hc.
    apply range_In in Hr, Hc.
    assert (Hrq : 0 <= r / Z.of_nat q < Z.of_nat p)
      by (split; [apply Z.div_pos; lia|apply Z.div_lt_upper_bound; nia]).
    assert (Hcq : 0 <= c / Z.of_nat q < Z.of_nat p)
      by (split; [apply Z.div_pos; lia|apply Z.div_lt_upper_bound; nia]).
    pose proof (Z.mod_pos_bound r (Z.of_nat q) ltac:(lia)) as Hrm.
    pose proof (Z.mod_pos_bound c (Z.of_nat q) ltac:(lia)) as Hcm.
    rewrite (mget_finite p A _ _ HA Hrq Hcq), (mget_finite q B _ _ HB Hrm Hcm).
    cbn [bind result_Monad]. f_equal.
    change (mkComplex (Fin ?a) (Fin ?b)) with (finC a b).
    unfold fre, fim, kronRe, kronIm.
    rewrite !Z2Nat.inj_div, !Z2Nat.inj_mod, !Nat2Z.id by lia.
    apply multiply_finC.
  - split; [exact HT|].
    apply (UnitaryR_ext (p * q) (kronRe q (mre A) (mim A) (mre B) (mim B))
                        (kronIm q (mre A) (mim A) (mre B) (mim B))).
    + intros r c Hr Hc. destruct (Hentries r c Hr Hc) as [-> ->].
      unfold fre, fim. now rewrite !Nat2Z.id.
    + now apply kron_unitary.
Qed.

Lemma normC_app (l1 l2 : list (Complex xreal)) :
  normC (l1 ++ l2) = (normC l1 + normC l2)%R.
Proof. induction l1 as [|a l1 IH]; cbn [app normC]; [lra|rewrite IH; lra]. Qed.

Lemma normC_map_range (fre fim : nat -> R) (k : nat) :
  normC (map (fun i => finC (fre (Z.to_nat i)) (fim (Z.to_nat i))) (range k))
  = sumR (fun r => fre r * fre r + fim r * fim r)%R k.
Proof.
  induction k as [|k IH]; [reflexivity|].
  rewrite range_S, map_app, normC_app, IH. cbn [map normC sumR real imag toR finC].
  rewrite Nat2Z.id. lra.
Qed.

(** The product of row [i] of a finite matrix with a finite vector. *)
Lemma rowTimesVector (m : nat) (M : Matrix xreal) (v : list (Complex xreal))
      (i : Z) (k : nat) :
  FiniteMatrix m M -> Forall finiteC v -> length v = m ->
  0 <= i < Z.of_nat m -> (k <= m)%nat ->
  foldM (fun sum j =>
           x <- mget M i j ;; y <- defined (arr_get v j) ;;
           Ok (add sum (multiply x y)))
        (range k) ZERO
  = Ok (finC (sumR (fun c => mre M (Z.to_nat i) c * reAt v c
                             - mim M (Z.to_nat i) c * imAt v c)%R k)
             (sumR (fun c => mre M (Z.to_nat i) c * imAt v c
                             + mim M (Z.to_nat i) c * reAt v c)%R k)).
Proof.
  intros HM Hv Hlen Hi Hk. induction k as [|k IH].
  - reflexivity.
  - rewrite range_S, foldM_app, IH by lia.
    cbn [bind result_Monad foldM].
    rewrite (mget_finite m M _ _ HM) by lia.
    rewrite (arr_get_nth v _ ZERO) by lia.
    cbn [bind result_Monad defined]. rewrite !Nat2Z.id.
    rewrite (finiteC_nth v k Hv) by lia.
    change (mkComplex (Fin ?a) (Fin ?b)) with (finC a b).
    rewrite add_multiply_finC. reflexivity.
Qed.

Lemma matrixVectorMultiply_norm (m : nat) (M : Matrix xreal) (v : list (Complex xreal)) :
  Unitary m M -> Forall finiteC v -> length v = m ->
  exists v',
    matrixVectorMultiply M v = Ok v' /\
    Forall finiteC v' /\ length v' = m /\ normC v' = normC v.
Proof.
  intros [HM UM] Hv Hlen.
  exists (map (fun i => finC (prodRe m (mre M) (mim M) (reAt v) (imAt v) (Z.to_nat i))
                             (prodIm m (mre M) (mim M) (reAt v) (imAt v) (Z.to_nat i)))
              (range m)).
  split; [|split; [|split]].
  - unfold matrixVectorMultiply. rewrite (proj1 HM), Hlen.
    apply mapM_ok. intros i Hi. apply range_In in Hi.
    rewrite (rowTimesVector m M v i m HM Hv Hlen) by lia.
    reflexivity.
  - apply Forall_forall. intros e He. apply in_map_iff in He as (i & <- & _).
    apply finiteC_finC.
  - now rewrite length_map, range_length.
  - rewrite (normC_map_range
               (prodRe m (mre M) (mim M) (reAt v) (imAt v))
               (prodIm m (mre M) (mim M) (reAt v) (imAt v))).
    rewrite (isometry m _ _ _ _ UM). now rewrite normC_sumR, Hlen.
Qed.

(** ** The object engine: single-qubit gates *)

Lemma fullOperator_unitary (G : Matrix xreal) (qubit : option Z) (l : list Z)
      (d : nat) (M : Matrix xreal) :
  Unitary 2 G -> (0 < d)%nat -> Unitary d M ->
  exists M',
    foldM (fun fullOperator i =>
             let nextOp := if Obj.isQubit qubit i then G else identity 2 in
             tensorProduct fullOperator nextOp) l M = Ok M' /\
    Unitary (d * 2 ^ length l) M'.
Proof.
  intros HG. revert d M. induction l as [|i l IH]; intros d M Hd HM.
  - exists M. split; [reflexivity|]. cbn [length Nat.pow]. now rewrite Nat.mul_1_r.
  - cbn [foldM bind result_Monad length].
    assert (Hop : Unitary 2 (if Obj.isQubit qubit i then G else identity 2))
      by (destruct (Obj.isQubit qubit i); [exact HG|exact Unitary_I_gate]).
    destruct (tensorProduct_unitary d 2 M _ Hd ltac:(lia) HM Hop) as (T & -> & HT).
    destruct (IH (d * 2)%nat T ltac:(lia) HT) as (M' & Hrun & HM').
    exists M'. split; [exact Hrun|].
    replace (d * 2 ^ S (length l))%nat with (d * 2 * 2 ^ length l)%nat
      by (cbn [Nat.pow]; lia).
    exact HM'.
Qed.

Section ObjSingleQubit.
Variable G : Matrix xreal.
Hypothesis HG : Unitary 2 G.

Lemma Obj_applySingleQubitGate_norm (n q : Z) (c : R) (this : Obj.QuantumSimulator) :
  0 <= n <= 31 -> 0 <= q < n ->
  ObjInv n c this ->
  exists this',
    Obj.applySingleQubitGate G (Some q) this = (Ok tt, this') /\
    ObjInv n c this'.
Proof.
  intros Hn Hq (Hnq & Hlen & Hfin & Hnorm).
  unfold Obj.applySingleQubitGate. cbn [bind Exec_Monad gets Obj.outOfRange].
  rewrite Hnq.
  destruct (Z.ltb_spec q 0); [lia|]. destruct (Z.geb_spec q n); [lia|].
  cbn [orb lift].
  assert (Hfirst : Unitary 2 (if Obj.isQubit (Some q) 0 then G else identity 2))
    by (destruct (Obj.isQubit (Some q) 0); [exact HG|exact Unitary_I_gate]).
  destruct (fullOperator_unitary G (Some q)
              (map (fun k => Z.of_nat k) (seq 1 (Z.to_nat (n - 1)))) 2 _ HG
              ltac:(lia) Hfirst) as (M & HM & UM).
  cbv zeta in HM. rewrite HM. cbn [bind result_Monad].
  rewrite length_map, length_seq in UM.
  assert (Hsize : (2 * 2 ^ Z.to_nat (n - 1))%nat = length (Obj.state this)).
  { apply Nat2Z.inj. rewrite Hlen, Nat2Z.inj_mul, Nat2Z.inj_pow, Z2Nat.id by lia.
    change (Z.of_nat 2) with 2. rewrite <- Z.pow_succ_r by lia. f_equal. lia. }
  rewrite Hsize in UM.
  destruct (matrixVectorMultiply_norm _ M (Obj.state this) UM Hfin eq_refl)
    as (v' & -> & Hf' & Hl' & Hn').
  cbn [modify Obj.pushHistory].
  eexists. split; [reflexivity|].
  unfold ObjInv. cbn [Obj.numQubits Obj.state Obj.withState Obj.withHistory].
  split; [exact Hnq|]. split; [rewrite Hl'; exact Hlen|].
  split; [exact Hf'|]. rewrite Hn'. exact Hnorm.
Qed.
End ObjSingleQubit.

(** ** The object engine: [apply] keeps the norm *)

Lemma hasNaN_finite (m : nat) (G : Matrix xreal) :
  FiniteMatrix m G -> Obj.hasNaN G = false.
Proof.
  intros [_ Hrows]. unfold Obj.hasNaN.
  apply not_true_is_false. intros H.
  apply existsb_exists in H as (row & Hrow & H).
  apply existsb_exists in H as (e & He & H).
  destruct (Hrows row Hrow) as [_ Hfin]. destruct (Hfin e He) as [[x Hx] [y Hy]].
  rewrite Hx, Hy in H. discriminate.
Qed.

Section ObjValidity.
Variable lib : GateTable xreal.
Hypothesis Hlib : UnitaryTable lib.

Lemma Obj_apply_norm (gateName : string) (qs : list Z) (ps : option (list xreal))
      (n : Z) (c : R) (gateInfo : GateInfo xreal) (this : Obj.QuantumSimulator) :
  0 <= n <= 31 ->
  validateGateOperation lib gateName qs ps n = Ok gateInfo ->
  ObjInv n c this ->
  exists this',
    Obj.apply lib gateName ps qs this = (Ok tt, this') /\ ObjInv n c this'.
Proof.
  intros Hn Hvalid Hinv.
  apply validateGateOperation_ok in Hvalid as (Hlook & Hps & Hlen & Hnd & Hrange).
  unfold Obj.apply. rewrite Hlook.
  change (match matrix gateInfo with
          | Const m => m
          | Param f => f match match ps with Some p => p | None => [] end with
                         | [] => [zero]
                         | _ :: _ => match ps with Some p => p | None => [] end
                         end
          end) with (appliedMatrix gateInfo ps).
  set (logged := Obj.withOperations this
                   (Obj.operations this
                    ++ [mkGateOperation gateName qs
                          (Some match ps with Some p => p | None => [] end)])).
  assert (Hlogged : ObjInv n c logged) by exact Hinv.
  destruct (Hlib _ _ Hlook ps Hps) as [[Hq HG]|[[Hq HG]|[Hq HG]]];
    rewrite (hasNaN_finite _ _ (proj1 HG)), Hq;
    cbn [bind Exec_Monad modify Z.eqb Pos.eqb]; fold logged.
  - destruct qs as [|q [|]]; cbn [length] in Hlen; try lia.
    cbn [nth_error]. inversion Hrange; subst.
    now apply Obj_applySingleQubitGate_norm.
  - destruct qs as [|q1 [|q2 [|]]]; cbn [length] in Hlen; try lia.
    cbn [nth_error]. inversion Hrange as [|? ? ? Hr2]; subst.
    inversion Hr2; subst. inversion Hnd as [|? ? Hnin _]; subst.
    apply Obj_applyTwoQubitGate_norm; try assumption.
    intros ->. apply Hnin. now left.
  - destruct qs as [|q0 [|q1 [|q2 [|]]]]; cbn [length] in Hlen; try lia.
    inversion Hrange as [|? ? ? Hr1]; subst.
    inversion Hr1 as [|? ? ? Hr2]; subst. inversion Hr2; subst.
    inversion Hnd as [|? ? Hnin0 Hnd1]; subst.
    inversion Hnd1 as [|? ? Hnin1 _]; subst.
    apply Obj_applyMultiQubitGate_norm; try assumption.
    + intros ->. apply Hnin0. now left.
    + intros ->. apply Hnin0. right. now left.
    + intros ->. apply Hnin1. now left.
Qed.
End ObjValidity.

(** One [apply] call of the object engine per operation, in order. *)
Definition applySequenceObj {F : Type} {N : Num F} (lib : GateTable F)
           (ops : list (GateOperation F)) : Exec Obj.QuantumSimulator unit :=
  forM_ ops (fun op => Obj.apply lib (gate op) (op_params op) (op_qubits op)).

Lemma applySequenceObj_norm (lib : GateTable xreal) (n : Z) (c : R)
      (ops : list (GateOperation xreal)) (this : Obj.QuantumSimulator) :
  UnitaryTable lib -> 0 <= n <= 31 ->
  Forall (validOperation lib n) ops ->
  ObjInv n c this ->
  exists this', applySequenceObj lib ops this = (Ok tt, this') /\ ObjInv n c this'.
Proof.
  intros Hlib Hn Hvalid Hinv. unfold applySequenceObj.
  apply (forM__invariant (ObjInv n c)); [|assumption].
  intros op s Hop Hs. rewrite Forall_forall in Hvalid.
  destruct (Hvalid op Hop) as [gateInfo Hok].
  now apply (Obj_apply_norm lib Hlib (gate op) (op_qubits op) (op_params op) n c gateInfo).
Qed.

Lemma Obj_constructor_ObjInv (n : Z) :
  0 <= n <= 31 ->
  exists this, Obj.constructor (inr n) = Ok this /\ ObjInv n 1 this.
Proof.
  intros Hn. eexists. split; [apply Obj_constructor_ok; lia|].
  unfold ObjInv. cbn [Obj.numQubits Obj.state].
  assert (Hp : 0 < 2 ^ n) by (apply Z.pow_pos_nonneg; lia).
  split; [reflexivity|]. split; [|split].
  - cbn [length]. rewrite repeat_length. lia.
  - constructor; [split; apply finite_Fin|apply Forall_finiteC_repeat_ZERO].
  - cbn [normC]. rewrite normC_repeat_ZERO. cbn. lra.
Qed.

(** ** The sum of the squared magnitudes along a circuit *)

(** [Σ|amplitude|²] after a sequence of [apply] calls on a fresh engine of
    [n] qubits. *)
Definition flatNormAfter {F : Type} {N : Num F} (lib : GateTable F) (n : Z)
           (ops : list (GateOperation F)) : result F :=
  this0 <- Flat.constructor (inr n) ;;
  match applySequence lib ops this0 with
  | (Ok _, this) => Ok (sumOfSquares this)
  | (Throw e, _) => Throw e
  end.

(** The amplitudes of a flat engine after a sequence of [apply] calls on a
    fresh engine of [n] qubits. *)
Definition flatStateAfter {F : Type} {N : Num F} (lib : GateTable F) (n : Z)
           (ops : list (GateOperation F)) : result (list F) :=
  this0 <- Flat.constructor (inr n) ;;
  match applySequence lib ops this0 with
  | (Ok _, this) => Ok (Flat.state this)
  | (Throw e, _) => Throw e
  end.

Definition objNormAfter {F : Type} {N : Num F} (lib : GateTable F) (n : Z)
           (ops : list (GateOperation F)) : result F :=
  this0 <- Obj.constructor (inr n) ;;
  match applySequenceObj lib ops this0 with
  | (Ok _, this) => Ok (normSquared (Obj.state this))
  | (Throw e, _) => Throw e
  end.

(** The sequences of the first [k] operations, for every [k]. *)
Definition prefixes {A : Type} (l : list A) : list (list A) :=
  map (fun k => firstn k l) (seq 0 (S (length l))).

Definition isNearOne {F : Type} {N : Num F} (norm : result F) : bool :=
  match norm with Ok x => nearOne x | Throw _ => false end.

(** A circuit on three qubits that needs no sine or cosine. *)
Definition sampleCircuit {F : Type} : list (GateOperation F) :=
  [ mkGateOperation "H" [0] None;
    mkGateOperation "CNOT" [0; 1] None;
    mkGateOperation "SX" [2] None;
    mkGateOperation "Toffoli" [0; 1; 2] None;
    mkGateOperation "Y" [1] None;
    mkGateOperation "Fredkin" [2; 0; 1] None;
    mkGateOperation "CH" [1; 2] None;
    mkGateOperation "S" [0] None;
    mkGateOperation "iSWAP" [2; 0] None;
    mkGateOperation "H" [2] None ]%string.

(** [k] Hadamard gates on qubit 0. *)
Definition hadamards {F : Type} (k : nat) : list (GateOperation F) :=
  repeat (mkGateOperation "H" [0] None) k.

(** The double [1 - k * 2^-53], for [0 <= k <= 2^52]. *)
Definition belowOne (k : Z) : float :=
  PrimFloat.div (Float64.ofZ (2 ^ 53 - k)) (Float64.ofZ (2 ^ 53)).

(** In exact arithmetic, on a fresh engine of [n] qubits, [n] in [[1, 20]],
    after every prefix [applied] of a sequence of operations that the
    validation layer accepts, the sum of the squared magnitudes of the
    amplitudes is exactly 1, on the flat and on the object engine and for
    either gate table. *)
Lemma norm_exactly_one
      (lib : GateTable xreal) (n : Z) (applied rest : list (GateOperation xreal)) :
  lib = Gates.GATE_LIBRARY_core \/ lib = Gates.GATE_LIBRARY ->
  1 <= n <= 20 ->
  Forall (validOperation lib n) (applied ++ rest) ->
  flatNormAfter lib n applied = Ok (Fin 1) /\
  objNormAfter lib n applied = Ok (Fin 1).
Proof.
  intros Hlib Hn Hvalid.
  assert (Hn31 : 0 <= n <= 31) by lia.
  assert (Htable : UnitaryTable lib)
    by (destruct Hlib as [->| ->];
        [apply GATE_LIBRARY_core_unitary|apply GATE_LIBRARY_unitary]).
  apply Forall_app in Hvalid as [Hvalid _].
  split.
  - unfold flatNormAfter.
    destruct (constructor_FlatInv n Hn31) as (this0 & -> & Hinv0).
    cbn [bind result_Monad].
    destruct (applySequence_norm lib n 1 applied this0 Htable Hn31 Hvalid Hinv0)
      as (this & -> & Hinv).
    f_equal. apply (sumOfSquares_FlatInv n 1 this); [lia|assumption].
  - unfold objNormAfter.
    destruct (Obj_constructor_ObjInv n Hn31) as (this0 & -> & Hinv0).
    cbn [bind result_Monad].
    destruct (applySequenceObj_norm lib n 1 applied this0 Htable Hn31 Hvalid Hinv0)
      as (this & -> & (_ & _ & Hfin & Hnorm)).
    f_equal. rewrite normSquared_normC by assumption. now rewrite Hnorm.
Qed.

(** X28: in binary64 the gates do not keep the sum of the squared
    magnitudes, whatever the host's sine and cosine: on one qubit it is
    [1 - 2^-52] after one Hadamard gate and [1 - 142 * 2^-53] after a
    hundred, on both engines; it is still within [1e-6] of 1 there, and
    after each gate of a ten-gate circuit on three qubits. *)
Theorem X28_norm_binary64_samples :
  forall L : Libm,
    let N := float_Num L in
    flatNormAfter Gates.GATE_LIBRARY_core 1 (hadamards 1) = Ok (belowOne 2) /\
    objNormAfter Gates.GATE_LIBRARY 1 (hadamards 1) = Ok (belowOne 2) /\
    flatNormAfter Gates.GATE_LIBRARY_core 1 (hadamards 100) = Ok (belowOne 142) /\
    objNormAfter Gates.GATE_LIBRARY 1 (hadamards 100) = Ok (belowOne 142) /\
    nearOne (belowOne 142) = true /\
    forallb (fun applied => isNearOne (flatNormAfter Gates.GATE_LIBRARY 3 applied))
            (prefixes sampleCircuit) = true /\
    forallb (fun applied => isNearOne (objNormAfter Gates.GATE_LIBRARY 3 applied))
            (prefixes sampleCircuit) = true.
Proof. intros L N. repeat split; vm_compute; reflexivity. Qed.

(* ================================================================== *)
(** * Further properties of the library *)
(* ================================================================== *)
(* ================================================================== *)
(** * Bitstring keys and basis labels *)
(* ================================================================== *)

Section KeyRoundTrip.
Local Open Scope string_scope.

(** The digits of a binary numeral: [/^[01]*$/]. *)
Fixpoint allBinary (s : string) : bool :=
  match s with
  | EmptyString => true
  | String "0" s' => allBinary s'
  | String "1" s' => allBinary s'
  | String _ _ => false
  end.

Definition accValue (acc : option Z) : Z :=
  match acc with Some a => a | None => 0 end.

Lemma string_app_nil (s : string) : s ++ "" = s.
Proof. induction s as [|c s IH]; simpl; [reflexivity|now rewrite IH]. Qed.

Lemma string_app_assoc (s t u : string) : (s ++ t) ++ u = s ++ (t ++ u).
Proof. induction s as [|c s IH]; simpl; [reflexivity|now rewrite IH]. Qed.

Lemma binaryPrefix_digits (p : positive) (rest : string) (acc : option Z) :
  binaryPrefix (binaryDigits p ++ rest) acc =
  binaryPrefix rest (Some (accValue acc * 2 ^ Z.of_nat (String.length (binaryDigits p)) + Zpos p)).
Proof.
  revert rest acc. induction p as [p IH|p IH|]; intros rest acc.
  - cbn [binaryDigits]. rewrite string_app_assoc, IH. cbn [append binaryPrefix accValue].
    f_equal. f_equal. rewrite string_length_append. cbn [String.length].
    rewrite Nat2Z.inj_add, Z.pow_add_r by lia. change (2 ^ Z.of_nat 1) with 2. lia.
  - cbn [binaryDigits]. rewrite string_app_assoc, IH. cbn [append binaryPrefix accValue].
    f_equal. f_equal. rewrite string_length_append. cbn [String.length].
    rewrite Nat2Z.inj_add, Z.pow_add_r by lia. change (2 ^ Z.of_nat 1) with 2. lia.
  - cbn [binaryDigits append binaryPrefix String.length]. fold (accValue acc).
    f_equal. f_equal. change (2 ^ Z.of_nat 1) with 2. lia.
Qed.

Lemma binaryPrefix_zeros (k : nat) (rest : string) :
  binaryPrefix (zeros (Datatypes.S k) ++ rest) None = binaryPrefix rest (Some 0).
Proof.
  assert (H : forall k acc, accValue acc = 0 ->
            binaryPrefix (zeros (Datatypes.S k) ++ rest) acc = binaryPrefix rest (Some 0)).
  { clear k. induction k as [|k IH]; intros acc Hacc.
    - cbn [zeros append binaryPrefix]. fold (accValue acc). now rewrite Hacc.
    - change (zeros (Datatypes.S (Datatypes.S k)) ++ rest)
        with (String "0" (zeros (Datatypes.S k) ++ rest)).
      cbn [binaryPrefix]. apply IH. cbn [accValue]. fold (accValue acc). lia. }
  now apply H.
Qed.

Lemma binaryPrefix_toString2 (i : Z) (acc : option Z) :
  0 <= i -> accValue acc = 0 -> binaryPrefix (toString2 i) acc = Some i.
Proof.
  intros Hi Hacc. destruct i as [|p|p]; [| |lia].
  - cbn [toString2 binaryPrefix]. fold (accValue acc). now rewrite Hacc.
  - cbn [toString2]. rewrite <- (string_app_nil (binaryDigits p)).
    rewrite binaryPrefix_digits, Hacc. reflexivity.
Qed.

Lemma allBinary_app (s t : string) :
  allBinary s = true -> allBinary t = true -> allBinary (s ++ t) = true.
Proof.
  intros Hs Ht. induction s as [|c s IH]; [exact Ht|].
  destruct c as [[] [] [] [] [] [] [] []]; cbn in Hs |- *; try discriminate; now apply IH.
Qed.

Lemma allBinary_digits (p : positive) : allBinary (binaryDigits p) = true.
Proof.
  induction p as [p IH|p IH|]; cbn [binaryDigits]; [| |reflexivity];
    now apply allBinary_app.
Qed.

Lemma allBinary_zeros (k : nat) : allBinary (zeros k) = true.
Proof. induction k as [|k IH]; [reflexivity|exact IH]. Qed.

Lemma allBinary_key (i n : Z) : 0 <= i -> allBinary (padStart0 (toString2 i) n) = true.
Proof.
  intros Hi. unfold padStart0. apply allBinary_app; [apply allBinary_zeros|].
  destruct i as [|p|p]; [reflexivity|apply allBinary_digits|lia].
Qed.

(** Neither pass of [initialize] and [parseInt] before the digits touches a
    binary numeral. *)
Lemma stripKet_binary (s : string) : allBinary s = true -> stripKet s = s.
Proof.
  induction s as [|c s IH]; intros Hs; [reflexivity|].
  destruct c as [[] [] [] [] [] [] [] []]; cbn in Hs |- *; try discriminate;
    now rewrite IH.
Qed.

Lemma parseInt2_binary (s : string) :
  allBinary s = true -> parseInt2 s = binaryPrefix s None.
Proof.
  intros Hs. destruct s as [|c s]; [reflexivity|].
  destruct c as [[] [] [] [] [] [] [] []]; cbn in Hs |- *; try discriminate; reflexivity.
Qed.

Lemma parseInt2_key (i n : Z) :
  0 <= i -> parseInt2 (padStart0 (toString2 i) n) = Some i.
Proof.
  intros Hi. rewrite parseInt2_binary by now apply allBinary_key.
  unfold padStart0.
  destruct (Z.to_nat (n - Z.of_nat (String.length (toString2 i)))) as [|k].
  - cbn [zeros append]. now apply binaryPrefix_toString2.
  - rewrite binaryPrefix_zeros. now apply binaryPrefix_toString2.
Qed.
End KeyRoundTrip.

(** A label as the interface writes it: [|bits⟩], the bracket in UTF-8. *)
Definition ket (bits : string) : string :=
  ("|" ++ bits ++ String "226" (String "159" (String "169" "")))%string.

Lemma stripKet_ket (bits : string) : allBinary bits = true -> stripKet (ket bits) = bits.
Proof.
  intros Hb. unfold ket. cbn [append stripKet].
  induction bits as [|c s IH]; [reflexivity|].
  destruct c as [[] [] [] [] [] [] [] []]; cbn in Hb |- *; try discriminate;
    now rewrite IH.
Qed.

(** The basis state [|index>] of [n] qubits. *)
Definition basisState {F : Type} {N : Num F} (n index : Z) : list (Complex F) :=
  arr_set (repeat ZERO (Z.to_nat (2 ^ n))) index ONE.

Lemma Obj_initialize_index {F : Type} {N : Num F} (this : Obj.QuantumSimulator)
      (label : string + Z) (index : Z) :
  0 <= Obj.numQubits this <= 31 -> 0 <= index < 2 ^ Obj.numQubits this ->
  match label with inl s => parseInt2 (stripKet s) | inr k => Some k end = Some index ->
  Obj.initialize label this =
    (Ok tt, Obj.mkSim (basisState (Obj.numQubits this) index) (Obj.numQubits this)
                      [basisState (Obj.numQubits this) index] [] (Obj.noiseModel this)).
Proof.
  intros Hn Hidx Hparse.
  unfold Obj.initialize. cbn [bind Exec_Monad gets lift modify ret].
  rewrite zeroState_ok by assumption.
  cbn [Obj.withState Obj.numQubits Obj.state].
  rewrite Hparse.
  assert (E : (index >=? 0) && (index <? 2 ^ Obj.numQubits this) = true).
  { destruct (Z.geb_spec index 0), (Z.ltb_spec index (2 ^ Obj.numQubits this));
      simpl; try reflexivity; lia. }
  rewrite E. reflexivity.
Qed.

Lemma basisState_ObjInv (n index : Z) (this : @Obj.QuantumSimulator xreal) :
  0 <= n -> 0 <= index < 2 ^ n ->
  Obj.numQubits this = n -> Obj.state this = basisState n index ->
  ObjInv n 1 this.
Proof.
  intros Hn Hidx Hq Hst. unfold ObjInv. rewrite Hst, Hq. unfold basisState, arr_set.
  destruct (Z.ltb_spec index 0); [lia|].
  split; [reflexivity|]. split; [|split].
  - rewrite set_nth_length, repeat_length. lia.
  - apply Forall_finiteC_set_nth; [apply Forall_finiteC_repeat_ZERO|].
    split; apply finite_Fin.
  - rewrite normC_set_nth by (rewrite repeat_length; lia).
    unfold reAt, imAt. rewrite normC_repeat_ZERO, nth_repeat_ZERO. cbn. lra.
Qed.

(** X1: [initialize] of the object engine, given an in-range basis index as
    a number, as the bitstring key under which [sample] counts that index
    ([i.toString(2).padStart(n, '0')]), or as that key written [|bits⟩],
    installs the same basis state: one amplitude 1, all others 0, the
    history reset to that single snapshot and the operation log emptied;
    [reset] is [initialize(0)].  In exact arithmetic the installed state has
    squared norm 1. *)
Theorem X1_initialize_basis_state :
  forall (F : Type) (N : Num F) (this : Obj.QuantumSimulator) (index : Z),
    0 <= Obj.numQubits this <= 31 -> 0 <= index < 2 ^ Obj.numQubits this ->
    let n := Obj.numQubits this in
    let key := padStart0 (toString2 index) n in
    let installed (b : list (Complex F)) := Obj.mkSim b n [b] [] (Obj.noiseModel this) in
    Obj.initialize (inr index) this = (Ok tt, installed (basisState n index)) /\
    Obj.initialize (inl key) this = (Ok tt, installed (basisState n index)) /\
    Obj.initialize (inl (ket key)) this = (Ok tt, installed (basisState n index)) /\
    Obj.reset this = (Ok tt, installed (basisState n 0)) /\
    (forall (amp : Complex F) (k : Z),
        arr_get (basisState n index) k = Some amp ->
        amp = if k =? index then ONE else ZERO) /\
    Z.of_nat (length (@basisState F N n index)) = 2 ^ n /\
    normSquared (@basisState xreal _ n index) = Fin 1.
Proof.
  intros F N this index Hn Hidx n key installed. subst n key installed.
  assert (Hkey : allBinary (padStart0 (toString2 index) (Obj.numQubits this)) = true)
    by (apply allBinary_key; lia).
  assert (Hpos : 0 < 2 ^ Obj.numQubits this) by (apply Z.pow_pos_nonneg; lia).
  split; [now apply Obj_initialize_index|].
  split; [apply Obj_initialize_index; try assumption;
          rewrite stripKet_binary by exact Hkey; apply parseInt2_key; lia|].
  split; [apply Obj_initialize_index; try assumption;
          rewrite stripKet_ket by exact Hkey; apply parseInt2_key; lia|].
  split.
  { unfold Obj.reset. cbn [bind Exec_Monad gets lift modify].
    rewrite zeroState_ok by assumption. reflexivity. }
  split.
  { intros amp k Hget. unfold basisState in Hget.
    destruct (Z.eqb_spec k index) as [->|Hne].
    - rewrite arr_get_set_eq in Hget by (rewrite repeat_length; lia). congruence.
    - rewrite arr_get_set_neq in Hget by lia.
      unfold arr_get in Hget. destruct (k <? 0); [discriminate|].
      apply nth_error_In, repeat_spec in Hget. exact Hget. }
  split.
  { unfold basisState. rewrite arr_set_length, repeat_length. lia. }
  assert (Hinv : ObjInv (Obj.numQubits this) 1
                   (Obj.mkSim (basisState (Obj.numQubits this) index)
                              (Obj.numQubits this) [] [] None)).
  { apply (basisState_ObjInv (Obj.numQubits this) index); try reflexivity; lia. }
  destruct Hinv as (_ & _ & Hfin & Hnorm). cbn [Obj.state] in Hfin, Hnorm.
  rewrite normSquared_normC by exact Hfin. now rewrite Hnorm.
Qed.

(** X1 at index 2 of a fresh two-qubit engine: the key is ["10"]. *)
Lemma X1_initialize_basis_state_witness :
  Obj.initialize (inl "10"%string) (@obj_fresh xreal _ 2) =
    (Ok tt, Obj.mkSim (basisState 2 2) 2 [basisState 2 2] [] None) /\
  Obj.initialize (inl (ket "10")) (@obj_fresh xreal _ 2) =
    (Ok tt, Obj.mkSim (basisState 2 2) 2 [basisState 2 2] [] None).
Proof.
  destruct (X1_initialize_basis_state xreal xreal_Num (obj_fresh 2) 2) as (_ & Hkey & Hket & _).
  - simpl. lia.
  - simpl. lia.
  - split; [exact Hkey|exact Hket].
Defined.

(* ================================================================== *)
(** * validators.ts: state vectors and basis labels *)
(* ================================================================== *)

(** The two validators of states throw a [QuantumValidationError] whose
    [details] repeat the values interpolated into the message; an error is
    kept as its message template with those values, and its code. *)
Inductive StateMessage (F : Type) : Type :=
| MsgStateVectorElements (size expected numQubits : Z)
| MsgInvalidAmplitude (index : Z)
| MsgStateNotNormalized (norm : F)
| MsgInvalidBasisState (state : string)
| MsgBasisStateBits (state : string) (bits expected : Z).
Arguments MsgStateVectorElements {F} size expected numQubits.
Arguments MsgInvalidAmplitude {F} index.
Arguments MsgStateNotNormalized {F} norm.
Arguments MsgInvalidBasisState {F} state.
Arguments MsgBasisStateBits {F} state bits expected.

Inductive validated (F A : Type) : Type :=
| Valid (a : A)
| Invalid (message : StateMessage F) (code : ErrorCode).
Arguments Valid {F A} a.
Arguments Invalid {F A} message code.

Section StateValidators.
Context {F : Type} {N : Num F}.
Local Open Scope string_scope.
Local Open Scope Z_scope.

(** The first amplitude with a part that is not a finite number. *)
Fixpoint firstInvalidAmplitude (stateVector : list (Complex F)) (i : Z) : option Z :=
  match stateVector with
  | [] => None
  | amp :: rest =>
      if isFinite (real amp) && isFinite (imag amp)
      then firstInvalidAmplitude rest (i + 1)
      else Some i
  end.

(** [validateStateVector]; the argument is an array of [{real, imag}]
    records by its type, so the [Array.isArray] and [typeof] guards never
    fire.  [Math.pow(2, numQubits)] is no array length when [numQubits] is
    negative. *)
Definition validateStateVector (stateVector : list (Complex F)) (numQubits : Z)
  : validated F unit :=
  let expectedSize := 2 ^ numQubits in
  if (numQubits <? 0) || negb (Z.of_nat (length stateVector) =? expectedSize) then
    Invalid (MsgStateVectorElements (Z.of_nat (length stateVector)) expectedSize numQubits)
            INVALID_STATE_VECTOR
  else
    match firstInvalidAmplitude stateVector 0 with
    | Some i => Invalid (MsgInvalidAmplitude i) INVALID_STATE_VECTOR
    | None =>
        let norm := fold_left (fun sum amp => sum +' magnitudeSquared amp) stateVector zero in
        if Obj.tolerance <' Math_abs (norm -' one)
        then Invalid (MsgStateNotNormalized norm) STATE_NOT_NORMALIZED
        else Valid tt
    end.

(** [state.replace(/[|⟩<>]/g, '')] on the UTF-8 bytes of [state]. *)
Fixpoint stripBraKet (s : string) : string :=
  match s with
  | EmptyString => EmptyString
  | String "|" s' => stripBraKet s'
  | String "<" s' => stripBraKet s'
  | String ">" s' => stripBraKet s'
  | String "226" (String "159" (String "169" s')) => stripBraKet s'
  | String c s' => String c (stripBraKet s')
  end.

(** [/^[01]+$/.test(cleaned)]. *)
Definition isBinaryNumeral (cleaned : string) : bool :=
  match cleaned with
  | EmptyString => false
  | _ => allBinary cleaned
  end.

(** [validateBasisState]: the value returned is [parseInt(cleaned, 2)],
    [None] standing for NaN. *)
Definition validateBasisState (state : string) (numQubits : Z) : validated F (option Z) :=
  let cleaned := stripBraKet state in
  if negb (isBinaryNumeral cleaned) then
    Invalid (MsgInvalidBasisState state) INVALID_STATE_VECTOR
  else if negb (Z.of_nat (String.length cleaned) =? numQubits) then
    Invalid (MsgBasisStateBits state (Z.of_nat (String.length cleaned)) numQubits)
            INVALID_STATE_VECTOR
  else Valid (parseInt2 cleaned).
End StateValidators.

Lemma binaryPrefix_binary (s : string) (acc : option Z) :
  allBinary s = true -> 0 <= accValue acc ->
  exists v,
    binaryPrefix s acc = (match s with EmptyString => acc | _ => Some v end) /\
    accValue acc * 2 ^ Z.of_nat (String.length s) <= v
      < (accValue acc + 1) * 2 ^ Z.of_nat (String.length s).
Proof.
  revert acc. induction s as [|c s IH]; intros acc Hs Hacc.
  - exists (accValue acc). split; [reflexivity|]. cbn [String.length]. simpl. lia.
  - cbn [String.length]. rewrite Nat2Z.inj_succ, Z.pow_succ_r by lia.
    assert (Hp : 0 < 2 ^ Z.of_nat (String.length s)) by (apply Z.pow_pos_nonneg; lia).
    destruct c as [[] [] [] [] [] [] [] []]; cbn in Hs; try discriminate.
    + destruct (IH (Some (2 * accValue acc + 1)) Hs) as (v & Hv & Hb);
        [cbn [accValue]; lia|].
      cbn [accValue] in Hb. exists v.
      split; [|set (P := 2 ^ Z.of_nat (String.length s)) in *; clearbody P; nia].
      cbn [binaryPrefix]. fold (accValue acc). rewrite Hv.
      destruct s; [|reflexivity]. cbn [String.length] in Hb.
      change (2 ^ Z.of_nat 0) with 1 in Hb. f_equal. lia.
    + destruct (IH (Some (2 * accValue acc)) Hs) as (v & Hv & Hb);
        [cbn [accValue]; lia|].
      cbn [accValue] in Hb. exists v.
      split; [|set (P := 2 ^ Z.of_nat (String.length s)) in *; clearbody P; nia].
      cbn [binaryPrefix]. fold (accValue acc). rewrite Hv.
      destruct s; [|reflexivity]. cbn [String.length] in Hb.
      change (2 ^ Z.of_nat 0) with 1 in Hb. f_equal. lia.
Qed.

Lemma stripBraKet_binary (s : string) : allBinary s = true -> stripBraKet s = s.
Proof.
  induction s as [|c s IH]; intros Hs; [reflexivity|].
  destruct c as [[] [] [] [] [] [] [] []]; cbn in Hs |- *; try discriminate;
    now rewrite IH.
Qed.

Lemma stripBraKet_ket (bits : string) : allBinary bits = true -> stripBraKet (ket bits) = bits.
Proof.
  intros Hb. unfold ket. cbn [append stripBraKet].
  induction bits as [|c s IH]; [reflexivity|].
  destruct c as [[] [] [] [] [] [] [] []]; cbn in Hb |- *; try discriminate;
    now rewrite IH.
Qed.

(** X2: on up to 53 qubits, where every basis index is a double,
    [validateBasisState] accepts the bitstring key under which [sample]
    counts a basis index of an [n]-qubit engine, bare or written [|bits⟩],
    and returns that index; and whatever label it accepts, the value it
    returns is a number (never NaN) that is a basis index of [numQubits]
    qubits. *)
Theorem X2_validateBasisState_round_trip :
  forall (F : Type) (N : Num F),
    (forall n index : Z,
        1 <= n <= 53 -> 0 <= index < 2 ^ n ->
        let key := padStart0 (toString2 index) n in
        @validateBasisState F key n = Valid (Some index) /\
        @validateBasisState F (ket key) n = Valid (Some index)) /\
    (forall (state : string) (numQubits : Z) (value : option Z),
        numQubits <= 53 ->
        @validateBasisState F state numQubits = Valid value ->
        exists index, value = Some index /\ 0 <= index < 2 ^ numQubits).
Proof.
  intros F N. split.
  - intros n index Hn Hidx key. subst key.
    assert (Hkey : allBinary (padStart0 (toString2 index) n) = true)
      by (apply allBinary_key; lia).
    assert (Hlen : Z.of_nat (String.length (padStart0 (toString2 index) n)) = n)
      by (apply key_width; lia).
    assert (Hgen : forall s, stripBraKet s = padStart0 (toString2 index) n ->
              @validateBasisState F s n = Valid (Some index)).
    { intros s Hs. unfold validateBasisState. rewrite Hs, Hlen, Z.eqb_refl.
      unfold isBinaryNumeral. rewrite Hkey.
      destruct (padStart0 (toString2 index) n) eqn:E;
        [cbn [String.length] in Hlen; lia|].
      cbn [negb]. rewrite <- E. f_equal. apply parseInt2_key. lia. }
    split; apply Hgen; [now apply stripBraKet_binary|now apply stripBraKet_ket].
  - intros state numQubits value _. unfold validateBasisState.
    destruct (isBinaryNumeral (stripBraKet state)) eqn:Hbin; [|discriminate].
    cbn [negb].
    destruct (Z.eqb_spec (Z.of_nat (String.length (stripBraKet state))) numQubits)
      as [Hlen|]; [|discriminate].
    cbn [negb]. intros [= <-].
    unfold isBinaryNumeral in Hbin.
    destruct (stripBraKet state) as [|c s] eqn:E; [discriminate|].
    rewrite parseInt2_binary by exact Hbin.
    destruct (binaryPrefix_binary (String c s) None Hbin) as (v & Hv & Hb);
      [simpl; lia|].
    exists v. split; [exact Hv|]. cbn [accValue] in Hb. rewrite Hlen in Hb. lia.
Qed.

(** X2 at index 5 of three qubits: the key is ["101"]. *)
Lemma X2_validateBasisState_round_trip_witness :
  @validateBasisState xreal "101" 3 = Valid (Some 5) /\
  @validateBasisState xreal (ket "101") 3 = Valid (Some 5).
Proof.
  apply (proj1 (X2_validateBasisState_round_trip xreal xreal_Num) 3 5); simpl; lia.
Defined.

(* ================================================================== *)
(** * The object engine: installing a state vector *)
(* ================================================================== *)

Lemma tolerance_eq : @Obj.tolerance xreal _ = Fin (1 / 1000000).
Proof.
  unfold Obj.tolerance. cbn.
  destruct (Req_EM_T 1000000 0) as [E|_]; [exfalso; lra|reflexivity].
Qed.

(** An amplitude with a NaN part. *)
Definition hasNaNPart (amp : Complex xreal) : Prop := real amp = XNaN \/ imag amp = XNaN.

Lemma normSquared_NaN (stateVector : list (Complex xreal)) :
  Exists hasNaNPart stateVector -> normSquared stateVector = XNaN.
Proof.
  unfold normSquared.
  assert (Hstuck : forall l, fold_left (fun sum amp => sum +' magnitudeSquared amp) l XNaN
                             = XNaN)
    by (induction l as [|a l IH]; [reflexivity|exact IH]).
  intros Hnan. generalize (@zero xreal _).
  induction Hnan as [a l Ha|a l _ IH]; intros acc; cbn [fold_left].
  - replace (acc +' magnitudeSquared a) with XNaN; [apply Hstuck|].
    destruct a as [re im], Ha as [Ha|Ha]; cbn [real imag] in Ha; subst;
      destruct acc; try destruct re; try destruct im; reflexivity.
  - apply IH.
Qed.

(** The engine after [setState(stateVector)] went through. *)
Definition installed {F : Type} {N : Num F} (this : Obj.QuantumSimulator)
           (stateVector : list (Complex F)) : Obj.QuantumSimulator :=
  Obj.mkSim stateVector (Obj.numQubits this) (Obj.history this ++ [stateVector])
            (Obj.operations this) (Obj.noiseModel this).

(** X3: [setState] of the object engine rejects a vector whose length is
    not [2^n], leaving the engine as it was; in exact arithmetic, a vector
    of [2^n] finite amplitudes is installed (and pushed on the history)
    exactly when its squared norm is within [1e-6] of 1, and is otherwise
    rejected with the engine as it was. *)
Theorem X3_setState_checks_length_and_norm :
  forall (this : @Obj.QuantumSimulator xreal) (stateVector : list (Complex xreal)),
    let n := Obj.numQubits this in
    (n < 0 \/ Z.of_nat (length stateVector) <> 2 ^ n ->
     Obj.setState stateVector this = (Throw (Error (MsgStateVectorSize (2 ^ n))), this)) /\
    (0 <= n -> Z.of_nat (length stateVector) = 2 ^ n -> Forall finiteC stateVector ->
     ((Rabs (normC stateVector - 1) <= 1 / 1000000)%R ->
      Obj.setState stateVector this = (Ok tt, installed this stateVector)) /\
     ((1 / 1000000 < Rabs (normC stateVector - 1))%R ->
      Obj.setState stateVector this = (Throw (Error MsgNotNormalized), this))).
Proof.
  intros this stateVector n. subst n. split.
  - intros Hbad. unfold Obj.setState. cbn [bind Exec_Monad gets].
    destruct (Z.ltb_spec (Obj.numQubits this) 0) as [Hneg|Hpos]; [reflexivity|].
    destruct (Z.eqb_spec (Z.of_nat (length stateVector)) (2 ^ Obj.numQubits this));
      [lia|reflexivity].
  - intros Hn Hlen Hfin.
    assert (Hrun : Obj.setState stateVector this =
              if Obj.tolerance <' Math_abs (normSquared stateVector -' one)
              then (Throw (Error MsgNotNormalized), this)
              else (Ok tt, installed this stateVector)).
    { unfold Obj.setState. cbn [bind Exec_Monad gets].
      destruct (Z.ltb_spec (Obj.numQubits this) 0) as [Hneg|_]; [lia|].
      rewrite Hlen, Z.eqb_refl. cbn [orb negb]. fold (normSquared stateVector).
      destruct (Obj.tolerance <' Math_abs (normSquared stateVector -' one)); reflexivity. }
    rewrite Hrun, tolerance_eq, (normSquared_normC stateVector Hfin).
    cbn [fsub Math_abs flt xreal_Num one ofZ XReal.lift1 XReal.lift2 XReal.xlt].
    split; intros Hnorm;
      destruct (Rlt_dec (1 / 1000000) (Rabs (normC stateVector - 1))) as [Hlt|Hge];
      try reflexivity; exfalso; lra.
Qed.

(** X3 on a fresh one-qubit engine: [|1>] is installed, a vector of three
    amplitudes is refused. *)
Lemma X3_setState_checks_length_and_norm_witness :
  Obj.setState [ZERO; ONE] (@obj_fresh xreal _ 1) =
    (Ok tt, installed (obj_fresh 1) [ZERO; ONE]) /\
  Obj.setState [ZERO; ONE; ZERO] (@obj_fresh xreal _ 1) =
    (Throw (Error (MsgStateVectorSize (2 ^ 1))), obj_fresh 1).
Proof.
  destruct (X3_setState_checks_length_and_norm (obj_fresh 1) [ZERO; ONE]) as [_ Hok].
  destruct (X3_setState_checks_length_and_norm (obj_fresh 1) [ZERO; ONE; ZERO]) as [Hbad _].
  split.
  - apply Hok.
    + simpl. lia.
    + reflexivity.
    + repeat constructor; apply finite_Fin.
    + cbn. replace (0 * 0 + 0 * 0 + (1 * 1 + 0 * 0 + 0) - 1)%R with 0%R by lra.
      rewrite Rabs_R0. lra.
  - apply Hbad. right. simpl. lia.
Defined.

Lemma firstInvalidAmplitude_NaN (stateVector : list (Complex xreal)) (i : Z) :
  Exists hasNaNPart stateVector ->
  exists k, firstInvalidAmplitude stateVector i = Some k /\
            i <= k < i + Z.of_nat (length stateVector).
Proof.
  intros Hnan. revert i.
  induction Hnan as [a l Ha|a l _ IH]; intros i; cbn [firstInvalidAmplitude length].
  - exists i. split; [|lia].
    destruct a as [re im], Ha as [Ha|Ha]; cbn [real imag] in Ha; subst;
      try destruct re; try destruct im; reflexivity.
  - destruct (isFinite (real a) && isFinite (imag a)).
    + destruct (IH (i + 1)) as (k & Hk & Hb). exists k. split; [exact Hk|lia].
    + exists i. split; [reflexivity|lia].
Qed.

(** X4: whatever [validateStateVector] accepts for the engine's qubit count,
    [setState] installs; but [setState] checks less: an amplitude with a NaN
    part makes the squared norm NaN, the comparison [|norm - 1| > 1e-6] is
    then false, and the vector is installed, while [validateStateVector]
    rejects it with [INVALID_STATE_VECTOR] at the first such amplitude.  In
    binary64 the one-qubit vector [(NaN, 0)] is installed in the same way. *)
Theorem X4_setState_installs_NaN :
  (forall (F : Type) (N : Num F) (this : Obj.QuantumSimulator)
          (stateVector : list (Complex F)),
      validateStateVector stateVector (Obj.numQubits this) = Valid tt ->
      Obj.setState stateVector this = (Ok tt, installed this stateVector)) /\
  (forall (this : @Obj.QuantumSimulator xreal) (stateVector : list (Complex xreal)),
      0 <= Obj.numQubits this ->
      Z.of_nat (length stateVector) = 2 ^ Obj.numQubits this ->
      Exists hasNaNPart stateVector ->
      Obj.setState stateVector this = (Ok tt, installed this stateVector) /\
      exists k,
        0 <= k < 2 ^ Obj.numQubits this /\
        validateStateVector stateVector (Obj.numQubits this) =
          Invalid (MsgInvalidAmplitude k) INVALID_STATE_VECTOR) /\
  (forall L : Libm,
      let N := float_Num L in
      let stateVector := [mkComplex PrimFloat.nan (Float64.ofZ 0); ZERO] in
      Obj.setState stateVector (obj_fresh 1) = (Ok tt, installed (obj_fresh 1) stateVector)).
Proof.
  split; [|split].
  - intros F N this stateVector. unfold validateStateVector, Obj.setState.
    cbn [bind Exec_Monad gets].
    destruct ((Obj.numQubits this <? 0)
              || negb (Z.of_nat (length stateVector) =? 2 ^ Obj.numQubits this));
      [discriminate|].
    destruct (firstInvalidAmplitude stateVector 0); [discriminate|].
    destruct (Obj.tolerance <' Math_abs (_ -' one)); [discriminate|].
    reflexivity.
  - intros this stateVector Hn Hlen Hnan. split.
    + unfold Obj.setState. cbn [bind Exec_Monad gets].
      destruct (Z.ltb_spec (Obj.numQubits this) 0) as [Hneg|_]; [lia|].
      rewrite Hlen, Z.eqb_refl. cbn [orb negb]. fold (normSquared stateVector).
      rewrite (normSquared_NaN stateVector Hnan), tolerance_eq. reflexivity.
    + destruct (firstInvalidAmplitude_NaN stateVector 0 Hnan) as (k & Hk & Hb).
      exists k. split; [lia|]. unfold validateStateVector.
      destruct (Z.ltb_spec (Obj.numQubits this) 0) as [Hneg|_]; [lia|].
      rewrite Hlen, Z.eqb_refl. cbn [orb negb]. now rewrite Hk.
  - intros L. vm_compute. reflexivity.
Qed.

(** X4 on a fresh one-qubit engine and the vector [(NaN, 1)]. *)
Lemma X4_setState_installs_NaN_witness :
  Obj.setState [mkComplex XNaN (Fin 0); ONE] (@obj_fresh xreal _ 1) =
    (Ok tt, installed (obj_fresh 1) [mkComplex XNaN (Fin 0); ONE]).
Proof.
  apply (proj1 (proj2 X4_setState_installs_NaN) (obj_fresh 1)
           [mkComplex XNaN (Fin 0); ONE]).
  - simpl. lia.
  - reflexivity.
  - constructor. now left.
Defined.

(* ================================================================== *)
(** * The object engine: what a call of [apply] leaves behind *)
(* ================================================================== *)

Section ApplyBookkeeping.
Context {F : Type} {N : Num F}.

(** What each of the three gate methods does to the fields: on success the
    new amplitudes are pushed on the history; a throw leaves every field. *)
Definition gateMethodFrame (method : Exec (@Obj.QuantumSimulator F) unit) : Prop :=
  forall this,
    match method this with
    | (Ok _, this') =>
        Obj.history this' = Obj.history this ++ [Obj.state this'] /\
        Obj.numQubits this' = Obj.numQubits this /\
        Obj.operations this' = Obj.operations this /\
        Obj.noiseModel this' = Obj.noiseModel this
    | (Throw _, this') => this' = this
    end.

Lemma store_frame (r : result (list (Complex F))) (this : Obj.QuantumSimulator) :
  match (newState <- lift r ;;
         modify (fun this => Obj.withState this newState) ;; Obj.pushHistory) this with
  | (Ok _, this') =>
      Obj.history this' = Obj.history this ++ [Obj.state this'] /\
      Obj.numQubits this' = Obj.numQubits this /\
      Obj.operations this' = Obj.operations this /\
      Obj.noiseModel this' = Obj.noiseModel this
  | (Throw _, this') => this' = this
  end.
Proof.
  cbn [bind Exec_Monad lift]. destruct r as [newState|e]; [|reflexivity].
  cbn. repeat split.
Qed.

Lemma applySingleQubitGate_frame (gate : Matrix F) (qubit : option Z) :
  gateMethodFrame (Obj.applySingleQubitGate gate qubit).
Proof.
  intros this. unfold Obj.applySingleQubitGate.
  cbn [bind Exec_Monad gets].
  destruct (Obj.outOfRange (Obj.numQubits this) qubit); [reflexivity|].
  apply store_frame.
Qed.

Lemma applyTwoQubitGate_frame (gate : Matrix F) (qubit1 qubit2 : option Z) :
  gateMethodFrame (Obj.applyTwoQubitGate gate qubit1 qubit2).
Proof.
  intros this. unfold Obj.applyTwoQubitGate.
  cbn [bind Exec_Monad gets].
  destruct (Obj.outOfRange (Obj.numQubits this) qubit1
            || Obj.outOfRange (Obj.numQubits this) qubit2); [reflexivity|].
  destruct (match qubit1, qubit2 with
            | Some a, Some b => a =? b
            | None, None => true
            | _, _ => false
            end); [reflexivity|].
  apply store_frame.
Qed.

Lemma applyMultiQubitGate_frame (gate : Matrix F) (qs : list Z) :
  gateMethodFrame (Obj.applyMultiQubitGate gate qs).
Proof.
  intros this. unfold Obj.applyMultiQubitGate.
  cbn [bind Exec_Monad gets]. apply store_frame.
Qed.
End ApplyBookkeeping.

(** The entry [apply] writes in the operation log. *)
Definition logged {F : Type} (gateName : string) (ps : option (list F)) (qs : list Z)
  : GateOperation F :=
  mkGateOperation gateName qs (Some (match ps with Some p => p | None => [] end)).

Lemma apply_frame {F : Type} {N : Num F} (lib : GateTable F) (gateName : string)
      (ps : option (list F)) (qs : list Z) (this : Obj.QuantumSimulator) :
  match Obj.apply lib gateName ps qs this with
  | (Ok _, this') =>
      Obj.operations this' = Obj.operations this ++ [logged gateName ps qs] /\
      Obj.history this' = Obj.history this ++ [Obj.state this'] /\
      Obj.numQubits this' = Obj.numQubits this /\
      Obj.noiseModel this' = Obj.noiseModel this
  | (Throw _, this') =>
      Obj.state this' = Obj.state this /\
      Obj.history this' = Obj.history this /\
      Obj.numQubits this' = Obj.numQubits this /\
      Obj.noiseModel this' = Obj.noiseModel this /\
      (Obj.operations this' = Obj.operations this \/
       Obj.operations this' = Obj.operations this ++ [logged gateName ps qs])
  end.
Proof.
  unfold Obj.apply.
  destruct (lookupGate lib gateName) as [gateInfo|]; [|cbn; repeat split; auto].
  set (matrix := match matrix gateInfo with Param f => _ | Const m => m end).
  destruct (Obj.hasNaN matrix); [cbn; repeat split; auto|].
  cbn [bind Exec_Monad modify].
  set (this1 := Obj.withOperations this _).
  assert (Hframe : gateMethodFrame
            (if qubits gateInfo =? 1 then Obj.applySingleQubitGate matrix (nth_error qs 0)
             else if qubits gateInfo =? 2
                  then Obj.applyTwoQubitGate matrix (nth_error qs 0) (nth_error qs 1)
                  else Obj.applyMultiQubitGate matrix qs)).
  { destruct (qubits gateInfo =? 1); [apply applySingleQubitGate_frame|].
    destruct (qubits gateInfo =? 2);
      [apply applyTwoQubitGate_frame|apply applyMultiQubitGate_frame]. }
  match type of Hframe with gateMethodFrame ?m => set (method := m) in * end.
  specialize (Hframe this1). destruct (method this1) as [[u|e] this2].
  - destruct Hframe as (Hh & Hn & Ho & Hm).
    rewrite Hn, Hm, Ho, Hh. subst this1. cbn. repeat split.
  - subst this2 this1. cbn. repeat split; auto.
Qed.

(** X5: a call of [apply] on the object engine never changes the qubit
    count or the noise model.  When it returns, the operation log has grown
    by exactly the entry of this call and the history by exactly one
    snapshot, the new amplitudes.  When it throws, the amplitudes and the
    history are as before the call, and the log is either as before or
    already holds the entry of the failed call; for a gate name that is
    neither in the table nor inherited from [Object.prototype] the call
    throws [Unknown gate] and nothing at all has changed. *)
Theorem X5_apply_bookkeeping :
  forall (F : Type) (N : Num F) (lib : GateTable F) (gateName : string)
         (ps : option (list F)) (qs : list Z) (this : Obj.QuantumSimulator),
    let result := fst (Obj.apply lib gateName ps qs this) in
    let this' := snd (Obj.apply lib gateName ps qs this) in
    Obj.numQubits this' = Obj.numQubits this /\
    Obj.noiseModel this' = Obj.noiseModel this /\
    match result with
    | Ok _ =>
        Obj.operations this' = Obj.operations this ++ [logged gateName ps qs] /\
        Obj.history this' = Obj.history this ++ [Obj.state this']
    | Throw _ =>
        Obj.state this' = Obj.state this /\
        Obj.history this' = Obj.history this /\
        (Obj.operations this' = Obj.operations this \/
         Obj.operations this' = Obj.operations this ++ [logged gateName ps qs])
    end /\
    (lookupGate lib gateName = None -> inheritedName gateName = false ->
     result = Throw (Error (MsgUnknownGate gateName)) /\ this' = this).
Proof.
  intros F N lib gateName ps qs this. cbv zeta.
  split; [|split; [|split]].
  - generalize (apply_frame lib gateName ps qs this).
    destruct (Obj.apply lib gateName ps qs this) as [[u|e] this']; cbn [snd];
      now intros (_ & _ & Hn & _).
  - generalize (apply_frame lib gateName ps qs this).
    destruct (Obj.apply lib gateName ps qs this) as [[u|e] this']; cbn [snd];
      [now intros (_ & _ & _ & Hm)|now intros (_ & _ & _ & Hm & _)].
  - generalize (apply_frame lib gateName ps qs this).
    destruct (Obj.apply lib gateName ps qs this) as [[u|e] this']; cbn [fst snd].
    + now intros (Ho & Hh & _).
    + now intros (Hs & Hh & _ & _ & Ho).
  - intros Hnone _. unfold Obj.apply. rewrite Hnone. split; reflexivity.
Qed.

(** X5 at work: an unknown gate name leaves a fresh one-qubit engine as it
    was. *)
Lemma X5_apply_bookkeeping_witness :
  let this : Obj.QuantumSimulator := obj_fresh 1 in
  fst (Obj.apply Gates.GATE_LIBRARY "Foo" None [0] this)
    = Throw (Error (MsgUnknownGate "Foo")) /\
  snd (Obj.apply Gates.GATE_LIBRARY "Foo" None [0] this) = this.
Proof.
  intros this.
  apply (proj2 (proj2 (proj2
           (X5_apply_bookkeeping xreal _ Gates.GATE_LIBRARY "Foo" None [0] this))));
    reflexivity.
Defined.

(** X6: when a sequence of [apply] calls on the object engine goes
    through, the operation log has grown by the entries of the calls in
    order and the history by one snapshot per call, the last one being the
    current amplitudes; so an engine driven from construction by [apply]
    alone always holds one snapshot more than it has logged operations. *)
Theorem X6_history_tracks_operations :
  forall (F : Type) (N : Num F) (lib : GateTable F) (ops : list (GateOperation F))
         (this this' : Obj.QuantumSimulator),
    applySequenceObj lib ops this = (Ok tt, this') ->
    Obj.operations this' =
      Obj.operations this
        ++ map (fun op => logged (gate op) (op_params op) (op_qubits op)) ops /\
    length (Obj.history this') = (length (Obj.history this) + length ops)%nat /\
    (last (Obj.history this) [] = Obj.state this ->
     last (Obj.history this') [] = Obj.state this') /\
    (length (Obj.history this) = S (length (Obj.operations this)) ->
     length (Obj.history this') = S (length (Obj.operations this'))).
Proof.
  intros F N lib ops. unfold applySequenceObj.
  induction ops as [|op ops IH]; intros this this' Hrun.
  - cbn in Hrun. injection Hrun as <-. rewrite app_nil_r, Nat.add_0_r. auto.
  - cbn [forM_ bind Exec_Monad] in Hrun.
    generalize (apply_frame lib (gate op) (op_params op) (op_qubits op) this).
    destruct (Obj.apply lib (gate op) (op_params op) (op_qubits op) this)
      as [[u|e] this1]; [|discriminate].
    intros (Ho & Hh & _).
    destruct (IH this1 this' Hrun) as (Ho' & Hlen & Hlast & _).
    assert (Hlen' : length (Obj.history this')
                    = (length (Obj.history this) + length (op :: ops))%nat).
    { rewrite Hlen, Hh, length_app. cbn [length]. lia. }
    split; [|split; [exact Hlen'|split]].
    + rewrite Ho', Ho, <- app_assoc. reflexivity.
    + intros _. apply Hlast. rewrite Hh. apply last_last.
    + intros Hinv. rewrite Hlen', Ho', Ho, !length_app, length_map, Hinv.
      cbn [length]. lia.
Qed.

(** X6 on a fresh two-qubit engine in binary64: a Pauli X, then a CNOT. *)
Lemma X6_history_tracks_operations_witness :
  let N := float_Num quarterTurnHost in
  let ops := [mkGateOperation "X"%string [0] None; mkGateOperation "CNOT"%string [0; 1] None] in
  let this' := snd (applySequenceObj Gates.GATE_LIBRARY ops (obj_fresh 2)) in
  applySequenceObj Gates.GATE_LIBRARY ops (obj_fresh 2) = (Ok tt, this') /\
  length (Obj.history this') = 3%nat /\ length (Obj.operations this') = 2%nat.
Proof.
  intros N ops this'.
  assert (Hrun : applySequenceObj Gates.GATE_LIBRARY ops (obj_fresh 2) = (Ok tt, this'))
    by (vm_compute; reflexivity).
  destruct (X6_history_tracks_operations float N Gates.GATE_LIBRARY ops
              (obj_fresh 2) this' Hrun) as (Ho & Hlen & _ & _).
  split; [exact Hrun|]. split; [exact Hlen|]. rewrite Ho. reflexivity.
Defined.

(* ================================================================== *)
(** * The object engine: the order of the two qubits of a gate *)
(* ================================================================== *)

Lemma setBit_comm (n x s t : Z) (a b : bool) :
  0 <= n <= 31 -> 0 <= s < n -> 0 <= t < n -> s <> t -> 0 <= x < 2 ^ n ->
  setBit (setBit x s (Z.b2z a)) t (Z.b2z b) = setBit (setBit x t (Z.b2z b)) s (Z.b2z a).
Proof.
  intros Hn Hs Ht Hne Hx.
  destruct (setBit_spec n x s a Hn Hs Hx) as [Hxs Hbs].
  destruct (setBit_spec n x t b Hn Ht Hx) as [Hxt Hbt].
  destruct (setBit_spec n _ t b Hn Ht Hxs) as [_ Hbst].
  destruct (setBit_spec n _ s a Hn Hs Hxt) as [_ Hbts].
  apply Z.bits_inj'. intros k Hk.
  rewrite Hbst, Hbts, Hbs, Hbt by assumption.
  destruct (Z.eqb_spec k t), (Z.eqb_spec k s); try reflexivity; lia.
Qed.

Lemma twoQubitNewIndex_swap (n s1 s2 i j : Z) (needsSwap : bool) :
  0 <= n <= 31 -> 0 <= s1 < n -> 0 <= s2 < n -> s1 <> s2 ->
  0 <= i < 2 ^ n -> 0 <= j < 4 ->
  twoQubitNewIndex needsSwap s1 s2 i j = twoQubitNewIndex (negb needsSwap) s2 s1 i j.
Proof.
  intros Hn Hs1 Hs2 Hne Hi Hj. unfold twoQubitNewIndex.
  rewrite bit0_spec, bit_spec by lia.
  destruct needsSwap; cbn [negb]; now apply (setBit_comm n).
Qed.

Lemma scatterLoop_swap {F : Type} {N : Num F} (gate : Matrix F) (st zeros : list (Complex F))
      (n s1 s2 : Z) (needsSwap : bool) :
  0 <= n <= 31 -> 0 <= s1 < n -> 0 <= s2 < n -> s1 <> s2 ->
  scatterLoop gate st (twoQubitIndex needsSwap s1 s2) (twoQubitNewIndex needsSwap s1 s2)
              4 (loopBound n) zeros
  = scatterLoop gate st (twoQubitIndex (negb needsSwap) s2 s1)
                (twoQubitNewIndex (negb needsSwap) s2 s1) 4 (loopBound n) zeros.
Proof.
  intros Hn Hs1 Hs2 Hne. unfold scatterLoop.
  apply foldM_ext. intros acc i Hi. apply range_In in Hi.
  rewrite loopBound_nonneg in Hi by lia.
  apply foldM_ext. intros acc' j Hj. apply range_In in Hj.
  rewrite (twoQubitNewIndex_swap n s1 s2 i j needsSwap) by (try assumption; lia).
  replace (twoQubitIndex (negb needsSwap) s2 s1 i) with (twoQubitIndex needsSwap s1 s2 i)
    by (unfold twoQubitIndex; destruct needsSwap; reflexivity).
  reflexivity.
Qed.

Lemma Obj_applyTwoQubitGate_scatter {F : Type} {N : Num F} (gate : Matrix F)
      (n q1 q2 : Z) (this : Obj.QuantumSimulator) :
  0 <= n <= 31 -> Obj.numQubits this = n -> 0 <= q1 < n -> 0 <= q2 < n -> q1 <> q2 ->
  Obj.applyTwoQubitGate gate (Some q1) (Some q2) this
  = (newState <- lift (scatterLoop gate (Obj.state this)
                         (twoQubitIndex (q1 >? q2) (n - 1 - q1) (n - 1 - q2))
                         (twoQubitNewIndex (q1 >? q2) (n - 1 - q1) (n - 1 - q2))
                         4 (loopBound n) (repeat ZERO (Z.to_nat (2 ^ n)))) ;;
     modify (fun this => Obj.withState this newState) ;;
     Obj.pushHistory) this.
Proof.
  intros Hn Hnq Hq1 Hq2 Hne.
  unfold Obj.applyTwoQubitGate. cbn [bind Exec_Monad gets Obj.outOfRange orb].
  rewrite Hnq.
  destruct (Z.ltb_spec q1 0); [lia|]. destruct (Z.geb_spec q1 n); [lia|].
  destruct (Z.ltb_spec q2 0); [lia|]. destruct (Z.geb_spec q2 n); [lia|].
  cbn [orb]. destruct (Z.eqb_spec q1 q2); [lia|].
  cbn [lift shiftCount]. rewrite zeroState_ok by lia.
  cbn [bind result_Monad].
  unfold scatterLoop, twoQubitIndex, twoQubitNewIndex, setBit.
  reflexivity.
Qed.

(** X7: the object engine ignores the order in which the two qubits of a
    two-qubit gate are given: [applyTwoQubitGate(gate, q1, q2)] and
    [applyTwoQubitGate(gate, q2, q1)] do the same to the engine, the qubit
    with the smaller index always being the first operand of the matrix.
    Through [apply], the two orders give the same outcome, amplitudes and
    history (only the logged qubit list differs).  So [apply('CNOT', 1, 0)]
    on [|01>] leaves the state as it is, control qubit 0 being clear, whereas
    the flat engine takes qubit 1 as the control and returns [|11>]. *)
Theorem X7_two_qubit_order_ignored :
  (forall (F : Type) (N : Num F) (gate : Matrix F) (n q1 q2 : Z)
          (this : Obj.QuantumSimulator),
      0 <= n <= 31 -> Obj.numQubits this = n ->
      0 <= q1 < n -> 0 <= q2 < n -> q1 <> q2 ->
      Obj.applyTwoQubitGate gate (Some q1) (Some q2) this =
      Obj.applyTwoQubitGate gate (Some q2) (Some q1) this) /\
  (forall (F : Type) (N : Num F) (lib : GateTable F) (gateName : string)
          (gateInfo : GateInfo F) (ps : option (list F)) (n q1 q2 : Z)
          (this : Obj.QuantumSimulator),
      lookupGate lib gateName = Some gateInfo -> qubits gateInfo = 2 ->
      0 <= n <= 31 -> Obj.numQubits this = n ->
      0 <= q1 < n -> 0 <= q2 < n -> q1 <> q2 ->
      let forward := Obj.apply lib gateName ps [q1; q2] this in
      let backward := Obj.apply lib gateName ps [q2; q1] this in
      fst forward = fst backward /\
      Obj.state (snd forward) = Obj.state (snd backward) /\
      Obj.history (snd forward) = Obj.history (snd backward)) /\
  (forall L : Libm,
      let N := float_Num L in
      let c (re : Z) : Complex float := mkComplex (Float64.ofZ re) (Float64.ofZ 0) in
      let ket01 := [c 0; c 1; c 0; c 0] in
      let ket11 := [c 0; c 0; c 0; c 1] in
      let flat01 := Flat.mkSim 2 [Float64.ofZ 0; Float64.ofZ 0; Float64.ofZ 1; Float64.ofZ 0;
                                  Float64.ofZ 0; Float64.ofZ 0; Float64.ofZ 0; Float64.ofZ 0]
                               None in
      Obj.state (snd (Obj.apply Gates.GATE_LIBRARY "CNOT" None [1; 0]
                                (Obj.mkSim ket01 2 [ket01] [] None))) = ket01 /\
      fst (Flat.getState flat01) = Ok ket01 /\
      fst (Flat.getState (snd (Flat.apply Gates.GATE_LIBRARY "CNOT" None [1; 0] flat01)))
        = Ok ket11).
Proof.
  assert (Hsym : forall (F : Type) (N : Num F) (gate : Matrix F) (n q1 q2 : Z)
                        (this that : Obj.QuantumSimulator),
      0 <= n <= 31 -> Obj.numQubits this = n -> Obj.numQubits that = n ->
      Obj.state this = Obj.state that ->
      0 <= q1 < n -> 0 <= q2 < n -> q1 <> q2 ->
      Obj.applyTwoQubitGate gate (Some q1) (Some q2) this =
      (newState <- lift (scatterLoop gate (Obj.state that)
                           (twoQubitIndex (q2 >? q1) (n - 1 - q2) (n - 1 - q1))
                           (twoQubitNewIndex (q2 >? q1) (n - 1 - q2) (n - 1 - q1))
                           4 (loopBound n) (repeat ZERO (Z.to_nat (2 ^ n)))) ;;
       modify (fun this => Obj.withState this newState) ;;
       Obj.pushHistory) this).
  { intros F N gate n q1 q2 this that Hn Hnq Hnq' Hst Hq1 Hq2 Hne.
    rewrite (Obj_applyTwoQubitGate_scatter gate n q1 q2 this) by assumption.
    rewrite (scatterLoop_swap gate (Obj.state this) _ n (n - 1 - q1) (n - 1 - q2))
      by lia.
    replace (negb (q1 >? q2)) with (q2 >? q1)
      by (destruct (Z.gtb_spec q1 q2), (Z.gtb_spec q2 q1); try reflexivity; lia).
    now rewrite Hst. }
  split; [|split].
  - intros F N gate n q1 q2 this Hn Hnq Hq1 Hq2 Hne.
    rewrite (Hsym F N gate n q1 q2 this this) by auto.
    symmetry. apply Obj_applyTwoQubitGate_scatter; auto.
  - intros F N lib gateName gateInfo ps n q1 q2 this Hg Hq Hn Hnq Hq1 Hq2 Hne.
    cbv zeta. unfold Obj.apply. rewrite Hg, Hq.
    set (matrix := match matrix gateInfo with Param f => _ | Const m => m end).
    destruct (Obj.hasNaN matrix); [repeat split|].
    cbn [bind Exec_Monad modify Z.eqb Pos.eqb nth_error].
    set (this1 := Obj.withOperations this _).
    set (this2 := Obj.withOperations this _).
    rewrite (Hsym F N matrix n q1 q2 this1 this2) by auto.
    rewrite (Obj_applyTwoQubitGate_scatter matrix n q2 q1 this2) by auto.
    cbn [bind Exec_Monad lift].
    destruct (scatterLoop matrix (Obj.state this2) _ _ 4 (loopBound n) _);
      repeat split.
  - intros L. vm_compute. repeat split.
Qed.

(** X7 for the CNOT of the full table on qubits 1 and 0 of a fresh
    two-qubit engine. *)
Lemma X7_two_qubit_order_ignored_witness :
  Obj.state (snd (Obj.apply Gates.GATE_LIBRARY "CNOT" None [1; 0] (@obj_fresh xreal _ 2))) =
  Obj.state (snd (Obj.apply Gates.GATE_LIBRARY "CNOT" None [0; 1] (@obj_fresh xreal _ 2))).
Proof.
  refine (proj1 (proj2 (proj1 (proj2 X7_two_qubit_order_ignored)
            xreal xreal_Num Gates.GATE_LIBRARY "CNOT"%string
            (mkGateInfo "CNOT" "CX" 2 (Const Gates.CNOT) None "Controlled-NOT gate")
            None 2 1 0 (obj_fresh 2) _ _ _ _ _ _ _)));
    try reflexivity; simpl; lia.
Defined.

(* ================================================================== *)
(** * Bloch coordinates on the object engine *)
(* ================================================================== *)

Section ObjBlochSpec.
Context {F : Type} {N : Num F}.

(** The cross term of the object engine: the sum of
    [conj(amplitude[i]) * amplitude[paired]] over the indices whose qubit
    [q] is 0, accumulated in increasing index order. *)
Definition rho01_conj_of (n q : Z) (st : list (Complex F)) : Complex F :=
  fold_left (fun rho01 i =>
               add rho01 (multiply (conjugate (amplitudeOf st i))
                                   (amplitudeOf st (flipQubit n q i))))
            (indicesWith n q 0) ZERO.

Definition blochConjOf (n q : Z) (st : list (Complex F)) : Bloch F :=
  mkBloch (two *' real (rho01_conj_of n q st)) (two *' imag (rho01_conj_of n q st))
          (outcomeProbability n q st 0 -' outcomeProbability n q st 1).

(** The flat buffer [re0, im0, re1, im1, ...] that holds the amplitudes
    [st]. *)
Definition interleave (st : list (Complex F)) : list F :=
  flat_map (fun amp => [real amp; imag amp]) st.

Lemma interleave_length (st : list (Complex F)) :
  length (interleave st) = (2 * length st)%nat.
Proof.
  unfold interleave. induction st as [|a st IH]; cbn [flat_map app length]; lia.
Qed.

Lemma amplitudeAt_interleave (st : list (Complex F)) (i : Z) :
  0 <= i < Z.of_nat (length st) -> amplitudeAt (interleave st) i = amplitudeOf st i.
Proof.
  intros Hi. unfold amplitudeOf. replace i with (Z.of_nat (Z.to_nat i)) at 1 by lia.
  assert (Hk : (Z.to_nat i < length st)%nat) by lia. clear Hi.
  revert st Hk. induction (Z.to_nat i) as [|k IH]; intros [|a st] Hk;
    cbn [length] in Hk; try lia.
  - destruct a; reflexivity.
  - cbn [nth]. rewrite <- IH by lia. unfold amplitudeAt, f64_get, arr_get.
    replace (2 * Z.of_nat (S k)) with (Z.of_nat (S (S (2 * k)))) by lia.
    replace (Z.of_nat (S (S (2 * k))) + 1) with (Z.of_nat (S (S (2 * k + 1)))) by lia.
    replace (2 * Z.of_nat k) with (Z.of_nat (2 * k)) by lia.
    replace (Z.of_nat (2 * k) + 1) with (Z.of_nat (2 * k + 1)) by lia.
    repeat match goal with
           | |- context [Z.of_nat ?m <? 0] =>
               destruct (Z.ltb_spec (Z.of_nat m) 0); [lia|]
           end.
    rewrite !Nat2Z.id. reflexivity.
Qed.

Lemma crossTerms_loop (n q : Z) (st : list (Complex F)) (l : list Z) :
  0 <= n <= 31 -> 0 <= q < n -> Z.of_nat (length st) = 2 ^ n ->
  (forall i, In i l -> 0 <= i < 2 ^ n) ->
  forall acc : Complex F,
    foldM (fun rho01 i =>
             let bit_i := Obj.bitOf n q i in
             if bit_i =? 0 then
               let j := Int32.or i (Int32.shl 1 (n - 1 - q)) in
               a <- defined (arr_get st i) ;;
               b <- defined (arr_get st j) ;;
               let contrib := multiply (mkComplex (real a) (-' imag a)) b in
               Ok (add rho01 contrib)
             else Ok rho01)
          l acc
    = Ok (fold_left (fun rho01 i =>
                       add rho01 (multiply (conjugate (amplitudeOf st i))
                                           (amplitudeOf st (flipQubit n q i))))
                    (filter (fun i => qubitValue n q i =? 0) l) acc).
Proof.
  intros Hn Hq Hlen. induction l as [|i l IH]; intros Hl acc.
  - reflexivity.
  - assert (Hi : 0 <= i < 2 ^ n) by (apply Hl; now left).
    cbn [foldM bind result_Monad]. cbv zeta.
    rewrite bitOf_qubitValue by assumption. cbn [filter].
    destruct (qubitValue_cases n q i) as [E|E]; rewrite E; cbn [Z.eqb Pos.eqb].
    + rewrite paired_index by assumption.
      destruct (flipQubit_clear n q i Hq Hi E) as [_ Hj].
      rewrite (arr_get_nth st i ZERO), (arr_get_nth st _ ZERO) by lia.
      cbn [defined bind result_Monad fold_left].
      apply IH. intros; apply Hl; now right.
    + apply IH. intros; apply Hl; now right.
Qed.

Lemma Obj_getBlochCoordinates_spec (this : Obj.QuantumSimulator) (q : Z) :
  2 <= Obj.numQubits this <= 31 -> 0 <= q < Obj.numQubits this ->
  Z.of_nat (length (Obj.state this)) = 2 ^ Obj.numQubits this ->
  Obj.getBlochCoordinates q this =
    (Ok (blochConjOf (Obj.numQubits this) q (Obj.state this)), this).
Proof.
  intros Hn Hq Hlen. unfold Obj.getBlochCoordinates.
  cbn [bind Exec_Monad gets]. destruct (Z.eqb_spec (Obj.numQubits this) 1); [lia|].
  assert (Hsize : loopBound (Obj.numQubits this) = Z.to_nat (2 ^ Obj.numQubits this)).
  { apply Nat2Z.inj. rewrite loopBound_nonneg by lia.
    rewrite Z2Nat.id; [reflexivity|]. apply Z.pow_nonneg. lia. }
  assert (Hrange : forall i, In i (range (Z.to_nat (2 ^ Obj.numQubits this))) ->
                     0 <= i < 2 ^ Obj.numQubits this).
  { intros i Hi. apply range_In in Hi. rewrite Z2Nat.id in Hi; [lia|].
    apply Z.pow_nonneg. lia. }
  cbv zeta. rewrite Hsize.
  rewrite (measure_probabilities_loop (Obj.numQubits this) q (Obj.state this))
    by (assumption || lia).
  cbn [lift bind Exec_Monad].
  rewrite (crossTerms_loop (Obj.numQubits this) q (Obj.state this))
    by (assumption || lia).
  reflexivity.
Qed.
End ObjBlochSpec.

Lemma fold_add_parts {F : Type} {N : Num F} {A : Type} (g : A -> Complex F) (l : list A)
      (acc : Complex F) :
  fold_left (fun r i => add r (g i)) l acc
  = mkComplex (fold_left fadd (map (fun i => real (g i)) l) (real acc))
              (fold_left fadd (map (fun i => imag (g i)) l) (imag acc)).
Proof.
  revert acc. induction l as [|i l IH]; intros acc; cbn [fold_left map].
  - destruct acc; reflexivity.
  - rewrite IH. reflexivity.
Qed.

Lemma fold_left_ext_In {A B : Type} (f g : A -> B -> A) (l : list B) (acc : A) :
  (forall a b, In b l -> f a b = g a b) -> fold_left f l acc = fold_left g l acc.
Proof.
  revert acc. induction l as [|b l IH]; intros acc H; cbn [fold_left]; [reflexivity|].
  rewrite (H acc b (or_introl eq_refl)). apply IH. intros; apply H; now right.
Qed.

Lemma fold_fadd_neg {A : Type} (f : A -> xreal) (l : list A) (acc acc' : xreal) :
  acc' = -' acc ->
  fold_left fadd (map (fun i => -' f i) l) acc' = -' fold_left fadd (map f l) acc.
Proof.
  revert acc acc'. induction l as [|i l IH]; intros acc acc' ->; cbn [fold_left map].
  - reflexivity.
  - apply IH. destruct acc, (f i); cbn; try reflexivity. f_equal. lra.
Qed.

Lemma multiply_conjugate_timesConj (a b : Complex xreal) :
  multiply (conjugate a) b = conjugate (timesConj a b).
Proof.
  destruct a as [[ar|] [ai|]], b as [[br|] [bi|]]; xeval; try reflexivity.
  f_equal; f_equal; ring.
Qed.

Lemma indicesWith_range (n q b i : Z) :
  0 <= n -> In i (indicesWith n q b) -> 0 <= i < 2 ^ n /\ qubitValue n q i = b.
Proof.
  intros Hn Hi. unfold indicesWith in Hi. apply filter_In in Hi.
  destruct Hi as [Hi Hb]. apply range_In in Hi.
  rewrite Z2Nat.id in Hi by (apply Z.pow_nonneg; lia).
  split; [lia|]. now apply Z.eqb_eq.
Qed.

(** On the same amplitudes, in exact arithmetic, the object engine reports
    the [x] and [z] of the flat engine and the opposite [y]. *)
Lemma Obj_bloch_opposite_y (this : @Obj.QuantumSimulator xreal) (q : Z) :
  2 <= Obj.numQubits this <= 31 -> 0 <= q < Obj.numQubits this ->
  Z.of_nat (length (Obj.state this)) = 2 ^ Obj.numQubits this ->
  let flat := Flat.mkSim (Obj.numQubits this) (interleave (Obj.state this)) None in
  exists b,
    Flat.getBlochCoordinates q flat = (Ok b, flat) /\
    Obj.getBlochCoordinates q this = (Ok (mkBloch (x b) (-' y b) (z b)), this).
Proof.
  intros Hn Hq Hlen flat.
  set (n := Obj.numQubits this) in *. set (st := Obj.state this) in *.
  exists (blochOf n q (interleave st)). split.
  { apply (getBlochCoordinates_spec flat q); cbn [Flat.numQubits flat]; lia. }
  rewrite Obj_getBlochCoordinates_spec by assumption. fold n st.
  do 2 f_equal. unfold blochConjOf, blochOf. cbn [x y z].
  assert (Hamp : forall i, 0 <= i < 2 ^ n -> amplitudeAt (interleave st) i = amplitudeOf st i)
    by (intros i Hi; apply amplitudeAt_interleave; lia).
  assert (Hterm : forall i, In i (indicesWith n q 0) ->
            multiply (conjugate (amplitudeOf st i)) (amplitudeOf st (flipQubit n q i))
            = conjugate (timesConj (amplitudeAt (interleave st) i)
                                   (amplitudeAt (interleave st) (flipQubit n q i)))).
  { intros i Hi. apply indicesWith_range in Hi; [|lia]. destruct Hi as [Hi Hbit].
    destruct (flipQubit_clear n q i Hq Hi Hbit) as [_ Hj].
    rewrite !Hamp by assumption. apply multiply_conjugate_timesConj. }
  assert (Hrho : rho01_conj_of n q st = conjugate (rho01_of n q (interleave st))).
  { unfold rho01_conj_of, rho01_of, sumF.
    rewrite (fold_left_ext_In _
               (fun rho01 i =>
                  add rho01 (conjugate (timesConj (amplitudeAt (interleave st) i)
                               (amplitudeAt (interleave st) (flipQubit n q i))))))
      by (intros a i Hi; now rewrite Hterm).
    rewrite fold_add_parts. unfold conjugate at 3. cbn [real imag]. f_equal.
    apply (fold_fadd_neg
             (fun i => imag (timesConj (amplitudeAt (interleave st) i)
                                       (amplitudeAt (interleave st) (flipQubit n q i))))).
    cbn. f_equal. lra. }
  rewrite Hrho. cbn [conjugate real imag].
  f_equal.
  - destruct (imag (rho01_of n q (interleave st))); cbn; [f_equal; lra|reflexivity].
  - unfold outcomeProbability, rho00_of, rho11_of. f_equal; f_equal;
      apply map_ext_in; intros i Hi; apply indicesWith_range in Hi; try lia;
      now rewrite Hamp.
Qed.


(** X8: on two or more qubits, [getBlochCoordinates(q)] of the object
    engine returns [x = 2 Re(rho)], [y = 2 Im(rho)], [z = P(0) - P(1)], where
    [rho] is the sum over the indices [i] whose bit [q] is clear of
    [conj(amplitude[i]) * amplitude[i with bit q set]].  The flat engine
    sums [amplitude[i] * conj(amplitude[paired])] instead: on the same
    amplitudes, in exact arithmetic, the two engines report the same [x] and
    [z] and opposite [y]. *)
Theorem X8_object_bloch_coordinates :
  (forall (F : Type) (N : Num F) (this : Obj.QuantumSimulator) (q : Z),
      2 <= Obj.numQubits this <= 31 -> 0 <= q < Obj.numQubits this ->
      Z.of_nat (length (Obj.state this)) = 2 ^ Obj.numQubits this ->
      Obj.getBlochCoordinates q this =
        (Ok (blochConjOf (Obj.numQubits this) q (Obj.state this)), this)) /\
  (forall (this : @Obj.QuantumSimulator xreal) (q : Z),
      2 <= Obj.numQubits this <= 31 -> 0 <= q < Obj.numQubits this ->
      Z.of_nat (length (Obj.state this)) = 2 ^ Obj.numQubits this ->
      let flat := Flat.mkSim (Obj.numQubits this) (interleave (Obj.state this)) None in
      exists b,
        Flat.getBlochCoordinates q flat = (Ok b, flat) /\
        Obj.getBlochCoordinates q this = (Ok (mkBloch (x b) (-' y b) (z b)), this)).
Proof.
  split; [intros; now apply Obj_getBlochCoordinates_spec|].
  exact Obj_bloch_opposite_y.
Qed.

(** X8 at qubit 0 of a fresh two-qubit engine. *)
Lemma X8_object_bloch_coordinates_witness :
  exists b,
    Flat.getBlochCoordinates 0
      (Flat.mkSim 2 (interleave (Obj.state (@obj_fresh xreal _ 2))) None)
      = (Ok b, Flat.mkSim 2 (interleave (Obj.state (@obj_fresh xreal _ 2))) None) /\
    Obj.getBlochCoordinates 0 (@obj_fresh xreal _ 2)
      = (Ok (mkBloch (x b) (-' y b) (z b)), obj_fresh 2).
Proof.
  apply (proj2 X8_object_bloch_coordinates (obj_fresh 2) 0).
  - simpl. lia.
  - simpl. lia.
  - reflexivity.
Defined.

(* ================================================================== *)
(** * Sampling: which shots are counted *)
(* ================================================================== *)

(** The number of shots a histogram records. *)
Definition totalCount (h : Histogram) : Z :=
  fold_right (fun entry acc => snd entry + acc) 0 h.

Lemma totalCount_bump (m : Histogram) (k : string) :
  totalCount (bump m k) = totalCount m + 1.
Proof.
  unfold bump.
  assert (H : forall v,
            totalCount (map_set m k v)
            = totalCount m - match map_get m k with Some o => o | None => 0 end + v).
  { intros v. induction m as [|[k0 v0] m IH]; cbn [map_set map_get totalCount fold_right snd].
    - lia.
    - destruct (String.eqb k0 k); cbn [totalCount fold_right snd]; [lia|].
      fold (totalCount (map_set m k v)). fold (totalCount m). rewrite IH. lia. }
  rewrite H. destruct (map_get m k) as [o|]; [|lia].
  destruct (Z.eqb_spec o 0); lia.
Qed.

Section CountedShots.
Context {F S : Type} {N : Num F}.
Variable random : nat -> F.
Variable pick : F -> option Z.
Variable key : Z -> string.
Variable Q : Z -> Prop.
Hypothesis pick_ok : forall k i, pick (random k) = Some i -> Q i.

Definition counted (k : nat) : bool :=
  match pick (random k) with Some _ => true | None => false end.

(** Each shot whose draw selects an index adds one to one count; the
    others leave the histogram as it is. *)
Lemma shot_loop_counts (shots : list Z) :
  forall (results : Histogram) (s : S) (w : World),
    exists h,
      foldM (shotBody random pick key) shots results (s, w) =
        (Ok h, (s, mkWorld (randomCalls w + length shots) (probabilityPasses w))) /\
      totalCount h =
        totalCount results
        + Z.of_nat (length (filter counted (seq (randomCalls w) (length shots)))) /\
      (forall k, In k (map fst h) ->
         In k (map fst results) \/ exists i, k = key i /\ Q i).
Proof.
  induction shots as [|shot shots IH]; intros results s w.
  - exists results. cbn [foldM ret Exec_Monad length seq filter].
    rewrite Nat.add_0_r. destruct w. repeat split; [cbn; lia|auto].
  - cbn [foldM bind Exec_Monad]. unfold shotBody at 1.
    cbn [bind Exec_Monad Math_random ret length seq filter]. unfold counted at 1.
    destruct (pick (random (randomCalls w))) as [i|] eqn:Epick.
    + destruct (IH (bump results (key i)) s
                   (mkWorld (Datatypes.S (randomCalls w)) (probabilityPasses w)))
        as (h & Hh & Htotal & Hkeys).
      exists h. cbn [randomCalls probabilityPasses] in *.
      rewrite Hh, Nat.add_succ_r. split; [reflexivity|]. split.
      * rewrite Htotal, totalCount_bump. cbn [length]. lia.
      * intros k Hk. destruct (Hkeys k Hk) as [Hold|Hnew]; [|now right].
        apply bump_keys in Hold. destruct Hold as [Hold| ->]; [now left|].
        right. exists i. split; [reflexivity|]. now apply (pick_ok (randomCalls w)).
    + destruct (IH results s
                   (mkWorld (Datatypes.S (randomCalls w)) (probabilityPasses w)))
        as (h & Hh & Htotal & Hkeys).
      exists h. cbn [randomCalls probabilityPasses] in *.
      rewrite Hh, Nat.add_succ_r. repeat split; assumption.
Qed.
End CountedShots.

Lemma normC_nonneg (st : list (Complex xreal)) : (0 <= normC st)%R.
Proof. induction st as [|a st IH]; cbn [normC]; nra. Qed.

(** The walk along the cumulative probabilities, in exact arithmetic: a
    draw [r >= 0] stops at the first index where the running sum exceeds
    [r]; that index has non-zero probability; no index is found when [r] is
    not below the squared norm. *)
Lemma Obj_walk_exact (r : R) (suffix : list (Complex xreal)) :
  forall prefix : list (Complex xreal),
    Forall finiteC (prefix ++ suffix) -> (normC prefix <= r)%R ->
    let walked :=
      Obj.walk (map magnitudeSquared (prefix ++ suffix)) (Fin r)
               (map Z.of_nat (seq (length prefix) (length suffix)))
               (Fin (normC prefix)) in
    if Rlt_dec r (normC (prefix ++ suffix))
    then exists i, walked = Some (Z.of_nat i) /\
                   (i < length (prefix ++ suffix))%nat /\
                   (0 < reAt (prefix ++ suffix) i * reAt (prefix ++ suffix) i
                        + imAt (prefix ++ suffix) i * imAt (prefix ++ suffix) i)%R
    else walked = None.
Proof.
  induction suffix as [|a suffix IH]; intros prefix Hfin Hr.
  - cbn [length seq map Obj.walk]. rewrite app_nil_r.
    destruct (Rlt_dec r (normC prefix)); [exfalso; lra|reflexivity].
  - cbv zeta. cbn [length seq map Obj.walk].
    assert (Ha : finiteC a) by (rewrite Forall_forall in Hfin; apply Hfin, in_elt).
    assert (Hget : f64_get (map magnitudeSquared (prefix ++ a :: suffix))
                           (Z.of_nat (length prefix))
                   = Fin (toR (real a) * toR (real a) + toR (imag a) * toR (imag a))).
    { unfold f64_get.
      rewrite (arr_get_nth _ _ XNaN) by (rewrite length_map, length_app; cbn [length]; lia).
      rewrite Nat2Z.id, (nth_indep _ XNaN (magnitudeSquared ZERO))
        by (rewrite length_map, length_app; cbn [length]; lia).
      rewrite map_nth, app_nth2, Nat.sub_diag by lia. cbn [nth].
      rewrite (finiteC_eq a Ha). reflexivity. }
    rewrite Hget.
    cbn [fadd flt xreal_Num XReal.lift2 XReal.xlt].
    assert (Hsplit : prefix ++ a :: suffix = (prefix ++ [a]) ++ suffix)
      by (rewrite <- app_assoc; reflexivity).
    assert (Hnorm : normC (prefix ++ [a])
                    = (normC prefix
                       + (toR (real a) * toR (real a) + toR (imag a) * toR (imag a)))%R)
      by (rewrite normC_app; cbn [normC]; lra).
    assert (Hall : normC (prefix ++ a :: suffix)
                   = (normC prefix
                      + (toR (real a) * toR (real a) + toR (imag a) * toR (imag a))
                      + normC suffix)%R)
      by (rewrite normC_app; cbn [normC]; lra).
    pose proof (normC_nonneg suffix) as Hsuf.
    destruct (Rlt_dec r (normC prefix
                + (toR (real a) * toR (real a) + toR (imag a) * toR (imag a))))
      as [Hstop|Hgo].
    + destruct (Rlt_dec r (normC (prefix ++ a :: suffix))) as [_|Hno];
        [|exfalso; lra].
      exists (length prefix). split; [reflexivity|].
      split; [rewrite length_app; cbn [length]; lia|].
      unfold reAt, imAt. rewrite app_nth2, Nat.sub_diag by lia. cbn [nth]. lra.
    + specialize (IH (prefix ++ [a])). rewrite <- Hsplit in IH.
      specialize (IH Hfin ltac:(lra)). cbv zeta in IH.
      rewrite length_app, Nat.add_1_r, Hnorm in IH. exact IH.
Qed.

Lemma Obj_getProbability_exact (this : @Obj.QuantumSimulator xreal) (i : nat) :
  Forall finiteC (Obj.state this) -> (i < length (Obj.state this))%nat ->
  Obj.getProbability (Z.of_nat i) this =
    (Ok (Fin (reAt (Obj.state this) i * reAt (Obj.state this) i
              + imAt (Obj.state this) i * imAt (Obj.state this) i)), this).
Proof.
  intros Hfin Hi. unfold Obj.getProbability, gets. f_equal. f_equal.
  destruct (Z.ltb_spec (Z.of_nat i) 0); [lia|].
  destruct (Z.geb_spec (Z.of_nat i) (Z.of_nat (length (Obj.state this)))); [lia|].
  cbn [orb]. rewrite (arr_get_nth _ _ ZERO) by lia. rewrite Nat2Z.id.
  rewrite (finiteC_nth (Obj.state this) i Hfin Hi). reflexivity.
Qed.

(** X9: [sample(shots)] of the object engine counts a shot only when the
    cumulative walk finds an index, so the counts of the histogram never
    add up to more than [shots] (in any arithmetic).  In exact arithmetic,
    on finite amplitudes of squared norm [c] and with draws [r >= 0], the
    shot with draw [r] is counted exactly when [r < c]; every key of the
    histogram is the bitstring of a basis index whose probability is not
    zero; and on a normalized state with draws below 1 the counts add up to
    [shots]. *)
Theorem X9_sample_counts :
  (forall (F : Type) (N : Num F) (random : nat -> F) (shots : Z) (w : World)
          (this : Obj.QuantumSimulator),
      exists h,
        fst (Obj.sample random shots (this, w)) = Ok h /\
        0 <= totalCount h <= Z.of_nat (Z.to_nat shots)) /\
  (forall (random : nat -> xreal) (shots : Z) (w : World)
          (this : @Obj.QuantumSimulator xreal) (n : Z) (c : R),
      1 <= n <= 31 -> ObjInv n c this ->
      (forall k, exists r, random k = Fin r /\ (0 <= r)%R) ->
      exists h,
        fst (Obj.sample random shots (this, w)) = Ok h /\
        totalCount h =
          Z.of_nat (length (filter (fun k => random k <' Fin c)
                                   (seq (randomCalls w) (Z.to_nat shots)))) /\
        (forall key, In key (map fst h) ->
           exists (i : Z) (p : R),
             key = padStart0 (toString2 i) n /\ 0 <= i < 2 ^ n /\
             fst (Obj.getProbability i this) = Ok (Fin p) /\ (0 < p)%R) /\
        (c = 1%R -> (forall k, (random k <' Fin 1) = true) ->
         totalCount h = Z.of_nat (Z.to_nat shots))).
Proof.
  split.
  - intros F N random shots w this.
    destruct (@shot_loop_counts F (@Obj.QuantumSimulator F) random
                (fun rnd => Obj.walk (map magnitudeSquared (Obj.state this)) rnd
                              (range (length (map magnitudeSquared (Obj.state this))))
                              zero)
                (fun i => padStart0 (toString2 i) (Obj.numQubits this))
                (fun _ => True) (fun _ _ _ => I) (range (Z.to_nat shots)) [] this
                (mkWorld (randomCalls w) (S (probabilityPasses w))))
      as (h & Hh & Htotal & _).
    exists h. split.
    + assert (Hrun : Obj.sample random shots (this, w) =
                (Ok h, (this, mkWorld (randomCalls w + length (range (Z.to_nat shots)))
                                      (S (probabilityPasses w))))).
      { rewrite Obj_sample_shotBody. exact Hh. }
      now rewrite Hrun.
    + rewrite Htotal, range_length. cbn [totalCount fold_right randomCalls].
      pose proof (filter_length_le
                    (counted random
                       (fun rnd => Obj.walk (map magnitudeSquared (Obj.state this)) rnd
                          (range (length (map magnitudeSquared (Obj.state this)))) zero))
                    (seq (randomCalls w) (Z.to_nat shots))) as Hle.
      rewrite length_seq in Hle. lia.
  - intros random shots w this n c Hn (Hnq & Hlen & Hfin & Hnorm) Hdraws.
    set (pick := fun rnd => Obj.walk (map magnitudeSquared (Obj.state this)) rnd
                              (range (length (map magnitudeSquared (Obj.state this))))
                              zero).
    set (Q := fun i : Z => exists p : R,
                0 <= i < 2 ^ n /\
                fst (Obj.getProbability i this) = Ok (Fin p) /\ (0 < p)%R).
    assert (Hwalk : forall k,
              exists r, random k = Fin r /\ (0 <= r)%R /\
              if Rlt_dec r c then exists i, pick (random k) = Some i /\ Q i
              else pick (random k) = None).
    { intros k. destruct (Hdraws k) as (r & Hr & Hpos). exists r.
      split; [exact Hr|]. split; [exact Hpos|].
      pose proof (Obj_walk_exact r (Obj.state this) [] Hfin Hpos) as Hw.
      cbv zeta in Hw. cbn [app length normC] in Hw. rewrite Hnorm in Hw.
      subst pick. cbv beta. rewrite Hr. unfold range. rewrite length_map.
      destruct (Rlt_dec r c); [|exact Hw].
      destruct Hw as (i & Hw & Hi & Hp). exists (Z.of_nat i). split; [exact Hw|].
      eexists. split; [lia|]. split; [|exact Hp].
      now rewrite Obj_getProbability_exact. }
    assert (Hcounted : forall k, counted random pick k = (random k <' Fin c)).
    { intros k. unfold counted. destruct (Hwalk k) as (r & Hr & _ & Hw).
      rewrite Hr at 2. cbn [flt xreal_Num XReal.xlt].
      destruct (Rlt_dec r c); [destruct Hw as (i & -> & _)|rewrite Hw]; reflexivity. }
    destruct (@shot_loop_counts xreal (@Obj.QuantumSimulator xreal) random pick
                (fun i => padStart0 (toString2 i) n) Q) with
      (shots := range (Z.to_nat shots)) (results := @nil (string * Z)) (s := this)
      (w := mkWorld (randomCalls w) (S (probabilityPasses w)))
      as (h & Hh & Htotal & Hkeys).
    { intros k i Hpick. destruct (Hwalk k) as (r & _ & _ & Hw).
      destruct (Rlt_dec r c); [|congruence].
      destruct Hw as (i' & Hi' & HQ). congruence. }
    assert (Hrun : Obj.sample random shots (this, w) =
              (Ok h, (this, mkWorld (randomCalls w + length (range (Z.to_nat shots)))
                                    (S (probabilityPasses w))))).
    { rewrite Obj_sample_shotBody, Hnq. exact Hh. }
    rewrite range_length in Htotal. cbn [randomCalls totalCount fold_right] in Htotal.
    rewrite (filter_ext _ _ Hcounted) in Htotal.
    exists h. split; [|split; [|split]].
    + now rewrite Hrun.
    + lia.
    + intros key Hkey. destruct (Hkeys key Hkey) as [[]|(i & -> & p & Hi & Hp & Hpos)].
      exists i, p. auto.
    + intros -> Hbelow. rewrite Htotal.
      rewrite forallb_filter_id by (apply forallb_forall; intros k _; apply Hbelow).
      rewrite length_seq. lia.
Qed.

(** X9 at three shots on a fresh one-qubit engine, every draw being 0: the
    three shots are all counted, under the key ["0"]. *)
Lemma X9_sample_counts_witness :
  exists h,
    fst (Obj.sample (fun _ => Fin 0) 3 (@obj_fresh xreal _ 1, World0)) = Ok h /\
    totalCount h = 3.
Proof.
  destruct (proj2 X9_sample_counts (fun _ => Fin 0) 3 World0 (obj_fresh 1) 1 1%R)
    as (h & Hrun & _ & _ & Hall).
  - lia.
  - unfold ObjInv. cbn [obj_fresh Obj.numQubits Obj.state].
    split; [reflexivity|]. split; [reflexivity|]. split.
    + repeat constructor; apply finite_Fin.
    + xeval. lra.
  - intros k. exists 0%R. split; [reflexivity|lra].
  - exists h. split; [exact Hrun|]. apply Hall; [reflexivity|].
    intros k. cbn. destruct (Rlt_dec 0 1); [reflexivity|exfalso; lra].
Defined.

(* ================================================================== *)
(** * The object engine: fidelity *)
(* ================================================================== *)

(** The real and the imaginary part of [Σ conj(target[i]) * state[i]]. *)
Fixpoint overlapRe (target st : list (Complex xreal)) : R :=
  match target, st with
  | t :: target', s :: st' =>
      (toR (real t) * toR (real s) + toR (imag t) * toR (imag s)
       + overlapRe target' st')%R
  | _, _ => 0%R
  end.

Fixpoint overlapIm (target st : list (Complex xreal)) : R :=
  match target, st with
  | t :: target', s :: st' =>
      (toR (real t) * toR (imag s) - toR (imag t) * toR (real s)
       + overlapIm target' st')%R
  | _, _ => 0%R
  end.

Lemma overlap_fold (target st : list (Complex xreal)) :
  Forall finiteC target -> Forall finiteC st ->
  forall u v : R,
    fold_left (fun overlap '(t, s) =>
                 add overlap (multiply (mkComplex (real t) (-' imag t)) s))
              (combine target st) (finC u v)
    = finC (u + overlapRe target st) (v + overlapIm target st).
Proof.
  intros Ht. revert st. unfold finC.
  set (body := fun (overlap : Complex xreal) '(t, s) =>
                 add overlap (multiply (mkComplex (real t) (-' imag t)) s)).
  induction Ht as [|t target Hfin _ IH]; intros st Hs u v.
  - cbn. f_equal; f_equal; lra.
  - destruct Hs as [|s st Hsfin Hs].
    + cbn. f_equal; f_equal; lra.
    + destruct t as [tr ti], s as [sr si].
      unfold finiteC in Hfin, Hsfin. cbn [real imag] in Hfin, Hsfin.
      destruct Hfin as [[x ->] [y ->]], Hsfin as [[x' ->] [y' ->]].
      cbn [combine fold_left overlapRe overlapIm real imag toR].
      replace (body _ _)
        with (mkComplex (Fin (u + (x * x' + y * y'))) (Fin (v + (x * y' - y * x'))))
        by (subst body; cbv [add multiply real imag fadd fsub fmul fneg xreal_Num XReal.lift1 XReal.lift2]; f_equal; f_equal; ring).
      rewrite IH by assumption. f_equal; f_equal; lra.
Qed.

Lemma overlap_self (st : list (Complex xreal)) :
  overlapRe st st = normC st /\ overlapIm st st = 0%R.
Proof.
  induction st as [|s st [IHre IHim]]; cbn [overlapRe overlapIm normC]; [split; reflexivity|].
  rewrite IHre, IHim. split; lra.
Qed.

(** Cauchy-Schwarz for the overlap. *)
Lemma overlap_bound (target st : list (Complex xreal)) :
  (overlapRe target st * overlapRe target st + overlapIm target st * overlapIm target st
   <= normC target * normC st)%R.
Proof.
  revert st. induction target as [|t target IH]; intros st.
  - cbn [overlapRe overlapIm normC]. pose proof (normC_nonneg st). lra.
  - destruct st as [|s st].
    + cbn [overlapRe overlapIm normC].
      pose proof (normC_nonneg (t :: target)). cbn [normC] in *. lra.
    + cbn [overlapRe overlapIm normC]. specialize (IH st).
      pose proof (normC_nonneg target) as HA. pose proof (normC_nonneg st) as HB.
      set (A := normC target) in *. set (B := normC st) in *.
      set (u := overlapRe target st) in *. set (v := overlapIm target st) in *.
      set (tr := toR (real t)). set (ti := toR (imag t)).
      set (sr := toR (real s)). set (si := toR (imag s)).
      set (p := (tr * sr + ti * si)%R). set (q := (tr * si - ti * sr)%R).
      set (a := (tr * tr + ti * ti)%R). set (b := (sr * sr + si * si)%R).
      assert (Hpq : (p * p + q * q = a * b)%R) by (subst p q a b; ring).
      assert (Ha : (0 <= a)%R) by (subst a; nra).
      assert (Hb : (0 <= b)%R) by (subst b; nra).
      clearbody p q a b u v A B. clear tr ti sr si.
      assert (Hsq : (0 <= (u * q - v * p) * (u * q - v * p))%R)
        by apply Rle_0_sqr.
      assert (H1 : ((u * p + v * q) * (u * p + v * q) <= (A * B) * (a * b))%R).
      { replace ((u * p + v * q) * (u * p + v * q))%R
          with ((u * u + v * v) * (p * p + q * q) - (u * q - v * p) * (u * q - v * p))%R
          by ring.
        rewrite Hpq.
        assert (Hab : (0 <= a * b)%R) by (apply Rmult_le_pos; assumption).
        assert ((u * u + v * v) * (a * b) <= (A * B) * (a * b))%R
          by (apply Rmult_le_compat_r; assumption).
        lra. }
      assert (Hd : (0 <= (A * b - B * a) * (A * b - B * a))%R) by apply Rle_0_sqr.
      assert (H2 : (4 * ((A * B) * (a * b)) <= (A * b + B * a) * (A * b + B * a))%R).
      { replace ((A * b + B * a) * (A * b + B * a))%R
          with (4 * ((A * B) * (a * b)) + (A * b - B * a) * (A * b - B * a))%R by ring.
        lra. }
      assert (H3 : (0 <= A * b + B * a)%R)
        by (apply Rplus_le_le_0_compat; apply Rmult_le_pos; assumption).
      assert (Hcross : (2 * (u * p + v * q) <= A * b + B * a)%R).
      { destruct (Rle_lt_dec (2 * (u * p + v * q)) (A * b + B * a)) as [Hle|Hgt];
          [exact Hle|exfalso].
        assert (Hlt : ((A * b + B * a) * (A * b + B * a)
                       < (2 * (u * p + v * q)) * (2 * (u * p + v * q)))%R)
          by (apply Rmult_le_0_lt_compat; lra).
        lra. }
      replace ((p + u) * (p + u) + (q + v) * (q + v))%R
        with (u * u + v * v + 2 * (u * p + v * q) + (p * p + q * q))%R by ring.
      rewrite Hpq. lra.
Qed.

(** X10: [fidelity(target)] of the object engine throws when the target
    has another length than the state, and never changes the engine.  In
    exact arithmetic, on finite amplitudes, it returns
    [|Σ conj(target[i]) state[i]|²], which is at most the product of the two
    squared norms; so between normalized states it lies in [[0, 1]], and the
    fidelity of a state with itself is the square of its squared norm, 1
    when it is normalized. *)
Theorem X10_fidelity_bounds :
  (forall (F : Type) (N : Num F) (this : Obj.QuantumSimulator) (target : list (Complex F)),
      snd (Obj.fidelity target this) = this /\
      (length target <> length (Obj.state this) ->
       fst (Obj.fidelity target this) = Throw (Error MsgDimensionsMustMatch))) /\
  (forall (this : @Obj.QuantumSimulator xreal) (target : list (Complex xreal)),
      Forall finiteC (Obj.state this) -> Forall finiteC target ->
      length target = length (Obj.state this) ->
      let f := (overlapRe target (Obj.state this) * overlapRe target (Obj.state this)
                + overlapIm target (Obj.state this) * overlapIm target (Obj.state this))%R in
      fst (Obj.fidelity target this) = Ok (Fin f) /\
      (0 <= f <= normC target * normC (Obj.state this))%R /\
      (normC target = 1%R -> normC (Obj.state this) = 1%R -> (0 <= f <= 1)%R) /\
      (target = Obj.state this ->
       f = (normC (Obj.state this) * normC (Obj.state this))%R)).
Proof.
  split.
  - intros F N this target. unfold Obj.fidelity. cbn [bind Exec_Monad gets].
    destruct (Nat.eqb_spec (length target) (length (Obj.state this))) as [E|E];
      cbn [negb]; (split; [reflexivity|]); intros Hne;
      [contradiction|reflexivity].
  - intros this target Hst Htarget Hlen f. subst f.
    pose proof (overlap_bound target (Obj.state this)) as Hbound.
    split; [|split; [|split]].
    + unfold Obj.fidelity. cbn [bind Exec_Monad gets].
      rewrite Hlen, Nat.eqb_refl. cbn [negb ret Exec_Monad fst].
      change (@ZERO xreal _) with (finC 0 0).
      rewrite (overlap_fold target (Obj.state this) Htarget Hst).
      cbn. do 2 f_equal. ring.
    + split; [nra|exact Hbound].
    + intros Ht Hs. rewrite Ht, Hs in Hbound. split; [nra|lra].
    + intros ->. destruct (overlap_self (Obj.state this)) as [-> ->]. ring.
Qed.

(** X10 on a fresh one-qubit engine and its own state. *)
Lemma X10_fidelity_bounds_witness :
  exists f : R,
    fst (Obj.fidelity [ONE; ZERO] (@obj_fresh xreal _ 1)) = Ok (Fin f) /\ (0 <= f <= 1)%R.
Proof.
  pose proof (proj2 X10_fidelity_bounds (obj_fresh 1) [ONE; ZERO]) as H.
  cbv zeta in H. destruct H as (Hf & _ & Hunit & _).
  - repeat constructor; apply finite_Fin.
  - repeat constructor; apply finite_Fin.
  - reflexivity.
  - eexists. split; [exact Hf|]. apply Hunit; xeval; lra.
Defined.

(* ================================================================== *)
(** * matrix.ts on square matrices of any size *)
(* ================================================================== *)

Lemma set_nth_map_range {A : Type} (f : Z -> A) (n k : nat) (v : A) :
  (k < n)%nat ->
  set_nth (map f (range n)) k v
  = map (fun i => if i =? Z.of_nat k then v else f i) (range n).
Proof.
  intros Hk. apply (nth_ext _ _ v v).
  - now rewrite set_nth_length, !length_map.
  - intros j Hj. rewrite set_nth_length, length_map, range_length in Hj.
    rewrite (nth_map_range _ n j) by assumption.
    destruct (Nat.eq_dec j k) as [->|Hne].
    + rewrite nth_set_nth_same by (rewrite length_map, range_length; lia).
      now rewrite Z.eqb_refl.
    + rewrite nth_set_nth_other by congruence.
      rewrite (nth_map_range _ n j) by assumption.
      destruct (Z.eqb_spec (Z.of_nat j) (Z.of_nat k)); [lia|reflexivity].
Qed.

Section IdentityTable.
Context {F : Type} {N : Num F}.

(** The Kronecker delta as a table. *)
Definition deltaTable (n : nat) : Matrix F :=
  map (fun i => map (fun j => if i =? j then complex one zero else ZERO) (range n))
      (range n).

(** [identity(n)], which writes the diagonal into a matrix of zeros cell by
    cell, is the table of the Kronecker delta. *)
Lemma identity_table (n : nat) : identity n = deltaTable n.
Proof.
  unfold identity, deltaTable.
  assert (H : forall k, (k <= n)%nat ->
            fold_left (fun result i => mset result i i (complex one zero))
                      (range k) (createMatrix n n ZERO)
            = map (fun i => map (fun j => if (i =? j) && (i <? Z.of_nat k)
                                          then complex one zero else ZERO) (range n))
                  (range n)).
  { induction k as [|k IH]; intros Hk.
    - cbn [range seq map fold_left]. unfold createMatrix.
      apply (nth_ext _ _ [] []); [now rewrite repeat_length, length_map, range_length|].
      intros i Hi. rewrite repeat_length in Hi.
      rewrite nth_repeat_lt, (nth_map_range _ n i) by assumption.
      apply (nth_ext _ _ ZERO ZERO); [now rewrite repeat_length, length_map, range_length|].
      intros j Hj. rewrite repeat_length in Hj.
      rewrite nth_repeat_lt, (nth_map_range _ n j) by assumption.
      destruct (Z.ltb_spec (Z.of_nat i) (Z.of_nat 0)); [lia|].
      now rewrite andb_false_r.
    - rewrite range_S, fold_left_app, IH by lia. cbn [fold_left]. unfold mset.
      rewrite (arr_get_nth _ _ []) by (rewrite length_map, range_length; lia).
      rewrite Nat2Z.id, (nth_map_range _ n k) by lia.
      unfold arr_set. destruct (Z.ltb_spec (Z.of_nat k) 0); [lia|]. rewrite Nat2Z.id.
      rewrite !set_nth_map_range by lia.
      apply map_ext_in. intros i Hi. apply range_In in Hi.
      destruct (Z.eqb_spec i (Z.of_nat k)) as [->|Hne]; apply map_ext_in;
        intros j Hj; apply range_In in Hj.
      + destruct (Z.eqb_spec j (Z.of_nat k)) as [->|Hjk].
        * rewrite Z.eqb_refl. destruct (Z.ltb_spec (Z.of_nat k) (Z.of_nat (S k))); [|lia].
          reflexivity.
        * destruct (Z.eqb_spec (Z.of_nat k) j); [lia|reflexivity].
      + destruct (Z.eqb_spec i j); [|reflexivity]. cbn [andb].
        destruct (Z.ltb_spec i (Z.of_nat k)), (Z.ltb_spec i (Z.of_nat (S k)));
          try reflexivity; lia. }
  rewrite (H n) by lia.
  apply map_ext_in. intros i Hi. apply range_In in Hi.
  apply map_ext_in. intros j Hj.
  destruct (Z.ltb_spec i (Z.of_nat n)); [|lia]. now rewrite andb_true_r.
Qed.
End IdentityTable.

(** The table with the given real and imaginary parts. *)
Definition tableOf (m : nat) (fre fim : nat -> nat -> R) : Matrix xreal :=
  map (fun r => map (fun c => finC (fre (Z.to_nat r) (Z.to_nat c))
                                   (fim (Z.to_nat r) (Z.to_nat c)))
                    (range m))
      (range m).

Lemma tableOf_finite (m : nat) (fre fim : nat -> nat -> R) :
  FiniteMatrix m (tableOf m fre fim) /\
  forall r c, (r < m)%nat -> (c < m)%nat ->
    mre (tableOf m fre fim) r c = fre r c /\ mim (tableOf m fre fim) r c = fim r c.
Proof.
  destruct (table_finite m (fun r c => fre (Z.to_nat r) (Z.to_nat c))
                         (fun r c => fim (Z.to_nat r) (Z.to_nat c))) as [Hfin Hent].
  split; [exact Hfin|]. intros r c Hr Hc. unfold tableOf.
  destruct (Hent r c Hr Hc) as [-> ->]. now rewrite !Nat2Z.id.
Qed.

Lemma conjugateTranspose_finite (m : nat) (G : Matrix xreal) :
  FiniteMatrix m G -> (0 < m)%nat ->
  conjugateTranspose G
  = Ok (tableOf m (fun j i => mre G i j) (fun j i => (- mim G i j)%R)).
Proof.
  intros HG Hm. unfold conjugateTranspose, tableOf.
  rewrite (row0Length_finite m G HG Hm). cbn [bind result_Monad]. rewrite (proj1 HG).
  apply mapM_ok. intros j Hj. apply mapM_ok. intros i Hi.
  apply range_In in Hi, Hj.
  rewrite (mget_finite m G i j HG) by lia. reflexivity.
Qed.

(** Row [i] of a finite matrix times column [j] of another. *)
Lemma rowTimesColumn (m : nat) (A B : Matrix xreal) (i j : Z) (k : nat) :
  FiniteMatrix m A -> FiniteMatrix m B ->
  0 <= i < Z.of_nat m -> 0 <= j < Z.of_nat m -> (k <= m)%nat ->
  foldM (fun sum k =>
           x <- mget A i k ;; y <- mget B k j ;;
           Ok (add sum (multiply x y)))
        (range k) ZERO
  = Ok (finC (sumR (fun c => mre A (Z.to_nat i) c * mre B c (Z.to_nat j)
                             - mim A (Z.to_nat i) c * mim B c (Z.to_nat j))%R k)
             (sumR (fun c => mre A (Z.to_nat i) c * mim B c (Z.to_nat j)
                             + mim A (Z.to_nat i) c * mre B c (Z.to_nat j))%R k)).
Proof.
  intros HA HB Hi Hj Hk. induction k as [|k IH].
  - reflexivity.
  - rewrite range_S, foldM_app, IH by lia.
    cbn [bind result_Monad foldM].
    rewrite (mget_finite m A _ _ HA), (mget_finite m B _ _ HB) by lia.
    cbn [bind result_Monad]. rewrite !Nat2Z.id.
    change (mkComplex (Fin ?a) (Fin ?b)) with (finC a b).
    rewrite add_multiply_finC. reflexivity.
Qed.

Lemma matrixMultiply_finite (m : nat) (A B : Matrix xreal) :
  FiniteMatrix m A -> FiniteMatrix m B -> (0 < m)%nat ->
  matrixMultiply A B
  = Ok (tableOf m
          (fun i j => sumR (fun c => mre A i c * mre B c j - mim A i c * mim B c j)%R m)
          (fun i j => sumR (fun c => mre A i c * mim B c j + mim A i c * mre B c j)%R m)).
Proof.
  intros HA HB Hm. unfold matrixMultiply, tableOf.
  rewrite (row0Length_finite m A HA Hm), (row0Length_finite m B HB Hm).
  cbn [bind result_Monad]. rewrite (proj1 HA).
  apply mapM_ok. intros i Hi. apply mapM_ok. intros j Hj.
  apply range_In in Hi, Hj.
  apply (rowTimesColumn m A B i j m HA HB); lia.
Qed.

(** A matrix with orthonormal columns passes the check of [isUnitary] with
    any tolerance: every cell of [M†M] is the cell of the identity. *)
Lemma isUnitary_of_Unitary (m : nat) (G : Matrix xreal) (epsilon : R) :
  Unitary m G -> (0 < m)%nat -> (0 <= epsilon)%R -> isUnitary G (Fin epsilon) = Ok true.
Proof.
  intros [HG [Hre Him]] Hm Heps. unfold isUnitary.
  rewrite (conjugateTranspose_finite m G HG Hm). cbn [bind result_Monad].
  destruct (tableOf_finite m (fun j i => mre G i j) (fun j i => (- mim G i j)%R))
    as [Hd Hdent].
  rewrite (matrixMultiply_finite m _ G Hd HG Hm). cbn [bind result_Monad].
  match goal with
  | |- context [tableOf m ?fre ?fim] =>
      destruct (tableOf_finite m fre fim) as [Hp Hpent];
      set (P := tableOf m fre fim) in *
  end.
  rewrite (proj1 HG), identity_table.
  apply foldM_const. intros i Hi. apply foldM_const. intros j Hj.
  apply range_In in Hi, Hj.
  rewrite (mget_finite m P i j Hp) by lia.
  destruct (Hpent (Z.to_nat i) (Z.to_nat j) ltac:(lia) ltac:(lia)) as [-> ->].
  rewrite (sumR_ext _ (fun r => mre G r (Z.to_nat i) * mre G r (Z.to_nat j)
                                + mim G r (Z.to_nat i) * mim G r (Z.to_nat j))%R)
    by (intros r Hr; destruct (Hdent (Z.to_nat i) r ltac:(lia) Hr) as [-> ->]; ring).
  rewrite (sumR_ext (fun c => (mre _ _ c * mim G c _ + _)%R)
                    (fun r => mre G r (Z.to_nat i) * mim G r (Z.to_nat j)
                                - mim G r (Z.to_nat i) * mre G r (Z.to_nat j))%R)
    by (intros r Hr; destruct (Hdent (Z.to_nat i) r ltac:(lia) Hr) as [-> ->]; ring).
  rewrite Hre, Him by lia.
  unfold mget, deltaTable.
  rewrite (arr_get_nth _ i []) by (rewrite length_map, range_length; lia).
  rewrite (nth_map_range _ m) by lia. cbn [defined bind result_Monad].
  rewrite (arr_get_nth _ j ZERO) by (rewrite length_map, range_length; lia).
  rewrite (nth_map_range _ m) by lia. cbn [defined]. rewrite !Z2Nat.id by lia.
  destruct (Z.eqb_spec i j) as [->|Hne].
  - rewrite Nat.eqb_refl.
    cbn [complex real imag fsub fadd Math_abs flt xreal_Num one zero ofZ
         XReal.lift1 XReal.lift2 XReal.xlt].
    rewrite !Rminus_diag, Rabs_R0.
    destruct (Rlt_dec epsilon (0 + 0)) as [Hlt|_]; [exfalso; lra|reflexivity].
  - destruct (Nat.eqb_spec (Z.to_nat i) (Z.to_nat j)); [lia|].
    cbn [ZERO real imag fsub fadd Math_abs flt xreal_Num one zero ofZ
         XReal.lift1 XReal.lift2 XReal.xlt].
    rewrite !Rminus_diag, Rabs_R0.
    destruct (Rlt_dec epsilon (0 + 0)) as [Hlt|_]; [exfalso; lra|reflexivity].
Qed.

(** X11: in exact arithmetic, [isUnitary] accepts, with any tolerance
    [epsilon >= 0], the matrix that [apply] takes from either gate table for
    every gate name and every choice of finite parameters (the default
    [[0]] when none are given): the 20 constant gates and the 9
    parameterised ones, whatever the angles. *)
Theorem X11_library_gates_pass_isUnitary :
  forall (lib : GateTable xreal) (gateName : string) (gateInfo : GateInfo xreal)
         (ps : option (list xreal)) (epsilon : R),
    lib = Gates.GATE_LIBRARY_core \/ lib = Gates.GATE_LIBRARY ->
    lookupGate lib gateName = Some gateInfo ->
    finiteParams ps -> (0 <= epsilon)%R ->
    isUnitary (appliedMatrix gateInfo ps) (Fin epsilon) = Ok true /\
    Z.of_nat (length (appliedMatrix gateInfo ps)) = 2 ^ qubits gateInfo.
Proof.
  intros lib gateName gateInfo ps epsilon Hlib Hlook Hps Heps.
  assert (Hentry : UnitaryEntry gateInfo).
  { destruct Hlib as [-> | ->];
      [apply (GATE_LIBRARY_core_unitary gateName)|apply (GATE_LIBRARY_unitary gateName)];
      exact Hlook. }
  destruct (Hentry ps Hps) as [[Hq HU]|[[Hq HU]|[Hq HU]]]; rewrite Hq;
    (split; [apply (isUnitary_of_Unitary _ _ _ HU); [lia|exact Heps]
            |rewrite (proj1 (proj1 HU)); reflexivity]).
Qed.

(** X11 for [Rx] of the full table at the angle 1, with tolerance 0. *)
Lemma X11_library_gates_pass_isUnitary_witness :
  isUnitary (Gates.Rx (Fin 1)) (Fin 0) = Ok true.
Proof.
  refine (proj1 (X11_library_gates_pass_isUnitary Gates.GATE_LIBRARY "Rx"%string
            (mkGateInfo "X Rotation" "Rx" 1 (Param (fun p => Gates.Rx (Gates.param p 0)))
                        (Some ["θ"%string]) "Rotation around X-axis")
            (Some [Fin 1]) 0%R _ _ _ _)).
  - now right.
  - reflexivity.
  - intros p [= <-]. repeat constructor. apply finite_Fin.
  - lra.
Defined.

(** X12: in exact arithmetic, [tensorProduct] of a [p x p] and a [q x q]
    matrix with orthonormal columns returns a [pq x pq] matrix with
    orthonormal columns, which [isUnitary] accepts with any tolerance
    [epsilon >= 0]. *)
Theorem X12_tensorProduct_unitary :
  forall (p q : nat) (A B : Matrix xreal) (epsilon : R),
    (0 < p)%nat -> (0 < q)%nat -> Unitary p A -> Unitary q B -> (0 <= epsilon)%R ->
    exists T,
      tensorProduct A B = Ok T /\ Unitary (p * q) T /\
      isUnitary T (Fin epsilon) = Ok true.
Proof.
  intros p q A B epsilon Hp Hq HA HB Heps.
  destruct (tensorProduct_unitary p q A B Hp Hq HA HB) as (T & HT & HU).
  exists T. split; [exact HT|]. split; [exact HU|].
  apply (isUnitary_of_Unitary (p * q) T epsilon HU); [lia|exact Heps].
Qed.

(** X12 for the Hadamard and the Pauli X matrix. *)
Lemma X12_tensorProduct_unitary_witness :
  exists T,
    tensorProduct (@Gates.H xreal _) (@Gates.X xreal _) = Ok T /\ Unitary (2 * 2) T /\
    isUnitary T (Fin 0) = Ok true.
Proof.
  apply (X12_tensorProduct_unitary 2 2 Gates.H Gates.X 0%R);
    [lia|lia|apply Unitary_H|apply Unitary_X|lra].
Defined.

(** X13: in exact arithmetic, [matrixVectorMultiply] of an [m x m] matrix
    with orthonormal columns and a vector of [m] finite amplitudes returns
    [m] finite amplitudes with the same sum of squared magnitudes. *)
Theorem X13_matrixVectorMultiply_isometry :
  forall (m : nat) (M : Matrix xreal) (v : list (Complex xreal)),
    Unitary m M -> Forall finiteC v -> length v = m ->
    exists v',
      matrixVectorMultiply M v = Ok v' /\
      Forall finiteC v' /\ length v' = m /\
      normSquared v' = normSquared v.
Proof.
  intros m M v HM Hv Hlen.
  destruct (matrixVectorMultiply_norm m M v HM Hv Hlen) as (v' & Hrun & Hfin & Hlen' & Hnorm).
  exists v'. repeat split; try assumption.
  now rewrite (normSquared_normC v' Hfin), (normSquared_normC v Hv), Hnorm.
Qed.

(** X13 for the Hadamard matrix and the vector [(0, 1)]. *)
Lemma X13_matrixVectorMultiply_isometry_witness :
  exists v',
    matrixVectorMultiply (@Gates.H xreal _) [ZERO; ONE] = Ok v' /\
    Forall finiteC v' /\ length v' = 2%nat /\
    normSquared v' = normSquared [@ZERO xreal _; ONE].
Proof.
  apply (X13_matrixVectorMultiply_isometry 2 Gates.H [ZERO; ONE]).
  - apply Unitary_H.
  - repeat constructor; apply finite_Fin.
  - reflexivity.
Defined.

(* ================================================================== *)
(** * validators.ts: what [validateGateOperation] accepts *)
(* ================================================================== *)

(** The code of a thrown validation error. *)
Definition errorCodeOf {A : Type} (r : result A) : option ErrorCode :=
  match r with
  | Throw (QuantumValidationError _ code _) => Some code
  | _ => None
  end.

Section GateOperationChecks.
Context {F : Type} {N : Num F}.
Variable lib : GateTable F.

(** The gate takes parameters and none are given. *)
Definition paramsMissing (gateInfo : GateInfo F) (ps : option (list F)) : bool :=
  match params gateInfo, ps with
  | Some (_ :: _), None => true
  | Some (_ :: _), Some [] => true
  | _, _ => false
  end.

Definition paramsFinite (ps : option (list F)) : bool :=
  match ps with Some p => forallb isFinite p | None => true end.

Lemma validateGateParams_spec (gateName : string) (ps : option (list F))
      (gateInfo : GateInfo F) :
  if negb (paramsMissing gateInfo ps) && paramsFinite ps
  then validateGateParams gateName ps gateInfo = Ok tt
  else errorCodeOf (validateGateParams gateName ps gateInfo) = Some INVALID_GATE_PARAMS.
Proof.
  assert (Hfirst : forall p i,
            if forallb isFinite p then firstNonFinite p i = None
            else exists k, firstNonFinite p i = Some k).
  { induction p as [|x p IH]; intros i; cbn [forallb firstNonFinite]; [reflexivity|].
    destruct (isFinite x); cbn [andb]; [apply IH|]. now exists i. }
  unfold validateGateParams, paramsMissing, paramsFinite.
  destruct (params gateInfo) as [[|name names]|], ps as [[|x p]|];
    cbn [length Z.of_nat Z.gtb Z.compare Z.eqb andb negb forallb firstNonFinite];
    try reflexivity;
    try (rewrite Zpos_P_of_succ_nat; destruct (Z.gtb_spec (Z.succ (Z.of_nat (length names))) 0);
         [|lia]; cbn [andb]);
    try reflexivity.
  all: try (destruct (Z.eqb_spec (Z.pos (Pos.of_succ_nat (length p))) 0); [lia|]).
  all: try (specialize (Hfirst (x :: p) 0); cbn [forallb firstNonFinite] in Hfirst;
            destruct (isFinite x); cbn [andb] in *;
            [destruct (forallb isFinite p);
             [now rewrite Hfirst|destruct Hfirst as [k ->]; reflexivity]
            |reflexivity]).
Qed.
End GateOperationChecks.

Lemma hasDuplicates_NoDup (l : list Z) : hasDuplicates l = false <-> NoDup l.
Proof.
  split; [apply hasDuplicates_false|].
  induction 1 as [|x l Hnin _ IH]; cbn [hasDuplicates]; [reflexivity|].
  rewrite IH, orb_false_r.
  destruct (existsb (Z.eqb x) l) eqn:E; [|reflexivity].
  apply existsb_exists in E as (y & Hy & Hxy). apply Z.eqb_eq in Hxy. now subst.
Qed.

Lemma validateQubitIndex_loop (qs : list Z) (n : Z) (context : string) :
  (Forall (fun q => 0 <= q < n) qs /\
   forM_ qs (fun qubit => validateQubitIndex qubit n context) = Ok tt) \/
  (~ Forall (fun q => 0 <= q < n) qs /\
   errorCodeOf (forM_ qs (fun qubit => validateQubitIndex qubit n context))
     = Some INVALID_QUBIT_INDEX).
Proof.
  induction qs as [|q qs IH]; cbn [forM_ bind result_Monad]; [left; split; [constructor|reflexivity]|].
  unfold validateQubitIndex at 1 3.
  destruct (Z.ltb_spec q 0); cbn [orb].
  { right. split; [|reflexivity]. intros H'. inversion H'; lia. }
  destruct (Z.geb_spec q n).
  { right. split; [|reflexivity]. intros H'. inversion H'; lia. }
  destruct IH as [[Hall Hrun]|[Hnot Hrun]].
  - left. split; [constructor; [lia|assumption]|exact Hrun].
  - right. split; [|exact Hrun]. intros H'. inversion H'; contradiction.
Qed.

(** X14: [validateGateOperation] returns the table entry of the gate
    exactly when the name is in the table, parameters are given if the gate
    takes any, every given parameter is a finite number, and the qubit list
    has the arity of the gate, no repetition and only indices in
    [[0, numQubits)].  Otherwise it throws, and the checks are made in this
    order: a name that is neither in the table nor inherited from
    [Object.prototype] is [INVALID_GATE] whatever the rest; then missing
    or non-finite parameters are [INVALID_GATE_PARAMS]; then a wrong number
    of qubits is [INSUFFICIENT_QUBITS]; then a repeated qubit is
    [DUPLICATE_QUBITS]; and only then an index out of range is
    [INVALID_QUBIT_INDEX]. *)
Theorem X14_validateGateOperation_characterised :
  forall (F : Type) (N : Num F) (lib : GateTable F) (gateName : string)
         (qs : list Z) (ps : option (list F)) (numQubits : Z),
    let outcome := validateGateOperation lib gateName qs ps numQubits in
    match lookupGate lib gateName with
    | None => inheritedName gateName = false ->
              errorCodeOf outcome = Some INVALID_GATE
    | Some gateInfo =>
        if paramsMissing gateInfo ps || negb (paramsFinite ps)
        then errorCodeOf outcome = Some INVALID_GATE_PARAMS
        else if negb (Z.of_nat (length qs) =? qubits gateInfo)
        then errorCodeOf outcome = Some INSUFFICIENT_QUBITS
        else if hasDuplicates qs
        then ~ NoDup qs /\ errorCodeOf outcome = Some DUPLICATE_QUBITS
        else NoDup qs /\
             ((Forall (fun q => 0 <= q < numQubits) qs /\ outcome = Ok gateInfo) \/
              (~ Forall (fun q => 0 <= q < numQubits) qs /\
               errorCodeOf outcome = Some INVALID_QUBIT_INDEX))
    end.
Proof.
  intros F N lib gateName qs ps numQubits. cbv zeta.
  unfold validateGateOperation, validateGateName.
  destruct (lookupGate lib gateName) as [gateInfo|]; [|reflexivity].
  cbn [bind result_Monad].
  pose proof (validateGateParams_spec gateName ps gateInfo) as Hparams.
  destruct (paramsMissing gateInfo ps); cbn [negb andb orb] in *.
  { destruct (validateGateParams gateName ps gateInfo) as [[]|e]; [discriminate|exact Hparams]. }
  destruct (paramsFinite ps); cbn [negb] in *.
  2:{ destruct (validateGateParams gateName ps gateInfo) as [[]|e]; [discriminate|exact Hparams]. }
  rewrite Hparams. unfold validateQubitArray.
  destruct (Z.of_nat (length qs) =? qubits gateInfo); cbn [negb]; [|reflexivity].
  destruct (hasDuplicates qs) eqn:Edup.
  { split; [|reflexivity]. intros Hnd. apply hasDuplicates_NoDup in Hnd. congruence. }
  split; [now apply hasDuplicates_NoDup|].
  destruct (validateQubitIndex_loop qs numQubits ("gate " ++ gateName))
    as [[Hall Hrun]|[Hnot Hrun]].
  - left. split; [exact Hall|]. now rewrite Hrun.
  - right. split; [exact Hnot|].
    destruct (forM_ qs _) as [[]|e]; [discriminate|exact Hrun].
Qed.

(** X14 at work: a name that is in no table and is not inherited. *)
Lemma X14_validateGateOperation_characterised_witness :
  errorCodeOf (validateGateOperation (F := xreal) Gates.GATE_LIBRARY "Foo" [0] None 1)
    = Some INVALID_GATE.
Proof.
  apply (X14_validateGateOperation_characterised xreal _ Gates.GATE_LIBRARY "Foo" [0] None 1).
  reflexivity.
Defined.

(* ================================================================== *)
(** * complex.ts in exact arithmetic *)
(* ================================================================== *)

Lemma sum_squares_zero (x y : R) : (x * x + y * y = 0)%R -> x = 0%R /\ y = 0%R.
Proof. intros H. split; nra. Qed.

(** [sqrt(x² + y²) = |x| sqrt(1 + (y/x)²)]. *)
Lemma hypot_factor (x y : R) :
  x <> 0%R ->
  R_sqrt.sqrt (x * x + y * y) = (Rabs x * R_sqrt.sqrt (1 + (y / x)²))%R.
Proof.
  intros Hx.
  replace (x * x + y * y)%R with ((x * x) * (1 + (y / x)²))%R
    by (unfold Rsqr; field; exact Hx).
  rewrite sqrt_mult by (unfold Rsqr; nra).
  f_equal. change (x * x)%R with (Rsqr x). apply sqrt_Rsqr_abs.
Qed.

Lemma polar_cos (x y : R) :
  (R_sqrt.sqrt (x * x + y * y) * cos (XReal.atan2R y x) = x)%R.
Proof.
  unfold XReal.atan2R.
  assert (Hs : forall t, (0 < R_sqrt.sqrt (1 + t²))%R)
    by (intros t; apply sqrt_lt_R0; unfold Rsqr; nra).
  destruct (Rlt_dec 0 x) as [Hpos|Hnpos].
  - rewrite hypot_factor, cos_atan, Rabs_right by lra.
    specialize (Hs (y / x)%R). field. lra.
  - destruct (Rlt_dec x 0) as [Hneg|Hnneg].
    + rewrite hypot_factor, Rabs_left by lra. specialize (Hs (y / x)%R).
      destruct (Rlt_dec y 0).
      * unfold Rminus. rewrite cos_plus, cos_neg, sin_neg, cos_PI, sin_PI, cos_atan.
        field. lra.
      * rewrite cos_plus, cos_PI, sin_PI, cos_atan. field. lra.
    + assert (x = 0%R) by lra. subst x.
      destruct (Rlt_dec 0 y); [rewrite cos_PI2; lra|].
      destruct (Rlt_dec y 0); [rewrite cos_neg, cos_PI2; lra|].
      assert (y = 0%R) by lra. subst y.
      replace (0 * 0 + 0 * 0)%R with 0%R by lra. rewrite sqrt_0. lra.
Qed.

Lemma polar_sin (x y : R) :
  (R_sqrt.sqrt (x * x + y * y) * sin (XReal.atan2R y x) = y)%R.
Proof.
  unfold XReal.atan2R.
  assert (Hs : forall t, (0 < R_sqrt.sqrt (1 + t²))%R)
    by (intros t; apply sqrt_lt_R0; unfold Rsqr; nra).
  destruct (Rlt_dec 0 x) as [Hpos|Hnpos].
  - rewrite hypot_factor, sin_atan, Rabs_right by lra.
    specialize (Hs (y / x)%R). field. split; lra.
  - destruct (Rlt_dec x 0) as [Hneg|Hnneg].
    + rewrite hypot_factor, Rabs_left by lra. specialize (Hs (y / x)%R).
      destruct (Rlt_dec y 0).
      * unfold Rminus. rewrite sin_plus, cos_neg, sin_neg, cos_PI, sin_PI, sin_atan.
        field. split; lra.
      * rewrite sin_plus, cos_PI, sin_PI, sin_atan. field. split; lra.
    + assert (x = 0%R) by lra. subst x.
      replace (0 * 0 + y * y)%R with (Rsqr y) by (unfold Rsqr; lra).
      rewrite sqrt_Rsqr_abs.
      destruct (Rlt_dec 0 y); [rewrite sin_PI2, Rabs_right; lra|].
      destruct (Rlt_dec y 0); [rewrite sin_neg, sin_PI2, Rabs_left; lra|].
      assert (y = 0%R) by lra. subst y. rewrite sin_0. lra.
Qed.

(** X15: in exact arithmetic, [divide] undoes [multiply] and [multiply]
    undoes [divide] for every finite non-zero divisor; the squared
    magnitude of a product is the product of the squared magnitudes; and
    [divide] by [ZERO] throws nothing and returns parts that are not finite
    numbers. *)
Theorem X15_divide_inverts_multiply :
  (forall ar ai br bi : R,
      br <> 0%R \/ bi <> 0%R ->
      divide (multiply (finC ar ai) (finC br bi)) (finC br bi) = finC ar ai /\
      multiply (divide (finC ar ai) (finC br bi)) (finC br bi) = finC ar ai) /\
  (forall a b : Complex xreal,
      magnitudeSquared (multiply a b) = magnitudeSquared a *' magnitudeSquared b) /\
  (forall a : Complex xreal,
      isFinite (real (divide a ZERO)) = false /\
      isFinite (imag (divide a ZERO)) = false).
Proof.
  split; [|split].
  - intros ar ai br bi Hb.
    assert (Hden : (br * br + bi * bi)%R <> 0%R)
      by (intros H0; apply sum_squares_zero in H0; lra).
    split; xeval;
      destruct (Req_EM_T (br * br + bi * bi) 0) as [E|_]; try contradiction;
      unfold finC; f_equal; f_equal; field; exact Hden.
  - intros [[ar|] [ai|]] [[br|] [bi|]]; xeval; try reflexivity. f_equal. ring.
  - intros [[ar|] [ai|]]; xeval;
      try (destruct (Req_EM_T (0 * 0 + 0 * 0) 0) as [_|H0]; [|exfalso; lra]);
      split; reflexivity.
Qed.

(** X15 for [(1 + 2i) * (3 + 4i) / (3 + 4i)]. *)
Lemma X15_divide_inverts_multiply_witness :
  divide (multiply (finC 1 2) (finC 3 4)) (finC 3 4) = finC 1 2.
Proof.
  apply (proj1 X15_divide_inverts_multiply 1%R 2%R 3%R 4%R). left. lra.
Defined.

(** X16: in exact arithmetic, [fromPolar(magnitude(a), phase(a))] is [a]
    for every complex number [a] with finite parts, in each of the
    quadrants and on the axes that [Math.atan2] distinguishes, the origin
    included. *)
Theorem X16_polar_round_trip :
  forall x y : R, fromPolar (magnitude (finC x y)) (phase (finC x y)) = finC x y.
Proof.
  intros x y. unfold fromPolar, magnitude, phase, finC.
  cbn [real imag fmul fadd Math_sqrt Math_atan2 Math_cos Math_sin xreal_Num
       XReal.lift1 XReal.lift2 XReal.xsqrt].
  destruct (Rlt_dec (x * x + y * y) 0) as [Hneg|_]; [exfalso; nra|].
  cbn [XReal.lift1 XReal.lift2]. f_equal; f_equal; [apply polar_cos|apply polar_sin].
Qed.

(* ================================================================== *)
(** * The flat engine: the sparse view of the state *)
(* ================================================================== *)

(** An element of the result: [{ index, amplitude, probability }]. *)
Record SparseEntry (F : Type) : Type := mkSparseEntry {
  entry_index : Z;
  entry_amplitude : Complex F;
  entry_probability : F
}.
Arguments mkSparseEntry {F} entry_index entry_amplitude entry_probability.
Arguments entry_index {F} s.
Arguments entry_amplitude {F} s.
Arguments entry_probability {F} s.

Section SparseState.
Context {F : Type} {N : Num F}.

(** [1e-10], the quotient of two exactly represented integers. *)
Definition sparseThreshold : F := one /' ofZ 10000000000.

(** The loop of [getSparseState] from index [i] on: an entry is pushed when
    its probability exceeds the threshold, and the loop is left as soon as
    the list holds [maxElements] entries. *)
Fixpoint sparseLoop (st : list F) (maxElements : Z) (idxs : list Z)
         (results : list (SparseEntry F)) : list (SparseEntry F) :=
  match idxs with
  | [] => results
  | i :: idxs' =>
      let re := f64_get st (2 * i) in
      let im := f64_get st (2 * i + 1) in
      let prob := re *' re +' im *' im in
      if sparseThreshold <' prob then
        let results := results ++ [mkSparseEntry i (mkComplex re im) prob] in
        if Z.of_nat (length results) >=? maxElements then results
        else sparseLoop st maxElements idxs' results
      else sparseLoop st maxElements idxs' results
  end.

(** [getSparseState(maxElements = 1000)]. *)
Definition getSparseState (maxElements : option Z)
  : Exec Flat.QuantumSimulator (list (SparseEntry F)) :=
  gets (fun this =>
    let size := loopBound (Flat.numQubits this) in
    sparseLoop (Flat.state this)
               (match maxElements with Some k => k | None => 1000 end)
               (range size) []).

(** An entry reports basis index [i] of the buffer [st] as the loop reads
    it. *)
Definition reports (st : list F) (entry : SparseEntry F) : Prop :=
  entry_amplitude entry = amplitudeAt st (entry_index entry) /\
  entry_probability entry = magnitudeSquared (amplitudeAt st (entry_index entry)) /\
  (sparseThreshold <' entry_probability entry) = true.

(** The indices the loop would report if it were never left early. *)
Definition aboveThreshold (st : list F) (idxs : list Z) : list Z :=
  filter (fun i => sparseThreshold <' magnitudeSquared (amplitudeAt st i)) idxs.

Lemma sparseLoop_spec (st : list F) (maxElements : Z) (idxs : list Z) :
  forall results : list (SparseEntry F),
    exists added,
      sparseLoop st maxElements idxs results = results ++ added /\
      Forall (reports st) added /\
      map entry_index added = firstn (length added) (aboveThreshold st idxs) /\
      (added = [] -> aboveThreshold st idxs = []) /\
      Z.of_nat (length (results ++ added))
        <= Z.max maxElements (Z.of_nat (length results) + 1) /\
      (Z.of_nat (length (results ++ added)) < maxElements ->
       map entry_index added = aboveThreshold st idxs).
Proof.
  unfold aboveThreshold.
  induction idxs as [|i idxs IH]; intros results.
  - exists []. cbn [sparseLoop filter firstn length map]. rewrite app_nil_r.
    repeat split; auto. lia.
  - cbn [sparseLoop filter]. cbv zeta.
    change (f64_get st (2 * i) *' f64_get st (2 * i)
            +' f64_get st (2 * i + 1) *' f64_get st (2 * i + 1))
      with (magnitudeSquared (amplitudeAt st i)).
    destruct (sparseThreshold <' magnitudeSquared (amplitudeAt st i)) eqn:Hthr.
    + set (entry := mkSparseEntry i (mkComplex (f64_get st (2 * i)) (f64_get st (2 * i + 1)))
                                  (magnitudeSquared (amplitudeAt st i))).
      assert (Hentry : reports st entry) by (repeat split; exact Hthr).
      destruct (Z.geb_spec (Z.of_nat (length (results ++ [entry]))) maxElements)
        as [Hfull|Hroom].
      * exists [entry]. cbn [length firstn map entry_index entry].
        repeat split; auto; try discriminate.
        -- rewrite length_app in *. cbn [length] in *. lia.
        -- intros Hlt. lia.
      * destruct (IH (results ++ [entry])) as (added & Hrun & Hrep & Hidx & _ & Hlen & Hall).
        exists (entry :: added). rewrite Hrun, <- app_assoc.
        cbn [app length firstn map entry_index entry].
        split; [reflexivity|]. split; [constructor; assumption|].
        split; [now rewrite Hidx|]. split; [discriminate|].
        rewrite <- app_assoc in Hlen, Hall. cbn [app] in Hlen, Hall.
        split.
        -- rewrite !length_app in *. cbn [length] in *. lia.
        -- intros Hlt. now rewrite Hall.
    + destruct (IH results) as (added & Hrun & Hrep & Hidx & Hnone & Hlen & Hall).
      exists added. repeat split; auto.
Qed.
End SparseState.

(** X17: [getSparseState(maxElements)] of the flat engine leaves the engine
    as it is and reports basis indices in increasing order, each with its
    amplitude and its probability [re² + im²], which exceeds [1e-10]; the
    reported indices are the first ones whose probability exceeds [1e-10],
    and all of them when fewer than [maxElements] are reported.  The bound
    is tested after an entry is pushed: at most [maxElements] entries are
    returned, except that one entry is returned even for
    [maxElements <= 0] as soon as some probability exceeds the threshold. *)
Theorem X17_getSparseState_reports :
  forall (F : Type) (N : Num F) (this : Flat.QuantumSimulator) (maxElements : option Z),
    let limit := match maxElements with Some k => k | None => 1000 end in
    let candidates :=
      aboveThreshold (Flat.state this) (range (loopBound (Flat.numQubits this))) in
    exists entries,
      getSparseState maxElements this = (Ok entries, this) /\
      Forall (reports (Flat.state this)) entries /\
      map entry_index entries = firstn (length entries) candidates /\
      Z.of_nat (length entries) <= Z.max limit 1 /\
      (Z.of_nat (length entries) < limit -> map entry_index entries = candidates) /\
      (candidates <> [] -> entries <> []).
Proof.
  intros F N this maxElements limit candidates.
  destruct (sparseLoop_spec (Flat.state this) limit
              (range (loopBound (Flat.numQubits this))) [])
    as (added & Hrun & Hrep & Hidx & Hnone & Hlen & Hall).
  cbn [app length] in Hrun, Hlen, Hall.
  exists added. split; [unfold getSparseState, gets; fold limit; now rewrite Hrun|].
  repeat split; auto.
Qed.

(* ================================================================== *)
(** * The flat engine: probabilities *)
(* ================================================================== *)

Lemma set_nth_middle {A : Type} (l r : list A) (a v : A) :
  set_nth (l ++ a :: r) (length l) v = l ++ v :: r.
Proof. induction l as [|x l IH]; cbn [length app set_nth]; [reflexivity|now rewrite IH]. Qed.

Section FlatProbabilities.
Context {F : Type} {N : Num F}.

(** Filling a zeroed typed array cell by cell gives the table of the
    stored values. *)
Lemma fill_table (g : Z -> F) (k : nat) :
  fold_left (fun probs i => f64_set probs i (g i)) (range k) (repeat zero k)
  = map g (range k).
Proof.
  assert (H : forall j, (j <= k)%nat ->
            fold_left (fun probs i => f64_set probs i (g i)) (range j) (repeat zero k)
            = map g (range j) ++ repeat zero (k - j)).
  { induction j as [|j IH]; intros Hj.
    - cbn [range seq map fold_left app]. now rewrite Nat.sub_0_r.
    - rewrite range_S, fold_left_app, IH by lia. cbn [fold_left].
      unfold f64_set, arr_set. destruct (Z.ltb_spec (Z.of_nat j) 0); [lia|].
      rewrite Nat2Z.id, map_app. cbn [map]. rewrite <- app_assoc. cbn [app].
      replace (k - j)%nat with (S (k - S j)) by lia. cbn [repeat].
      assert (Hlen : length (map g (range j)) = j) by now rewrite length_map, range_length.
      pose proof (set_nth_middle (map g (range j)) (repeat zero (k - S j)) zero
                                 (g (Z.of_nat j))) as Hm.
      rewrite Hlen in Hm. exact Hm. }
  rewrite (H k) by lia. now rewrite Nat.sub_diag, app_nil_r.
Qed.

End FlatProbabilities.

(** X18: on a flat engine with [n >= 0] qubits, [getProbabilities()]
    returns, for each amplitude that [getState()] reports, its squared
    magnitude [re² + im²], in the same order and with the same cut at
    16384 entries; neither call changes the engine. *)
Theorem X18_getProbabilities_of_getState :
  forall (F : Type) (N : Num F) (this : Flat.QuantumSimulator),
    0 <= Flat.numQubits this ->
    exists amplitudes,
      Flat.getState this = (Ok amplitudes, this) /\
      Flat.getProbabilities this = (Ok (map magnitudeSquared amplitudes), this) /\
      Z.of_nat (length amplitudes) = Z.min (2 ^ Flat.numQubits this) 16384.
Proof.
  intros F N this Hn.
  assert (Hpow : 0 < 2 ^ Flat.numQubits this) by (apply Z.pow_pos_nonneg; lia).
  eexists. split; [apply getState_eq; exact Hn|]. split.
  - unfold Flat.getProbabilities. cbn [bind Exec_Monad gets lift].
    rewrite Float64Array_ok by (change (2 ^ 53 - 1) with 9007199254740991; lia).
    cbn [ret Exec_Monad]. do 2 f_equal.
    assert (E : Nat.min (loopBound (Flat.numQubits this)) (1024 * 16)
                = Z.to_nat (Z.min (2 ^ Flat.numQubits this) (1024 * 16))).
    { apply Nat2Z.inj. rewrite Nat2Z.inj_min, loopBound_nonneg by assumption.
      rewrite Z2Nat.id by lia. reflexivity. }
    rewrite E.
    rewrite (fill_table (fun i => f64_get (Flat.state this) (2 * i)
                                  *' f64_get (Flat.state this) (2 * i)
                                  +' f64_get (Flat.state this) (2 * i + 1)
                                     *' f64_get (Flat.state this) (2 * i + 1))).
    rewrite map_map. reflexivity.
  - rewrite length_map, range_length, Z2Nat.id by lia. reflexivity.
Qed.

(** X18 on the one-qubit flat engine in state [|0>]. *)
Lemma X18_getProbabilities_of_getState_witness :
  exists amplitudes,
    Flat.getState (@flat1 xreal _) = (Ok amplitudes, flat1) /\
    Flat.getProbabilities (@flat1 xreal _) = (Ok (map magnitudeSquared amplitudes), flat1) /\
    Z.of_nat (length amplitudes) = Z.min (2 ^ 1) 16384.
Proof.
  apply (X18_getProbabilities_of_getState xreal xreal_Num flat1). simpl. lia.
Defined.

(* ================================================================== *)
(** * The object engine: measurement in exact arithmetic *)
(* ================================================================== *)

(** [measure] as one equation (the loops replaced by their results). *)
Lemma Obj_measure_eq {F : Type} {N : Num F} (random : nat -> F)
      (this : Obj.QuantumSimulator) (w : World) (q : Z) :
  let n := Obj.numQubits this in
  let st := Obj.state this in
  0 <= n <= 31 -> 0 <= q < n -> Z.of_nat (length st) = 2 ^ n ->
  let prob0 := outcomeProbability n q st 0 in
  let prob1 := outcomeProbability n q st 1 in
  let outcome := if random (randomCalls w) <' prob0 then 0 else 1 in
  let probability := if outcome =? 0 then prob0 else prob1 in
  let collapsed := collapse n q st outcome probability in
  Obj.measure random q (this, w) =
    (Ok (mkMeasurementResult outcome probability collapsed),
     (Obj.mkSim collapsed n (Obj.history this ++ [collapsed])
                (Obj.operations this ++ [mkGateOperation "MEASURE" [q] None])
                (Obj.noiseModel this),
      mkWorld (S (randomCalls w)) (probabilityPasses w))).
Proof.
  intros n st Hn Hq Hlen prob0 prob1 outcome probability collapsed.
  unfold Obj.measure. cbn [bind Exec_Monad onObject gets].
  fold n. fold st.
  assert (E : (q <? 0) || (q >=? n) = false).
  { destruct (Z.ltb_spec q 0), (Z.geb_spec q n); simpl; try reflexivity; lia. }
  rewrite E. cbn [bind Exec_Monad onObject lift].
  assert (Hsize : loopBound n = Z.to_nat (2 ^ n)).
  { apply Nat2Z.inj. rewrite loopBound_nonneg by lia.
    rewrite Z2Nat.id; [reflexivity|]. apply Z.pow_nonneg. lia. }
  rewrite Hsize.
  assert (Hrange : forall i, In i (range (Z.to_nat (2 ^ n))) -> 0 <= i < 2 ^ n).
  { intros i Hi. apply range_In in Hi. rewrite Z2Nat.id in Hi; [lia|].
    apply Z.pow_nonneg. lia. }
  rewrite (measure_probabilities_loop n q st _ Hn Hq Hlen Hrange).
  cbn [fst snd Math_random bind Exec_Monad].
  fold (sumF (map (fun i => magnitudeSquared (amplitudeOf st i))
                  (filter (fun i => qubitValue n q i =? 0) (range (Z.to_nat (2 ^ n)))))).
  fold (sumF (map (fun i => magnitudeSquared (amplitudeOf st i))
                  (filter (fun i => qubitValue n q i =? 1) (range (Z.to_nat (2 ^ n)))))).
  fold (indicesWith n q 0). fold (indicesWith n q 1).
  fold (outcomeProbability n q st 0). fold (outcomeProbability n q st 1).
  fold prob0. fold prob1. fold outcome. fold probability.
  rewrite (mapM_ok _
             (fun i => if qubitValue n q i =? outcome
                       then scale (amplitudeOf st i) (one /' Math_sqrt probability)
                       else ZERO)).
  2:{ intros i Hi. apply Hrange in Hi.
      rewrite bitOf_qubitValue by assumption.
      destruct (qubitValue n q i =? outcome); [|reflexivity].
      rewrite (arr_get_nth st i ZERO) by lia. reflexivity. }
  fold (collapse n q st outcome probability). fold collapsed.
  reflexivity.
Qed.

(** The weight [|amplitude[i]|²] as a real. *)
Definition weight (st : list (Complex xreal)) (i : nat) : R :=
  (reAt st i * reAt st i + imAt st i * imAt st i)%R.

(** The sum of the weights of the indices whose qubit [q] has value [b]. *)
Definition weightOf (n q : Z) (st : list (Complex xreal)) (b : Z) : R :=
  sumR (fun i => if qubitValue n q (Z.of_nat i) =? b then weight st i else 0%R)
       (Z.to_nat (2 ^ n)).

Lemma sumF_filter (f : nat -> R) (p : Z -> bool) (g : Z -> xreal) (k : nat) :
  (forall i, (i < k)%nat -> p (Z.of_nat i) = true -> g (Z.of_nat i) = Fin (f i)) ->
  forall acc : R,
    fold_left fadd (map g (filter p (range k))) (Fin acc)
    = Fin (acc + sumR (fun i => if p (Z.of_nat i) then f i else 0%R) k).
Proof.
  intros Hg. induction k as [|k IH]; intros acc.
  - cbn. f_equal. lra.
  - rewrite range_S, filter_app, map_app, fold_left_app, IH
      by (intros i Hi; apply Hg; lia).
    cbn [filter sumR]. destruct (p (Z.of_nat k)) eqn:Hp; cbn [map fold_left].
    + rewrite (Hg k) by (auto; lia). cbn. f_equal. lra.
    + f_equal. lra.
Qed.

Lemma outcomeProbability_exact (n q : Z) (st : list (Complex xreal)) (b : Z) :
  Forall finiteC st -> Z.of_nat (length st) = 2 ^ n ->
  outcomeProbability n q st b = Fin (weightOf n q st b).
Proof.
  intros Hfin Hlen. unfold outcomeProbability, indicesWith, sumF, weightOf.
  change (@zero xreal _) with (Fin 0).
  rewrite (sumF_filter (weight st) (fun i => qubitValue n q i =? b)).
  - f_equal. lra.
  - intros i Hi _. unfold amplitudeOf. rewrite Nat2Z.id.
    rewrite (finiteC_nth st i Hfin) by lia. reflexivity.
Qed.

Lemma weightOf_total (n q : Z) (st : list (Complex xreal)) :
  Z.of_nat (length st) = 2 ^ n ->
  (weightOf n q st 0 + weightOf n q st 1 = normC st)%R.
Proof.
  intros Hlen. unfold weightOf. rewrite <- sumR_plus, normC_sumR.
  replace (Z.to_nat (2 ^ n)) with (length st) by lia.
  apply sumR_ext. intros i _. fold (weight st i).
  destruct (qubitValue_cases n q (Z.of_nat i)) as [-> | ->]; cbn; lra.
Qed.

Lemma weight_nonneg (st : list (Complex xreal)) (i : nat) : (0 <= weight st i)%R.
Proof. unfold weight. nra. Qed.

Lemma weightOf_nonneg (n q : Z) (st : list (Complex xreal)) (b : Z) :
  (0 <= weightOf n q st b)%R.
Proof.
  unfold weightOf. induction (Z.to_nat (2 ^ n)) as [|k IH]; cbn [sumR]; [lra|].
  pose proof (weight_nonneg st k). destruct (_ =? b); lra.
Qed.

(** The parts of the collapsed amplitude [i] for outcome [b] of
    probability [p]. *)
Definition collapsedRe (n q : Z) (st : list (Complex xreal)) (b : Z) (p : R) (i : nat) : R :=
  if qubitValue n q (Z.of_nat i) =? b then (reAt st i * (1 / R_sqrt.sqrt p))%R else 0%R.

Definition collapsedIm (n q : Z) (st : list (Complex xreal)) (b : Z) (p : R) (i : nat) : R :=
  if qubitValue n q (Z.of_nat i) =? b then (imAt st i * (1 / R_sqrt.sqrt p))%R else 0%R.

Lemma collapse_exact (n q : Z) (st : list (Complex xreal)) (b : Z) (p : R) :
  Forall finiteC st -> Z.of_nat (length st) = 2 ^ n -> (0 < p)%R ->
  collapse n q st b (Fin p)
  = map (fun i => finC (collapsedRe n q st b p (Z.to_nat i))
                       (collapsedIm n q st b p (Z.to_nat i)))
        (range (Z.to_nat (2 ^ n))).
Proof.
  intros Hfin Hlen Hp. unfold collapse. apply map_ext_in. intros i Hi.
  apply range_In in Hi. unfold collapsedRe, collapsedIm.
  rewrite !Z2Nat.id by lia.
  destruct (qubitValue n q i =? b); [|reflexivity].
  unfold amplitudeOf. rewrite (finiteC_nth st (Z.to_nat i) Hfin) by lia.
  pose proof (sqrt_lt_R0 p Hp) as Hs.
  cbn [scale finC real imag fmul fdiv Math_sqrt one ofZ xreal_Num
       XReal.lift2 XReal.xsqrt XReal.xdiv].
  destruct (Rlt_dec p 0) as [Hneg|_]; [exfalso; lra|].
  cbn [XReal.xdiv]. destruct (Req_EM_T (R_sqrt.sqrt p) 0) as [E|_]; [exfalso; lra|].
  reflexivity.
Qed.

Lemma collapsed_state (n q : Z) (st : list (Complex xreal)) (b : Z) (p : R) :
  let collapsed := collapse n q st b (Fin p) in
  0 <= n -> Forall finiteC st -> Z.of_nat (length st) = 2 ^ n -> (0 < p)%R ->
  Z.of_nat (length collapsed) = 2 ^ n /\
  Forall finiteC collapsed /\
  (forall i, (i < Z.to_nat (2 ^ n))%nat ->
     reAt collapsed i = collapsedRe n q st b p i /\
     imAt collapsed i = collapsedIm n q st b p i) /\
  (forall b', weightOf n q collapsed b'
              = if b' =? b then (weightOf n q st b / p)%R else 0%R).
Proof.
  intros collapsed Hn Hfin Hlen Hp. subst collapsed.
  rewrite (collapse_exact n q st b p Hfin Hlen Hp).
  set (N := Z.to_nat (2 ^ n)).
  assert (HN : Z.of_nat N = 2 ^ n) by (subst N; rewrite Z2Nat.id; [reflexivity|lia]).
  assert (Hparts : forall i, (i < N)%nat ->
            reAt (map (fun i => finC (collapsedRe n q st b p (Z.to_nat i))
                                     (collapsedIm n q st b p (Z.to_nat i))) (range N)) i
              = collapsedRe n q st b p i /\
            imAt (map (fun i => finC (collapsedRe n q st b p (Z.to_nat i))
                                     (collapsedIm n q st b p (Z.to_nat i))) (range N)) i
              = collapsedIm n q st b p i).
  { intros i Hi. unfold reAt, imAt. rewrite (nth_map_range _ N i) by assumption.
    cbn [finC real imag toR]. now rewrite Nat2Z.id. }
  split; [now rewrite length_map, range_length|].
  split.
  { apply Forall_forall. intros e He. apply in_map_iff in He as (i & <- & _).
    apply finiteC_finC. }
  split; [exact Hparts|].
  intros b'. unfold weightOf. fold N.
  pose proof (sqrt_lt_R0 p Hp) as Hs. pose proof (sqrt_sqrt p ltac:(lra)) as Hss.
  destruct (Z.eqb_spec b' b) as [->|Hne].
  - unfold Rdiv. rewrite Rmult_comm, <- sumR_scal. apply sumR_ext. intros i Hi.
    unfold weight. destruct (Hparts i Hi) as [-> ->].
    unfold collapsedRe, collapsedIm.
    destruct (qubitValue n q (Z.of_nat i) =? b); [|lra].
    field_simplify_eq; [|lra].
    replace (R_sqrt.sqrt p ^ 2)%R with p by (simpl; lra). ring.
  - transitivity (sumR (fun _ => 0%R) N); [|apply sumR_zero].
    apply sumR_ext. intros i Hi.
    unfold weight. destruct (Hparts i Hi) as [-> ->].
    unfold collapsedRe, collapsedIm.
    destruct (Z.eqb_spec (qubitValue n q (Z.of_nat i)) b') as [E|_]; [|reflexivity].
    destruct (Z.eqb_spec (qubitValue n q (Z.of_nat i)) b); [lia|lra].
Qed.

(** One measurement of a normalized state with a draw in [[0, 1)]. *)
Lemma measure_exact (random : nat -> xreal) (this : @Obj.QuantumSimulator xreal)
      (w : World) (q n : Z) (r : R) :
  0 <= n <= 31 -> 0 <= q < n -> ObjInv n 1 this ->
  random (randomCalls w) = Fin r -> (0 <= r < 1)%R ->
  let st := Obj.state this in
  let p0 := weightOf n q st 0 in
  let p1 := weightOf n q st 1 in
  let b := if Rlt_dec r p0 then 0 else 1 in
  let p := if b =? 0 then p0 else p1 in
  let collapsed := collapse n q st b (Fin p) in
  let this' := Obj.mkSim collapsed n (Obj.history this ++ [collapsed])
                 (Obj.operations this ++ [mkGateOperation "MEASURE" [q] None])
                 (Obj.noiseModel this) in
  Obj.measure random q (this, w) =
    (Ok (mkMeasurementResult b (Fin p) collapsed),
     (this', mkWorld (S (randomCalls w)) (probabilityPasses w))) /\
  (p0 + p1 = 1)%R /\ (0 <= p0)%R /\ (0 <= p1)%R /\ (0 < p)%R /\
  ObjInv n 1 this' /\
  weightOf n q collapsed b = 1%R /\ weightOf n q collapsed (1 - b) = 0%R.
Proof.
  intros Hn Hq (Hnq & Hlen & Hfin & Hnorm) Hr Hrange st p0 p1 b p collapsed this'.
  subst st. set (st := Obj.state this) in *.
  pose proof (weightOf_total n q st Hlen) as Htotal. fold p0 p1 in Htotal.
  rewrite Hnorm in Htotal.
  pose proof (weightOf_nonneg n q st 0) as Hp0. pose proof (weightOf_nonneg n q st 1) as Hp1.
  fold p0 in Hp0. fold p1 in Hp1.
  assert (Hp : (0 < p)%R).
  { subst p b. destruct (Rlt_dec r p0); cbn [Z.eqb Pos.eqb]; lra. }
  assert (Hcol : collapsed = collapse n q st b (Fin p)) by reflexivity.
  destruct (collapsed_state n q st b p ltac:(lia) Hfin Hlen Hp)
    as (Hlen' & Hfin' & Hparts & Hweights).
  rewrite <- Hcol in Hlen', Hfin', Hparts, Hweights.
  assert (Hwb : weightOf n q st b = p)
    by (subst p b; destruct (Rlt_dec r p0); reflexivity).
  split.
  { pose proof (Obj_measure_eq random this w q) as Heq. cbv zeta in Heq.
    rewrite Hnq in Heq. specialize (Heq Hn Hq Hlen).
    fold st in Heq.
    rewrite !(outcomeProbability_exact n q st) in Heq by assumption.
    rewrite Hr in Heq. cbn [flt xreal_Num XReal.xlt] in Heq.
    fold p0 p1 in Heq. rewrite Heq. subst this' collapsed p b.
    destruct (Rlt_dec r p0); reflexivity. }
  split; [exact Htotal|]. split; [exact Hp0|]. split; [exact Hp1|]. split; [exact Hp|].
  split.
  { unfold ObjInv. subst this'. cbn [Obj.numQubits Obj.state].
    split; [reflexivity|]. split; [exact Hlen'|]. split; [exact Hfin'|].
    rewrite <- (weightOf_total n q collapsed Hlen'), !Hweights, Hwb.
    destruct (Z.eqb_spec 0 b), (Z.eqb_spec 1 b); try lia.
    - field. lra.
    - field. lra.
    - exfalso. subst b. destruct (Rlt_dec r p0); lia. }
  rewrite !Hweights, Hwb, Z.eqb_refl.
  split; [field; lra|].
  destruct (Z.eqb_spec (1 - b) b); [lia|reflexivity].
Qed.

(** X19: in exact arithmetic, [measure(q)] of the object engine on a
    normalized state, with a draw [r] of [Math.random] in [[0, 1)], finds
    [P(0) + P(1) = 1], returns outcome 0 exactly when [r < P(0)], an outcome
    whose probability is positive (so the rescaling never divides by zero),
    and leaves a state of [2^n] finite amplitudes that is normalized
    again. *)
Theorem X19_measure_keeps_normalized :
  forall (random : nat -> xreal) (this : @Obj.QuantumSimulator xreal)
         (w : World) (q n : Z) (r : R),
    0 <= n <= 31 -> 0 <= q < n -> ObjInv n 1 this ->
    random (randomCalls w) = Fin r -> (0 <= r < 1)%R ->
    exists (outcome : Z) (p p0 p1 : R) (collapsed : list (Complex xreal))
           (this' : Obj.QuantumSimulator),
      Obj.measure random q (this, w) =
        (Ok (mkMeasurementResult outcome (Fin p) collapsed),
         (this', mkWorld (S (randomCalls w)) (probabilityPasses w))) /\
      Obj.state this' = collapsed /\
      ObjInv n 1 this' /\
      normSquared collapsed = Fin 1 /\
      outcomeProbability n q (Obj.state this) 0 = Fin p0 /\
      outcomeProbability n q (Obj.state this) 1 = Fin p1 /\
      (p0 + p1 = 1)%R /\
      (outcome = 0 /\ (r < p0)%R /\ p = p0 \/ outcome = 1 /\ (p0 <= r)%R /\ p = p1) /\
      (0 < p <= 1)%R.
Proof.
  intros random this w q n r Hn Hq Hinv Hr Hrange.
  destruct (measure_exact random this w q n r Hn Hq Hinv Hr Hrange)
    as (Hrun & Htotal & Hp0 & Hp1 & Hp & Hinv' & _).
  destruct Hinv as (Hnq & Hlen & Hfin & Hnorm).
  set (p0 := weightOf n q (Obj.state this) 0) in *.
  set (p1 := weightOf n q (Obj.state this) 1) in *.
  assert (Hnorm' : forall this', ObjInv n 1 this' -> normSquared (Obj.state this') = Fin 1).
  { intros this' (_ & _ & Hfin' & Hnorm'). now rewrite (normSquared_normC _ Hfin'), Hnorm'. }
  destruct (Rlt_dec r p0) as [Hlt|Hge]; cbn [Z.eqb Pos.eqb] in *.
  - exists 0, p0, p0, p1. do 2 eexists. split; [exact Hrun|].
    split; [reflexivity|]. split; [exact Hinv'|].
    split; [exact (Hnorm' _ Hinv')|].
    split; [now apply outcomeProbability_exact|].
    split; [now apply outcomeProbability_exact|].
    split; [exact Htotal|]. split; [left; repeat split; lra|lra].
  - exists 1, p1, p0, p1. do 2 eexists. split; [exact Hrun|].
    split; [reflexivity|]. split; [exact Hinv'|].
    split; [exact (Hnorm' _ Hinv')|].
    split; [now apply outcomeProbability_exact|].
    split; [now apply outcomeProbability_exact|].
    split; [exact Htotal|]. split; [right; repeat split; lra|lra].
Qed.

(** X19 on a fresh one-qubit engine, the draw being 1/2: outcome 0. *)
Lemma X19_measure_keeps_normalized_witness :
  exists (outcome : Z) (p : R) (collapsed : list (Complex xreal))
         (this' : Obj.QuantumSimulator),
    Obj.measure (fun _ => Fin (1 / 2)) 0 (@obj_fresh xreal _ 1, World0) =
      (Ok (mkMeasurementResult outcome (Fin p) collapsed), (this', mkWorld 1 0)) /\
    normSquared collapsed = Fin 1.
Proof.
  destruct (X19_measure_keeps_normalized (fun _ => Fin (1 / 2)) (obj_fresh 1) World0
              0 1 (1 / 2)%R)
    as (outcome & p & p0 & p1 & collapsed & this' & Hrun & _ & _ & Hnorm & _).
  - lia.
  - lia.
  - unfold ObjInv. cbn [obj_fresh Obj.numQubits Obj.state].
    split; [reflexivity|]. split; [reflexivity|]. split.
    + repeat constructor; apply finite_Fin.
    + xeval. lra.
  - reflexivity.
  - lra.
  - exists outcome, p, collapsed, this'. split; [exact Hrun|exact Hnorm].
Defined.

(** Collapsing a collapsed state again on the same outcome, now of
    probability 1, changes nothing. *)
Lemma collapse_idempotent (n q : Z) (st : list (Complex xreal)) (b : Z) (p : R) :
  0 <= n -> Forall finiteC st -> Z.of_nat (length st) = 2 ^ n -> (0 < p)%R ->
  collapse n q (collapse n q st b (Fin p)) b (Fin 1) = collapse n q st b (Fin p).
Proof.
  intros Hn Hfin Hlen Hp.
  destruct (collapsed_state n q st b p Hn Hfin Hlen Hp) as (Hlen' & Hfin' & Hparts & _).
  set (collapsed := collapse n q st b (Fin p)) in *.
  rewrite (collapse_exact n q collapsed b 1 Hfin' Hlen' ltac:(lra)).
  set (N := Z.to_nat (2 ^ n)) in *.
  apply (nth_ext _ _ ZERO ZERO); [rewrite length_map, range_length; lia|].
  intros i Hi. rewrite length_map, range_length in Hi.
  rewrite (nth_map_range _ N i) by exact Hi. rewrite Nat2Z.id.
  rewrite (finiteC_nth collapsed i Hfin') by lia.
  destruct (Hparts i Hi) as [Hre Him].
  unfold collapsedRe at 1, collapsedIm at 1. rewrite sqrt_1.
  destruct (qubitValue n q (Z.of_nat i) =? b) eqn:Hbit.
  - unfold finC. f_equal; f_equal; field.
  - rewrite Hre, Him. unfold collapsedRe, collapsedIm. now rewrite Hbit.
Qed.

(** X20: in exact arithmetic, measuring the same qubit of the object
    engine twice in a row, on a normalized state and with draws of
    [Math.random] in [[0, 1)], gives the same outcome the second time, with
    probability 1, and the second measurement leaves the amplitudes exactly
    as the first one left them. *)
Theorem X20_measure_repeatable :
  forall (random : nat -> xreal) (this : @Obj.QuantumSimulator xreal)
         (w : World) (q n : Z) (r r' : R),
    0 <= n <= 31 -> 0 <= q < n -> ObjInv n 1 this ->
    random (randomCalls w) = Fin r -> (0 <= r < 1)%R ->
    random (S (randomCalls w)) = Fin r' -> (0 <= r' < 1)%R ->
    exists (outcome : Z) (p : R) (collapsed : list (Complex xreal))
           (this1 this2 : Obj.QuantumSimulator) (w1 w2 : World),
      Obj.measure random q (this, w) =
        (Ok (mkMeasurementResult outcome (Fin p) collapsed), (this1, w1)) /\
      Obj.measure random q (this1, w1) =
        (Ok (mkMeasurementResult outcome (Fin 1) collapsed), (this2, w2)) /\
      Obj.state this1 = collapsed /\ Obj.state this2 = collapsed.
Proof.
  intros random this w q n r r' Hn Hq Hinv Hr Hrange Hr' Hrange'.
  destruct (measure_exact random this w q n r Hn Hq Hinv Hr Hrange)
    as (Hrun & _ & _ & _ & Hp & Hinv1 & Hsame & Hother).
  destruct Hinv as (Hnq & Hlen & Hfin & Hnorm).
  set (p0 := weightOf n q (Obj.state this) 0) in *.
  set (p1 := weightOf n q (Obj.state this) 1) in *.
  set (b := if Rlt_dec r p0 then 0 else 1) in *.
  set (p := if b =? 0 then p0 else p1) in *.
  set (collapsed := collapse n q (Obj.state this) b (Fin p)) in *.
  set (this1 := Obj.mkSim collapsed n _ _ _) in *.
  set (w1 := mkWorld (S (randomCalls w)) (probabilityPasses w)) in *.
  destruct (measure_exact random this1 w1 q n r' Hn Hq Hinv1 Hr' Hrange')
    as (Hrun2 & _ & _ & _ & _ & _ & _ & _).
  cbn [Obj.state this1] in Hrun2.
  assert (Hb : b = 0 \/ b = 1) by (subst b; destruct (Rlt_dec r p0); auto).
  assert (Hb' : (if Rlt_dec r' (weightOf n q collapsed 0) then 0 else 1) = b).
  { destruct Hb as [E|E]; rewrite E in Hsame, Hother; cbn in Hother.
    - rewrite Hsame. destruct (Rlt_dec r' 1); [now rewrite E|lra].
    - rewrite Hother. destruct (Rlt_dec r' 0); [lra|now rewrite E]. }
  rewrite Hb' in Hrun2.
  assert (Hp' : (if b =? 0 then weightOf n q collapsed 0 else weightOf n q collapsed 1)
                = 1%R).
  { destruct Hb as [E|E]; rewrite E in *; cbn [Z.eqb Pos.eqb]; exact Hsame. }
  rewrite Hp' in Hrun2.
  assert (Hidem : collapse n q collapsed b (Fin 1) = collapsed)
    by (apply collapse_idempotent; [lia|assumption..]).
  rewrite Hidem in Hrun2.
  exists b, p, collapsed. do 4 eexists.
  split; [exact Hrun|]. split; [exact Hrun2|]. split; reflexivity.
Qed.

(** X20 on a fresh one-qubit engine, both draws being 1/2. *)
Lemma X20_measure_repeatable_witness :
  exists (outcome : Z) (p : R) (collapsed : list (Complex xreal))
         (this1 this2 : Obj.QuantumSimulator) (w1 w2 : World),
    Obj.measure (fun _ => Fin (1 / 2)) 0 (@obj_fresh xreal _ 1, World0) =
      (Ok (mkMeasurementResult outcome (Fin p) collapsed), (this1, w1)) /\
    Obj.measure (fun _ => Fin (1 / 2)) 0 (this1, w1) =
      (Ok (mkMeasurementResult outcome (Fin 1) collapsed), (this2, w2)) /\
    Obj.state this1 = collapsed /\ Obj.state this2 = collapsed.
Proof.
  apply (X20_measure_repeatable (fun _ => Fin (1 / 2)) (obj_fresh 1) World0
           0 1 (1 / 2)%R (1 / 2)%R).
  - lia.
  - lia.
  - unfold ObjInv. cbn [obj_fresh Obj.numQubits Obj.state].
    split; [reflexivity|]. split; [reflexivity|]. split.
    + repeat constructor; apply finite_Fin.
    + xeval. lra.
  - reflexivity.
  - lra.
  - reflexivity.
  - lra.
Defined.

(* ================================================================== *)
(** * The object engine: measuring every qubit *)
(* ================================================================== *)

(** The weight of an amplitude after the collapse on outcome [b] of
    probability [p]. *)
Lemma weight_collapsed (n q : Z) (st : list (Complex xreal)) (b : Z) (p : R) (i : nat) :
  0 <= n -> Forall finiteC st -> Z.of_nat (length st) = 2 ^ n -> (0 < p)%R ->
  (i < Z.to_nat (2 ^ n))%nat ->
  weight (collapse n q st b (Fin p)) i
  = if qubitValue n q (Z.of_nat i) =? b then (weight st i / p)%R else 0%R.
Proof.
  intros Hn Hfin Hlen Hp Hi.
  destruct (collapsed_state n q st b p Hn Hfin Hlen Hp) as (_ & _ & Hparts & _).
  destruct (Hparts i Hi) as [Hre Him]. unfold weight. rewrite Hre, Him.
  unfold collapsedRe, collapsedIm.
  pose proof (sqrt_lt_R0 p Hp) as Hs. pose proof (sqrt_sqrt p ltac:(lra)) as Hss.
  destruct (qubitValue n q (Z.of_nat i) =? b); [|lra].
  field_simplify_eq; [|lra].
  replace (R_sqrt.sqrt p ^ 2)%R with p by (simpl; lra). ring.
Qed.

(** Qubit [q] of the state [st] is settled on the value [b]: no amplitude
    is left on an index whose bit disagrees. *)
Definition settled (n : Z) (st : list (Complex xreal)) (q b : Z) : Prop :=
  forall i, (i < Z.to_nat (2 ^ n))%nat ->
    qubitValue n q (Z.of_nat i) <> b -> weight st i = 0%R.

Lemma collapse_settles (n q : Z) (st : list (Complex xreal)) (b : Z) (p : R) :
  0 <= n -> Forall finiteC st -> Z.of_nat (length st) = 2 ^ n -> (0 < p)%R ->
  settled n (collapse n q st b (Fin p)) q b /\
  forall q' b', settled n st q' b' -> settled n (collapse n q st b (Fin p)) q' b'.
Proof.
  intros Hn Hfin Hlen Hp. split.
  - intros i Hi Hbit. rewrite weight_collapsed by assumption.
    destruct (Z.eqb_spec (qubitValue n q (Z.of_nat i)) b); [contradiction|reflexivity].
  - intros q' b' Hset i Hi Hbit. rewrite weight_collapsed by assumption.
    rewrite (Hset i Hi Hbit). destruct (_ =? b); [|reflexivity].
    unfold Rdiv. ring.
Qed.

(** The loop of [measureAll] over the qubits [qs]. *)
Lemma measureAll_loop (random : nat -> xreal) (n : Z) :
  0 <= n <= 31 ->
  (forall k, exists r, random k = Fin r /\ (0 <= r < 1)%R) ->
  forall qs : list Z, Forall (fun q => 0 <= q < n) qs ->
  forall (results : list Z) (this : @Obj.QuantumSimulator xreal) (w : World),
    ObjInv n 1 this ->
    exists (outcomes : list Z) (this' : Obj.QuantumSimulator),
      foldM (fun results i =>
               r <- Obj.measure random i ;;
               ret (results ++ [outcome r])%list)
            qs results (this, w)
      = (Ok (results ++ outcomes),
         (this', mkWorld (randomCalls w + length qs) (probabilityPasses w))) /\
      length outcomes = length qs /\
      ObjInv n 1 this' /\
      (forall k q, nth_error qs k = Some q ->
         settled n (Obj.state this') q (nth k outcomes 0)) /\
      (forall q b, settled n (Obj.state this) q b -> settled n (Obj.state this') q b).
Proof.
  intros Hn Hdraws qs Hqs. induction Hqs as [|q qs Hq _ IH]; intros results this w Hinv.
  - exists [], this. cbn [foldM ret Exec_Monad length]. rewrite app_nil_r, Nat.add_0_r.
    destruct w as [calls passes]. cbn [randomCalls probabilityPasses].
    split; [reflexivity|]. split; [reflexivity|]. split; [exact Hinv|].
    split; [|auto]. intros k q' Hk. destruct k; discriminate.
  - destruct (Hdraws (randomCalls w)) as (r & Hr & Hrange).
    destruct (measure_exact random this w q n r Hn Hq Hinv Hr Hrange)
      as (Hrun & _ & _ & _ & Hp & Hinv1 & _).
    destruct Hinv as (Hnq & Hlen & Hfin & Hnorm).
    set (b := if Rlt_dec r (weightOf n q (Obj.state this) 0) then 0 else 1) in *.
    set (p := if b =? 0 then weightOf n q (Obj.state this) 0
              else weightOf n q (Obj.state this) 1) in *.
    set (collapsed := collapse n q (Obj.state this) b (Fin p)) in *.
    set (this1 := Obj.mkSim collapsed n _ _ _) in *.
    set (w1 := mkWorld (S (randomCalls w)) (probabilityPasses w)) in *.
    destruct (collapse_settles n q (Obj.state this) b p ltac:(lia) Hfin Hlen Hp)
      as [Hsettled Hkept].
    fold collapsed in Hsettled, Hkept.
    destruct (IH (results ++ [b]) this1 w1 Hinv1)
      as (outcomes & this' & Hloop & Hlen' & Hinv' & Hset & Hpres).
    exists (b :: outcomes), this'.
    split.
    { set (body := fun (results : list Z) (i : Z) =>
                     r <- Obj.measure random i ;; ret (results ++ [outcome r])%list) in *.
      assert (Hstep : body results q (this, w) = (Ok (results ++ [b])%list, (this1, w1)))
        by (subst body; cbn [bind Exec_Monad]; rewrite Hrun; reflexivity).
      cbn [foldM bind Exec_Monad]. rewrite Hstep, Hloop, <- app_assoc.
      cbn [app length randomCalls probabilityPasses w1].
      do 3 f_equal. lia. }
    split; [cbn [length]; now rewrite Hlen'|]. split; [exact Hinv'|].
    split.
    + intros k q' Hk. destruct k as [|k]; cbn [nth_error nth] in *.
      * injection Hk as <-. apply Hpres. exact Hsettled.
      * now apply Hset.
    + intros q' b' Hs. apply Hpres. cbn [Obj.state this1]. now apply Hkept.
Qed.

(** A sum that is not zero has a term that is not zero. *)
Lemma sumR_nonzero (f : nat -> R) (m : nat) :
  sumR f m <> 0%R -> exists k, (k < m)%nat /\ f k <> 0%R.
Proof.
  induction m as [|m IH]; cbn [sumR]; intros H; [contradiction|].
  destruct (Req_EM_T (f m) 0) as [E|E].
  - rewrite E, Rplus_0_r in H. destruct (IH H) as (k & Hk & Hf).
    exists k. split; [lia|exact Hf].
  - exists m. split; [lia|exact E].
Qed.

(** A basis index is determined by the values of its qubits. *)
Lemma qubitValue_inj (n i j : Z) :
  0 <= n -> 0 <= i < 2 ^ n -> 0 <= j < 2 ^ n ->
  (forall q, 0 <= q < n -> qubitValue n q i = qubitValue n q j) -> i = j.
Proof.
  intros Hn Hi Hj Hbits. apply Z.bits_inj'. intros t Ht.
  destruct (Z.lt_ge_cases t n) as [Hlt|Hge].
  - specialize (Hbits (n - 1 - t) ltac:(lia)). unfold qubitValue in Hbits.
    replace (n - 1 - (n - 1 - t)) with t in Hbits by lia.
    destruct (Z.testbit i t), (Z.testbit j t); cbn in Hbits; congruence.
  - rewrite (testbit_above i n t), (testbit_above j n t) by lia. reflexivity.
Qed.

(** X21: in exact arithmetic, [measureAll()] of the object engine on a
    normalized state, with draws of [Math.random] in [[0, 1)], measures the
    qubits 0, 1, ..., n-1 in turn with one draw each and returns their [n]
    outcomes; these are the bits, most significant first, of one basis
    index, and the engine is left in that basis state up to a phase: the
    amplitude at that index has squared magnitude 1 and every other
    amplitude is [ZERO]. *)
Theorem X21_measureAll_settles :
  forall (random : nat -> xreal) (this : @Obj.QuantumSimulator xreal) (w : World) (n : Z),
    0 <= n <= 31 -> ObjInv n 1 this ->
    (forall k, exists r, random k = Fin r /\ (0 <= r < 1)%R) ->
    exists (outcomes : list Z) (this' : Obj.QuantumSimulator) (index : Z),
      Obj.measureAll random (this, w)
      = (Ok outcomes,
         (this', mkWorld (randomCalls w + Z.to_nat n) (probabilityPasses w))) /\
      Z.of_nat (length outcomes) = n /\
      ObjInv n 1 this' /\
      0 <= index < 2 ^ n /\
      (forall q, 0 <= q < n -> nth (Z.to_nat q) outcomes 0 = qubitValue n q index) /\
      magnitudeSquared (amplitudeOf (Obj.state this') index) = Fin 1 /\
      (forall i, 0 <= i < 2 ^ n -> i <> index ->
         amplitudeOf (Obj.state this') i = ZERO).
Proof.
  intros random this w n Hn Hinv Hdraws.
  assert (Hqs : Forall (fun q => 0 <= q < n) (range (Z.to_nat n))).
  { apply Forall_forall. intros q Hq. apply range_In in Hq. lia. }
  destruct (measureAll_loop random n Hn Hdraws _ Hqs [] this w Hinv)
    as (outcomes & this' & Hloop & Hlen & Hinv' & Hset & _).
  rewrite range_length in Hloop, Hlen. cbn [app] in Hloop.
  assert (Hsettled : forall q, 0 <= q < n ->
            settled n (Obj.state this') q (nth (Z.to_nat q) outcomes 0)).
  { intros q Hq. apply Hset.
    rewrite (nth_error_nth' _ 0) by (rewrite range_length; lia).
    rewrite range_nth by lia. f_equal. lia. }
  destruct Hinv' as (Hnq' & Hlen' & Hfin' & Hnorm').
  set (st := Obj.state this') in *.
  assert (Hpow : 0 < 2 ^ n) by (apply Z.pow_pos_nonneg; lia).
  assert (Hsize : length st = Z.to_nat (2 ^ n)) by lia.
  assert (Hsum : sumR (weight st) (Z.to_nat (2 ^ n)) = 1%R).
  { rewrite <- Hnorm', normC_sumR, Hsize. reflexivity. }
  destruct (sumR_nonzero (weight st) (Z.to_nat (2 ^ n))) as (k & Hk & Hwk);
    [rewrite Hsum; lra|].
  assert (Hbits : forall i, (i < Z.to_nat (2 ^ n))%nat -> weight st i <> 0%R ->
            forall q, 0 <= q < n ->
              nth (Z.to_nat q) outcomes 0 = qubitValue n q (Z.of_nat i)).
  { intros i Hi Hw q Hq.
    destruct (Z.eq_dec (qubitValue n q (Z.of_nat i)) (nth (Z.to_nat q) outcomes 0))
      as [E|E]; [now rewrite E|].
    exfalso. apply Hw. exact (Hsettled q Hq i Hi E). }
  assert (Hothers : forall i, (i < Z.to_nat (2 ^ n))%nat -> i <> k -> weight st i = 0%R).
  { intros i Hi Hne. destruct (Req_EM_T (weight st i) 0) as [E|E]; [exact E|].
    exfalso. apply Hne. apply Nat2Z.inj.
    apply (qubitValue_inj n); try lia.
    intros q Hq. now rewrite <- (Hbits i Hi E q Hq), <- (Hbits k Hk Hwk q Hq). }
  exists outcomes, this', (Z.of_nat k). fold st.
  split.
  { unfold Obj.measureAll. cbn [bind Exec_Monad onObject gets].
    destruct Hinv as (Hnq & _). rewrite Hnq. exact Hloop. }
  split; [lia|].
  split; [repeat split; assumption|].
  split; [lia|]. split; [now apply Hbits|].
  split.
  - unfold amplitudeOf. rewrite Nat2Z.id, (finiteC_nth st k Hfin') by lia.
    assert (Hone : weight st k = 1%R).
    { rewrite <- Hsum.
      rewrite (sumR_ext (weight st)
                 (fun i => if (i =? k)%nat then weight st i else 0%R)).
      - now rewrite (sumR_delta (weight st)).
      - intros i Hi. destruct (Nat.eqb_spec i k) as [->|Hne]; [reflexivity|].
        now apply Hothers. }
    unfold weight in Hone. cbn. f_equal. exact Hone.
  - intros i Hi Hne. unfold amplitudeOf.
    rewrite (finiteC_nth st (Z.to_nat i) Hfin') by lia.
    assert (Hzero : weight st (Z.to_nat i) = 0%R) by (apply Hothers; lia).
    apply sum_squares_zero in Hzero. destruct Hzero as [-> ->]. reflexivity.
Qed.

(** X21 on a fresh two-qubit engine, every draw being 1/2: both outcomes
    are 0. *)
Lemma X21_measureAll_settles_witness :
  exists (outcomes : list Z) (this' : Obj.QuantumSimulator) (index : Z),
    Obj.measureAll (fun _ => Fin (1 / 2)) (@obj_fresh xreal _ 2, World0)
    = (Ok outcomes, (this', mkWorld 2 0)) /\
    Z.of_nat (length outcomes) = 2 /\
    (forall q, 0 <= q < 2 -> nth (Z.to_nat q) outcomes 0 = qubitValue 2 q index).
Proof.
  destruct (X21_measureAll_settles (fun _ => Fin (1 / 2)) (obj_fresh 2) World0 2)
    as (outcomes & this' & index & Hrun & Hlen & _ & _ & Hbits & _).
  - lia.
  - unfold ObjInv. cbn [obj_fresh Obj.numQubits Obj.state].
    split; [reflexivity|]. split; [reflexivity|]. split.
    + repeat constructor; apply finite_Fin.
    + xeval. lra.
  - intros k. exists (1 / 2)%R. split; [reflexivity|lra].
  - exists outcomes, this', index. split; [exact Hrun|]. split; [exact Hlen|exact Hbits].
Defined.

(* ================================================================== *)
(** * gates.ts: the rotations as one-parameter groups *)
(* ================================================================== *)

Lemma matrix2_eq {A : Type} (a b c d a' b' c' d' : A) :
  a = a' -> b = b' -> c = c' -> d = d' -> [[a; b]; [c; d]] = [[a'; b']; [c'; d']].
Proof. now intros -> -> -> ->. Qed.

Lemma finC_parts (re im re' im' : R) :
  re = re' -> im = im' -> mkComplex (Fin re) (Fin im) = mkComplex (Fin re') (Fin im').
Proof. now intros -> ->. Qed.

Lemma half_sum (a b : R) : ((a + b) / 2 = a / 2 + b / 2)%R.
Proof. lra. Qed.

Lemma half_neg (a : R) : (- a / 2 = - (a / 2))%R.
Proof. lra. Qed.

Lemma half_zero : (0 / 2 = 0)%R.
Proof. lra. Qed.

(** Closes an equation between two 2 x 2 matrices of exact numbers whose
    entries are trigonometric polynomials in half angles. *)
Ltac rotation_entries :=
  xeval;
  try (destruct (Req_EM_T 2 0) as [?|_]; [exfalso; lra|]);
  try apply (f_equal Ok);
  apply matrix2_eq; apply finC_parts;
  repeat progress
    rewrite ?Ropp_0, ?half_zero, ?Ropp_plus_distr, ?half_sum, ?half_neg, ?Ropp_involutive,
            ?cos_plus, ?sin_plus, ?cos_neg, ?sin_neg, ?cos_0, ?sin_0;
  ring.

(** [R(0)] is the identity, [R(a) R(b) = R(a + b)] and [R(a)† = R(-a)]. *)
Definition oneParameterGroup (rotation : xreal -> Matrix xreal) : Prop :=
  rotation (Fin 0) = identity 2 /\
  (forall a b : R,
      matrixMultiply (rotation (Fin a)) (rotation (Fin b)) = Ok (rotation (Fin (a + b)))) /\
  (forall a : R, conjugateTranspose (rotation (Fin a)) = Ok (rotation (Fin (- a)))) /\
  (forall a : R,
      matrixMultiply (rotation (Fin (- a))) (rotation (Fin a)) = Ok (identity 2)).

Lemma oneParameterGroup_intro (rotation : xreal -> Matrix xreal) :
  rotation (Fin 0) = identity 2 ->
  (forall a b : R,
      matrixMultiply (rotation (Fin a)) (rotation (Fin b)) = Ok (rotation (Fin (a + b)))) ->
  (forall a : R, conjugateTranspose (rotation (Fin a)) = Ok (rotation (Fin (- a)))) ->
  oneParameterGroup rotation.
Proof.
  intros Hzero Hsum Hdagger. repeat split; try assumption.
  intros a. rewrite Hsum, <- Hzero. do 3 f_equal. lra.
Qed.

(** X22: in exact arithmetic, each of [Rx], [Ry], [Rz] and [Phase] is a
    one-parameter group under [matrixMultiply]: the angle 0 gives
    [identity(2)], the product of the matrices of two angles is the matrix
    of their sum, [conjugateTranspose] gives the matrix of the opposite
    angle, and so the matrix of the opposite angle undoes the rotation. *)
Theorem X22_rotations_compose :
  oneParameterGroup Gates.Rx /\ oneParameterGroup Gates.Ry /\
  oneParameterGroup Gates.Rz /\ oneParameterGroup Gates.Phase.
Proof.
  split; [|split; [|split]]; apply oneParameterGroup_intro; intros; rotation_entries.
Qed.

(** X23: in exact arithmetic, [U3] contains the other one-qubit rotations:
    [U3(theta, 0, 0)] is [Ry(theta)], [U3(theta, -PI/2, PI/2)] is
    [Rx(theta)], and [U3(0, 0, lambda)] is [Phase(lambda)]; in particular
    [U3(0, 0, 0)] is [identity(2)]. *)
Theorem X23_U3_specialises :
  (forall theta : R, Gates.U3 (Fin theta) (Fin 0) (Fin 0) = Gates.Ry (Fin theta)) /\
  (forall theta : R,
      Gates.U3 (Fin theta) (-' Math_PI /' two) (Math_PI /' two) = Gates.Rx (Fin theta)) /\
  (forall lambda : R, Gates.U3 (Fin 0) (Fin 0) (Fin lambda) = Gates.Phase (Fin lambda)) /\
  Gates.U3 (Fin 0) (Fin 0) (Fin 0) = @identity xreal _ 2.
Proof.
  split; [|split; [|split]]; intros;
    xeval; try (destruct (Req_EM_T 2 0) as [?|_]; [exfalso; lra|]);
    apply matrix2_eq; apply finC_parts;
    repeat progress
      rewrite ?half_zero, ?half_neg, ?Rplus_0_l, ?Rplus_opp_l, ?cos_neg, ?sin_neg,
              ?cos_PI2, ?sin_PI2, ?cos_0, ?sin_0;
    ring.
Qed.

(* ================================================================== *)
(** * matrix.ts: products of matrices with orthonormal columns *)
(* ================================================================== *)

Lemma sumR_minus (f g : nat -> R) (m : nat) :
  sumR (fun k => f k - g k)%R m = (sumR f m - sumR g m)%R.
Proof. induction m as [|m IH]; simpl; [lra|rewrite IH; lra]. Qed.

(** A matrix with orthonormal columns preserves the inner product of two
    vectors, part by part. *)
Lemma inner_product_kept (m : nat) (gre gim : nat -> nat -> R) (ure uim vre vim : nat -> R) :
  UnitaryR m gre gim ->
  sumR (fun r => prodRe m gre gim ure uim r * prodRe m gre gim vre vim r
                 + prodIm m gre gim ure uim r * prodIm m gre gim vre vim r)%R m
  = sumR (fun c => ure c * vre c + uim c * vim c)%R m /\
  sumR (fun r => prodRe m gre gim ure uim r * prodIm m gre gim vre vim r
                 - prodIm m gre gim ure uim r * prodRe m gre gim vre vim r)%R m
  = sumR (fun c => ure c * vim c - uim c * vre c)%R m.
Proof.
  intros [Hre Him]. split.
  - rewrite (sumR_ext _
      (fun r => sumR (fun c => sumR (fun c' =>
         (gre r c * gre r c' + gim r c * gim r c') * (ure c * vre c' + uim c * vim c')
         + (gre r c * gim r c' - gim r c * gre r c') * (uim c * vre c' - ure c * vim c'))%R
         m) m)).
    2:{ intros r _. unfold prodRe, prodIm. rewrite !sumR_mul, <- sumR_plus.
        apply sumR_ext. intros c _. rewrite <- sumR_plus.
        apply sumR_ext. intros c' _. ring. }
    rewrite sumR_swap.
    rewrite (sumR_ext _
      (fun c => sumR (fun c' => if (c' =? c)%nat
                                then ure c * vre c' + uim c * vim c' else 0)%R m)).
    2:{ intros c Hc. rewrite sumR_swap. apply sumR_ext. intros c' Hc'.
        rewrite sumR_plus.
        rewrite (sumR_ext _ (fun r => (ure c * vre c' + uim c * vim c')
                                      * (gre r c * gre r c' + gim r c * gim r c'))%R)
          by (intros; ring).
        rewrite (sumR_ext (fun r => _ * (uim c * vre c' - ure c * vim c'))%R
                          (fun r => (uim c * vre c' - ure c * vim c')
                                    * (gre r c * gim r c' - gim r c * gre r c'))%R)
          by (intros; ring).
        rewrite !sumR_scal, Hre, Him by assumption.
        rewrite Nat.eqb_sym. destruct (c' =? c)%nat; ring. }
    apply sumR_ext. intros c Hc.
    now rewrite (sumR_delta (fun c' => ure c * vre c' + uim c * vim c')%R).
  - rewrite (sumR_ext _
      (fun r => sumR (fun c => sumR (fun c' =>
         (gre r c * gre r c' + gim r c * gim r c') * (ure c * vim c' - uim c * vre c')
         + (gre r c * gim r c' - gim r c * gre r c') * (ure c * vre c' + uim c * vim c'))%R
         m) m)).
    2:{ intros r _. unfold prodRe, prodIm. rewrite !sumR_mul, <- sumR_minus.
        apply sumR_ext. intros c _. rewrite <- sumR_minus.
        apply sumR_ext. intros c' _. ring. }
    rewrite sumR_swap.
    rewrite (sumR_ext _
      (fun c => sumR (fun c' => if (c' =? c)%nat
                                then ure c * vim c' - uim c * vre c' else 0)%R m)).
    2:{ intros c Hc. rewrite sumR_swap. apply sumR_ext. intros c' Hc'.
        rewrite sumR_plus.
        rewrite (sumR_ext _ (fun r => (ure c * vim c' - uim c * vre c')
                                      * (gre r c * gre r c' + gim r c * gim r c'))%R)
          by (intros; ring).
        rewrite (sumR_ext (fun r => _ * (ure c * vre c' + uim c * vim c'))%R
                          (fun r => (ure c * vre c' + uim c * vim c')
                                    * (gre r c * gim r c' - gim r c * gre r c'))%R)
          by (intros; ring).
        rewrite !sumR_scal, Hre, Him by assumption.
        rewrite Nat.eqb_sym. destruct (c' =? c)%nat; ring. }
    apply sumR_ext. intros c Hc.
    now rewrite (sumR_delta (fun c' => ure c * vim c' - uim c * vre c')%R).
Qed.

(** The product of a finite matrix with a finite vector. *)
Lemma matrixVectorMultiply_finite (m : nat) (M : Matrix xreal) (v : list (Complex xreal)) :
  FiniteMatrix m M -> Forall finiteC v -> length v = m ->
  matrixVectorMultiply M v
  = Ok (map (fun i => finC (prodRe m (mre M) (mim M) (reAt v) (imAt v) (Z.to_nat i))
                           (prodIm m (mre M) (mim M) (reAt v) (imAt v) (Z.to_nat i)))
            (range m)).
Proof.
  intros HM Hv Hlen. unfold matrixVectorMultiply. rewrite (proj1 HM), Hlen.
  apply mapM_ok. intros i Hi. apply range_In in Hi.
  rewrite (rowTimesVector m M v i m HM Hv Hlen) by lia.
  reflexivity.
Qed.

(** [(A B) v = A (B v)], component by component. *)
Lemma product_assoc (m : nat) (are aim bre bim : nat -> nat -> R) (vre vim : nat -> R)
      (i : nat) :
  let pre := fun r c => prodRe m are aim (fun k => bre k c) (fun k => bim k c) r in
  let pim := fun r c => prodIm m are aim (fun k => bre k c) (fun k => bim k c) r in
  prodRe m pre pim vre vim i
  = prodRe m are aim (prodRe m bre bim vre vim) (prodIm m bre bim vre vim) i /\
  prodIm m pre pim vre vim i
  = prodIm m are aim (prodRe m bre bim vre vim) (prodIm m bre bim vre vim) i.
Proof.
  cbv zeta. unfold prodRe, prodIm. split.
  - transitivity
      (sumR (fun c => sumR (fun k =>
         (are i k * bre k c - aim i k * bim k c) * vre c
         - (are i k * bim k c + aim i k * bre k c) * vim c)%R m) m).
    + apply sumR_ext. intros c _.
      rewrite (Rmult_comm (sumR _ _) (vre c)), (Rmult_comm (sumR _ _) (vim c)).
      rewrite <- !sumR_scal, <- sumR_minus. apply sumR_ext. intros k _. ring.
    + rewrite sumR_swap. apply sumR_ext. intros k _.
      rewrite <- !sumR_scal, <- sumR_minus. apply sumR_ext. intros c _. ring.
  - transitivity
      (sumR (fun c => sumR (fun k =>
         (are i k * bre k c - aim i k * bim k c) * vim c
         + (are i k * bim k c + aim i k * bre k c) * vre c)%R m) m).
    + apply sumR_ext. intros c _.
      rewrite (Rmult_comm (sumR _ _) (vre c)), (Rmult_comm (sumR _ _) (vim c)).
      rewrite <- !sumR_scal, <- sumR_plus. apply sumR_ext. intros k _. ring.
    + rewrite sumR_swap. apply sumR_ext. intros k _.
      rewrite <- !sumR_scal, <- sumR_plus. apply sumR_ext. intros c _. ring.
Qed.

Lemma prod_ext (m : nat) (gre gim gre' gim' : nat -> nat -> R) (vre vim vre' vim' : nat -> R)
      (r : nat) :
  (forall c, (c < m)%nat -> gre r c = gre' r c /\ gim r c = gim' r c) ->
  (forall c, (c < m)%nat -> vre c = vre' c /\ vim c = vim' c) ->
  prodRe m gre gim vre vim r = prodRe m gre' gim' vre' vim' r /\
  prodIm m gre gim vre vim r = prodIm m gre' gim' vre' vim' r.
Proof.
  intros Hg Hv. unfold prodRe, prodIm.
  split; apply sumR_ext; intros c Hc;
    destruct (Hg c Hc) as [-> ->]; destruct (Hv c Hc) as [-> ->]; reflexivity.
Qed.

(** The product of two matrices with orthonormal columns has orthonormal
    columns. *)
Lemma matrixMultiply_unitary (m : nat) (A B : Matrix xreal) :
  (0 < m)%nat -> Unitary m A -> Unitary m B ->
  exists P, matrixMultiply A B = Ok P /\ Unitary m P.
Proof.
  intros Hm [HA UA] [HB [HreB HimB]].
  eexists. split; [apply (matrixMultiply_finite m A B HA HB Hm)|].
  match goal with
  | |- Unitary m (tableOf m ?fre ?fim) =>
      destruct (tableOf_finite m fre fim) as [Hfin Hent]
  end.
  split; [exact Hfin|].
  apply (UnitaryR_ext m
           (fun r c => prodRe m (mre A) (mim A) (fun k => mre B k c) (fun k => mim B k c) r)
           (fun r c => prodIm m (mre A) (mim A) (fun k => mre B k c) (fun k => mim B k c) r)).
  - intros r c Hr Hc. exact (Hent r c Hr Hc).
  - constructor; intros c c' Hc Hc'.
    + destruct (inner_product_kept m (mre A) (mim A)
                  (fun k => mre B k c) (fun k => mim B k c)
                  (fun k => mre B k c') (fun k => mim B k c') UA) as [Hre _].
      rewrite Hre. now apply HreB.
    + destruct (inner_product_kept m (mre A) (mim A)
                  (fun k => mre B k c) (fun k => mim B k c)
                  (fun k => mre B k c') (fun k => mim B k c') UA) as [_ Him].
      rewrite Him. now apply HimB.
Qed.

(** X24: in exact arithmetic, [matrixMultiply] composes the maps of
    [matrixVectorMultiply]: on [m x m] matrices and [m] amplitudes without
    NaN, multiplying the vector by the product [A B] gives the result of
    multiplying it by [B] and then by [A].  When the columns of both
    matrices are orthonormal, so are those of the product, which
    [isUnitary] accepts with any tolerance [epsilon >= 0]. *)
Theorem X24_matrixMultiply_composes :
  (forall (m : nat) (A B : Matrix xreal) (v : list (Complex xreal)),
      (0 < m)%nat -> FiniteMatrix m A -> FiniteMatrix m B ->
      Forall finiteC v -> length v = m ->
      exists (P : Matrix xreal) (u w : list (Complex xreal)),
        matrixMultiply A B = Ok P /\ FiniteMatrix m P /\
        matrixVectorMultiply B v = Ok u /\
        matrixVectorMultiply A u = Ok w /\
        matrixVectorMultiply P v = Ok w) /\
  (forall (m : nat) (A B : Matrix xreal) (epsilon : R),
      (0 < m)%nat -> Unitary m A -> Unitary m B -> (0 <= epsilon)%R ->
      exists P : Matrix xreal,
        matrixMultiply A B = Ok P /\ Unitary m P /\
        isUnitary P (Fin epsilon) = Ok true).
Proof.
  split.
  - intros m A B v Hm HA HB Hv Hlen.
    pose proof (matrixMultiply_finite m A B HA HB Hm) as HP.
    match type of HP with
    | _ = Ok (tableOf m ?fre ?fim) =>
        destruct (tableOf_finite m fre fim) as [Hfin Hent];
        set (P := tableOf m fre fim) in *
    end.
    pose proof (matrixVectorMultiply_finite m B v HB Hv Hlen) as Hu.
    match type of Hu with _ = Ok ?l => set (u := l) in * end.
    assert (Hufin : Forall finiteC u).
    { apply Forall_forall. intros e He. apply in_map_iff in He as (i & <- & _).
      apply finiteC_finC. }
    assert (Hulen : length u = m) by (subst u; now rewrite length_map, range_length).
    assert (Huparts : forall c, (c < m)%nat ->
              reAt u c = prodRe m (mre B) (mim B) (reAt v) (imAt v) c /\
              imAt u c = prodIm m (mre B) (mim B) (reAt v) (imAt v) c).
    { intros c Hc. unfold reAt, imAt. subst u. rewrite (nth_map_range _ m c) by exact Hc.
      cbn [finC real imag toR]. now rewrite Nat2Z.id. }
    exists P, u. eexists.
    split; [exact HP|]. split; [exact Hfin|]. split; [exact Hu|].
    split; [apply (matrixVectorMultiply_finite m A u HA Hufin Hulen)|].
    rewrite (matrixVectorMultiply_finite m P v Hfin Hv Hlen). f_equal.
    apply map_ext_in. intros i Hi. apply range_In in Hi.
    destruct (product_assoc m (mre A) (mim A) (mre B) (mim B) (reAt v) (imAt v) (Z.to_nat i))
      as [Hre Him].
    destruct (prod_ext m (mre P) (mim P)
                (fun r c => prodRe m (mre A) (mim A) (fun k => mre B k c) (fun k => mim B k c) r)
                (fun r c => prodIm m (mre A) (mim A) (fun k => mre B k c) (fun k => mim B k c) r)
                (reAt v) (imAt v) (reAt v) (imAt v) (Z.to_nat i)) as [-> ->].
    { intros c Hc. apply Hent; lia. }
    { intros c _. split; reflexivity. }
    destruct (prod_ext m (mre A) (mim A) (mre A) (mim A) (reAt u) (imAt u)
                (prodRe m (mre B) (mim B) (reAt v) (imAt v))
                (prodIm m (mre B) (mim B) (reAt v) (imAt v)) (Z.to_nat i)) as [-> ->].
    { intros c _. split; reflexivity. }
    { exact Huparts. }
    now rewrite Hre, Him.
  - intros m A B epsilon Hm HA HB Heps.
    destruct (matrixMultiply_unitary m A B Hm HA HB) as (P & HP & HU).
    exists P. split; [exact HP|]. split; [exact HU|].
    apply (isUnitary_of_Unitary m P epsilon HU Hm Heps).
Qed.

(** X24 for the Hadamard and the Pauli X matrix. *)
Lemma X24_matrixMultiply_composes_witness :
  exists P : Matrix xreal,
    matrixMultiply (@Gates.H xreal _) (@Gates.X xreal _) = Ok P /\ Unitary 2 P /\
    isUnitary P (Fin 0) = Ok true.
Proof.
  apply (proj2 X24_matrixMultiply_composes 2%nat Gates.H Gates.X 0%R);
    [lia|apply Unitary_H|apply Unitary_X|lra].
Defined.

(* ================================================================== *)
(** * matrix.ts: the trace *)
(* ================================================================== *)

Lemma trace_loop (m : nat) (G : Matrix xreal) (k : nat) :
  FiniteMatrix m G -> (k <= m)%nat ->
  foldM (fun sum i => x <- mget G i i ;; Ok (add sum x)) (range k) ZERO
  = Ok (finC (sumR (fun i => mre G i i) k) (sumR (fun i => mim G i i) k)).
Proof.
  intros HG Hk. induction k as [|k IH].
  - reflexivity.
  - rewrite range_S, foldM_app, IH by lia.
    cbn [bind result_Monad foldM].
    rewrite (mget_finite m G _ _ HG) by lia.
    cbn [bind result_Monad]. rewrite !Nat2Z.id. reflexivity.
Qed.

(** The trace of a finite matrix: the sum of the diagonal, part by part. *)
Lemma trace_finite (m : nat) (G : Matrix xreal) :
  FiniteMatrix m G -> (0 < m)%nat ->
  trace G = Ok (finC (sumR (fun i => mre G i i) m) (sumR (fun i => mim G i i) m)).
Proof.
  intros HG Hm. unfold trace. rewrite (row0Length_finite m G HG Hm).
  cbn [bind result_Monad]. rewrite (proj1 HG), Nat.min_id.
  apply (trace_loop m G m HG). lia.
Qed.

Lemma trace_tableOf (m : nat) (fre fim : nat -> nat -> R) :
  (0 < m)%nat ->
  trace (tableOf m fre fim)
  = Ok (finC (sumR (fun i => fre i i) m) (sumR (fun i => fim i i) m)).
Proof.
  intros Hm. destruct (tableOf_finite m fre fim) as [Hfin Hent].
  rewrite (trace_finite m _ Hfin Hm). f_equal.
  unfold finC. f_equal; f_equal; apply sumR_ext; intros i Hi;
    destruct (Hent i i Hi Hi) as [Ere Eim]; assumption.
Qed.

(** [tensorProduct] of finite square matrices, as the table of the
    Kronecker product. *)
Lemma tensorProduct_finite (p q : nat) (A B : Matrix xreal) :
  (0 < p)%nat -> (0 < q)%nat -> FiniteMatrix p A -> FiniteMatrix q B ->
  tensorProduct A B
  = Ok (tableOf (p * q) (kronRe q (mre A) (mim A) (mre B) (mim B))
                        (kronIm q (mre A) (mim A) (mre B) (mim B))).
Proof.
  intros Hp Hq HA HB. unfold tensorProduct, tableOf.
  rewrite (row0Length_finite p A HA Hp), (row0Length_finite q B HB Hq).
  cbn [bind result_Monad]. rewrite (proj1 HA), (proj1 HB).
  apply mapM_ok. intros r Hr. apply mapM_ok. intros c Hc.
  apply range_In in Hr, Hc.
  assert (Hrq : 0 <= r / Z.of_nat q < Z.of_nat p)
    by (split; [apply Z.div_pos; lia|apply Z.div_lt_upper_bound; nia]).
  assert (Hcq : 0 <= c / Z.of_nat q < Z.of_nat p)
    by (split; [apply Z.div_pos; lia|apply Z.div_lt_upper_bound; nia]).
  pose proof (Z.mod_pos_bound r (Z.of_nat q) ltac:(lia)) as Hrm.
  pose proof (Z.mod_pos_bound c (Z.of_nat q) ltac:(lia)) as Hcm.
  rewrite (mget_finite p A _ _ HA Hrq Hcq), (mget_finite q B _ _ HB Hrm Hcm).
  cbn [bind result_Monad]. f_equal.
  change (mkComplex (Fin ?a) (Fin ?b)) with (finC a b).
  unfold kronRe, kronIm.
  rewrite !Z2Nat.inj_div, !Z2Nat.inj_mod, !Nat2Z.id by lia.
  apply multiply_finC.
Qed.

Lemma sumR_opp (f : nat -> R) (m : nat) :
  sumR (fun k => - f k)%R m = (- sumR f m)%R.
Proof. induction m as [|m IH]; simpl; [lra|rewrite IH; lra]. Qed.

Lemma sumR_const (c : R) (m : nat) : sumR (fun _ => c) m = (INR m * c)%R.
Proof.
  induction m as [|m IH]; [cbn; lra|].
  cbn [sumR]. rewrite IH, S_INR. lra.
Qed.

(** X25: in exact arithmetic, on square matrices without NaN, [trace] is
    the sum of the diagonal; the trace of [identity(m)] is [m]; the trace of
    a product does not depend on the order of the factors; the trace of
    [tensorProduct(A, B)] is the product of the traces; and the trace of
    [conjugateTranspose(A)] is the conjugate of the trace. *)
Theorem X25_trace_laws :
  (forall m : nat, (0 < m)%nat ->
      trace (@identity xreal _ m) = Ok (complex (ofZ (Z.of_nat m)) zero)) /\
  (forall (m : nat) (A B : Matrix xreal),
      (0 < m)%nat -> FiniteMatrix m A -> FiniteMatrix m B ->
      exists (AB BA : Matrix xreal) (t : Complex xreal),
        matrixMultiply A B = Ok AB /\ matrixMultiply B A = Ok BA /\
        trace AB = Ok t /\ trace BA = Ok t) /\
  (forall (p q : nat) (A B : Matrix xreal),
      (0 < p)%nat -> (0 < q)%nat -> FiniteMatrix p A -> FiniteMatrix q B ->
      exists (T : Matrix xreal) (tA tB : Complex xreal),
        tensorProduct A B = Ok T /\ trace A = Ok tA /\ trace B = Ok tB /\
        trace T = Ok (multiply tA tB)) /\
  (forall (m : nat) (A : Matrix xreal),
      (0 < m)%nat -> FiniteMatrix m A ->
      exists (D : Matrix xreal) (tA : Complex xreal),
        conjugateTranspose A = Ok D /\ trace A = Ok tA /\
        trace D = Ok (conjugate tA)).
Proof.
  split; [|split; [|split]].
  - intros m Hm. rewrite identity_table.
    assert (E : @deltaTable xreal _ m
                = tableOf m (fun r c => if (r =? c)%nat then 1%R else 0%R) (fun _ _ => 0%R)).
    { unfold deltaTable, tableOf. apply map_ext_in. intros i Hi.
      apply map_ext_in. intros j Hj. apply range_In in Hi, Hj.
      destruct (Z.eqb_spec i j) as [->|Hne].
      - now rewrite Nat.eqb_refl.
      - destruct (Nat.eqb_spec (Z.to_nat i) (Z.to_nat j)); [lia|reflexivity]. }
    rewrite E, (trace_tableOf m _ _ Hm). f_equal.
    rewrite (sumR_ext _ (fun _ => 1%R))
      by (intros i _; now rewrite Nat.eqb_refl).
    rewrite !sumR_const, INR_IZR_INZ. cbn. unfold finC, complex. f_equal; f_equal; lra.
  - intros m A B Hm HA HB.
    do 3 eexists.
    split; [apply (matrixMultiply_finite m A B HA HB Hm)|].
    split; [apply (matrixMultiply_finite m B A HB HA Hm)|].
    split; [apply (trace_tableOf m _ _ Hm)|].
    rewrite (trace_tableOf m _ _ Hm). f_equal. unfold finC.
    f_equal; f_equal; rewrite sumR_swap; apply sumR_ext; intros i _;
      apply sumR_ext; intros c _; ring.
  - intros p q A B Hp Hq HA HB.
    do 3 eexists.
    split; [apply (tensorProduct_finite p q A B Hp Hq HA HB)|].
    split; [apply (trace_finite p A HA Hp)|].
    split; [apply (trace_finite q B HB Hq)|].
    rewrite (trace_tableOf (p * q) _ _ ltac:(nia)), multiply_finC. f_equal.
    unfold finC. f_equal; f_equal; rewrite sumR_prod.
    + rewrite !sumR_mul, <- sumR_minus. apply sumR_ext. intros a _.
      rewrite <- sumR_minus. apply sumR_ext. intros b Hb.
      unfold kronRe. now destruct (divmod_index a b q Hb) as [-> ->].
    + rewrite !sumR_mul, <- sumR_plus. apply sumR_ext. intros a _.
      rewrite <- sumR_plus. apply sumR_ext. intros b Hb.
      unfold kronIm. now destruct (divmod_index a b q Hb) as [-> ->].
  - intros m A Hm HA.
    do 2 eexists.
    split; [apply (conjugateTranspose_finite m A HA Hm)|].
    split; [apply (trace_finite m A HA Hm)|].
    rewrite (trace_tableOf m _ _ Hm). f_equal.
    unfold finC, conjugate. cbn [real imag fneg xreal_Num XReal.lift1].
    f_equal; f_equal; first [reflexivity|apply sumR_opp|symmetry; apply sumR_opp].
Qed.

(** X25 for the Hadamard and the Pauli X matrix. *)
Lemma X25_trace_laws_witness :
  exists (AB BA : Matrix xreal) (t : Complex xreal),
    matrixMultiply (@Gates.H xreal _) (@Gates.X xreal _) = Ok AB /\
    matrixMultiply (@Gates.X xreal _) (@Gates.H xreal _) = Ok BA /\
    trace AB = Ok t /\ trace BA = Ok t.
Proof.
  apply (proj1 (proj2 X25_trace_laws) 2%nat Gates.H Gates.X);
    [lia|apply Unitary_H|apply Unitary_X].
Defined.

(* ================================================================== *)
(** * The flat engine: what a single-qubit gate computes *)
(* ================================================================== *)

(** Index [i] with qubit [q] cleared, and with qubit [q] set. *)
Definition clearQubit (n q i : Z) : Z := Z.ldiff i (2 ^ (n - 1 - q)).
Definition setQubit (n q i : Z) : Z := Z.lor i (2 ^ (n - 1 - q)).

(** An index is the lower or the upper one of its pair. *)
Lemma qubit_pair (n q i : Z) :
  0 <= q < n -> 0 <= i < 2 ^ n ->
  (qubitValue n q i = 0 /\ clearQubit n q i = i /\
   setQubit n q i = i + 2 ^ (n - 1 - q) /\ i + 2 ^ (n - 1 - q) < 2 ^ n /\
   qubitValue n q (i + 2 ^ (n - 1 - q)) = 1) \/
  (qubitValue n q i = 1 /\ clearQubit n q i = i - 2 ^ (n - 1 - q) /\
   setQubit n q i = i /\ 0 <= i - 2 ^ (n - 1 - q) /\
   qubitValue n q (i - 2 ^ (n - 1 - q)) = 0).
Proof.
  intros Hq Hi. unfold clearQubit, setQubit, qubitValue.
  set (s := n - 1 - q). assert (Hs : 0 <= s) by lia.
  assert (Hm : 0 < 2 ^ s) by (apply Z.pow_pos_nonneg; lia).
  destruct (Z.testbit i s) eqn:Hbit; [right|left]; cbn [Z.b2z].
  - set (j := Z.ldiff i (2 ^ s)).
    assert (Hjbit : Z.testbit j s = false).
    { subst j. rewrite Z.ldiff_spec, Z.pow2_bits_true by lia. apply andb_false_r. }
    assert (Hland : Z.land j (2 ^ s) = 0).
    { apply Z.bits_inj'. intros t Ht.
      rewrite Z.land_spec, Z.bits_0, Z.pow2_bits_eqb by lia.
      destruct (Z.eqb_spec s t) as [<-|]; [now rewrite Hjbit|apply andb_false_r]. }
    assert (Hlor : Z.lor j (2 ^ s) = i).
    { apply Z.bits_inj'. intros t Ht. subst j.
      rewrite Z.lor_spec, Z.ldiff_spec, Z.pow2_bits_eqb by lia.
      destruct (Z.eqb_spec s t) as [<-|]; [now rewrite Hbit|].
      cbn [negb]. now rewrite andb_true_r, orb_false_r. }
    assert (Hsum : j + 2 ^ s = i).
    { rewrite Z.add_nocarry_lxor by exact Hland. now rewrite Z.lxor_lor by exact Hland. }
    assert (Hj : i - 2 ^ s = j) by lia.
    split; [reflexivity|]. split; [lia|]. split.
    { apply Z.bits_inj'. intros t Ht.
      rewrite Z.lor_spec, Z.pow2_bits_eqb by lia.
      destruct (Z.eqb_spec s t) as [<-|]; [now rewrite Hbit|apply orb_false_r]. }
    split; [rewrite Hj; subst j; apply Z.ldiff_nonneg; lia|].
    now rewrite Hj, Hjbit.
  - assert (Hval : qubitValue n q i = 0) by (unfold qubitValue; fold s; now rewrite Hbit).
    destruct (flipQubit_clear n q i Hq Hi Hval) as [Hflip Hrange].
    unfold flipQubit in Hflip, Hrange. fold s in Hflip, Hrange.
    assert (Hland : Z.land i (2 ^ s) = 0).
    { apply Z.eqb_eq. rewrite land_pow2_zero by lia. now rewrite Hbit. }
    rewrite Z.lxor_lor in Hflip, Hrange by exact Hland.
    split; [reflexivity|]. split.
    { apply Z.bits_inj'. intros t Ht.
      rewrite Z.ldiff_spec, Z.pow2_bits_eqb by lia.
      destruct (Z.eqb_spec s t) as [<-|]; [now rewrite Hbit|apply andb_true_r]. }
    split; [exact Hflip|]. split; [lia|].
    rewrite <- Hflip, testbit_lor_pow2 by lia. now rewrite Z.eqb_refl, orb_true_r.
Qed.

Section FlatSingleQubit.
Context {F : Type} {N : Num F}.

Lemma f64_get_set (st : list F) (p p' : Z) (v : F) :
  0 <= p < Z.of_nat (length st) ->
  f64_get (f64_set st p v) p' = if p' =? p then v else f64_get st p'.
Proof.
  intros Hp. unfold f64_get, f64_set.
  destruct (Z.eqb_spec p' p) as [->|Hne].
  - now rewrite arr_get_set_eq.
  - now rewrite arr_get_set_neq by congruence.
Qed.

Variables g00 g01 g10 g11 : Complex F.
Variables n q : Z.
Hypothesis Hn : 0 <= n <= 31.
Hypothesis Hq : 0 <= q < n.
Variable st : list F.
Hypothesis Hlen : Z.of_nat (length st) = 2 * 2 ^ n.

(** The amplitude of index [i] after the gate: row [bit q of i] of the
    matrix times the pair of old amplitudes. *)
Definition gateOnPair (i : Z) : Complex F :=
  let v0 := amplitudeAt st (clearQubit n q i) in
  let v1 := amplitudeAt st (setQubit n q i) in
  if qubitValue n q i =? 0
  then add (multiply g00 v0) (multiply g01 v1)
  else add (multiply g10 v0) (multiply g11 v1).

(** After the first [k] iterations, the pairs whose lower index is below
    [k] hold their new amplitudes and the others their old ones. *)
Lemma singleQubitLoop_exact (k : nat) :
  Z.of_nat k <= 2 ^ n ->
  let cur := fold_left (Flat.singleQubitStep g00 g01 g10 g11 (Int32.shl 1 (n - 1 - q)))
                       (range k) st in
  length cur = length st /\
  forall t, 0 <= t < 2 ^ n ->
    amplitudeAt cur t
    = if clearQubit n q t <? Z.of_nat k then gateOnPair t else amplitudeAt st t.
Proof.
  cbv zeta. induction k as [|k IH]; intros Hk.
  - cbn [range seq map fold_left]. split; [reflexivity|]. intros t Ht.
    assert (Hlow : 0 <= clearQubit n q t)
      by (destruct (qubit_pair n q t Hq Ht) as [(_ & -> & _)|(_ & -> & _ & Hlow & _)]; lia).
    destruct (Z.ltb_spec (clearQubit n q t) (Z.of_nat 0)); [lia|reflexivity].
  - destruct IH as [IHlen IH]; [lia|].
    rewrite range_S, fold_left_app. cbn [fold_left].
    set (cur := fold_left _ (range k) st) in *.
    assert (Hkz : 0 <= Z.of_nat k < 2 ^ n) by lia.
    unfold Flat.singleQubitStep. rewrite mask_test by assumption.
    destruct (qubit_pair n q (Z.of_nat k) Hq Hkz)
      as [(Hbit & Hclr & Hset & Hhigh & Hbit')|(Hbit & Hclr & Hset & Hlow & Hbit')];
      rewrite Hbit; cbn [Z.eqb Pos.eqb].
    + rewrite paired_index by assumption.
      destruct (flipQubit_clear n q (Z.of_nat k) Hq Hkz Hbit) as [-> _].
      set (m := 2 ^ (n - 1 - q)) in *.
      assert (Hm : 0 < m) by (apply Z.pow_pos_nonneg; lia).
      set (j := Z.of_nat k + m) in *.
      assert (Hj : 0 <= j < 2 ^ n) by lia.
      destruct (qubit_pair n q j Hq Hj)
        as [(Hjbit & _)|(_ & Hjclr & Hjset & _)]; [congruence|].
      fold m in Hjclr.
      pose proof (IH (Z.of_nat k) Hkz) as Hk0. rewrite Hclr, Z.ltb_irrefl in Hk0.
      pose proof (IH j Hj) as Hk1.
      replace (clearQubit n q j) with (Z.of_nat k) in Hk1 by lia.
      rewrite Z.ltb_irrefl in Hk1.
      assert (Hre0 : f64_get cur (2 * Z.of_nat k) = f64_get st (2 * Z.of_nat k))
        by exact (f_equal real Hk0).
      assert (Him0 : f64_get cur (2 * Z.of_nat k + 1) = f64_get st (2 * Z.of_nat k + 1))
        by exact (f_equal imag Hk0).
      assert (Hre1 : f64_get cur (2 * j) = f64_get st (2 * j)) by exact (f_equal real Hk1).
      assert (Him1 : f64_get cur (2 * j + 1) = f64_get st (2 * j + 1))
        by exact (f_equal imag Hk1).
      cbv zeta. rewrite Hre0, Him0, Hre1, Him1.
      split; [unfold f64_set; rewrite !arr_set_length; exact IHlen|].
      intros t Ht. unfold amplitudeAt at 1.
      rewrite !f64_get_set by (unfold f64_set; rewrite ?arr_set_length; lia).
      pose proof (IH t Ht) as Ht0.
      destruct (Z.eq_dec t j) as [->|Hnj].
      * destruct (Z.eqb_spec (2 * j) (2 * j + 1)); [lia|].
        rewrite !Z.eqb_refl.
        destruct (Z.eqb_spec (2 * j + 1) (2 * j)); [lia|].
        unfold gateOnPair. replace (clearQubit n q j) with (Z.of_nat k) by lia.
        rewrite Hjset.
        destruct (Z.ltb_spec (Z.of_nat k) (Z.of_nat (S k))); [|lia].
        destruct (qubitValue n q j =? 0) eqn:E; [apply Z.eqb_eq in E; lia|].
        reflexivity.
      * destruct (Z.eqb_spec (2 * t) (2 * j + 1)); [lia|].
        destruct (Z.eqb_spec (2 * t) (2 * j)); [lia|].
        destruct (Z.eqb_spec (2 * t + 1) (2 * j + 1)); [lia|].
        destruct (Z.eqb_spec (2 * t + 1) (2 * j)); [lia|].
        destruct (Z.eq_dec t (Z.of_nat k)) as [->|Hnk].
        -- destruct (Z.eqb_spec (2 * Z.of_nat k) (2 * Z.of_nat k + 1)); [lia|].
           rewrite !Z.eqb_refl.
           destruct (Z.eqb_spec (2 * Z.of_nat k + 1) (2 * Z.of_nat k)); [lia|].
           unfold gateOnPair. rewrite Hclr, Hset, Hbit. cbn [Z.eqb].
           destruct (Z.ltb_spec (Z.of_nat k) (Z.of_nat (S k))); [|lia].
           reflexivity.
        -- destruct (Z.eqb_spec (2 * t) (2 * Z.of_nat k + 1)); [lia|].
           destruct (Z.eqb_spec (2 * t) (2 * Z.of_nat k)); [lia|].
           destruct (Z.eqb_spec (2 * t + 1) (2 * Z.of_nat k + 1)); [lia|].
           destruct (Z.eqb_spec (2 * t + 1) (2 * Z.of_nat k)); [lia|].
           fold (amplitudeAt cur t). rewrite Ht0.
           assert (Hne : clearQubit n q t <> Z.of_nat k).
           { destruct (qubit_pair n q t Hq Ht) as [(_ & -> & _)|(_ & -> & _)]; lia. }
           destruct (Z.ltb_spec (clearQubit n q t) (Z.of_nat k)),
                    (Z.ltb_spec (clearQubit n q t) (Z.of_nat (S k)));
             try reflexivity; lia.
    + split; [exact IHlen|]. intros t Ht. rewrite (IH t Ht).
      assert (Hne : clearQubit n q t <> Z.of_nat k).
      { destruct (qubit_pair n q t Hq Ht) as [(Ht0 & -> & _)|(_ & -> & _ & _ & Ht0)];
          intros E; rewrite E in Ht0; congruence. }
      destruct (Z.ltb_spec (clearQubit n q t) (Z.of_nat k)),
               (Z.ltb_spec (clearQubit n q t) (Z.of_nat (S k)));
        try reflexivity; lia.
Qed.
End FlatSingleQubit.

(** Two buffers of [2 N] numbers with the same [N] amplitudes are equal. *)
Lemma buffer_ext {F : Type} {N : Num F} (a b : list F) (size : nat) :
  length a = (2 * size)%nat -> length b = (2 * size)%nat ->
  (forall i, 0 <= i < Z.of_nat size -> amplitudeAt a i = amplitudeAt b i) ->
  a = b.
Proof.
  intros Ha Hb Hamp. apply (nth_ext a b NaN NaN); [congruence|].
  intros p Hp.
  assert (Hget : forall l : list F, length l = (2 * size)%nat ->
            nth p l NaN = f64_get l (Z.of_nat p)).
  { intros l Hl. unfold f64_get.
    rewrite (arr_get_nth l (Z.of_nat p) NaN) by lia. now rewrite Nat2Z.id. }
  rewrite (Hget a Ha), (Hget b Hb).
  specialize (Hamp (Z.of_nat (p / 2)%nat)).
  assert (Hi : 0 <= Z.of_nat (p / 2) < Z.of_nat size).
  { split; [lia|]. apply Nat2Z.inj_lt. apply Nat.Div0.div_lt_upper_bound. lia. }
  specialize (Hamp Hi).
  pose proof (Nat.div_mod_eq p 2) as Hdiv.
  pose proof (Nat.mod_upper_bound p 2 ltac:(lia)) as Hmod.
  destruct (Nat.eq_dec (p mod 2) 0) as [E|E].
  - replace (Z.of_nat p) with (2 * Z.of_nat (p / 2)) by lia.
    exact (f_equal real Hamp).
  - replace (Z.of_nat p) with (2 * Z.of_nat (p / 2) + 1) by lia.
    exact (f_equal imag Hamp).
Qed.

(** [applySingleQubitGate] on a matrix given by its four entries is the
    loop over the basis indices. *)
Lemma Flat_applySingleQubitGate_eq {F : Type} {N : Num F} (g00 g01 g10 g11 : Complex F)
      (n q : Z) (this : Flat.QuantumSimulator) :
  0 <= n -> Flat.numQubits this = n ->
  Flat.applySingleQubitGate [[g00; g01]; [g10; g11]] (Some q) this
  = (Ok tt,
     Flat.withState this
       (fold_left (Flat.singleQubitStep g00 g01 g10 g11 (Int32.shl 1 (n - 1 - q)))
                  (range (Z.to_nat (2 ^ n))) (Flat.state this))).
Proof.
  intros Hn Hnq.
  unfold Flat.applySingleQubitGate. cbn [bind Exec_Monad gets shiftCount lift].
  rewrite Hnq. unfold mget. cbn [arr_get Z.ltb Z.compare Z.to_nat nth_error defined
                                 bind result_Monad Pos.to_nat Pos.iter_op Nat.add modify].
  unfold loopBound. destruct (Z.ltb_spec n 0); [lia|]. reflexivity.
Qed.

(** X26: on the flat engine, in every arithmetic, a single-qubit gate
    [[g00, g01], [g10, g11]] on qubit [q] of an [n]-qubit register
    ([n <= 31]) replaces the amplitude of each basis index [i] by
    [g00 * a0 + g01 * a1] when bit [q] of [i] is 0 and by
    [g10 * a0 + g11 * a1] when it is 1, where [a0] and [a1] are the old
    amplitudes of [i] with bit [q] cleared and set; the products and the sum
    are those of [multiply] and [add] of complex.ts, rounding included.  The
    qubit count and the length of the buffer are kept. *)
Theorem X26_flat_single_qubit_gate :
  forall (F : Type) (N : Num F) (g00 g01 g10 g11 : Complex F) (n q : Z)
         (this : Flat.QuantumSimulator),
    0 <= n <= 31 -> 0 <= q < n ->
    Flat.numQubits this = n -> Z.of_nat (length (Flat.state this)) = 2 * 2 ^ n ->
    exists this' : Flat.QuantumSimulator,
      Flat.applySingleQubitGate [[g00; g01]; [g10; g11]] (Some q) this = (Ok tt, this') /\
      Flat.numQubits this' = n /\
      length (Flat.state this') = length (Flat.state this) /\
      forall i, 0 <= i < 2 ^ n ->
        amplitudeAt (Flat.state this') i
        = gateOnPair g00 g01 g10 g11 n q (Flat.state this) i.
Proof.
  intros F N g00 g01 g10 g11 n q this Hn Hq Hnq Hlen.
  assert (Hpow : 0 < 2 ^ n) by (apply Z.pow_pos_nonneg; lia).
  destruct (singleQubitLoop_exact g00 g01 g10 g11 n q Hn Hq (Flat.state this) Hlen
              (Z.to_nat (2 ^ n)) ltac:(lia)) as [Hlen' Hamp].
  eexists. split; [apply (Flat_applySingleQubitGate_eq g00 g01 g10 g11 n q this); [lia|exact Hnq]|].
  cbn [Flat.withState Flat.numQubits Flat.state].
  split; [exact Hnq|]. split; [exact Hlen'|].
  intros i Hi. rewrite (Hamp i Hi).
  assert (Hlow : clearQubit n q i < 2 ^ n)
    by (destruct (qubit_pair n q i Hq Hi) as [(_ & -> & _)|(_ & -> & _)];
        pose proof (Z.pow_pos_nonneg 2 (n - 1 - q) ltac:(lia) ltac:(lia)); lia).
  destruct (Z.ltb_spec (clearQubit n q i) (Z.of_nat (Z.to_nat (2 ^ n)))); [reflexivity|lia].
Qed.

(** X26 for the Pauli X matrix on the one-qubit flat engine in binary64. *)
Lemma X26_flat_single_qubit_gate_witness :
  let N := float_Num quarterTurnHost in
  exists this' : Flat.QuantumSimulator,
    Flat.applySingleQubitGate Gates.X (Some 0) flat1 = (Ok tt, this') /\
    amplitudeAt (Flat.state this') 1 = amplitudeAt (Flat.state flat1) 0.
Proof.
  intros N.
  destruct (X26_flat_single_qubit_gate float N
              (complex1 zero) (complex1 one) (complex1 one) (complex1 zero)
              1 0 flat1) as (this' & Hrun & _ & _ & Hamp); try reflexivity; try lia.
  exists this'. split; [exact Hrun|].
  rewrite (Hamp 1) by (simpl; lia). vm_compute. reflexivity.
Defined.

(* ================================================================== *)
(** * The object engine: the full operator of a single-qubit gate *)
(* ================================================================== *)

(** The Kronecker product with a 2 x 2 factor on the right, applied to a
    vector: [((E ⊗ B) u)[r] = Σ_β B[r mod 2][β] (E u_β)[r / 2]] with
    [u_β[a] = u[2 a + β]]. *)
Lemma kron_apply (d : nat) (ere eim bre bim : nat -> nat -> R) (ure uim : nat -> R)
      (r : nat) :
  let pre := fun beta : nat =>
    prodRe d ere eim (fun a => ure (a * 2 + beta)%nat)
                     (fun a => uim (a * 2 + beta)%nat) (r / 2)%nat in
  let pim := fun beta : nat =>
    prodIm d ere eim (fun a => ure (a * 2 + beta)%nat)
                     (fun a => uim (a * 2 + beta)%nat) (r / 2)%nat in
  prodRe (d * 2) (kronRe 2 ere eim bre bim) (kronIm 2 ere eim bre bim) ure uim r
  = ((bre (r mod 2)%nat 0%nat * pre 0%nat - bim (r mod 2)%nat 0%nat * pim 0%nat)
     + (bre (r mod 2)%nat 1%nat * pre 1%nat - bim (r mod 2)%nat 1%nat * pim 1%nat))%R /\
  prodIm (d * 2) (kronRe 2 ere eim bre bim) (kronIm 2 ere eim bre bim) ure uim r
  = ((bre (r mod 2)%nat 0%nat * pim 0%nat + bim (r mod 2)%nat 0%nat * pre 0%nat)
     + (bre (r mod 2)%nat 1%nat * pim 1%nat + bim (r mod 2)%nat 1%nat * pre 1%nat))%R.
Proof.
  cbv zeta. unfold prodRe, prodIm. rewrite !sumR_prod. cbn [sumR].
  unfold kronRe, kronIm.
  assert (H0 : forall a, ((a * 2 + 0) / 2 = a /\ (a * 2 + 0) mod 2 = 0)%nat)
    by (intros a; apply divmod_index; lia).
  assert (H1 : forall a, ((a * 2 + 1) / 2 = a /\ (a * 2 + 1) mod 2 = 1)%nat)
    by (intros a; apply divmod_index; lia).
  split.
  - rewrite <- !sumR_scal, <- !sumR_minus, <- sumR_plus.
    apply sumR_ext. intros a _.
    destruct (H0 a) as [-> ->]. destruct (H1 a) as [-> ->]. ring.
  - rewrite <- !sumR_scal, <- !sumR_plus.
    apply sumR_ext. intros a _.
    destruct (H0 a) as [-> ->]. destruct (H1 a) as [-> ->]. ring.
Qed.

(** Bit [s] of [r], and [r] with that bit cleared and set. *)
Definition bitAt (s r : nat) : nat := ((r / 2 ^ s) mod 2)%nat.
Definition lowAt (s r : nat) : nat := (r - bitAt s r * 2 ^ s)%nat.
Definition highAt (s r : nat) : nat := (lowAt s r + 2 ^ s)%nat.

Lemma bitAt_cases (s r : nat) : bitAt s r = O \/ bitAt s r = 1%nat.
Proof. unfold bitAt. pose proof (Nat.mod_upper_bound (r / 2 ^ s) 2). lia. Qed.

Lemma bitAt_le (s r : nat) : (bitAt s r * 2 ^ s <= r)%nat.
Proof.
  unfold bitAt.
  pose proof (Nat.Div0.mod_le (r / 2 ^ s) 2) as Hle.
  pose proof (Nat.Div0.mul_div_le r (2 ^ s)) as Hdiv.
  nia.
Qed.

Lemma bitAt_zero (r : nat) :
  bitAt 0 r = (r mod 2)%nat /\ lowAt 0 r = (r / 2 * 2 + 0)%nat /\
  highAt 0 r = (r / 2 * 2 + 1)%nat.
Proof.
  unfold highAt, lowAt, bitAt. cbn [Nat.pow]. rewrite Nat.div_1_r.
  pose proof (Nat.div_mod_eq r 2). pose proof (Nat.mod_upper_bound r 2). lia.
Qed.

Lemma bitAt_succ (s r : nat) :
  bitAt (S s) r = bitAt s (r / 2) /\
  lowAt (S s) r = (lowAt s (r / 2) * 2 + r mod 2)%nat /\
  highAt (S s) r = (highAt s (r / 2) * 2 + r mod 2)%nat.
Proof.
  assert (Hbit : bitAt (S s) r = bitAt s (r / 2)).
  { unfold bitAt. cbn [Nat.pow]. now rewrite Nat.Div0.div_div. }
  split; [exact Hbit|].
  unfold highAt, lowAt. rewrite Hbit. cbn [Nat.pow].
  pose proof (bitAt_le s (r / 2)) as Hle.
  pose proof (Nat.div_mod_eq r 2) as Hdiv.
  set (b := bitAt s (r / 2)) in *. set (P := (2 ^ s)%nat) in *.
  replace (b * (2 * P))%nat with (2 * (b * P))%nat by ring.
  set (Q := (b * P)%nat) in *. lia.
Qed.

Section FullOperator.
Variable G : Matrix xreal.
Hypothesis HG : FiniteMatrix 2 G.
Variable q : nat.

(** The parts of [G[b][0] u[r0] + G[b][1] u[r1]], where [b] is bit [s] of
    [r] and [r0], [r1] are [r] with that bit cleared and set. *)
Definition actRe (s : nat) (ure uim : nat -> R) (r : nat) : R :=
  ((mre G (bitAt s r) 0%nat * ure (lowAt s r) - mim G (bitAt s r) 0%nat * uim (lowAt s r))
   + (mre G (bitAt s r) 1%nat * ure (highAt s r)
      - mim G (bitAt s r) 1%nat * uim (highAt s r)))%R.

Definition actIm (s : nat) (ure uim : nat -> R) (r : nat) : R :=
  ((mre G (bitAt s r) 0%nat * uim (lowAt s r) + mim G (bitAt s r) 0%nat * ure (lowAt s r))
   + (mre G (bitAt s r) 1%nat * uim (highAt s r)
      + mim G (bitAt s r) 1%nat * ure (highAt s r)))%R.

(** The operator built from the factors of qubits [0 .. k]: the identity
    while the gate's qubit is still to come, the gate on bit [k - q]
    afterwards. *)
Definition ActsOn (k : nat) (M : Matrix xreal) : Prop :=
  FiniteMatrix (2 ^ S k) M /\
  forall (ure uim : nat -> R) (r : nat), (r < 2 ^ S k)%nat ->
    prodRe (2 ^ S k) (mre M) (mim M) ure uim r
    = (if (q <=? k)%nat then actRe (k - q) ure uim r else ure r) /\
    prodIm (2 ^ S k) (mre M) (mim M) ure uim r
    = (if (q <=? k)%nat then actIm (k - q) ure uim r else uim r).

Lemma identity2_entries (a b : nat) :
  (a < 2)%nat -> (b < 2)%nat ->
  mre (@identity xreal _ 2) a b = (if (a =? b)%nat then 1%R else 0%R) /\
  mim (@identity xreal _ 2) a b = 0%R.
Proof.
  intros Ha Hb.
  destruct a as [|[|a]]; [| |lia]; (destruct b as [|[|b]]; [| |lia]);
    split; reflexivity.
Qed.

Lemma ActsOn_first :
  ActsOn 0 (if Obj.isQubit (Some (Z.of_nat q)) 0 then G else identity 2).
Proof.
  unfold ActsOn, Obj.isQubit. change (2 ^ 1)%nat with 2%nat.
  destruct q as [|q'] eqn:Eq.
  - cbn [Z.of_nat Z.eqb Nat.leb Nat.sub]. split; [exact HG|].
    intros ure uim r Hr. unfold prodRe, prodIm, actRe, actIm. cbn [sumR].
    destruct (bitAt_zero r) as (-> & -> & ->).
    assert (Hdiv : (r / 2 = 0)%nat) by (apply Nat.div_small; lia).
    rewrite (Nat.mod_small r 2) by lia. rewrite Hdiv. cbn [Nat.mul Nat.add].
    split; ring.
  - destruct (Z.eqb_spec 0 (Z.of_nat (S q'))); [lia|]. cbn [Nat.leb].
    split; [exact (proj1 Unitary_I_gate)|].
    intros ure uim r Hr. unfold prodRe, prodIm. cbn [sumR].
    destruct (identity2_entries r 0 ltac:(lia) ltac:(lia)) as [-> ->].
    destruct (identity2_entries r 1 ltac:(lia) ltac:(lia)) as [-> ->].
    destruct r as [|[|r]]; [| |lia]; cbn [Nat.eqb]; split; ring.
Qed.

Lemma ActsOn_step (k : nat) (M : Matrix xreal) :
  ActsOn k M ->
  exists M',
    tensorProduct M (if Obj.isQubit (Some (Z.of_nat q)) (Z.of_nat (S k))
                     then G else identity 2) = Ok M' /\
    ActsOn (S k) M'.
Proof.
  intros [HM Hact].
  set (op := if Obj.isQubit (Some (Z.of_nat q)) (Z.of_nat (S k)) then G else identity 2).
  assert (Hop : FiniteMatrix 2 op)
    by (subst op; destruct (Obj.isQubit _ _); [exact HG|exact (proj1 Unitary_I_gate)]).
  assert (Hd : (0 < 2 ^ S k)%nat) by (apply Nat.neq_0_lt_0, Nat.pow_nonzero; lia).
  eexists. split; [apply (tensorProduct_finite (2 ^ S k) 2 M op Hd ltac:(lia) HM Hop)|].
  match goal with
  | |- ActsOn _ (tableOf ?m ?fre ?fim) =>
      destruct (tableOf_finite m fre fim) as [Hfin Hent];
      set (T := tableOf m fre fim) in *
  end.
  assert (Hsize : (2 ^ S k * 2 = 2 ^ S (S k))%nat) by (cbn [Nat.pow]; lia).
  split; [now rewrite <- Hsize|].
  intros ure uim r Hr. rewrite <- Hsize in Hr |- *.
  destruct (prod_ext (2 ^ S k * 2) (mre T) (mim T)
              (kronRe 2 (mre M) (mim M) (mre op) (mim op))
              (kronIm 2 (mre M) (mim M) (mre op) (mim op))
              ure uim ure uim r) as [-> ->].
  { intros c Hc. apply Hent; assumption. }
  { intros c _. split; reflexivity. }
  destruct (kron_apply (2 ^ S k) (mre M) (mim M) (mre op) (mim op) ure uim r)
    as [-> ->].
  assert (Hhalf : (r / 2 < 2 ^ S k)%nat) by (apply Nat.Div0.div_lt_upper_bound; lia).
  pose proof (Nat.mod_upper_bound r 2 ltac:(lia)) as Hrho.
  pose proof (Nat.div_mod_eq r 2) as Hdiv.
  destruct (Hact (fun a => ure (a * 2 + 0)%nat) (fun a => uim (a * 2 + 0)%nat)
                 (r / 2)%nat Hhalf) as [-> ->].
  destruct (Hact (fun a => ure (a * 2 + 1)%nat) (fun a => uim (a * 2 + 1)%nat)
                 (r / 2)%nat Hhalf) as [-> ->].
  subst op. unfold Obj.isQubit.
  destruct (Z.eqb_spec (Z.of_nat (S k)) (Z.of_nat q)) as [E|E].
  - (* the gate's own factor *)
    assert (Eq : q = S k) by lia.
    destruct (Nat.leb_spec q k); [lia|].
    destruct (Nat.leb_spec q (S k)); [|lia].
    replace (S k - q)%nat with O by lia.
    unfold actRe, actIm. destruct (bitAt_zero r) as (-> & -> & ->).
    split; ring.
  - (* an identity factor *)
    destruct (identity2_entries (r mod 2) 0 ltac:(lia) ltac:(lia)) as [-> ->].
    destruct (identity2_entries (r mod 2) 1 ltac:(lia) ltac:(lia)) as [-> ->].
    destruct (Nat.leb_spec q k) as [Hle|Hgt].
    + destruct (Nat.leb_spec q (S k)); [|lia].
      replace (S k - q)%nat with (S (k - q)) by lia.
      unfold actRe, actIm.
      destruct (bitAt_succ (k - q) r) as (-> & -> & ->).
      destruct (Nat.eq_dec (r mod 2) 0) as [E0|E0].
      * rewrite E0. cbn [Nat.eqb]. split; ring.
      * replace (r mod 2)%nat with 1%nat by lia. cbn [Nat.eqb]. split; ring.
    + destruct (Nat.leb_spec q (S k)); [lia|].
      destruct (Nat.eq_dec (r mod 2) 0) as [E0|E0].
      * rewrite E0. cbn [Nat.eqb].
        replace (r / 2 * 2 + 0)%nat with r by lia. split; ring.
      * replace (r mod 2)%nat with 1%nat by lia. cbn [Nat.eqb].
        replace (r / 2 * 2 + 1)%nat with r by lia. split; ring.
Qed.

Lemma fullOperator_acts (len : nat) :
  forall (k : nat) (M : Matrix xreal),
    ActsOn k M ->
    exists M',
      foldM (fun fullOperator i =>
               let nextOp := if Obj.isQubit (Some (Z.of_nat q)) i then G else identity 2 in
               tensorProduct fullOperator nextOp)
            (map (fun j => Z.of_nat j) (seq (S k) len)) M = Ok M' /\
      ActsOn (k + len) M'.
Proof.
  induction len as [|len IH]; intros k M HM.
  - exists M. split; [reflexivity|]. now rewrite Nat.add_0_r.
  - cbn [seq map foldM bind result_Monad]. cbv zeta.
    destruct (ActsOn_step k M HM) as (M1 & -> & HM1).
    destruct (IH (S k) M1 HM1) as (M' & HM' & Hacts).
    exists M'. split; [exact HM'|].
    now replace (k + S len)%nat with (S k + len)%nat by lia.
Qed.
End FullOperator.

(** Bit [n - 1 - q] of a basis index, on [nat] and on [Z]. *)
Lemma bitAt_qubitValue (n q i : Z) :
  0 <= q < n -> 0 <= i < 2 ^ n ->
  Z.of_nat (bitAt (Z.to_nat (n - 1 - q)) (Z.to_nat i)) = qubitValue n q i /\
  Z.of_nat (lowAt (Z.to_nat (n - 1 - q)) (Z.to_nat i)) = clearQubit n q i /\
  Z.of_nat (highAt (Z.to_nat (n - 1 - q)) (Z.to_nat i)) = setQubit n q i.
Proof.
  intros Hq Hi.
  set (s := Z.to_nat (n - 1 - q)). set (r := Z.to_nat i).
  assert (Hpow : Z.of_nat (2 ^ s) = 2 ^ (n - 1 - q)).
  { rewrite Nat2Z.inj_pow. subst s. rewrite Z2Nat.id by lia. reflexivity. }
  assert (Hbit : Z.of_nat (bitAt s r) = qubitValue n q i).
  { unfold bitAt, qubitValue. rewrite Nat2Z.inj_mod, Nat2Z.inj_div, Hpow.
    subst r. rewrite Z2Nat.id by lia. change (Z.of_nat 2) with 2.
    symmetry. apply Z.testbit_spec'. lia. }
  pose proof (bitAt_le s r) as Hle.
  assert (Hlow : Z.of_nat (lowAt s r) = i - qubitValue n q i * 2 ^ (n - 1 - q)).
  { unfold lowAt. rewrite Nat2Z.inj_sub by exact Hle.
    rewrite Nat2Z.inj_mul, Hbit, Hpow. subst r. rewrite Z2Nat.id by lia. reflexivity. }
  split; [exact Hbit|].
  unfold highAt. rewrite Nat2Z.inj_add, Hlow, Hpow.
  destruct (qubit_pair n q i Hq Hi) as [(-> & -> & -> & _)|(-> & -> & -> & _)];
    split; lia.
Qed.

Lemma Obj_applySingleQubitGate_exact (G : Matrix xreal) (n q : Z)
      (this : @Obj.QuantumSimulator xreal) :
  FiniteMatrix 2 G -> 0 <= n <= 31 -> 0 <= q < n ->
  Obj.numQubits this = n -> Z.of_nat (length (Obj.state this)) = 2 ^ n ->
  Forall finiteC (Obj.state this) ->
  let s := Z.to_nat (n - 1 - q) in
  let newState :=
    map (fun i => finC (actRe G s (reAt (Obj.state this)) (imAt (Obj.state this)) (Z.to_nat i))
                       (actIm G s (reAt (Obj.state this)) (imAt (Obj.state this)) (Z.to_nat i)))
        (range (Z.to_nat (2 ^ n))) in
  Obj.applySingleQubitGate G (Some q) this
  = (Ok tt, Obj.mkSim newState n (Obj.history this ++ [newState])
                      (Obj.operations this) (Obj.noiseModel this)).
Proof.
  intros HG Hn Hq Hnq Hlen Hfin s newState.
  unfold Obj.applySingleQubitGate. cbn [bind Exec_Monad gets Obj.outOfRange].
  rewrite Hnq.
  destruct (Z.ltb_spec q 0); [lia|]. destruct (Z.geb_spec q n); [lia|].
  cbn [orb lift].
  pose proof (ActsOn_first G HG (Z.to_nat q)) as Hfirst.
  rewrite Z2Nat.id in Hfirst by lia.
  destruct (fullOperator_acts G HG (Z.to_nat q) (Z.to_nat (n - 1)) 0 _ Hfirst)
    as (M & HM & [HMfin Hact]).
  rewrite Z2Nat.id in HM by lia. cbv zeta in HM. rewrite HM.
  cbn [bind result_Monad].
  assert (Hsize : (2 ^ S (0 + Z.to_nat (n - 1)))%nat = Z.to_nat (2 ^ n)).
  { apply Nat2Z.inj. rewrite Nat2Z.inj_pow, Z2Nat.id by (apply Z.pow_nonneg; lia).
    f_equal. lia. }
  rewrite Hsize in HMfin, Hact.
  rewrite (matrixVectorMultiply_finite (Z.to_nat (2 ^ n)) M (Obj.state this) HMfin Hfin)
    by lia.
  assert (Hnew : map (fun i =>
                   finC (prodRe (Z.to_nat (2 ^ n)) (mre M) (mim M)
                               (reAt (Obj.state this)) (imAt (Obj.state this)) (Z.to_nat i))
                        (prodIm (Z.to_nat (2 ^ n)) (mre M) (mim M)
                               (reAt (Obj.state this)) (imAt (Obj.state this)) (Z.to_nat i)))
                   (range (Z.to_nat (2 ^ n))) = newState).
  { subst newState. apply map_ext_in. intros i Hi. apply range_In in Hi.
    destruct (Hact (reAt (Obj.state this)) (imAt (Obj.state this)) (Z.to_nat i)
                ltac:(lia)) as [-> ->].
    destruct (Nat.leb_spec (Z.to_nat q) (0 + Z.to_nat (n - 1))); [|lia].
    replace (0 + Z.to_nat (n - 1) - Z.to_nat q)%nat with s by (subst s; lia).
    reflexivity. }
  rewrite Hnew.
  unfold Obj.pushHistory, modify, Obj.withHistory, Obj.withState.
  cbn [Obj.state Obj.history Obj.numQubits Obj.operations Obj.noiseModel].
  rewrite ?Hnq. reflexivity.
Qed.

(** The amplitude the object engine computes is the one of the flat
    engine's pairwise update. *)
Lemma act_gateOnPair (g00 g01 g10 g11 : Complex xreal) (n q i : Z)
      (st : list (Complex xreal)) :
  finiteC g00 -> finiteC g01 -> finiteC g10 -> finiteC g11 ->
  0 <= q < n -> 0 <= i < 2 ^ n ->
  Z.of_nat (length st) = 2 ^ n -> Forall finiteC st ->
  let G := [[g00; g01]; [g10; g11]] in
  let s := Z.to_nat (n - 1 - q) in
  finC (actRe G s (reAt st) (imAt st) (Z.to_nat i))
       (actIm G s (reAt st) (imAt st) (Z.to_nat i))
  = gateOnPair g00 g01 g10 g11 n q (interleave st) i.
Proof.
  intros H00 H01 H10 H11 Hq Hi Hlen Hfin G s.
  destruct (bitAt_qubitValue n q i Hq Hi) as (Hbit & Hlow & Hhigh). fold s in Hbit, Hlow, Hhigh.
  assert (Hpow : 0 < 2 ^ (n - 1 - q)) by (apply Z.pow_pos_nonneg; lia).
  assert (Hrange : 0 <= clearQubit n q i < 2 ^ n /\ 0 <= setQubit n q i < 2 ^ n)
    by (destruct (qubit_pair n q i Hq Hi) as [(_ & -> & -> & ? & _)|(_ & -> & -> & ? & _)];
        lia).
  unfold gateOnPair.
  rewrite !amplitudeAt_interleave by lia. unfold amplitudeOf.
  rewrite <- Hlow, <- Hhigh, !Nat2Z.id.
  rewrite (finiteC_nth st (lowAt s (Z.to_nat i)) Hfin) by lia.
  rewrite (finiteC_nth st (highAt s (Z.to_nat i)) Hfin) by lia.
  rewrite <- Hbit. unfold actRe, actIm.
  rewrite (finiteC_eq g00 H00), (finiteC_eq g01 H01), (finiteC_eq g10 H10),
          (finiteC_eq g11 H11).
  destruct (bitAt_cases s (Z.to_nat i)) as [-> | ->]; reflexivity.
Qed.

(** The two engines on a matrix given by its four entries. *)
Lemma engines_agree_entries :
  forall (g00 g01 g10 g11 : Complex xreal) (n q : Z) (this : @Obj.QuantumSimulator xreal),
    finiteC g00 -> finiteC g01 -> finiteC g10 -> finiteC g11 ->
    0 <= n <= 31 -> 0 <= q < n ->
    Obj.numQubits this = n -> Z.of_nat (length (Obj.state this)) = 2 ^ n ->
    Forall finiteC (Obj.state this) ->
    let gate := [[g00; g01]; [g10; g11]] in
    let flat := Flat.mkSim n (interleave (Obj.state this)) None in
    exists (this' : Obj.QuantumSimulator) (flat' : Flat.QuantumSimulator),
      Obj.applySingleQubitGate gate (Some q) this = (Ok tt, this') /\
      Flat.applySingleQubitGate gate (Some q) flat = (Ok tt, flat') /\
      Flat.state flat' = interleave (Obj.state this') /\
      Obj.history this' = Obj.history this ++ [Obj.state this'] /\
      (forall i, 0 <= i < 2 ^ n ->
         amplitudeOf (Obj.state this') i
         = gateOnPair g00 g01 g10 g11 n q (interleave (Obj.state this)) i).
Proof.
  intros g00 g01 g10 g11 n q this H00 H01 H10 H11 Hn Hq Hnq Hlen Hfin gate flat.
  assert (HG : FiniteMatrix 2 gate).
  { split; [reflexivity|]. intros row [<-|[<-|[]]]; (split; [reflexivity|]);
      intros e [<-|[<-|[]]]; assumption. }
  assert (Hpow : 0 < 2 ^ n) by (apply Z.pow_pos_nonneg; lia).
  pose proof (Obj_applySingleQubitGate_exact gate n q this HG Hn Hq Hnq Hlen Hfin) as Hobj.
  cbv zeta in Hobj.
  match type of Hobj with
  | _ = (_, Obj.mkSim ?st _ _ _ _) => set (newState := st) in *
  end.
  assert (Hflen : Z.of_nat (length (interleave (Obj.state this))) = 2 * 2 ^ n)
    by (rewrite interleave_length; lia).
  destruct (singleQubitLoop_exact g00 g01 g10 g11 n q Hn Hq
              (interleave (Obj.state this)) Hflen (Z.to_nat (2 ^ n)) ltac:(lia))
    as [Hlen' Hamp].
  assert (Hnew : forall i, 0 <= i < 2 ^ n ->
            amplitudeOf newState i
            = gateOnPair g00 g01 g10 g11 n q (interleave (Obj.state this)) i).
  { intros i Hi. unfold amplitudeOf. subst newState.
    rewrite (nth_map_range _ (Z.to_nat (2 ^ n)) (Z.to_nat i)) by lia.
    rewrite Z2Nat.id by lia.
    apply (act_gateOnPair g00 g01 g10 g11 n q i (Obj.state this)); assumption. }
  assert (Hnewlen : length newState = Z.to_nat (2 ^ n))
    by (subst newState; now rewrite length_map, range_length).
  eexists. eexists.
  split; [exact Hobj|].
  split; [apply (Flat_applySingleQubitGate_eq g00 g01 g10 g11 n q flat); [lia|reflexivity]|].
  cbn [Flat.withState Flat.state Obj.state Obj.history flat].
  split; [|split; [reflexivity|exact Hnew]].
  apply (buffer_ext _ _ (Z.to_nat (2 ^ n))).
  - rewrite Hlen', interleave_length. lia.
  - rewrite interleave_length. lia.
  - intros i Hi. rewrite Z2Nat.id in Hi by lia.
    rewrite (Hamp i Hi).
    assert (Hlow : clearQubit n q i < 2 ^ n)
      by (destruct (qubit_pair n q i Hq Hi) as [(_ & -> & _)|(_ & -> & _)];
          pose proof (Z.pow_pos_nonneg 2 (n - 1 - q) ltac:(lia) ltac:(lia)); lia).
    destruct (Z.ltb_spec (clearQubit n q i) (Z.of_nat (Z.to_nat (2 ^ n)))); [|lia].
    rewrite amplitudeAt_interleave by lia. symmetry. now apply Hnew.
Qed.


(** A 2 x 2 matrix without NaN is the list of its four entries. *)
Lemma finite2_entries (G : Matrix xreal) :
  FiniteMatrix 2 G ->
  exists g00 g01 g10 g11 : Complex xreal,
    G = [[g00; g01]; [g10; g11]] /\
    finiteC g00 /\ finiteC g01 /\ finiteC g10 /\ finiteC g11.
Proof.
  intros [Hlen Hrows].
  destruct G as [|r0 [|r1 [|]]]; try discriminate.
  destruct (Hrows r0 ltac:(now left)) as [H0 F0].
  destruct (Hrows r1 ltac:(right; now left)) as [H1 F1].
  destruct r0 as [|g00 [|g01 [|]]]; try discriminate.
  destruct r1 as [|g10 [|g11 [|]]]; try discriminate.
  exists g00, g01, g10, g11. split; [reflexivity|].
  split; [exact (F0 g00 (or_introl eq_refl))|].
  split; [exact (F0 g01 (or_intror (or_introl eq_refl)))|].
  split; [exact (F1 g10 (or_introl eq_refl))|].
  exact (F1 g11 (or_intror (or_introl eq_refl))).
Qed.

(** X27: in exact arithmetic the two engines compute the same state for a
    single-qubit gate.  For a 2 x 2 matrix without NaN and a register of
    [n <= 31] qubits without NaN, the object engine, which multiplies the
    state by the tensor product of the gate with [n - 1] identity matrices,
    returns exactly the amplitudes of the flat engine's pairwise update of
    the same amplitudes, and pushes them on its history.  So
    [apply(name, params, q)] gives the same state on both engines for every
    one-qubit gate of either table and all finite parameters. *)
Theorem X27_engines_agree_single_qubit :
  (forall (gate : Matrix xreal) (n q : Z) (this : @Obj.QuantumSimulator xreal),
      FiniteMatrix 2 gate -> 0 <= n <= 31 -> 0 <= q < n ->
      Obj.numQubits this = n -> Z.of_nat (length (Obj.state this)) = 2 ^ n ->
      Forall finiteC (Obj.state this) ->
      let flat := Flat.mkSim n (interleave (Obj.state this)) None in
      exists (this' : Obj.QuantumSimulator) (flat' : Flat.QuantumSimulator),
        Obj.applySingleQubitGate gate (Some q) this = (Ok tt, this') /\
        Flat.applySingleQubitGate gate (Some q) flat = (Ok tt, flat') /\
        Flat.state flat' = interleave (Obj.state this') /\
        Obj.history this' = Obj.history this ++ [Obj.state this']) /\
  (forall (lib : GateTable xreal) (gateName : string) (gateInfo : GateInfo xreal)
          (ps : option (list xreal)) (n q : Z) (this : @Obj.QuantumSimulator xreal),
      lib = Gates.GATE_LIBRARY_core \/ lib = Gates.GATE_LIBRARY ->
      lookupGate lib gateName = Some gateInfo -> qubits gateInfo = 1 ->
      finiteParams ps -> 0 <= n <= 31 -> 0 <= q < n ->
      Obj.numQubits this = n -> Z.of_nat (length (Obj.state this)) = 2 ^ n ->
      Forall finiteC (Obj.state this) ->
      let flat := Flat.mkSim n (interleave (Obj.state this)) None in
      exists (this' : Obj.QuantumSimulator) (flat' : Flat.QuantumSimulator),
        Obj.apply lib gateName ps [q] this = (Ok tt, this') /\
        Flat.apply lib gateName ps [q] flat = (Ok tt, flat') /\
        Flat.state flat' = interleave (Obj.state this')).
Proof.
  assert (Hgate : forall (gate : Matrix xreal) (n q : Z) (this : @Obj.QuantumSimulator xreal),
      FiniteMatrix 2 gate -> 0 <= n <= 31 -> 0 <= q < n ->
      Obj.numQubits this = n -> Z.of_nat (length (Obj.state this)) = 2 ^ n ->
      Forall finiteC (Obj.state this) ->
      exists (this' : Obj.QuantumSimulator) (flat' : Flat.QuantumSimulator),
        Obj.applySingleQubitGate gate (Some q) this = (Ok tt, this') /\
        Flat.applySingleQubitGate gate (Some q)
          (Flat.mkSim n (interleave (Obj.state this)) None) = (Ok tt, flat') /\
        Flat.state flat' = interleave (Obj.state this') /\
        Obj.history this' = Obj.history this ++ [Obj.state this']).
  { intros gate n q this HG Hn Hq Hnq Hlen Hfin.
    destruct (finite2_entries gate HG) as (g00 & g01 & g10 & g11 & -> & H00 & H01 & H10 & H11).
    destruct (engines_agree_entries g00 g01 g10 g11 n q this H00 H01 H10 H11 Hn Hq
                Hnq Hlen Hfin) as (this' & flat' & Hobj & Hflat & Hsame & Hhist & _).
    exists this', flat'. auto. }
  split; [exact Hgate|].
  intros lib gateName gateInfo ps n q this Hlib Hlook Hq1 Hps Hn Hq Hnq Hlen Hfin flat.
  assert (Hentry : UnitaryEntry gateInfo).
  { destruct Hlib as [-> | ->];
      [apply (GATE_LIBRARY_core_unitary gateName)|apply (GATE_LIBRARY_unitary gateName)];
      exact Hlook. }
  assert (HG : FiniteMatrix 2 (appliedMatrix gateInfo ps)).
  { destruct (Hentry ps Hps) as [[_ HU]|[[Hq' _]|[Hq' _]]]; [exact (proj1 HU)|lia|lia]. }
  set (logged := Obj.withOperations this
                   (Obj.operations this
                    ++ [mkGateOperation gateName [q]
                          (Some match ps with Some p => p | None => [] end)])).
  destruct (Hgate (appliedMatrix gateInfo ps) n q logged HG Hn Hq Hnq Hlen Hfin)
    as (this' & flat' & Hobj & Hflat & Hsame & _).
  exists this', flat'. split; [|split; [|exact Hsame]].
  - unfold Obj.apply. rewrite Hlook.
    change (match matrix gateInfo with
            | Const m => m
            | Param f => f match match ps with Some p => p | None => [] end with
                           | [] => [zero]
                           | _ :: _ => match ps with Some p => p | None => [] end
                           end
            end) with (appliedMatrix gateInfo ps).
    rewrite (hasNaN_finite _ _ HG), Hq1.
    cbn [bind Exec_Monad modify Z.eqb Pos.eqb nth_error]. fold logged. exact Hobj.
  - unfold Flat.apply. rewrite Hlook.
    change (match matrix gateInfo with
            | Const m => m
            | Param f => f match match ps with Some p => p | None => [] end with
                           | [] => [zero]
                           | _ :: _ => match ps with Some p => p | None => [] end
                           end
            end) with (appliedMatrix gateInfo ps).
    rewrite Hq1. cbn [Z.eqb Pos.eqb nth_error]. exact Hflat.
Qed.

(** X27 for the Hadamard gate of the full table on qubit 1 of a fresh
    two-qubit engine. *)
Lemma X27_engines_agree_single_qubit_witness :
  exists (this' : Obj.QuantumSimulator) (flat' : Flat.QuantumSimulator),
    Obj.apply Gates.GATE_LIBRARY "H" None [1] (@obj_fresh xreal _ 2) = (Ok tt, this') /\
    Flat.apply Gates.GATE_LIBRARY "H" None [1]
      (Flat.mkSim 2 (interleave (Obj.state (@obj_fresh xreal _ 2))) None) = (Ok tt, flat') /\
    Flat.state flat' = interleave (Obj.state this').
Proof.
  refine (proj2 X27_engines_agree_single_qubit Gates.GATE_LIBRARY "H"%string
            (mkGateInfo "Hadamard" "H" 1 (Const Gates.H) None "Creates superposition")
            None 2 1 (obj_fresh 2) _ _ _ _ _ _ _ _ _).
  - now right.
  - reflexivity.
  - reflexivity.
  - intros p [=].
  - lia.
  - lia.
  - reflexivity.
  - reflexivity.
  - repeat constructor; apply finite_Fin.
Defined.

(* ================================================================== *)
(** * Sampling: one probability vector for every shot *)
(* ================================================================== *)

(** The probability vector of a flat buffer of [n] qubits: entry [i] is
    [re² + im²] of amplitude [i]. *)
Definition probabilityVector {F : Type} {N : Num F} (n : Z) (st : list F) : list F :=
  map (fun i => f64_get st (2 * i) *' f64_get st (2 * i)
                +' f64_get st (2 * i + 1) *' f64_get st (2 * i + 1))
      (range (Z.to_nat (2 ^ n))).

(** The flat engine's [sample], whatever is installed as [Math.random]:
    one pass fills the probabilities, then every shot is drawn against
    them. *)
Lemma Flat_sampleWith_shots {F : Type} {N : Num F}
      (rng : Exec (Flat.QuantumSimulator * World) F) (shots : Z)
      (this : Flat.QuantumSimulator) (w : World) :
  0 <= Flat.numQubits this <= 52 ->
  Flat.sampleWith rng shots (this, w) =
    foldM (shot (@Flat.numQubits F)
             (fun rnd => Flat.walk (probabilityVector (Flat.numQubits this) (Flat.state this))
                           rnd (range (Z.to_nat (2 ^ Flat.numQubits this))) zero)
             rng)
          (range (Z.to_nat shots)) []
          (this, mkWorld (randomCalls w) (S (probabilityPasses w))).
Proof.
  intros Hn. unfold Flat.sampleWith.
  cbn [bind Exec_Monad onObject gets lift].
  assert (Hpow : 2 ^ Flat.numQubits this <= 2 ^ 52)
    by (apply Z.pow_le_mono_r; lia).
  rewrite Float64Array_ok
    by (change (2 ^ 52) with 4503599627370496 in Hpow;
        change (2 ^ 53 - 1) with 9007199254740991; lia).
  cbn [tickProbabilityPass].
  assert (Hsize : loopBound (Flat.numQubits this) = Z.to_nat (2 ^ Flat.numQubits this)).
  { apply Nat2Z.inj. rewrite loopBound_nonneg by lia.
    rewrite Z2Nat.id; [reflexivity|]. apply Z.pow_nonneg. lia. }
  rewrite Hsize, fill_table. reflexivity.
Qed.

Lemma Obj_sampleWith_shots {F : Type} {N : Num F}
      (rng : Exec (Obj.QuantumSimulator * World) F) (shots : Z)
      (this : Obj.QuantumSimulator) (w : World) :
  Obj.sampleWith rng shots (this, w) =
    foldM (shot (@Obj.numQubits F)
             (fun rnd => Obj.walk (map magnitudeSquared (Obj.state this)) rnd
                           (range (length (Obj.state this))) zero)
             rng)
          (range (Z.to_nat shots)) []
          (this, mkWorld (randomCalls w) (S (probabilityPasses w))).
Proof.
  unfold Obj.sampleWith.
  cbn [bind Exec_Monad onObject gets tickProbabilityPass Obj.getProbabilities].
  rewrite length_map. reflexivity.
Qed.

Lemma f64_get_map_range {F : Type} {N : Num F} (g : Z -> F) (k : nat) (i : Z) :
  0 <= i < Z.of_nat k -> f64_get (map g (range k)) i = g i.
Proof.
  intros Hi. unfold f64_get.
  rewrite (arr_get_nth _ _ (g 0)) by (rewrite length_map, range_length; lia).
  change (g 0) with (g (Z.of_nat 0)) at 1. unfold range. rewrite map_map.
  rewrite (map_nth (fun k => g (Z.of_nat k))), seq_nth by lia.
  f_equal. lia.
Qed.

(** C8. On either engine [sample(shots)] returns without error and leaves
    the engine as it was, amplitudes included.  It makes one pass over the
    amplitudes, whatever the number of shots, in which it fills the vector
    [probs] of the squared magnitudes, and calls [Math.random] once per
    shot; the histogram it returns is the tally of those draws against
    [probs]: a draw counts for the first index at which the running sum of
    [probs] exceeds it.  Every key is a bitstring as wide as the qubit
    count.  The vector is not computed again during the shots: whatever is
    installed as [Math.random], even a function that changes the
    amplitudes of this engine, every shot is drawn against the [probs] of
    the amplitudes the engine had when [sample] was called. *)
Theorem C8_sample_frame_and_keys :
  forall (F : Type) (N : Num F) (shots : Z),
    (forall this : Flat.QuantumSimulator,
        1 <= Flat.numQubits this <= 52 ->
        let n := Flat.numQubits this in
        let probs := probabilityVector n (Flat.state this) in
        let pick := fun rnd => Flat.walk probs rnd (range (Z.to_nat (2 ^ n))) zero in
        (forall i, 0 <= i < 2 ^ n ->
           f64_get probs i = magnitudeSquared (amplitudeAt (Flat.state this) i)) /\
        (forall (random : nat -> F) (w : World),
            let draws := map random (seq (randomCalls w) (Z.to_nat shots)) in
            let h := tally pick (fun i => padStart0 (toString2 i) n) draws [] in
            Flat.sample random shots (this, w) =
              (Ok h, (this, mkWorld (randomCalls w + Z.to_nat shots)
                                    (S (probabilityPasses w)))) /\
            (forall k, In k (map fst h) -> Z.of_nat (String.length k) = n)) /\
        (forall (rng : Exec (Flat.QuantumSimulator * World) F) (w : World),
            Flat.sampleWith rng shots (this, w) =
              foldM (shot (@Flat.numQubits F) pick rng) (range (Z.to_nat shots)) []
                    (this, mkWorld (randomCalls w) (S (probabilityPasses w))))) /\
    (forall this : Obj.QuantumSimulator,
        1 <= Obj.numQubits this ->
        Z.of_nat (length (Obj.state this)) <= 2 ^ Obj.numQubits this ->
        let n := Obj.numQubits this in
        let probs := map magnitudeSquared (Obj.state this) in
        let pick := fun rnd => Obj.walk probs rnd (range (length probs)) zero in
        (forall (random : nat -> F) (w : World),
            let draws := map random (seq (randomCalls w) (Z.to_nat shots)) in
            let h := tally pick (fun i => padStart0 (toString2 i) n) draws [] in
            Obj.sample random shots (this, w) =
              (Ok h, (this, mkWorld (randomCalls w + Z.to_nat shots)
                                    (S (probabilityPasses w)))) /\
            (forall k, In k (map fst h) -> Z.of_nat (String.length k) = n)) /\
        (forall (rng : Exec (Obj.QuantumSimulator * World) F) (w : World),
            Obj.sampleWith rng shots (this, w) =
              foldM (shot (@Obj.numQubits F) pick rng) (range (Z.to_nat shots)) []
                    (this, mkWorld (randomCalls w) (S (probabilityPasses w))))).
Proof.
  intros F N shots. split.
  - intros this Hn n probs pick.
    assert (Hpow : 0 < 2 ^ n) by (apply Z.pow_pos_nonneg; lia).
    split; [|split].
    + intros i Hi. subst probs. unfold probabilityVector.
      rewrite f64_get_map_range by (rewrite Z2Nat.id by lia; exact Hi). reflexivity.
    + intros random w draws h. split.
      * unfold Flat.sample. rewrite Flat_sampleWith_shots by (fold n; lia).
        rewrite shot_Math_random, shot_loop_tally.
        cbn [randomCalls probabilityPasses]. rewrite range_length. reflexivity.
      * apply (tally_keys pick (fun i => padStart0 (toString2 i) n)
                 (fun k => Z.of_nat (String.length k) = n)); [|intros k []].
        intros rnd i Hpick. apply Flat_walk_In, range_In in Hpick.
        rewrite Z2Nat.id in Hpick by lia. apply key_width; lia.
    + intros rng w. apply Flat_sampleWith_shots. fold n. lia.
  - intros this Hn Hlen n probs pick. split.
    + intros random w draws h. split.
      * rewrite Obj_sample_shotBody, shot_loop_tally.
        cbn [randomCalls probabilityPasses]. rewrite range_length. reflexivity.
      * apply (tally_keys pick (fun i => padStart0 (toString2 i) n)
                 (fun k => Z.of_nat (String.length k) = n)); [|intros k []].
        intros rnd i Hpick. apply Obj_walk_In, range_In in Hpick.
        subst probs n. rewrite length_map in Hpick. apply key_width; lia.
    + intros rng w. unfold Obj.sampleWith.
      cbn [bind Exec_Monad onObject gets tickProbabilityPass Obj.getProbabilities].
      reflexivity.
Qed.

(** C8 on the one-qubit engines in state [|0>], in binary64, at three shots
    with a function installed as [Math.random] that returns 0.5 and puts the
    engine in state [|1>]: the three shots are counted under ["0"]. *)
Lemma C8_sample_frame_and_keys_witness :
  let N := float_Num quarterTurnHost in
  let half := PrimFloat.div (Float64.ofZ 1) (Float64.ofZ 2) in
  let flatOne := Flat.mkSim 1 [zero; zero; one; zero] None in
  let objOne := Obj.mkSim [ZERO; ONE] 1 [[ONE; ZERO]] [] None in
  Flat.sampleWith (fun '(_, w) => (Ok half, (flatOne, w))) 3 (flat1, World0) =
    (Ok [("0"%string, 3)], (flatOne, mkWorld 0 1)) /\
  Obj.sampleWith (fun '(_, w) => (Ok half, (objOne, w))) 3 (obj_fresh 1, World0) =
    (Ok [("0"%string, 3)], (objOne, mkWorld 0 1)).
Proof.
  intros N half flatOne objOne.
  destruct (C8_sample_frame_and_keys float N 3) as [Hflat Hobj].
  split.
  - destruct (Hflat flat1) as (_ & _ & Hshots); [simpl; lia|].
    rewrite Hshots. vm_compute. reflexivity.
  - destruct (Hobj (obj_fresh 1)) as (_ & Hshots); [simpl; lia|simpl; lia|].
    rewrite Hshots. vm_compute. reflexivity.
Defined.

(* ================================================================== *)
(** * Bloch coordinates: the two engines side by side *)
(* ================================================================== *)

Section ObjBlochPolar.
Context {F : Type} {N : Num F}.

(** The one-qubit branch of the object engine: the point with polar angle
    [2 acos(min(1, |alpha|))] and azimuth [arg beta - arg alpha]. *)
Definition blochPolar (alpha beta : Complex F) : Bloch F :=
  let theta := two *' Math_acos (Math_min one (magnitude alpha)) in
  let phi := Math_atan2 (imag beta) (real beta) -' Math_atan2 (imag alpha) (real alpha) in
  mkBloch (Math_sin theta *' Math_cos phi) (Math_sin theta *' Math_sin phi)
          (Math_cos theta).

Lemma Obj_getBlochCoordinates_one (this : Obj.QuantumSimulator) (q : Z)
      (alpha beta : Complex F) (rest : list (Complex F)) :
  Obj.numQubits this = 1 -> Obj.state this = alpha :: beta :: rest ->
  Obj.getBlochCoordinates q this = (Ok (blochPolar alpha beta), this).
Proof.
  intros Hn Hst. unfold Obj.getBlochCoordinates.
  cbn [bind Exec_Monad gets]. rewrite Hn, Hst. reflexivity.
Qed.
End ObjBlochPolar.

Lemma inv_sqrt2_bounds : (0 < 1 / R_sqrt.sqrt 2 < 1)%R.
Proof.
  pose proof inv_sqrt2_sqr as Hs.
  assert (Hpos : (0 < 1 / R_sqrt.sqrt 2)%R).
  { apply Rdiv_lt_0_compat; [lra|]. apply sqrt_lt_R0. lra. }
  split; [assumption|]. nra.
Qed.

(** [|+>] has polar angle [PI / 2] and azimuth 0. *)
Lemma blochPolar_plus :
  blochPolar (finC (1 / R_sqrt.sqrt 2) 0) (finC (1 / R_sqrt.sqrt 2) 0)
  = mkBloch (Fin 1) (Fin 0) (Fin 0).
Proof.
  pose proof inv_sqrt2_bounds as Hs.
  assert (Hm : R_sqrt.sqrt (1 / R_sqrt.sqrt 2 * (1 / R_sqrt.sqrt 2) + 0 * 0)
               = (1 / R_sqrt.sqrt 2)%R).
  { replace (1 / R_sqrt.sqrt 2 * (1 / R_sqrt.sqrt 2) + 0 * 0)%R
      with (1 / R_sqrt.sqrt 2 * (1 / R_sqrt.sqrt 2))%R by lra.
    apply sqrt_square. lra. }
  assert (Hacos : acos (1 / R_sqrt.sqrt 2) = (PI / 4)%R).
  { rewrite <- cos_PI4. apply acos_cos. pose proof PI_RGT_0. lra. }
  unfold blochPolar. xeval.
  destruct (Rlt_dec _ 0) as [Hneg|_]; [exfalso; nra|].
  rewrite Hm.
  destruct (Rlt_dec (1 / R_sqrt.sqrt 2) 1) as [_|Hge]; [|exfalso; lra].
  destruct (Rlt_dec (1 / R_sqrt.sqrt 2) (-1)) as [Hlt|_]; [exfalso; lra|].
  destruct (Rlt_dec 1 (1 / R_sqrt.sqrt 2)) as [Hlt|_]; [exfalso; lra|].
  rewrite Hacos.
  replace (2 * (PI / 4))%R with (PI / 2)%R by lra.
  match goal with
  | |- context [cos (?v - ?v)] => replace (v - v)%R with 0%R by lra
  end.
  rewrite sin_PI2, cos_PI2, sin_0, cos_0.
  f_equal; f_equal; lra.
Qed.

(** [|1>] has polar angle [PI]. *)
Lemma blochPolar_one :
  blochPolar (finC 0 0) (finC 1 0) = mkBloch (Fin 0) (Fin 0) (Fin (-1)).
Proof.
  assert (Hm : R_sqrt.sqrt (0 * 0 + 0 * 0) = 0%R)
    by (replace (0 * 0 + 0 * 0)%R with 0%R by lra; apply sqrt_0).
  unfold blochPolar. xeval.
  destruct (Rlt_dec (0 * 0 + 0 * 0) 0) as [Hneg|_]; [exfalso; lra|].
  rewrite Hm.
  destruct (Rlt_dec 0 1) as [_|Hge]; [|exfalso; lra].
  destruct (Rlt_dec 0 (-1)) as [Hlt|_]; [exfalso; lra|].
  destruct (Rlt_dec 1 0) as [Hlt|_]; [exfalso; lra|].
  rewrite acos_0.
  replace (2 * (PI / 2))%R with PI by lra.
  rewrite sin_PI, cos_PI.
  f_equal; f_equal; lra.
Qed.

(** The state [H] then [S] on qubit 0 leaves a fresh two-qubit object
    engine in: [(|0> + i|1>) / sqrt 2] on qubit 0. *)
Lemma Obj_H_then_S :
  exists this : @Obj.QuantumSimulator xreal,
    applySequenceObj Gates.GATE_LIBRARY
      [mkGateOperation "H"%string [0] None; mkGateOperation "S"%string [0] None]
      (obj_fresh 2) = (Ok tt, this) /\
    Obj.numQubits this = 2 /\
    Obj.state this =
      [finC (1 / R_sqrt.sqrt 2) 0; finC 0 0; finC 0 (1 / R_sqrt.sqrt 2); finC 0 0].
Proof.
  eexists. split; [xeval; xsqrt2; reflexivity|].
  split; [reflexivity|].
  cbn [Obj.state]. unfold finC, complex.
  repeat (f_equal; try lra).
Qed.

(** C6, as stated, fails on the object engine: after [H] and [S] on qubit
    0 of a fresh two-qubit engine, [getBlochCoordinates(0)] returns
    [(0, 1, 0)], whereas the sums of the claim, with
    [rho01 = Σ amplitude[i] * conj(amplitude[paired])], give [(0, -1, 0)]. *)
Lemma C6_counterexample_object_engine :
  exists this : @Obj.QuantumSimulator xreal,
    applySequenceObj Gates.GATE_LIBRARY
      [mkGateOperation "H"%string [0] None; mkGateOperation "S"%string [0] None]
      (obj_fresh 2) = (Ok tt, this) /\
    Obj.getBlochCoordinates 0 this = (Ok (mkBloch (Fin 0) (Fin 1) (Fin 0)), this) /\
    blochOf 2 0 (interleave (Obj.state this)) = mkBloch (Fin 0) (Fin (-1)) (Fin 0).
Proof.
  destruct Obj_H_then_S as (this & Hrun & Hn & Hst).
  exists this. split; [exact Hrun|]. split.
  - rewrite Obj_getBlochCoordinates_spec by (rewrite ?Hn, ?Hst; cbn; lia).
    rewrite Hn, Hst. do 2 f_equal. xeval. f_equal; f_equal; rsqrt2.
  - rewrite Hst. xeval. f_equal; f_equal; rsqrt2.
Qed.

(** C6, amended.  On the flat engine of at most 31 qubits, for every qubit
    [q], [getBlochCoordinates(q)] returns [x = 2 Re(rho01)],
    [y = 2 Im(rho01)], [z = rho00 - rho11], where rho00 and rho11 are the
    sums of [|amplitude|²] over the indices whose bit [q] is 0 and 1, and
    rho01 is the sum over the index pairs (i, i with bit q flipped) of
    [amplitude[i] * conj(amplitude[paired])].  The object engine sums
    [conj(amplitude[i]) * amplitude[paired]] instead: on two or more qubits
    it returns the same [x] and [z] and the opposite [y], and on one qubit
    it returns the point of polar angle [2 acos(min(1, |alpha|))] and
    azimuth [arg beta - arg alpha].  On one qubit, H|0> gives exactly
    (1, 0, 0) and X|0> exactly (0, 0, -1) on both engines in exact
    arithmetic; in binary64 the flat engine gives them within 1e-9, and so
    does the object engine on qubit 0 of two qubits. *)
Theorem C6_bloch_coordinates :
  (forall (F : Type) (N : Num F) (this : Flat.QuantumSimulator) (q : Z),
      0 <= Flat.numQubits this <= 31 -> 0 <= q < Flat.numQubits this ->
      Flat.getBlochCoordinates q this =
        (Ok (blochOf (Flat.numQubits this) q (Flat.state this)), this)) /\
  (forall a b : Complex xreal, timesConj a b = multiply a (conjugate b)) /\
  (forall (F : Type) (N : Num F) (this : Obj.QuantumSimulator) (q : Z),
      2 <= Obj.numQubits this <= 31 -> 0 <= q < Obj.numQubits this ->
      Z.of_nat (length (Obj.state this)) = 2 ^ Obj.numQubits this ->
      Obj.getBlochCoordinates q this =
        (Ok (blochConjOf (Obj.numQubits this) q (Obj.state this)), this)) /\
  (forall (this : @Obj.QuantumSimulator xreal) (q : Z),
      2 <= Obj.numQubits this <= 31 -> 0 <= q < Obj.numQubits this ->
      Z.of_nat (length (Obj.state this)) = 2 ^ Obj.numQubits this ->
      let claimed := blochOf (Obj.numQubits this) q (interleave (Obj.state this)) in
      Obj.getBlochCoordinates q this =
        (Ok (mkBloch (x claimed) (-' y claimed) (z claimed)), this)) /\
  (forall (F : Type) (N : Num F) (this : Obj.QuantumSimulator) (q : Z)
          (alpha beta : Complex F) (rest : list (Complex F)),
      Obj.numQubits this = 1 -> Obj.state this = alpha :: beta :: rest ->
      Obj.getBlochCoordinates q this = (Ok (blochPolar alpha beta), this)) /\
  (exists st,
      Flat.apply Gates.GATE_LIBRARY "H" None [0] (@flat1 xreal _) =
        (Ok tt, Flat.mkSim 1 st None) /\
      fst (Flat.getBlochCoordinates 0 (Flat.mkSim 1 st None)) =
        Ok (mkBloch (Fin 1) (Fin 0) (Fin 0))) /\
  (exists st,
      Flat.apply Gates.GATE_LIBRARY "X" None [0] (@flat1 xreal _) =
        (Ok tt, Flat.mkSim 1 st None) /\
      fst (Flat.getBlochCoordinates 0 (Flat.mkSim 1 st None)) =
        Ok (mkBloch (Fin 0) (Fin 0) (Fin (-1)))) /\
  (exists this,
      Obj.apply Gates.GATE_LIBRARY "H" None [0] (@obj_fresh xreal _ 1) = (Ok tt, this) /\
      fst (Obj.getBlochCoordinates 0 this) = Ok (mkBloch (Fin 1) (Fin 0) (Fin 0))) /\
  (exists this,
      Obj.apply Gates.GATE_LIBRARY "X" None [0] (@obj_fresh xreal _ 1) = (Ok tt, this) /\
      fst (Obj.getBlochCoordinates 0 this) = Ok (mkBloch (Fin 0) (Fin 0) (Fin (-1)))) /\
  (forall L : Libm,
      let N := float_Num L in
      let after gateName := snd (Flat.apply Gates.GATE_LIBRARY gateName None [0] flat1) in
      let afterObj gateName :=
        snd (Obj.apply Gates.GATE_LIBRARY gateName None [0] (obj_fresh 2)) in
      let near (b : result (Bloch float)) (x0 y0 z0 : Z) :=
        match b with
        | Ok b => Float64.within (x b) (Float64.ofZ x0) Float64.tol9
                  && Float64.within (y b) (Float64.ofZ y0) Float64.tol9
                  && Float64.within (z b) (Float64.ofZ z0) Float64.tol9
        | Throw _ => false
        end in
      near (fst (Flat.getBlochCoordinates 0 (after "H"%string))) 1 0 0 = true /\
      near (fst (Flat.getBlochCoordinates 0 (after "X"%string))) 0 0 (-1) = true /\
      near (fst (Obj.getBlochCoordinates 0 (afterObj "H"%string))) 1 0 0 = true /\
      near (fst (Obj.getBlochCoordinates 0 (afterObj "X"%string))) 0 0 (-1) = true).
Proof.
  split; [intros; now apply getBlochCoordinates_spec|].
  split; [exact timesConj_multiply_conjugate|].
  split; [intros; now apply Obj_getBlochCoordinates_spec|].
  split.
  { intros this q Hn Hq Hlen claimed.
    destruct (Obj_bloch_opposite_y this q Hn Hq Hlen) as (b & Hflat & Hobj).
    rewrite getBlochCoordinates_spec in Hflat
      by (cbn [Flat.numQubits]; lia).
    injection Hflat as <-. exact Hobj. }
  split; [intros; now apply (Obj_getBlochCoordinates_one this q alpha beta rest)|].
  split; [|split; [|split; [|split]]].
  - eexists. split.
    + xeval. xsqrt2. reflexivity.
    + xeval. do 2 f_equal.
      * f_equal. rsqrt2.
      * f_equal. lra.
      * f_equal. lra.
  - eexists. split.
    + xeval. reflexivity.
    + xeval. do 2 f_equal; f_equal; lra.
  - eexists. split; [xeval; xsqrt2; reflexivity|].
    rewrite (Obj_getBlochCoordinates_one _ 0 (finC (1 / R_sqrt.sqrt 2) 0)
               (finC (1 / R_sqrt.sqrt 2) 0) []).
    + cbn [fst]. f_equal. apply blochPolar_plus.
    + reflexivity.
    + cbn [Obj.state]. unfold finC, complex. repeat (f_equal; try lra).
  - eexists. split; [xeval; reflexivity|].
    rewrite (Obj_getBlochCoordinates_one _ 0 (finC 0 0) (finC 1 0) []).
    + cbn [fst]. f_equal. apply blochPolar_one.
    + reflexivity.
    + cbn [Obj.state]. unfold finC, complex. repeat (f_equal; try lra).
  - intros L. vm_compute. repeat split; reflexivity.
Qed.

(** C6 amended, at qubit 0 of the one-qubit flat engine in state [|0>] and
    of a fresh two-qubit object engine. *)
Lemma C6_bloch_coordinates_witness :
  Flat.getBlochCoordinates 0 (@flat1 xreal _) =
    (Ok (blochOf 1 0 [Fin 1; Fin 0; Fin 0; Fin 0]), flat1) /\
  Obj.getBlochCoordinates 0 (@obj_fresh xreal _ 2) =
    (Ok (blochConjOf 2 0 (Obj.state (@obj_fresh xreal _ 2))), obj_fresh 2).
Proof.
  split.
  - refine (proj1 C6_bloch_coordinates xreal _ flat1 0 _ _); simpl; lia.
  - refine (proj1 (proj2 (proj2 C6_bloch_coordinates)) xreal _ (obj_fresh 2) 0 _ _ _);
      simpl; lia.
Defined.

(* ================================================================== *)
(** * Rounding in binary64 *)
(* ================================================================== *)

(** The operations on [float] are specified by [FloatAxioms] through
    [Prim2SF] and the functions of [SpecFloat]: a finite double is a sign, a
    mantissa and an exponent, and every operation rounds to nearest, ties to
    even.  This section derives, for operands away from the subnormal and
    overflow ranges, the bounds that the drift of the Hadamard gate needs. *)

Module Rounding.
Import SpecFloat FloatOps FloatAxioms.

(** The number of binary digits of a positive number. *)
Lemma digits2_pos_bounds (p : positive) :
  2 ^ (Z.pos (digits2_pos p) - 1) <= Z.pos p < 2 ^ Z.pos (digits2_pos p).
Proof.
  induction p as [p IH|p IH|]; cbn [digits2_pos].
  - rewrite Pos2Z.inj_succ. replace (Z.succ (Z.pos (digits2_pos p)) - 1)
      with (Z.succ (Z.pos (digits2_pos p) - 1)) by lia.
    rewrite !Z.pow_succ_r by lia. lia.
  - rewrite Pos2Z.inj_succ. replace (Z.succ (Z.pos (digits2_pos p)) - 1)
      with (Z.succ (Z.pos (digits2_pos p) - 1)) by lia.
    rewrite !Z.pow_succ_r by lia. lia.
  - cbn. lia.
Qed.

Lemma digits2_pos_eq (p : positive) (d : Z) :
  2 ^ (d - 1) <= Z.pos p < 2 ^ d -> Z.pos (digits2_pos p) = d.
Proof.
  intros [Hlo Hhi]. pose proof (digits2_pos_bounds p) as [Blo Bhi].
  assert (Hd : 0 < d).
  { destruct (Z.ltb_spec 0 d); [assumption|].
    rewrite Z.pow_neg_r in Hlo by lia.
    destruct (Z.eqb_spec d 0) as [->|]; [cbn in Hhi; lia|].
    rewrite Z.pow_neg_r in Hhi by lia. lia. }
  destruct (Z.lt_trichotomy (Z.pos (digits2_pos p)) d) as [Hlt|[Heq|Hgt]];
    [|assumption|].
  - assert (2 ^ Z.pos (digits2_pos p) <= 2 ^ (d - 1)) by (apply Z.pow_le_mono_r; lia). lia.
  - assert (2 ^ d <= 2 ^ (Z.pos (digits2_pos p) - 1)) by (apply Z.pow_le_mono_r; lia). lia.
Qed.

Lemma iter_pos_nat {A : Type} (f : A -> A) (n : positive) (x : A) :
  iter_pos f n x = Nat.iter (Pos.to_nat n) f x.
Proof.
  revert x. induction n as [n IH|n IH|]; intros x; cbn [iter_pos].
  - rewrite !IH, Pos2Nat.inj_xI, Nat.iter_succ_r.
    replace (2 * Pos.to_nat n)%nat with (Pos.to_nat n + Pos.to_nat n)%nat by lia.
    now rewrite Nat.iter_add.
  - rewrite !IH, Pos2Nat.inj_xO.
    replace (2 * Pos.to_nat n)%nat with (Pos.to_nat n + Pos.to_nat n)%nat by lia.
    now rewrite Nat.iter_add.
  - reflexivity.
Qed.


(** After [k] right shifts of [p]: the quotient, the bit shifted out last
    and whether a lower bit was set. *)
Definition shifted (p : Z) (k : nat) (mrs : shr_record) : Prop :=
  0 <= shr_m mrs /\
  exists t, 0 <= t < 2 ^ (Z.of_nat k - 1) /\
    p = shr_m mrs * 2 ^ Z.of_nat k + Z.b2z (shr_r mrs) * 2 ^ (Z.of_nat k - 1) + t /\
    (shr_s mrs = true <-> t <> 0).

Lemma shr_1_shifted (p : Z) (k : nat) (mrs : shr_record) :
  (1 <= k)%nat -> shifted p k mrs -> shifted p (S k) (shr_1 mrs).
Proof.
  unfold shifted. intros Hk (Hm & t & Ht & Hp & Hs).
  destruct mrs as [m r s]. cbn [shr_m shr_r shr_s] in *.
  assert (Hpow : 2 ^ Z.of_nat k = 2 * 2 ^ (Z.of_nat k - 1)).
  { replace (Z.of_nat k) with (Z.succ (Z.of_nat k - 1)) at 1 by lia.
    rewrite Z.pow_succ_r by lia. reflexivity. }
  assert (Hpos : 0 < 2 ^ (Z.of_nat k - 1)) by (apply Z.pow_pos_nonneg; lia).
  rewrite Nat2Z.inj_succ. replace (Z.succ (Z.of_nat k) - 1) with (Z.of_nat k) by lia.
  rewrite Z.pow_succ_r by lia.
  set (P := 2 ^ (Z.of_nat k - 1)) in *. set (Q := 2 ^ Z.of_nat k) in *.
  assert (Hs' : (r || s = true) <-> Z.b2z r * P + t <> 0).
  { destruct r; cbn [orb Z.b2z].
    - split; [lia|reflexivity].
    - split; intros H; [apply Hs in H; lia|apply Hs; lia]. }
  assert (Ht' : 0 <= Z.b2z r * P + t < Q) by (destruct r; cbn [Z.b2z]; lia).
  destruct m as [|[q|q|]|q]; cbn [shr_1 shr_m shr_r shr_s]; try lia.
  all: split; [lia|]; exists (Z.b2z r * P + t);
    split; [exact Ht'|]; split; [cbn [Z.b2z]; lia|exact Hs'].
Qed.

Lemma iter_shr_1_shifted (p : Z) (k : nat) :
  0 <= p -> shifted p (S k) (Nat.iter (S k) shr_1 (Build_shr_record p false false)).
Proof.
  intros Hp. induction k as [|k IH].
  - change (Nat.iter 1 shr_1 ?x) with (shr_1 x). unfold shifted.
    change (Z.of_nat 1) with 1. change (2 ^ (1 - 1)) with 1. change (2 ^ 1) with 2.
    destruct p as [|[q|q|]|q]; cbn [shr_1 shr_m shr_r shr_s orb Z.b2z]; try lia.
    all: split; [lia|]; exists 0; split; [lia|]; split; [lia|];
      split; [discriminate|lia].
  - change (Nat.iter (S (S k)) shr_1 ?x) with (shr_1 (Nat.iter (S k) shr_1 x)).
    apply shr_1_shifted; [lia|exact IH].
Qed.

(** Rounding to nearest moves the quotient by at most half a unit. *)
Lemma round_nearest_even_bound (p : Z) (k : nat) (mrs : shr_record) :
  (1 <= k)%nat -> shifted p k mrs ->
  let q := round_nearest_even (shr_m mrs) (loc_of_shr_record mrs) in
  2 * q * 2 ^ Z.of_nat k - 2 ^ Z.of_nat k <= 2 * p <= 2 * q * 2 ^ Z.of_nat k + 2 ^ Z.of_nat k.
Proof.
  unfold shifted. intros Hk (Hm & t & Ht & Hp & Hs).
  destruct mrs as [m r s]. cbn [shr_m shr_r shr_s] in *.
  assert (Hpow : 2 ^ Z.of_nat k = 2 * 2 ^ (Z.of_nat k - 1)).
  { replace (Z.of_nat k) with (Z.succ (Z.of_nat k - 1)) at 1 by lia.
    rewrite Z.pow_succ_r by lia. reflexivity. }
  set (P := 2 ^ (Z.of_nat k - 1)) in *. set (Q := 2 ^ Z.of_nat k) in *.
  destruct r, s; cbn [loc_of_shr_record round_nearest_even Z.b2z] in *.
  - assert (t <> 0) by now apply Hs. nia.
  - assert (t = 0).
    { destruct (Z.eq_dec t 0) as [|Hne]; [assumption|].
      apply Hs in Hne. discriminate Hne. }
    destruct (Z.even m); nia.
  - nia.
  - nia.
Qed.

(** Rounding a mantissa of [53 + s] digits, [s >= 1], away from the
    subnormal and overflow ranges: the result is a mantissa [q] within half a
    unit of [p / 2^s], with the exponent raised by [s]. *)
Lemma binary_round_aux_bound (p : positive) (e s : Z) :
  1 <= s -> Z.pos (digits2_pos p) = 53 + s -> -1074 <= e + s <= 971 ->
  exists q : positive,
    2 * Z.pos q * 2 ^ s - 2 ^ s <= 2 * Z.pos p <= 2 * Z.pos q * 2 ^ s + 2 ^ s /\
    2 ^ 52 <= Z.pos q <= 2 ^ 53 /\
    (Z.pos q < 2 ^ 53 -> forall sx : bool,
     binary_round_aux prec emax sx (Z.pos p) e loc_Exact = S754_finite sx q (e + s)).
Proof.
  intros Hs Hd He.
  pose proof (digits2_pos_bounds p) as Hp. rewrite Hd in Hp.
  replace (53 + s - 1) with (52 + s) in Hp by lia.
  rewrite !Z.pow_add_r in Hp by lia.
  assert (Hpow : 0 < 2 ^ s) by (apply Z.pow_pos_nonneg; lia).
  destruct s as [|sp|]; try lia.
  destruct (Pos2Nat.is_succ sp) as [k Hk].
  pose proof (iter_shr_1_shifted (Z.pos p) k ltac:(lia)) as Hsh.
  pose proof (round_nearest_even_bound (Z.pos p) (S k) _ ltac:(lia) Hsh) as Hq.
  cbv zeta in Hq.
  assert (Hks : Z.of_nat (S k) = Z.pos sp) by (rewrite <- Hk; apply positive_nat_Z).
  rewrite Hks in Hq.
  set (mrs := Nat.iter (S k) shr_1 {| shr_m := Z.pos p; shr_r := false; shr_s := false |}) in *.
  set (q := round_nearest_even (shr_m mrs) (loc_of_shr_record mrs)) in *.
  change (2 ^ 52) with 4503599627370496 in *. change (2 ^ 53) with 9007199254740992 in *.
  assert (Hqlo : 4503599627370496 <= q) by nia.
  assert (Hqhi : q <= 9007199254740992) by nia.
  destruct q as [|qp|qp] eqn:Eq; try lia.
  exists qp. split; [exact Hq|]. split; [lia|]. intros Hlt sx.
  unfold binary_round_aux, shr_fexp. cbn [Zdigits2]. rewrite Hd.
  assert (Hf1 : fexp prec emax (53 + Z.pos sp + e) - e = Z.pos sp)
    by (unfold fexp, SpecFloat.emin, prec, emax; lia).
  rewrite Hf1. cbn [shr shr_record_of_loc]. rewrite iter_pos_nat, Hk. fold mrs. fold q.
  rewrite Eq. cbn [Zdigits2].
  assert (Hdq : Z.pos (digits2_pos qp) = 53)
    by (apply digits2_pos_eq; change (2 ^ (53 - 1)) with 4503599627370496;
        change (2 ^ 53) with 9007199254740992; lia).
  rewrite Hdq.
  assert (Hf2 : fexp prec emax (53 + (e + Z.pos sp)) - (e + Z.pos sp) = 0)
    by (unfold fexp, SpecFloat.emin, prec, emax; lia).
  rewrite Hf2. cbn [shr shr_record_of_loc shr_m].
  assert (Hle : (e + Z.pos sp <=? emax - prec) = true)
    by (apply Z.leb_le; unfold prec, emax; lia).
  rewrite Hle. reflexivity.
Qed.

Lemma iter_xO_shift (p n : positive) :
  Z.pos (Pos.iter xO p n) = Z.pos p * 2 ^ Z.pos n.
Proof.
  induction n as [|n IH] using Pos.peano_ind.
  - cbn [Pos.iter]. change (2 ^ 1) with 2. lia.
  - rewrite Pos.iter_succ, Pos2Z.inj_xO, IH, Pos2Z.inj_succ, Z.pow_succ_r by lia. lia.
Qed.

(** A mantissa of 53 digits needs no rounding. *)
Lemma binary_round_aux_exact (sx : bool) (p : positive) (e : Z) :
  Z.pos (digits2_pos p) = 53 -> -1074 <= e <= 971 ->
  binary_round_aux prec emax sx (Z.pos p) e loc_Exact = S754_finite sx p e.
Proof.
  intros Hd He. unfold binary_round_aux, shr_fexp. cbn [Zdigits2]. rewrite Hd.
  assert (Hf : fexp prec emax (53 + e) - e = 0)
    by (unfold fexp, SpecFloat.emin, prec, emax; lia).
  rewrite Hf.
  cbn [shr shr_record_of_loc shr_m loc_of_shr_record round_nearest_even Zdigits2].
  rewrite Hd, Hf. cbn [shr shr_record_of_loc shr_m].
  assert (Hle : (e <=? emax - prec) = true) by (apply Z.leb_le; unfold prec, emax; lia).
  now rewrite Hle.
Qed.

(** ** Products, sums and differences of doubles *)

Abbreviation finite64 := S754_finite.

(** The product of two finite doubles whose mantissas multiply to
    [53 + s] digits. *)
Lemma mul_finite (ma mb : positive) (ea eb s : Z) :
  1 <= s -> 2 ^ (52 + s) <= Z.pos ma * Z.pos mb < 2 ^ (53 + s) ->
  -1074 <= ea + eb + s <= 971 ->
  exists q : positive,
    2 * Z.pos q * 2 ^ s - 2 ^ s <= 2 * (Z.pos ma * Z.pos mb)
      <= 2 * Z.pos q * 2 ^ s + 2 ^ s /\
    2 ^ 52 <= Z.pos q <= 2 ^ 53 /\
    (Z.pos q < 2 ^ 53 ->
     forall (a b : float) (sa sb : bool),
       Prim2SF a = finite64 sa ma ea -> Prim2SF b = finite64 sb mb eb ->
       Prim2SF (PrimFloat.mul a b) = finite64 (xorb sa sb) q (ea + eb + s)).
Proof.
  intros Hs Hp He.
  assert (Hd : Z.pos (digits2_pos (ma * mb)) = 53 + s).
  { apply digits2_pos_eq. rewrite Pos2Z.inj_mul.
    replace (53 + s - 1) with (52 + s) by lia. exact Hp. }
  destruct (binary_round_aux_bound (ma * mb) (ea + eb) s Hs Hd ltac:(lia))
    as (q & Hq & Hr & Hround).
  exists q. rewrite Pos2Z.inj_mul in Hq. split; [exact Hq|]. split; [exact Hr|].
  intros Hlt a b sa sb Ha Hb.
  rewrite mul_spec, Ha, Hb. unfold SF64mul, SFmul. rewrite Hround by exact Hlt.
  reflexivity.
Qed.

Lemma Prim2SF_zero : Prim2SF PrimFloat.zero = S754_zero false.
Proof. reflexivity. Qed.

Lemma sub_zero (x : float) : PrimFloat.sub x PrimFloat.zero = x.
Proof.
  apply Prim2SF_inj. rewrite sub_spec, Prim2SF_zero.
  destruct (Prim2SF x) as [[|]| | |]; reflexivity.
Qed.

Section FiniteOperand.
Variables (x : float) (sx : bool) (m : positive) (e : Z).
Hypothesis Hx : Prim2SF x = finite64 sx m e.

Lemma add_zero_r : PrimFloat.add x PrimFloat.zero = x.
Proof. apply Prim2SF_inj. now rewrite add_spec, Prim2SF_zero, Hx. Qed.

Lemma add_neg_zero_r : PrimFloat.add x PrimFloat.neg_zero = x.
Proof.
  apply Prim2SF_inj. rewrite add_spec, Hx.
  change (Prim2SF PrimFloat.neg_zero) with (S754_zero true). reflexivity.
Qed.

Lemma add_zero_l : PrimFloat.add PrimFloat.zero x = x.
Proof. apply Prim2SF_inj. now rewrite add_spec, Prim2SF_zero, Hx. Qed.

Lemma mul_zero_l : sx = false -> PrimFloat.mul PrimFloat.zero x = PrimFloat.zero.
Proof.
  intros ->. apply Prim2SF_inj. now rewrite mul_spec, Prim2SF_zero, Hx.
Qed.
End FiniteOperand.

(** A double plus itself: the exponent grows by one. *)
Lemma add_self (x : float) (m : positive) (e : Z) :
  Prim2SF x = finite64 false m e -> 2 ^ 52 <= Z.pos m < 2 ^ 53 -> -1075 <= e <= 970 ->
  Prim2SF (PrimFloat.add x x) = finite64 false m (e + 1).
Proof.
  intros Hx Hm He. rewrite add_spec, Hx. unfold SF64add, SFadd.
  rewrite Z.min_id. unfold shl_align. rewrite Z.sub_diag. cbn [fst cond_Zopp].
  change (Z.pos m + Z.pos m) with (Z.pos (m + m)).
  replace (m + m)%positive with (m~0)%positive by lia.
  unfold binary_normalize, binary_round.
  assert (Hd : Z.pos (digits2_pos m~0) = 54)
    by (apply digits2_pos_eq; change (2 ^ (54 - 1)) with (2 * 2 ^ 52);
        change (2 ^ 54) with (2 * 2 ^ 53); lia).
  rewrite Hd.
  assert (Hf : fexp prec emax (54 + e) - e = 1)
    by (unfold fexp, SpecFloat.emin, prec, emax; lia).
  unfold shl_align. rewrite Hf.
  destruct (binary_round_aux_bound (m~0) e 1 ltac:(lia) Hd ltac:(lia))
    as (q & Hq & Hr & Hround).
  change (2 ^ 1) with 2 in Hq.
  assert (q = m) by lia. subst q.
  apply Hround. lia.
Qed.

(** A double minus itself. *)
Lemma add_opposite (x y : float) (m : positive) (e : Z) :
  Prim2SF x = finite64 false m e -> Prim2SF y = finite64 true m e ->
  PrimFloat.add x y = PrimFloat.zero.
Proof.
  intros Hx Hy. apply Prim2SF_inj. rewrite add_spec, Hx, Hy, Prim2SF_zero.
  unfold SF64add, SFadd. rewrite Z.min_id. unfold shl_align. rewrite Z.sub_diag.
  cbn [fst cond_Zopp Z.opp]. rewrite Z.add_opp_diag_r. reflexivity.
Qed.

End Rounding.

(* ================================================================== *)
(** * Hadamard gates in binary64: the amplitude drifts down *)
(* ================================================================== *)

Module Drift.
Import SpecFloat FloatOps FloatAxioms Rounding.

Section Host.

(** The engines in binary64, whatever the host's sine and cosine: the
    Hadamard gate needs neither. *)
Variable L : Libm.
#[local] Instance hostNum : Num float := float_Num L.

(** [1 / Math.sqrt(2)] in binary64: the mantissa of [SQRT2_INV]. *)
Definition Hm : positive := 6369051672525772.
#[local] Abbreviation SQRT2_INV := (@Gates.SQRT2_INV float hostNum).

Lemma Prim2SF_SQRT2_INV : Prim2SF SQRT2_INV = finite64 false Hm (-53).
Proof. vm_compute. reflexivity. Qed.

Lemma Prim2SF_neg_SQRT2_INV : Prim2SF (-' SQRT2_INV) = finite64 true Hm (-53).
Proof. vm_compute. reflexivity. Qed.

(** The engine with amplitude [a] on [|0>] and nothing on [|1>]. *)
Definition onZero (a : float) : Flat.QuantumSimulator :=
  Flat.mkSim 1 [a; zero; zero; zero] None.

Definition hadamard : Exec Flat.QuantumSimulator unit :=
  Flat.apply Gates.GATE_LIBRARY_core "H" None [0].

Lemma hadamard_onZero (a : float) :
  let y := PrimFloat.mul SQRT2_INV a in
  let o := PrimFloat.mul PrimFloat.zero a in
  hadamard (onZero a) =
    (Ok tt,
     Flat.mkSim 1
       [PrimFloat.add (PrimFloat.sub y PrimFloat.zero) PrimFloat.zero;
        PrimFloat.add (PrimFloat.add PrimFloat.zero o) PrimFloat.zero;
        PrimFloat.add (PrimFloat.sub y PrimFloat.zero) PrimFloat.neg_zero;
        PrimFloat.add (PrimFloat.add PrimFloat.zero o) PrimFloat.zero] None).
Proof. vm_compute. reflexivity. Qed.

Lemma hadamard_balanced (b : float) :
  let z := PrimFloat.mul SQRT2_INV b in
  let z' := PrimFloat.mul (-' SQRT2_INV) b in
  let o := PrimFloat.mul PrimFloat.zero b in
  hadamard (Flat.mkSim 1 [b; PrimFloat.zero; b; PrimFloat.zero] None) =
    (Ok tt,
     Flat.mkSim 1
       [PrimFloat.add (PrimFloat.sub z PrimFloat.zero) (PrimFloat.sub z PrimFloat.zero);
        PrimFloat.add (PrimFloat.add PrimFloat.zero o) (PrimFloat.add PrimFloat.zero o);
        PrimFloat.add (PrimFloat.sub z PrimFloat.zero) (PrimFloat.sub z' PrimFloat.zero);
        PrimFloat.add (PrimFloat.add PrimFloat.zero o) (PrimFloat.add PrimFloat.neg_zero o)] None).
Proof. vm_compute. reflexivity. Qed.

(** Two Hadamard gates in a row take the amplitude [M * 2^-53] on [|0>] to
    [M' * 2^-53] with [M'] one or two below [M]: the rounded
    [1 / sqrt 2] is too small, and two roundings do not make up for it. *)
Lemma hadamard_pair (M : positive) :
  2 ^ 53 - 10 ^ 10 <= Z.pos M < 2 ^ 53 ->
  exists M' : positive,
    Z.pos M - 2 <= Z.pos M' <= Z.pos M - 1 /\
    forall a : float,
      Prim2SF a = finite64 false M (-53) ->
      exists (mid : Flat.QuantumSimulator) (a' : float),
        hadamard (onZero a) = (Ok tt, mid) /\
        hadamard mid = (Ok tt, onZero a') /\
        Prim2SF a' = finite64 false M' (-53).
Proof.
  change (2 ^ 53) with 9007199254740992. change (10 ^ 10) with 10000000000.
  intros HM.
  destruct (mul_finite Hm M (-53) (-53) 53) as (Y & HY & HYr & HmulY);
    [lia|change (2 ^ (52 + 53)) with 40564819207303340847894502572032;
         change (2 ^ (53 + 53)) with 81129638414606681695789005144064;
         unfold Hm; lia|lia|].
  change (2 ^ 53) with 9007199254740992 in HY, HYr, HmulY.
  change (2 ^ 52) with 4503599627370496 in HYr.
  unfold Hm in HY.
  assert (HYlt : Z.pos Y < 9007199254740992) by lia.
  specialize (HmulY HYlt).
  destruct (mul_finite Hm Y (-53) (-53) 52) as (Z' & HZ & HZr & HmulZ);
    [lia|change (2 ^ (52 + 52)) with 20282409603651670423947251286016;
         change (2 ^ (53 + 52)) with 40564819207303340847894502572032;
         unfold Hm; lia|lia|].
  change (2 ^ 53) with 9007199254740992 in HZr, HmulZ.
  change (2 ^ 52) with 4503599627370496 in HZ, HZr.
  unfold Hm in HZ.
  assert (HZM : Z.pos M - 2 <= Z.pos Z' <= Z.pos M - 1) by lia.
  assert (HZlt : Z.pos Z' < 9007199254740992) by lia.
  specialize (HmulZ HZlt).
  exists Z'. split; [exact HZM|]. intros a Ha.
  set (y := PrimFloat.mul SQRT2_INV a).
  assert (Hy : Prim2SF y = finite64 false Y (-53))
    by (apply (HmulY SQRT2_INV a false false Prim2SF_SQRT2_INV Ha)).
  set (z := PrimFloat.mul SQRT2_INV y).
  set (z' := PrimFloat.mul (-' SQRT2_INV) y).
  assert (Hz : Prim2SF z = finite64 false Z' (-54))
    by (apply (HmulZ SQRT2_INV y false false Prim2SF_SQRT2_INV Hy)).
  assert (Hz' : Prim2SF z' = finite64 true Z' (-54))
    by (apply (HmulZ (-' SQRT2_INV) y true false Prim2SF_neg_SQRT2_INV Hy)).
  exists (Flat.mkSim 1 [y; PrimFloat.zero; y; PrimFloat.zero] None), (PrimFloat.add z z).
  split; [|split].
  - rewrite hadamard_onZero. cbv zeta. fold y.
    rewrite (mul_zero_l a false M (-53) Ha eq_refl).
    rewrite sub_zero, (add_zero_r y false Y (-53) Hy),
      (add_neg_zero_r y false Y (-53) Hy).
    reflexivity.
  - rewrite hadamard_balanced. cbv zeta. fold z z'.
    rewrite (mul_zero_l y false Y (-53) Hy eq_refl).
    rewrite !sub_zero, (add_opposite z z' Z' (-54) Hz Hz').
    reflexivity.
  - change (-53) with (-54 + 1). apply add_self; [exact Hz| |lia].
    change (2 ^ 52) with 4503599627370496. change (2 ^ 53) with 9007199254740992. lia.
Qed.

(** [2 * k] Hadamard gates lower the mantissa by [k] to [2 * k]. *)
Lemma hadamard_pairs (k : nat) :
  forall (M : positive) (a : float),
    Prim2SF a = finite64 false M (-53) ->
    2 ^ 53 - 10 ^ 10 + 2 * Z.of_nat k <= Z.pos M < 2 ^ 53 ->
    exists (M' : positive) (a' : float),
      applySequence Gates.GATE_LIBRARY_core (hadamards (2 * k)) (onZero a)
        = (Ok tt, onZero a') /\
      Prim2SF a' = finite64 false M' (-53) /\
      Z.pos M - 2 * Z.of_nat k <= Z.pos M' <= Z.pos M - Z.of_nat k.
Proof.
  induction k as [|k IH]; intros M a Ha HM.
  - exists M, a. split; [reflexivity|]. split; [exact Ha|]. lia.
  - destruct (hadamard_pair M ltac:(lia)) as (M1 & HM1 & Hpair).
    destruct (Hpair a Ha) as (mid & a1 & E1 & E2 & Ha1).
    destruct (IH M1 a1 Ha1 ltac:(lia)) as (M' & a' & Erest & Ha' & HM').
    exists M', a'. split; [|split; [exact Ha'|lia]].
    replace (2 * S k)%nat with (S (S (2 * k))) by lia.
    unfold hadamards in *. cbn [repeat].
    unfold applySequence in *. cbn [forM_ bind Exec_Monad gate op_params op_qubits].
    fold hadamard. rewrite E1, E2. exact Erest.
Qed.

(** ** A sum of squares that is not within [1e-6] of 1 *)

Lemma Prim2SF_one : Prim2SF PrimFloat.one = finite64 false 4503599627370496 (-52).
Proof. vm_compute. reflexivity. Qed.

Lemma Prim2SF_tol6 : Prim2SF Float64.tol6 = finite64 false 4722366482869645 (-72).
Proof. vm_compute. reflexivity. Qed.

(** A double [N * 2^-53] at least [9007199255 * 2^-53 > 1e-6] below 1 fails
    the test [Math.abs(x - 1) < 1e-6]. *)
Lemma not_nearOne (x : float) (N : positive) :
  Prim2SF x = finite64 false N (-53) ->
  2 ^ 53 - 2 ^ 35 < Z.pos N <= 2 ^ 53 - 9007199255 ->
  nearOne x = false.
Proof.
  change (2 ^ 53) with 9007199254740992. change (2 ^ 35) with 34359738368.
  intros Hx HN.
  change (nearOne x)
    with (PrimFloat.ltb (PrimFloat.abs (PrimFloat.sub x PrimFloat.one)) Float64.tol6).
  rewrite ltb_spec, abs_spec, sub_spec, Hx, Prim2SF_one, Prim2SF_tol6.
  unfold SF64sub, SFsub, shl_align.
  change (Z.min (-53) (-52)) with (-53).
  change (-53 - -53) with 0. change (-53 - -52) with (Z.neg 1).
  cbn [fst cond_Zopp Pos.iter].
  set (D := (9007199254740992 - N)%positive).
  assert (HD : Z.pos D = 9007199254740992 - Z.pos N) by (unfold D; lia).
  clearbody D.
  replace (Z.pos N - Z.pos 9007199254740992) with (Z.neg D) by lia.
  unfold binary_normalize, binary_round, shl_align.
  destruct (Z.ltb_spec (Z.pos D) 17179869184) as [Hsmall|Hlarge].
  - assert (Hd : Z.pos (digits2_pos D) = 34)
      by (apply digits2_pos_eq; change (2 ^ (34 - 1)) with 8589934592;
          change (2 ^ 34) with 17179869184; lia).
    rewrite Hd. change (fexp prec emax (34 + -53) - -53) with (Z.neg 19).
    change (fexp prec emax (34 + -53)) with (-72). cbv beta iota zeta.
    pose proof (iter_xO_shift D 19) as Hm. change (2 ^ 19) with 524288 in Hm.
    set (m := Pos.iter xO D 19) in *. clearbody m.
    rewrite binary_round_aux_exact;
      [|apply digits2_pos_eq; change (2 ^ (53 - 1)) with 4503599627370496;
        change (2 ^ 53) with 9007199254740992; lia|lia].
    unfold SFltb, SFabs, SFcompare. change (-72 ?= -72) with Eq.
    rewrite Pos.compare_cont_spec.
    destruct (Pos.compare_spec m 4722366482869645) as [E|E|E];
      [reflexivity|exfalso; apply Pos2Z.pos_lt_pos in E; lia|reflexivity].
  - assert (Hd : Z.pos (digits2_pos D) = 35)
      by (apply digits2_pos_eq; change (2 ^ (35 - 1)) with 17179869184;
          change (2 ^ 35) with 34359738368; lia).
    rewrite Hd. change (fexp prec emax (35 + -53) - -53) with (Z.neg 18).
    change (fexp prec emax (35 + -53)) with (-71). cbv beta iota zeta.
    pose proof (iter_xO_shift D 18) as Hm. change (2 ^ 18) with 262144 in Hm.
    set (m := Pos.iter xO D 18) in *. clearbody m.
    rewrite binary_round_aux_exact;
      [|apply digits2_pos_eq; change (2 ^ (53 - 1)) with 4503599627370496;
        change (2 ^ 53) with 9007199254740992; lia|lia].
    reflexivity.
Qed.

Lemma sumOfSquares_onZero (a : float) :
  sumOfSquares (onZero a) =
    PrimFloat.add
      (PrimFloat.add PrimFloat.zero (PrimFloat.add (PrimFloat.mul a a) PrimFloat.zero))
      PrimFloat.zero.
Proof. vm_compute. reflexivity. Qed.

(** Once the amplitude has come down by [4.6 * 10^9] units in the last
    place, the sum of squares is further than [1e-6] from 1. *)
Lemma far_from_one (a : float) (M : positive) :
  Prim2SF a = finite64 false M (-53) ->
  2 ^ 53 - 10 ^ 10 <= Z.pos M <= 2 ^ 53 - 4600000000 ->
  nearOne (sumOfSquares (onZero a)) = false.
Proof.
  change (2 ^ 53) with 9007199254740992. change (10 ^ 10) with 10000000000.
  intros Ha HM.
  assert (Hlo : 9007189254740992 * 9007189254740992 <= Z.pos M * Z.pos M)
    by (apply Z.mul_le_mono_nonneg; lia).
  assert (Hhi : Z.pos M * Z.pos M <= 9007194654740992 * 9007194654740992)
    by (apply Z.mul_le_mono_nonneg; lia).
  destruct (mul_finite M M (-53) (-53) 53) as (N & HN & HNr & Hmul);
    [lia|change (2 ^ (52 + 53)) with 40564819207303340847894502572032;
         change (2 ^ (53 + 53)) with 81129638414606681695789005144064; lia|lia|].
  change (2 ^ 53) with 9007199254740992 in HN, HNr, Hmul.
  assert (HNlt : Z.pos N < 9007199254740992) by lia.
  pose proof (Hmul HNlt a a false false Ha Ha) as Hx. cbn [xorb] in Hx.
  change (-53 + -53 + 53) with (-53) in Hx.
  rewrite sumOfSquares_onZero.
  rewrite (add_zero_r _ false N (-53) Hx), (add_zero_l _ false N (-53) Hx),
    (add_zero_r _ false N (-53) Hx).
  apply (not_nearOne _ N Hx).
  change (2 ^ 53) with 9007199254740992. change (2 ^ 35) with 34359738368. lia.
Qed.

(** Every one of the Hadamard gates is a valid operation on one qubit. *)
Lemma hadamards_valid (j : nat) :
  Forall (validOperation Gates.GATE_LIBRARY_core 1) (hadamards j).
Proof.
  apply Forall_forall. intros op Hop. apply repeat_spec in Hop. subst op.
  eexists. vm_compute. reflexivity.
Qed.

(** ** A sum of squares that is within [1e-6] of 1 *)

(** A double [N * 2^-53] at most [9007199254 * 2^-53 < 1e-6] below 1 passes
    the test [Math.abs(x - 1) < 1e-6]. *)
Lemma nearOne_below (x : float) (N : positive) :
  Prim2SF x = finite64 false N (-53) ->
  2 ^ 53 - 9007199254 <= Z.pos N < 2 ^ 53 ->
  nearOne x = true.
Proof.
  change (2 ^ 53) with 9007199254740992.
  intros Hx HN.
  change (nearOne x)
    with (PrimFloat.ltb (PrimFloat.abs (PrimFloat.sub x PrimFloat.one)) Float64.tol6).
  rewrite ltb_spec, abs_spec, sub_spec, Hx, Prim2SF_one, Prim2SF_tol6.
  unfold SF64sub, SFsub, shl_align.
  change (Z.min (-53) (-52)) with (-53).
  change (-53 - -53) with 0. change (-53 - -52) with (Z.neg 1).
  cbn [fst cond_Zopp Pos.iter].
  set (D := (9007199254740992 - N)%positive).
  assert (HD : Z.pos D = 9007199254740992 - Z.pos N) by (unfold D; lia).
  clearbody D.
  replace (Z.pos N - Z.pos 9007199254740992) with (Z.neg D) by lia.
  unfold binary_normalize, binary_round, shl_align.
  pose proof (digits2_pos_bounds D) as [Dlo Dhi].
  set (d := digits2_pos D) in *.
  assert (Hd : Z.pos d <= 34).
  { destruct (Z.leb_spec (Z.pos d) 34) as [|Hgt]; [assumption|exfalso].
    assert (2 ^ 34 <= 2 ^ (Z.pos d - 1)) by (apply Z.pow_le_mono_r; lia).
    change (2 ^ 34) with 17179869184 in *. lia. }
  assert (Hf : fexp prec emax (Z.pos d + -53) = Z.pos d - 106)
    by (unfold fexp, SpecFloat.emin, prec, emax; lia).
  rewrite Hf.
  replace (Z.pos d - 106 - -53) with (Z.neg (53 - d)) by lia.
  cbv beta iota zeta.
  pose proof (iter_xO_shift D (53 - d)) as Hm.
  assert (Hlo : 2 ^ (Z.pos d - 1) * 2 ^ Z.pos (53 - d) = 2 ^ 52)
    by (rewrite <- Z.pow_add_r by lia; f_equal; lia).
  assert (Hhi : 2 ^ Z.pos d * 2 ^ Z.pos (53 - d) = 2 ^ 53)
    by (rewrite <- Z.pow_add_r by lia; f_equal; lia).
  assert (Hpos : 0 < 2 ^ Z.pos (53 - d)) by (apply Z.pow_pos_nonneg; lia).
  set (m := Pos.iter xO D (53 - d)) in *. clearbody m.
  assert (Hm52 : 2 ^ 52 <= Z.pos m < 2 ^ 53).
  { rewrite Hm, <- Hlo, <- Hhi. split.
    - apply Z.mul_le_mono_nonneg_r; lia.
    - apply Z.mul_lt_mono_pos_r; lia. }
  rewrite binary_round_aux_exact; [|apply digits2_pos_eq; exact Hm52|lia].
  unfold SFltb, SFabs, SFcompare.
  destruct (Z.compare_spec (Z.pos d - 106) (-72)) as [E|E|E];
    [|reflexivity|exfalso; lia].
  rewrite Pos.compare_cont_spec.
  assert (E34 : (53 - d = 19)%positive) by lia.
  rewrite E34 in Hm. change (2 ^ 19) with 524288 in Hm.
  destruct (Pos.compare_spec m 4722366482869645) as [E'|E'|E'];
    [exfalso|reflexivity|exfalso]; [|apply Pos2Z.pos_lt_pos in E']; lia.
Qed.

(** While the amplitude on [|0>] is within [4 * 10^9] units in the last
    place of 1, the sum of squares passes the test. *)
Lemma near_one_even (a : float) (M : positive) :
  Prim2SF a = finite64 false M (-53) ->
  2 ^ 53 - 4000000010 <= Z.pos M < 2 ^ 53 ->
  nearOne (sumOfSquares (onZero a)) = true.
Proof.
  change (2 ^ 53) with 9007199254740992.
  intros Ha HM.
  assert (Hlo : 9007195254740982 * 9007195254740982 <= Z.pos M * Z.pos M)
    by (apply Z.mul_le_mono_nonneg; lia).
  assert (Hhi : Z.pos M * Z.pos M <= 9007199254740991 * 9007199254740991)
    by (apply Z.mul_le_mono_nonneg; lia).
  destruct (mul_finite M M (-53) (-53) 53) as (N & HN & HNr & Hmul);
    [lia|change (2 ^ (52 + 53)) with 40564819207303340847894502572032;
         change (2 ^ (53 + 53)) with 81129638414606681695789005144064; lia|lia|].
  change (2 ^ 53) with 9007199254740992 in HN, HNr, Hmul.
  assert (HNlt : Z.pos N < 9007199254740992) by lia.
  pose proof (Hmul HNlt a a false false Ha Ha) as Hx. cbn [xorb] in Hx.
  change (-53 + -53 + 53) with (-53) in Hx.
  rewrite sumOfSquares_onZero.
  rewrite (add_zero_r _ false N (-53) Hx), (add_zero_l _ false N (-53) Hx),
    (add_zero_r _ false N (-53) Hx).
  apply (nearOne_below _ N Hx).
  change (2 ^ 53) with 9007199254740992. lia.
Qed.

(** The engine after an odd number of Hadamard gates: the same amplitude on
    [|0>] and on [|1>]. *)
Definition balanced (y : float) : Flat.QuantumSimulator :=
  Flat.mkSim 1 [y; PrimFloat.zero; y; PrimFloat.zero] None.

Lemma hadamard_once (a : float) (M : positive) :
  Prim2SF a = finite64 false M (-53) ->
  2 ^ 53 - 10 ^ 10 <= Z.pos M < 2 ^ 53 ->
  exists Y : positive,
    2 * Z.pos Y * 2 ^ 53 - 2 ^ 53 <= 2 * (Z.pos Hm * Z.pos M)
      <= 2 * Z.pos Y * 2 ^ 53 + 2 ^ 53 /\
    Prim2SF (PrimFloat.mul SQRT2_INV a) = finite64 false Y (-53) /\
    hadamard (onZero a) = (Ok tt, balanced (PrimFloat.mul SQRT2_INV a)).
Proof.
  change (2 ^ 53) with 9007199254740992. change (10 ^ 10) with 10000000000.
  intros Ha HM.
  destruct (mul_finite Hm M (-53) (-53) 53) as (Y & HY & HYr & HmulY);
    [lia|change (2 ^ (52 + 53)) with 40564819207303340847894502572032;
         change (2 ^ (53 + 53)) with 81129638414606681695789005144064;
         unfold Hm; lia|lia|].
  change (2 ^ 53) with 9007199254740992 in HY, HYr, HmulY.
  assert (HYlt : Z.pos Y < 9007199254740992) by (unfold Hm in HY; lia).
  pose proof (HmulY HYlt SQRT2_INV a false false Prim2SF_SQRT2_INV Ha) as Hy.
  exists Y. split; [exact HY|]. split; [exact Hy|].
  rewrite hadamard_onZero. cbv zeta.
  set (y := PrimFloat.mul SQRT2_INV a) in *.
  rewrite (mul_zero_l a false M (-53) Ha eq_refl).
  rewrite sub_zero, (add_zero_r y false Y (-53) Hy),
    (add_neg_zero_r y false Y (-53) Hy).
  reflexivity.
Qed.

Lemma sumOfSquares_balanced (y : float) :
  sumOfSquares (balanced y) =
    PrimFloat.add
      (PrimFloat.add PrimFloat.zero (PrimFloat.add (PrimFloat.mul y y) PrimFloat.zero))
      (PrimFloat.add (PrimFloat.mul y y) PrimFloat.zero).
Proof. vm_compute. reflexivity. Qed.

Lemma near_one_balanced (y : float) (Y : positive) :
  Prim2SF y = finite64 false Y (-53) ->
  Z.pos Hm - 2828427132 <= Z.pos Y <= Z.pos Hm ->
  nearOne (sumOfSquares (balanced y)) = true.
Proof.
  unfold Hm. intros Hy HY.
  assert (Hlo : 6369048844098640 * 6369048844098640 <= Z.pos Y * Z.pos Y)
    by (apply Z.mul_le_mono_nonneg; lia).
  assert (Hhi : Z.pos Y * Z.pos Y <= 6369051672525772 * 6369051672525772)
    by (apply Z.mul_le_mono_nonneg; lia).
  destruct (mul_finite Y Y (-53) (-53) 52) as (P & HP & HPr & Hmul);
    [lia|change (2 ^ (52 + 52)) with 20282409603651670423947251286016;
         change (2 ^ (53 + 52)) with 40564819207303340847894502572032; lia|lia|].
  change (2 ^ 53) with 9007199254740992 in HPr, Hmul.
  change (2 ^ 52) with 4503599627370496 in HP, HPr.
  assert (HPlt : Z.pos P < 9007199254740992) by lia.
  pose proof (Hmul HPlt y y false false Hy Hy) as Hw. cbn [xorb] in Hw.
  change (-53 + -53 + 52) with (-54) in Hw.
  rewrite sumOfSquares_balanced.
  rewrite (add_zero_r _ false P (-54) Hw), (add_zero_l _ false P (-54) Hw).
  apply (nearOne_below _ P).
  - change (-53) with (-54 + 1). apply add_self; [exact Hw| |lia].
    change (2 ^ 52) with 4503599627370496. change (2 ^ 53) with 9007199254740992. lia.
  - change (2 ^ 53) with 9007199254740992. lia.
Qed.

Lemma applySequence_app (ops ops' : list (GateOperation float))
      (s s' : Flat.QuantumSimulator) :
  applySequence Gates.GATE_LIBRARY_core ops s = (Ok tt, s') ->
  applySequence Gates.GATE_LIBRARY_core (ops ++ ops') s
  = applySequence Gates.GATE_LIBRARY_core ops' s'.
Proof.
  unfold applySequence. revert s. induction ops as [|op ops IH]; intros s.
  - cbn [forM_ ret Exec_Monad app]. now intros [= ->].
  - cbn [forM_ bind Exec_Monad app].
    destruct (Flat.apply Gates.GATE_LIBRARY_core (gate op) (op_params op) (op_qubits op) s)
      as [[[]|e] s1]; [apply IH|discriminate].
Qed.

Lemma first_pair :
  applySequence Gates.GATE_LIBRARY_core (hadamards 2) (onZero one)
  = (Ok tt, onZero (belowOne 2)).
Proof. vm_compute. reflexivity. Qed.

Lemma Prim2SF_first_pair : Prim2SF (belowOne 2) = finite64 false 9007199254740990 (-53).
Proof. vm_compute. reflexivity. Qed.

(** The amplitude after [2 + 2 * k] Hadamard gates on [|0>]: it is
    [M * 2^-53] with [M] between [2^53 - 2 - 2 * k] and [2^53 - 2 - k]. *)
Lemma hadamard_drift (k : nat) :
  Z.of_nat k <= 4999999999 ->
  exists (M : positive) (a : float),
    applySequence Gates.GATE_LIBRARY_core (hadamards (2 + 2 * k)) (onZero one)
      = (Ok tt, onZero a) /\
    Prim2SF a = finite64 false M (-53) /\
    2 ^ 53 - 2 - 2 * Z.of_nat k <= Z.pos M <= 2 ^ 53 - 2 - Z.of_nat k.
Proof.
  intros Hk.
  destruct (hadamard_pairs k 9007199254740990 (belowOne 2) Prim2SF_first_pair)
    as (M & a & Erun & Ha & HM).
  { change (2 ^ 53) with 9007199254740992. change (10 ^ 10) with 10000000000. lia. }
  exists M, a. split; [|split; [exact Ha|]].
  - unfold hadamards in *. rewrite repeat_app.
    rewrite (applySequence_app _ _ _ _ first_pair). exact Erun.
  - change (2 ^ 53) with 9007199254740992. lia.
Qed.

Lemma constructor_one : Flat.constructor (inr 1) = Ok (onZero one).
Proof. vm_compute. reflexivity. Qed.

Lemma first_gate :
  applySequence Gates.GATE_LIBRARY_core (hadamards 1) (onZero one)
  = (Ok tt, balanced SQRT2_INV).
Proof. vm_compute. reflexivity. Qed.

(** After each of the first [4 * 10^9] Hadamard gates the sum of squares is
    within [1e-6] of 1. *)
Lemma hadamards_near_one (j : nat) :
  Z.of_nat j <= 4000000000 ->
  exists norm : float,
    flatNormAfter Gates.GATE_LIBRARY_core 1 (hadamards j) = Ok norm /\
    nearOne norm = true.
Proof.
  intros Hj. unfold flatNormAfter. rewrite constructor_one. cbn [bind result_Monad].
  destruct (Nat.Even_or_Odd j) as [[m ->]|[m ->]]; destruct m as [|k].
  - exists (sumOfSquares (onZero one)). split; [reflexivity|vm_compute; reflexivity].
  - replace (2 * S k)%nat with (2 + 2 * k)%nat by lia.
    destruct (hadamard_drift k) as (M & a & Erun & Ha & HM); [lia|].
    rewrite Erun. exists (sumOfSquares (onZero a)). split; [reflexivity|].
    apply (near_one_even a M Ha).
    change (2 ^ 53) with 9007199254740992 in *. lia.
  - change (2 * 0 + 1)%nat with 1%nat. rewrite first_gate.
    exists (sumOfSquares (balanced SQRT2_INV)). split; [reflexivity|vm_compute; reflexivity].
  - replace (2 * S k + 1)%nat with ((2 + 2 * k) + 1)%nat by lia.
    destruct (hadamard_drift k) as (M & a & Erun & Ha & HM); [lia|].
    change (2 ^ 53) with 9007199254740992 in HM.
    destruct (hadamard_once a M Ha) as (Y & HY & Hy & E1).
    { change (2 ^ 53) with 9007199254740992. change (10 ^ 10) with 10000000000. lia. }
    change (2 ^ 53) with 9007199254740992 in HY.
    unfold hadamards in *. rewrite repeat_app.
    rewrite (applySequence_app _ _ _ _ Erun).
    unfold applySequence. cbn [repeat forM_ bind ret Exec_Monad gate op_params op_qubits].
    fold hadamard. rewrite E1.
    exists (sumOfSquares (balanced (PrimFloat.mul SQRT2_INV a))). split; [reflexivity|].
    apply (near_one_balanced _ Y Hy). unfold Hm in *. lia.
Qed.

(** From [9 200 000 002] to [10^10] Hadamard gates, an even number of them,
    the sum of squares is further than [1e-6] from 1. *)
Lemma hadamards_far_from_one (k : nat) :
  4600000000 <= Z.of_nat k <= 4999999999 ->
  exists norm : float,
    flatNormAfter Gates.GATE_LIBRARY_core 1 (hadamards (2 + 2 * k)) = Ok norm /\
    nearOne norm = false.
Proof.
  intros Hk. unfold flatNormAfter. rewrite constructor_one. cbn [bind result_Monad].
  destruct (hadamard_drift k) as (M & a & Erun & Ha & HM); [lia|].
  rewrite Erun. exists (sumOfSquares (onZero a)). split; [reflexivity|].
  apply (far_from_one a M Ha).
  change (2 ^ 53) with 9007199254740992 in *. change (10 ^ 10) with 10000000000. lia.
Qed.

(** The drift law on a fresh engine. *)
Lemma hadamards_drift (k : nat) :
  Z.of_nat k <= 4999999999 ->
  exists (M : positive) (a : float),
    flatStateAfter Gates.GATE_LIBRARY_core 1 (hadamards (2 + 2 * k))
      = Ok [a; PrimFloat.zero; PrimFloat.zero; PrimFloat.zero] /\
    Prim2SF a = finite64 false M (-53) /\
    2 ^ 53 - 2 - 2 * Z.of_nat k <= Z.pos M <= 2 ^ 53 - 2 - Z.of_nat k.
Proof.
  intros Hk. destruct (hadamard_drift k Hk) as (M & a & Erun & Ha & HM).
  exists M, a. split; [|split; assumption].
  unfold flatStateAfter. rewrite constructor_one. cbn [bind result_Monad].
  rewrite Erun. reflexivity.
Qed.

End Host.
End Drift.

(* ================================================================== *)
(** * The sum of squares along a circuit: exact arithmetic and binary64 *)
(* ================================================================== *)



